(** * gtk-gnutella: swarming file information (src/core/fileinfo.c)

    A shallow embedding of the chunk list, the allocator, the binary
    trailer codec and the SHA1 identity resolution of [fileinfo.c],
    followed by the properties established about them.

    Conventions.
    - [filesize_t], [uint32] and [uint8] values are integers of [Z]; every
      C operation that can wrap is written with [u64] / [u32].
    - A [GSList] of chunk pointers is a [list dl_file_chunk]; the pointer
      [fc->download] is an [option download_id] ([None] is [NULL]).
    - A failed [g_assert] or a [g_error] aborts the process: the functions
      that contain one return [option], with [None] for the abort. *)

From Stdlib Require Import ZArith Lia ZifyBool Bool List QArith Qabs.
From stdpp Require Import base option list gmap.
Import ListNotations.
Local Open Scope Z_scope.

(** ** Machine integers *)

Definition u64 (z : Z) : Z := z mod 2 ^ 64.
Definition u32 (z : Z) : Z := z mod 2 ^ 32.

Definition filesize_t := Z.
Definition is_u64 (z : Z) : Prop := 0 <= z < 2 ^ 64.
Definition is_u32 (z : Z) : Prop := 0 <= z < 2 ^ 32.

(** ** Data model *)

(** Modelled from the spec: the enumerators of [enum dl_chunk_status], which
    is declared in a header that is not among the sources; the spec lists
    them as [EMPTY | BUSY | DONE] and they are numbered in that order.  The
    status of a chunk is kept as the integer the C enum object holds, since
    the trailer decoder stores whatever 32-bit value it reads. *)
Definition DL_CHUNK_EMPTY : Z := 0.
Definition DL_CHUNK_BUSY : Z := 1.
Definition DL_CHUNK_DONE : Z := 2.

Definition download_id := nat.

(** [struct dl_file_chunk] *)
Record dl_file_chunk := mk_chunk {
  fc_from : filesize_t;              (* range offset start, byte included *)
  fc_to : filesize_t;                (* range offset end, byte EXCLUDED *)
  fc_download : option download_id;  (* download which reserved the range *)
  fc_status : Z                      (* status of range *)
}.

Definition fc_set_to (fc : dl_file_chunk) (t : filesize_t) : dl_file_chunk :=
  mk_chunk (fc_from fc) t (fc_download fc) (fc_status fc).
Definition fc_set_from (fc : dl_file_chunk) (f : filesize_t) : dl_file_chunk :=
  mk_chunk f (fc_to fc) (fc_download fc) (fc_status fc).
Definition fc_set_owner (fc : dl_file_chunk) (st : Z) (d : option download_id)
  : dl_file_chunk :=
  mk_chunk (fc_from fc) (fc_to fc) d st.

(** The part of [fileinfo_t] that the modelled functions read or write. *)
Record fileinfo := mk_fileinfo {
  fi_pathname : list Z;
  fi_size : filesize_t;
  fi_done : filesize_t;
  fi_file_size_known : bool;
  fi_use_swarming : bool;
  fi_transient : bool;               (* FI_F_TRANSIENT in fi->flags *)
  fi_refcount : Z;
  fi_lifecount : Z;
  fi_generation : Z;
  fi_created : Z;
  fi_ntime : Z;
  fi_guid : option (list Z);
  fi_tth : option (list Z);
  fi_tigertree : list (list Z);      (* tigertree.leaves, [] when NULL *)
  fi_sha1 : option (list Z);
  fi_cha1 : option (list Z);
  fi_alias : list (list Z);
  fi_chunklist : list dl_file_chunk
}.

Definition fi_set_chunks (fi : fileinfo) (l : list dl_file_chunk) (done : Z)
  : fileinfo :=
  mk_fileinfo (fi_pathname fi) (fi_size fi) done (fi_file_size_known fi)
    (fi_use_swarming fi) (fi_transient fi) (fi_refcount fi) (fi_lifecount fi)
    (fi_generation fi) (fi_created fi) (fi_ntime fi) (fi_guid fi) (fi_tth fi)
    (fi_tigertree fi) (fi_sha1 fi) (fi_cha1 fi) (fi_alias fi) l.

(** ** Chunk list *)

(** [file_info_check_chunklist(fi, FALSE)]: the loop, with [last] the end of
    the previous chunk. *)
Fixpoint check_chunks (known : bool) (size last : filesize_t)
    (l : list dl_file_chunk) : bool :=
  match l with
  | [] => true
  | fc :: sl =>
      if negb (last =? fc_from fc) || (fc_to fc <=? fc_from fc) then false
      else if negb known || (size =? 0) then
        check_chunks known size (fc_to fc) sl
      else if (size <=? fc_from fc) || (size <? fc_to fc) then false
      else check_chunks known size (fc_to fc) sl
  end.

(** [file_info_check_chunklist]: when used in an assertion the check only
    runs if the [fileinfo_debug] property is set. *)
Definition file_info_check_chunklist (fileinfo_debug : bool) (fi : fileinfo)
    (assertion : bool) : bool :=
  if assertion && negb fileinfo_debug then true
  else check_chunks (fi_file_size_known fi) (fi_size fi) 0 (fi_chunklist fi).

(** One visit of the loop of [file_info_merge_adjacent] to the chunk [fc2]:
    a DONE chunk loses its owner. *)
Definition merge_visit (fc2 : dl_file_chunk) : dl_file_chunk :=
  if fc_status fc2 =? DL_CHUNK_DONE
  then mk_chunk (fc_from fc2) (fc_to fc2) None (fc_status fc2)
  else fc2.

Definition merge_done (done : filesize_t) (fc2 : dl_file_chunk) : filesize_t :=
  if fc_status fc2 =? DL_CHUNK_DONE
  then u64 (done + u64 (fc_to fc2 - fc_from fc2))
  else done.

(** The loop of [file_info_merge_adjacent] once a previous chunk [fc1]
    exists; [sl] is the rest of the list.  Returns the list from [fc1] on
    and the byte count. *)
Fixpoint merge_loop (fc1 : dl_file_chunk) (sl : list dl_file_chunk)
    (done : filesize_t) : list dl_file_chunk * filesize_t :=
  match sl with
  | [] => ([fc1], done)
  | fc2 :: next =>
      let done' := merge_done done fc2 in
      let fc2' := merge_visit fc2 in
      if (fc_status fc1 =? fc_status fc2')
         && negb (fc_status fc2' =? DL_CHUNK_BUSY)
      then merge_loop (fc_set_to fc1 (fc_to fc2')) next done'
      else let '(l, d) := merge_loop fc2' next done' in (fc1 :: l, d)
  end.

Definition merge_chunks (l : list dl_file_chunk)
    : list dl_file_chunk * filesize_t :=
  match l with
  | [] => ([], 0)
  | fc :: sl => merge_loop (merge_visit fc) sl (merge_done 0 fc)
  end.

(** [file_info_merge_adjacent]: [fi->done] is only written when the chunk
    list is not empty. *)
Definition file_info_merge_adjacent (fi : fileinfo) : fileinfo :=
  match fi_chunklist fi with
  | [] => fi
  | _ => let '(l, d) := merge_chunks (fi_chunklist fi) in fi_set_chunks fi l d
  end.

(** The state of one pass of the loop of [file_info_update] when it is left:
    either by [break] or at the end of the list ([ScanStop], with the value of
    [found]), or by [goto again] ([ScanAgain]).  Both carry the chunk list and
    the current values of [from], [fi->done] and [need_merging]. *)
Inductive scan_result :=
| ScanStop (l : list dl_file_chunk) (found : bool)
    (from done : filesize_t) (need_merging : bool)
| ScanAgain (l : list dl_file_chunk)
    (from done : filesize_t) (need_merging : bool).

Definition with_prev (prevfc : option dl_file_chunk) (l : list dl_file_chunk)
    : list dl_file_chunk :=
  match prevfc with Some p => p :: l | None => l end.

Definition scan_prepend (prevfc : option dl_file_chunk) (r : scan_result)
    : scan_result :=
  match r with
  | ScanStop l found from done nm => ScanStop (with_prev prevfc l) found from done nm
  | ScanAgain l from done nm => ScanAgain (with_prev prevfc l) from done nm
  end.

(** [prevfc && prevfc->status == status] *)
Definition prev_has_status (prevfc : option dl_file_chunk) (status : Z) : bool :=
  match prevfc with Some p => fc_status p =? status | None => false end.

(** [if (DL_CHUNK_DONE == status) fi->done += n] *)
Definition add_done (status : Z) (done n : filesize_t) : filesize_t :=
  if status =? DL_CHUNK_DONE then u64 (done + n) else done.

(** One pass of the [for] loop of [file_info_update] over the chunks [sl],
    [prevfc] being the chunk before them.  The list returned stands for
    [prevfc] followed by [sl], as the pass leaves them. *)
Fixpoint update_scan (to status : Z) (newval : option download_id)
    (prevfc : option dl_file_chunk) (sl : list dl_file_chunk)
    (from done : filesize_t) (need_merging : bool) : scan_result :=
  match sl with
  | [] => ScanStop (with_prev prevfc []) false from done need_merging
  | fc :: next =>
      if fc_to fc <=? from then
        scan_prepend prevfc
          (update_scan to status newval (Some fc) next from done need_merging)
      else if to <=? fc_from fc then
        ScanStop (with_prev prevfc sl) false from done need_merging
      else if (fc_from fc =? from) && (fc_to fc =? to) then
        let nm := if prev_has_status prevfc status then true
                  else if fc_status fc =? DL_CHUNK_DONE then true
                  else need_merging in
        ScanStop (with_prev prevfc (fc_set_owner fc status newval :: next))
          true from (add_done status done (u64 (to - from))) nm
      else if (fc_from fc =? from) && (fc_to fc <? to) then
        let nm := if prev_has_status prevfc status then true
                  else if fc_status fc =? DL_CHUNK_DONE then true
                  else need_merging in
        scan_prepend prevfc
          (update_scan to status newval (Some (fc_set_owner fc status newval))
             next (fc_to fc) (add_done status done (u64 (fc_to fc - from))) nm)
      else if (fc_from fc =? from) && (to <? fc_to fc) then
        let nm := if fc_status fc =? DL_CHUNK_DONE then true else need_merging in
        let done' := add_done status done (u64 (to - from)) in
        match prevfc with
        | Some p =>
            if (status =? DL_CHUNK_DONE) && (fc_status p =? status) then
              ScanStop (fc_set_to p to :: fc_set_from fc to :: next)
                true from done' nm
            else
              ScanStop
                (p :: mk_chunk (fc_from fc) to newval status
                   :: mk_chunk to (fc_to fc) (fc_download fc) (fc_status fc)
                   :: next)
                true from done' nm
        | None =>
            ScanStop
              (mk_chunk (fc_from fc) to newval status
                 :: mk_chunk to (fc_to fc) (fc_download fc) (fc_status fc)
                 :: next)
              true from done' nm
        end
      else if (fc_from fc <? from) && (to <=? fc_to fc) then
        let nm := if fc_status fc =? DL_CHUNK_DONE then true else need_merging in
        let done' := add_done status done (u64 (to - from)) in
        let upper :=
          if to <? fc_to fc then
            if fc_status fc =? DL_CHUNK_BUSY
            then [mk_chunk to (fc_to fc) None DL_CHUNK_EMPTY]
            else [mk_chunk to (fc_to fc) (fc_download fc) (fc_status fc)]
          else [] in
        ScanStop
          (with_prev prevfc
             (fc_set_to fc from :: mk_chunk from to newval status
                :: upper ++ next))
          true from done' nm
      else if (fc_from fc <? from) && (fc_to fc <? to) then
        let nm := if fc_status fc =? DL_CHUNK_DONE then true else need_merging in
        ScanAgain
          (with_prev prevfc
             (fc_set_to fc from :: mk_chunk from (fc_to fc) newval status
                :: next))
          (fc_to fc) (add_done status done (u64 (fc_to fc - from))) nm
      else
        scan_prepend prevfc
          (update_scan to status newval (Some fc) next from done need_merging)
  end.

(** The passes of [file_info_update] from the label [again]: [againcount]
    passes are left before the function gives up with [g_error]. *)
Fixpoint update_again (againcount : nat) (to status : Z)
    (newval : option download_id) (l : list dl_file_chunk)
    (from done : filesize_t) (need_merging : bool)
    : option (list dl_file_chunk * bool * filesize_t * bool) :=
  match againcount with
  | O => None
  | S n =>
      match update_scan to status newval None l from done need_merging with
      | ScanStop l' found _ done' nm => Some (l', found, done', nm)
      | ScanAgain l' from' done' nm =>
          update_again n to status newval l' from' done' nm
      end
  end.

(** [file_info_update(d, from, to, status)] on the file information [fi] of
    [d].  The time stamps, the [dirty] flag and the flush of the trailer to
    disk at the end of the function are not part of the model. *)
Definition file_info_update (fi : fileinfo) (d : download_id)
    (from to : filesize_t) (status : Z) : option fileinfo :=
  if negb (0 <? fi_refcount fi) then None
  else if negb (from <? to) then None
  else
    let sw :=
      if status =? DL_CHUNK_DONE then Some (false, Some d)
      else if status =? DL_CHUNK_BUSY then
        if 0 <? fi_lifecount fi then Some (true, Some d) else None
      else if status =? DL_CHUNK_EMPTY then Some (true, None)
      else None in
    match sw with
    | None => None
    | Some (need_merging, newval) =>
        if negb (fi_file_size_known fi) then
          match fi_chunklist fi with
          | _ :: _ => None
          | [] =>
              if fi_use_swarming fi then None
              else if status =? DL_CHUNK_DONE then
                if from =? fi_done fi
                then Some (fi_set_chunks fi []
                             (u64 (fi_done fi + u64 (to - from))))
                else None
              else Some fi
          end
        else
          match update_again 10 to status newval (fi_chunklist fi)
                  from (fi_done fi) need_merging with
          | None => None
          | Some (l, _, done, nm) =>
              let fi' := fi_set_chunks fi l done in
              Some (if nm then file_info_merge_adjacent fi' else fi')
          end
    end.

(** [file_info_clear_download(d, lifecount)]: only the effect on the chunk
    list; the counters [busy] and [pipelined] serve an assertion. *)
Definition clear_chunk (d : download_id) (fc : dl_file_chunk) : dl_file_chunk :=
  if decide (fc_download fc = Some d) then
    mk_chunk (fc_from fc) (fc_to fc) None
      (if fc_status fc =? DL_CHUNK_BUSY then DL_CHUNK_EMPTY else fc_status fc)
  else fc.

Definition file_info_clear_download (fi : fileinfo) (d : download_id) : fileinfo :=
  file_info_merge_adjacent
    (fi_set_chunks fi (map (clear_chunk d) (fi_chunklist fi)) (fi_done fi)).

(** ** Sources and configuration *)

(** Modelled from the spec: what [fileinfo.c] reads of a [struct download]
    through the accessors of the download layer ([download_speed_avg],
    [download_pipelining], [download_ranges], [download_ranges_size],
    [DOWNLOAD_IS_RUNNING]), none of which is among the sources.  The spec's
    Source "carries a liveness flag, an observed throughput estimate, and
    the set of byte ranges the peer is known to hold". *)
Record download := mk_download {
  d_file_size : filesize_t;
  d_served_reqs : Z;
  d_speed_avg : Z;                  (* uint *)
  d_pipelining : bool;
  d_running : bool;
  d_ranges : list (filesize_t * filesize_t);   (* http_range_t: start, end *)
  d_ranges_size : filesize_t
}.

(** The GNET properties read by the allocator, and the constant
    [FI_LOW_SRC_COUNT] whose definition is not among the sources. *)
Record gnet_property := mk_props {
  dl_minchunksize : Z;
  dl_maxchunksize : Z;
  dl_pipeline_maxchunksize : Z;
  enable_http_pipelining : bool;
  pfsp_server : bool;
  pfsp_first_chunk : Z;
  pfsp_last_chunk : Z;
  pfsp_minimum_filesize : Z;
  use_aggressive_swarming : bool;
  FI_LOW_SRC_COUNT : Z
}.

Definition FI_MIN_CHUNK_SPLIT : Z := 512.

(** The arithmetic on [double] used by [fi_missing_coverage] and
    [fi_find_aggressive_candidate], as an interface: conversion of a file
    size, division, the constant 1.0, the comparisons [<] and [>=], and the
    test [fabs(a - b) < 1e-56]. *)
Class DoubleOps := {
  double : Type;
  dbl_of_size : Z -> double;
  dbl_div : double -> double -> double;
  dbl_one : double;
  dbl_gt : double -> double -> bool;
  dbl_ge : double -> double -> bool;
  dbl_close : double -> double -> bool
}.

(** 32-bit [int] value of an integer expression. *)
Definition s32 (z : Z) : Z := (z + 2 ^ 31) mod 2 ^ 32 - 2 ^ 31.

(** ** Reset *)

(** First chunk of the list reserved by a running download, as found by the
    first loop of [file_info_reset]. *)
Fixpoint first_running (dls : download_id -> download)
    (l : list dl_file_chunk) : option download_id :=
  match l with
  | [] => None
  | fc :: sl =>
      match fc_download fc with
      | Some d => if d_running (dls d) then Some d else first_running dls sl
      | None => first_running dls sl
      end
  end.

(** The [restart] loop of [file_info_reset]: a running owner is requeued,
    which calls [file_info_clear_download] on it, and the scan restarts.
    [fuel] bounds the number of restarts. *)
Fixpoint reset_requeue (fuel : nat) (dls : download_id -> download)
    (fi : fileinfo) : option fileinfo :=
  match first_running dls (fi_chunklist fi) with
  | None => Some fi
  | Some d =>
      match fuel with
      | O => None
      | S n => reset_requeue n dls (file_info_clear_download fi d)
      end
  end.

(** Second loop of [file_info_reset]: [g_assert(NULL == fc->download)] and
    the chunk becomes EMPTY. *)
Fixpoint reset_chunks (l : list dl_file_chunk) : option (list dl_file_chunk) :=
  match l with
  | [] => Some []
  | fc :: sl =>
      match fc_download fc with
      | Some _ => None
      | None =>
          match reset_chunks sl with
          | Some sl' =>
              Some (mk_chunk (fc_from fc) (fc_to fc) None DL_CHUNK_EMPTY :: sl')
          | None => None
          end
      end
  end.

(** [file_info_reset]: the computed SHA1 is dropped, every chunk becomes
    EMPTY and the list is merged. *)
Definition file_info_reset (dls : download_id -> download) (fi : fileinfo)
    : option fileinfo :=
  match reset_requeue (S (length (fi_chunklist fi))) dls fi with
  | None => None
  | Some fi1 =>
      match reset_chunks (fi_chunklist fi1) with
      | None => None
      | Some l =>
          let fi2 :=
            mk_fileinfo (fi_pathname fi1) (fi_size fi1) (fi_done fi1)
              (fi_file_size_known fi1) (fi_use_swarming fi1) (fi_transient fi1)
              (fi_refcount fi1) (fi_lifecount fi1) (fi_generation fi1)
              (fi_created fi1) (fi_ntime fi1) (fi_guid fi1) (fi_tth fi1)
              (fi_tigertree fi1) (fi_sha1 fi1) None (fi_alias fi1) l in
          Some (file_info_merge_adjacent fi2)
      end
  end.

(** [fi_check_file]: [missing] tells whether [stat] reports the file as
    gone. *)
Definition fi_check_file (dls : download_id -> download) (missing : bool)
    (fi : fileinfo) : option fileinfo :=
  if fi_done fi =? 0 then None
  else if negb (fi_transient fi) && missing then file_info_reset dls fi
  else Some fi.

Definition sample_fi (size : Z) (l : list dl_file_chunk) (done : Z) : fileinfo :=
  mk_fileinfo [] size done true true false 1 1 0 0 0 None None [] None None [] l.

(** ** Allocator *)

Section Allocator.

Context {D : DoubleOps}.
Variable P : gnet_property.
Variable dls : download_id -> download.

(** Modelled from the spec: [fi_alive_count], defined in a header that is
    not among the sources: the "number of alive sources", which the spec's
    FileRecord keeps as its live count. *)
Definition fi_alive_count (fi : fileinfo) : Z := fi_lifecount fi.

(** [fi_busy_count]: amount of BUSY chunks attached to [d]; [None] when the
    closing assertion on [fi->lifecount] fails. *)
Fixpoint busy_chunks_of (d : download_id) (l : list dl_file_chunk) : Z :=
  match l with
  | [] => 0
  | fc :: sl =>
      (if bool_decide (fc_download fc = Some d)
          && (fc_status fc =? DL_CHUNK_BUSY) then 1 else 0)
      + busy_chunks_of d sl
  end.

Definition fi_busy_count (fi : fileinfo) (d : download_id) : option Z :=
  let count := busy_chunks_of d (fi_chunklist fi) in
  let pipelined := if d_pipelining (dls d) then count else 0 in
  if count - pipelined <=? fi_lifecount fi then Some count else None.

(** The two cloning loops of [list_clone_shift]. *)
Fixpoint clone_first_pass (offset : filesize_t) (l : list dl_file_chunk)
    : option (list dl_file_chunk) :=
  match l with
  | [] => None
  | fc :: sl =>
      if offset <=? fc_from fc then Some l
      else if (fc_status fc =? DL_CHUNK_EMPTY) && (offset <? u64 (fc_to fc - 1))
      then None
      else clone_first_pass offset sl
  end.

(** Splitting loop of [list_clone_shift]: [Some (Some (l', cloned))] when a
    free chunk was split at [offset], [Some None] when none was found and
    [None] when an assertion fails. *)
Fixpoint clone_split (offset : filesize_t) (l : list dl_file_chunk)
    : option (option (list dl_file_chunk * list dl_file_chunk)) :=
  match l with
  | [] => Some None
  | fc :: sl =>
      if (fc_status fc =? DL_CHUNK_EMPTY) && (offset <? u64 (fc_to fc - 1)) then
        if (fc_from fc <? offset) && bool_decide (fc_download fc = None) then
          let nfc := mk_chunk offset (fc_to fc) None DL_CHUNK_EMPTY in
          Some (Some (fc_set_to fc offset :: nfc :: sl, nfc :: sl))
        else None
      else
        match clone_split offset sl with
        | Some (Some (l', cloned)) => Some (Some (fc :: l', cloned))
        | Some None => Some None
        | None => None
        end
  end.

(** Second pass of [list_clone_shift]: the chunks that end before the
    cloning point. *)
Fixpoint clone_wrap (offset : filesize_t) (l : list dl_file_chunk)
    : option (list dl_file_chunk) :=
  match l with
  | [] => Some []
  | fc :: sl =>
      if offset <? fc_to fc then Some []
      else if fc_from fc <? offset then
        match clone_wrap offset sl with
        | Some w => Some (fc :: w)
        | None => None
        end
      else None
  end.

(** Scan of [list_clone_shift] for the first gap within the last
    [pfsp_last_chunk] bytes. *)
Fixpoint last_chunk_gap (last_chunk_offset : filesize_t)
    (l : list dl_file_chunk) : filesize_t :=
  match l with
  | [] => 0
  | fc :: sl =>
      if fc_status fc =? DL_CHUNK_DONE then last_chunk_gap last_chunk_offset sl
      else if (fc_from fc <? last_chunk_offset)
              && (fc_to fc <=? last_chunk_offset)
      then last_chunk_gap last_chunk_offset sl
      else if fc_from fc <? last_chunk_offset then last_chunk_offset
      else fc_from fc
  end.

(** [list_clone_shift(fi)], [rnd] being the value drawn by
    [get_random_file_offset(fi->size)].  Returns the file information (a free
    chunk may have been split) and the list to scan. *)
Definition list_clone_shift (rnd : filesize_t) (fi : fileinfo)
    : option (fileinfo * list dl_file_chunk) :=
  let original := Some (fi, fi_chunklist fi) in
  let first_ok :=
    if 0 <? pfsp_first_chunk P then
      match fi_chunklist fi with
      | [] => None
      | fc :: _ =>
          Some (negb (negb (fc_status fc =? DL_CHUNK_DONE)
                      || (fc_to fc <? pfsp_first_chunk P)))
      end
    else Some true in
  match first_ok with
  | None => None
  | Some false => original
  | Some true =>
      let offset0 :=
        if 0 <? pfsp_last_chunk P then
          last_chunk_gap
            (if pfsp_last_chunk P <? fi_size fi
             then u64 (fi_size fi - pfsp_last_chunk P) else 0)
            (fi_chunklist fi)
        else 0 in
      let offset :=
        if offset0 =? 0 then Z.land rnd (u64 (Z.lnot (128 * 1024 - 1)))
        else offset0 in
      let cloned :=
        match clone_first_pass offset (fi_chunklist fi) with
        | Some c => Some (Some (fi_chunklist fi, c))
        | None => clone_split offset (fi_chunklist fi)
        end in
      match cloned with
      | None => None
      | Some None => original
      | Some (Some (l, [])) => None
      | Some (Some (l, fc :: c)) =>
          match clone_wrap (fc_from fc) l with
          | Some w => Some (fi_set_chunks fi l (fi_done fi), (fc :: c) ++ w)
          | None => None
          end
      end
  end.

(** [fi_chunksize] *)
Definition fi_chunksize (fi : fileinfo) : filesize_t :=
  let src_count := Z.max 1 (fi_alive_count fi) in
  let chunksize := u64 (fi_size fi - fi_done fi) / src_count in
  let chunksize :=
    if chunksize <? dl_minchunksize P then dl_minchunksize P else chunksize in
  let max := if enable_http_pipelining P then dl_pipeline_maxchunksize P
             else dl_maxchunksize P in
  Z.min chunksize max.

(** Inner loop of [fi_missing_coverage] over the sorted ranges of the source,
    for the free chunk [fc]. *)
Fixpoint covered_by (fc : dl_file_chunk)
    (ranges : list (filesize_t * filesize_t)) (covered : filesize_t)
    : filesize_t :=
  match ranges with
  | [] => covered
  | (r_start, r_end) :: sl =>
      if fc_to fc <? r_start then covered
      else if (fc_from fc <=? r_start) && (r_start <? fc_to fc) then
        covered_by fc sl
          (u64 (covered + u64 (Z.min (u64 (r_end + 1)) (fc_to fc) - r_start)))
      else if (fc_from fc <=? r_end) && (r_end <? fc_to fc) then
        covered_by fc sl
          (u64 (covered + u64 (u64 (r_end + 1) - Z.max r_start (fc_from fc))))
      else covered_by fc sl covered
  end.

Fixpoint missing_covered (ranges : list (filesize_t * filesize_t))
    (l : list dl_file_chunk) (missing covered : filesize_t)
    : filesize_t * filesize_t :=
  match l with
  | [] => (missing, covered)
  | fc :: sl =>
      if negb (fc_status fc =? DL_CHUNK_EMPTY)
      then missing_covered ranges sl missing covered
      else missing_covered ranges sl
             (u64 (missing + u64 (fc_to fc - fc_from fc)))
             (covered_by fc ranges covered)
  end.

(** [fi_missing_coverage(d)] *)
Definition fi_missing_coverage (fi : fileinfo) (d : download_id)
    : option double :=
  if negb (0 <? fi_lifecount fi) then None
  else
    match d_ranges (dls d) with
    | [] =>
        let available := d_ranges_size (dls d) in
        Some (if available =? 0 then dbl_one
              else dbl_div (dbl_of_size available) (dbl_of_size (fi_size fi)))
    | ranges =>
        let '(missing_size, covered_size) :=
          missing_covered ranges (fi_chunklist fi) 0 0 in
        if negb (covered_size <=? missing_size) then None
        else if missing_size =? 0 then Some dbl_one
        else Some (dbl_div (dbl_of_size covered_size)
                     (dbl_of_size missing_size))
    end.

Definition chunk_len (fc : dl_file_chunk) : filesize_t :=
  u64 (fc_to fc - fc_from fc).

(** [fi_find_largest]: the loop, [largest] being the candidate so far. *)
Fixpoint find_largest (d : download_id) (l : list dl_file_chunk)
    (largest : option dl_file_chunk) : option dl_file_chunk :=
  match l with
  | [] => largest
  | fc :: sl =>
      if negb (fc_status fc =? DL_CHUNK_BUSY) then find_largest d sl largest
      else if bool_decide (fc_download fc = Some d)
      then find_largest d sl largest
      else
        match largest with
        | None => find_largest d sl (Some fc)
        | Some lg =>
            if chunk_len lg <? chunk_len fc
            then find_largest d sl (Some fc)
            else find_largest d sl largest
        end
  end.

Definition fi_find_largest (fi : fileinfo) (d : download_id)
    : option dl_file_chunk :=
  find_largest d (fi_chunklist fi) None.

(** [download_speed_avg(fc->download)]; there is no value when the pointer
    is NULL. *)
Definition owner_speed_avg (fc : dl_file_chunk) : option Z :=
  match fc_download fc with
  | Some o => Some (d_speed_avg (dls o))
  | None => None
  end.

(** [fi_find_slowest]: the loop; [None] when a BUSY chunk has no owner. *)
Fixpoint find_slowest (d : download_id) (l : list dl_file_chunk)
    (slowest : option dl_file_chunk) (slowest_speed_avg : Z)
    : option (option dl_file_chunk) :=
  match l with
  | [] => Some slowest
  | fc :: sl =>
      if negb (fc_status fc =? DL_CHUNK_BUSY)
      then find_slowest d sl slowest slowest_speed_avg
      else if bool_decide (fc_download fc = Some d)
      then find_slowest d sl slowest slowest_speed_avg
      else
        match owner_speed_avg fc with
        | None => None
        | Some speed_avg =>
            let take :=
              match slowest with
              | None => true
              | Some sw =>
                  (speed_avg <? slowest_speed_avg)
                  || ((speed_avg =? slowest_speed_avg)
                      && (chunk_len sw <? chunk_len fc))
              end in
            if take then find_slowest d sl (Some fc) speed_avg
            else find_slowest d sl slowest slowest_speed_avg
        end
  end.

Definition fi_find_slowest (fi : fileinfo) (d : download_id)
    : option (option dl_file_chunk) :=
  find_slowest d (fi_chunklist fi) None (2 ^ 32 - 1).

(** First decision of [fi_find_aggressive_candidate], against the owner of
    the largest chunk [fc]: the value of [can_be_aggressive]. *)
Definition aggressive_vs_largest (fi : fileinfo) (d : download_id)
    (missing_coverage : double) (fc : dl_file_chunk) : option bool :=
  match fc_download fc with
  | None => None
  | Some o =>
      match fi_missing_coverage fi o with
      | None => None
      | Some longest_missing_coverage =>
          Some ((d_speed_avg (dls o) =? 0)
                || dbl_gt missing_coverage longest_missing_coverage
                || (dbl_close longest_missing_coverage missing_coverage
                    && (d_speed_avg (dls o) <? d_speed_avg (dls d))))
      end
  end.

(** Second decision, against the owner of the slowest chunk [fc]. *)
Definition aggressive_vs_slowest (fi : fileinfo) (d : download_id)
    (missing_coverage : double) (fc : dl_file_chunk) : option bool :=
  match fc_download fc with
  | None => None
  | Some o =>
      match fi_missing_coverage fi o with
      | None => None
      | Some slowest_missing_coverage =>
          Some (dbl_ge missing_coverage slowest_missing_coverage
                && (d_speed_avg (dls o) <? d_speed_avg (dls d)))
      end
  end.

(** The range taken from the chosen chunk [fc]. *)
Definition aggressive_range (d : download_id) (fc : dl_file_chunk)
    : option (option (filesize_t * filesize_t * dl_file_chunk)) :=
  if bool_decide (fc_download fc = None)
     || bool_decide (fc_download fc = Some d) then None
  else if 2 * FI_MIN_CHUNK_SPLIT <=? chunk_len fc then
    Some (Some (u64 (u64 (fc_from fc + fc_to fc) - 1) / 2, fc_to fc, fc))
  else Some (Some (fc_from fc, fc_to fc, fc)).

(** Second half of [fi_find_aggressive_candidate]: the slowest chunk is
    tried when the largest one did not make us aggressive. *)
Definition aggressive_fallback (fi : fileinfo) (d : download_id)
    (missing_coverage : double)
    : option (option (filesize_t * filesize_t * dl_file_chunk)) :=
  match fi_find_slowest fi d with
  | None => None
  | Some None => Some None
  | Some (Some fc) =>
      match aggressive_vs_slowest fi d missing_coverage fc with
      | None => None
      | Some true => aggressive_range d fc
      | Some false => Some None
      end
  end.

(** [fi_find_aggressive_candidate(d, busy, &from, &to, &chunk)]: [None] for
    an abort, [Some None] for FALSE and [Some (Some (from, to, chunk))] for
    TRUE. *)
Definition fi_find_aggressive_candidate (fi : fileinfo) (d : download_id)
    (busy : Z) : option (option (filesize_t * filesize_t * dl_file_chunk)) :=
  let starving := s32 (fi_lifecount fi - busy) in
  let divisor := u64 (s32 (2 * starving)) in
  if divisor =? 0 then None
  else
    let minchunk := u64 (fi_size fi - fi_done fi) / divisor in
    let minchunk := Z.min minchunk (dl_minchunksize P) in
    let minchunk := Z.max minchunk FI_MIN_CHUNK_SPLIT in
    let largest :=
      match fi_find_largest fi d with
      | Some fc => if chunk_len fc <? minchunk then None else Some fc
      | None => None
      end in
    match fi_missing_coverage fi d with
    | None => None
    | Some missing_coverage =>
        match largest with
        | Some fc =>
            match aggressive_vs_largest fi d missing_coverage fc with
            | None => None
            | Some true => aggressive_range d fc
            | Some false => aggressive_fallback fi d missing_coverage
            end
        | None => aggressive_fallback fi d missing_coverage
        end
    end.

(** [file_info_reserve(d, from, to, chunk)].  The bookkeeping that only runs
    when [fileinfo_debug > 2] is left out. *)
Definition file_info_reserve (fi : fileinfo) (d : download_id)
    (from to : filesize_t) (chunk : option dl_file_chunk) : option fileinfo :=
  if negb (from <=? to) then None
  else
    let ok :=
      match chunk with
      | None => true
      | Some c =>
          (fc_from c <=? from) && (to <=? fc_to c)
          && negb (bool_decide (fc_download c = None))
          && negb (bool_decide (fc_download c = Some d))
          && (fc_status c =? DL_CHUNK_BUSY)
      end in
    if ok then file_info_update fi d from to DL_CHUNK_BUSY else None.

(** The state on which [file_info_find_hole] selects a range: when some
    bytes are done the presence of the file is checked first, and the file
    information is reset if the file is gone. *)
Definition find_hole_state (missing : bool) (fi : fileinfo) : option fileinfo :=
  if negb (fi_done fi =? 0) then fi_check_file dls missing fi else Some fi.

(** The scanning loop of [file_info_find_hole] over [cklist]: the first
    EMPTY chunk ([inl]), or the count of BUSY chunks of other, pipelining
    downloads when there is none ([inr]). *)
Fixpoint scan_holes (d : download_id) (cklist : list dl_file_chunk)
    (pipelined : Z) : option (dl_file_chunk + Z) :=
  match cklist with
  | [] => Some (inr pipelined)
  | fc :: sl =>
      if negb (fc_status fc =? DL_CHUNK_EMPTY) then
        if fc_status fc =? DL_CHUNK_BUSY then
          match fc_download fc with
          | None => None
          | Some o =>
              if negb (bool_decide (o = d)) && d_pipelining (dls o)
              then scan_holes d sl (u32 (pipelined + 1))
              else scan_holes d sl pipelined
          end
        else scan_holes d sl pipelined
      else Some (inl fc)
  end.

(** [file_info_find_hole(d, &from, &to)] on the file information of [d].
    [missing] is the answer of the file system to [fi_check_file] and [rnd]
    the random offset drawn by [list_clone_shift].  The result is the status
    returned, the range written to [from] and [to] when one was selected,
    and the file information afterwards. *)
Definition file_info_find_hole (missing : bool) (rnd : filesize_t)
    (fi : fileinfo) (d : download_id)
    : option (Z * option (filesize_t * filesize_t) * fileinfo) :=
  if negb (0 <? fi_refcount fi) || negb (0 <? fi_lifecount fi) then None
  else
    reserved ← fi_busy_count fi d;
    if negb (reserved <=? (if d_pipelining (dls d) then 1 else 0)) then None
    else if negb (fi_done fi =? 0) && (fi_done fi =? fi_size fi) then
      Some (DL_CHUNK_DONE, None, fi)
    else
      fi ← find_hole_state missing fi;
      let chunksize := fi_chunksize fi in
      let chunksize :=
        if pfsp_server P && (d_served_reqs (dls d) =? 0)
           && (fi_alive_count fi <=? FI_LOW_SRC_COUNT P) then
          if pfsp_minimum_filesize P <=? fi_done fi then dl_minchunksize P
          else
            Z.min (Z.max chunksize (u64 (pfsp_minimum_filesize P - fi_done fi)))
              (dl_maxchunksize P)
        else chunksize in
      shifted ←
        (if pfsp_server P then list_clone_shift rnd fi
         else Some (fi, fi_chunklist fi));
      let fi := fst shifted in
      let cklist := snd shifted in
      found ← scan_holes d cklist 0;
      match found with
      | inl fc =>
          let from := fc_from fc in
          let to := if chunksize <? chunk_len fc
                    then u64 (fc_from fc + chunksize) else fc_to fc in
          fi' ← file_info_reserve fi d from to None;
          Some (DL_CHUNK_EMPTY, Some (from, to), fi')
      | inr pipelined =>
          let busy := u32 (0 - pipelined) in
          if negb (s32 busy <? fi_lifecount fi) then None
          else
            candidate ←
              (if use_aggressive_swarming P
               then fi_find_aggressive_candidate fi d busy
               else Some None);
            match candidate with
            | Some (start, end_, chunk) =>
                fi' ← file_info_reserve fi d start end_ (Some chunk);
                Some (DL_CHUNK_EMPTY, Some (start, end_), fi')
            | None =>
                Some (if fi_done fi =? fi_size fi then DL_CHUNK_DONE
                      else DL_CHUNK_BUSY, None, fi)
            end
      end.

End Allocator.

(** *** The public operations on the chunk list *)

Inductive fi_op :=
| OpUpdate (d : download_id) (from to : filesize_t) (status : Z)
| OpMergeAdjacent
| OpFindHole (missing : bool) (rnd : filesize_t) (d : download_id)
| OpClearDownload (d : download_id)
| OpReset.

Definition run_op {D : DoubleOps} (P : gnet_property)
    (dls : download_id -> download) (fi : fileinfo) (op : fi_op)
    : option fileinfo :=
  match op with
  | OpUpdate d from to status => file_info_update fi d from to status
  | OpMergeAdjacent => Some (file_info_merge_adjacent fi)
  | OpFindHole missing rnd d =>
      match file_info_find_hole P dls missing rnd fi d with
      | Some (_, _, fi') => Some fi'
      | None => None
      end
  | OpClearDownload d => Some (file_info_clear_download fi d)
  | OpReset => file_info_reset dls fi
  end.

Fixpoint run_ops {D : DoubleOps} (P : gnet_property)
    (dls : download_id -> download) (fi : fileinfo) (ops : list fi_op)
    : option fileinfo :=
  match ops with
  | [] => Some fi
  | op :: rest =>
      match run_op P dls fi op with
      | Some fi' => run_ops P dls fi' rest
      | None => None
      end
  end.

(** Exact rational arithmetic as an instance of the [double] interface, used
    to run the allocator on concrete inputs. *)
Definition Q_double : DoubleOps := {|
  double := Q;
  dbl_of_size := inject_Z;
  dbl_div := Qdiv;
  dbl_one := 1%Q;
  dbl_gt := fun a b => negb (Qle_bool a b);
  dbl_ge := fun a b => Qle_bool b a;
  dbl_close := fun a b => negb (Qle_bool (1 # 10 ^ 56) (Qabs (a - b)))
|}.

(** ** Queries and further operations on the chunk list *)

(** The three queries below open with
    [g_assert(file_info_check_chunklist(fi, TRUE))], which can only fail
    when the [fileinfo_debug] property is set; they are modelled as the
    scan that follows, and their properties are stated for chunk lists that
    pass the check. *)

(** [file_info_chunk_status(fi, from, to)]: the status of the first chunk
    that holds the whole range, BUSY when there is none. *)
Fixpoint chunk_status_scan (from to : filesize_t) (l : list dl_file_chunk)
    : Z :=
  match l with
  | [] => DL_CHUNK_BUSY
  | fc :: sl =>
      if (fc_from fc <=? from) && (to <=? fc_to fc) then fc_status fc
      else chunk_status_scan from to sl
  end.

Definition file_info_chunk_status (fi : fileinfo) (from to : filesize_t) : Z :=
  chunk_status_scan from to (fi_chunklist fi).

(** [file_info_pos_status(fi, pos)]: the status of the first chunk that
    holds the byte, DONE when there is none. *)
Fixpoint pos_status_scan (pos : filesize_t) (l : list dl_file_chunk) : Z :=
  match l with
  | [] => DL_CHUNK_DONE
  | fc :: sl =>
      if (fc_from fc <=? pos) && (pos <? fc_to fc) then fc_status fc
      else pos_status_scan pos sl
  end.

Definition file_info_pos_status (fi : fileinfo) (pos : filesize_t) : Z :=
  pos_status_scan pos (fi_chunklist fi).

(** [file_info_restrict_range(fi, start, &end)]: [None] for FALSE, and the
    value left in [end] otherwise. *)
Fixpoint restrict_scan (start end_ : filesize_t) (l : list dl_file_chunk)
    : option filesize_t :=
  match l with
  | [] => None
  | fc :: sl =>
      if negb (fc_status fc =? DL_CHUNK_DONE) then restrict_scan start end_ sl
      else if (start <? fc_from fc) || (fc_to fc <=? start)
      then restrict_scan start end_ sl
      else Some (if fc_to fc <=? end_ then u64 (fc_to fc - 1) else end_)
  end.

Definition file_info_restrict_range (fi : fileinfo) (start end_ : filesize_t)
    : option filesize_t :=
  restrict_scan start end_ (fi_chunklist fi).

(** Second loop of [file_info_new_chunk_owner]: the BUSY chunks of the old
    owner that follow are released. *)
Definition release_chunk (old : download_id) (fc : dl_file_chunk)
    : dl_file_chunk :=
  if (fc_status fc =? DL_CHUNK_BUSY) && bool_decide (fc_download fc = Some old)
  then mk_chunk (fc_from fc) (fc_to fc) None DL_CHUNK_EMPTY
  else fc.

(** First loop of [file_info_new_chunk_owner]: the first BUSY chunk that
    holds [from] or [to] is given to [d]; [None] when an assertion fails. *)
Fixpoint new_owner_scan (d : download_id) (from to : filesize_t)
    (l : list dl_file_chunk) : option (list dl_file_chunk) :=
  match l with
  | [] => Some []
  | fc :: sl =>
      if negb (fc_status fc =? DL_CHUNK_BUSY) then
        match new_owner_scan d from to sl with
        | Some sl' => Some (fc :: sl')
        | None => None
        end
      else if ((fc_from fc <=? from) && (from <? fc_to fc))
              || ((fc_from fc <=? to) && (to <? fc_to fc)) then
        match fc_download fc with
        | None => None
        | Some old =>
            if bool_decide (old = d) then None
            else Some (mk_chunk (fc_from fc) (fc_to fc) (Some d)
                         (fc_status fc) :: map (release_chunk old) sl)
        end
      else
        match new_owner_scan d from to sl with
        | Some sl' => Some (fc :: sl')
        | None => None
        end
  end.

(** [file_info_new_chunk_owner(d, from, to)] on the file information of
    [d]; [None] when an assertion fails. *)
Definition file_info_new_chunk_owner (fileinfo_debug : bool) (fi : fileinfo)
    (d : download_id) (from to : filesize_t) : option fileinfo :=
  if negb (file_info_check_chunklist fileinfo_debug fi true) then None
  else
    match new_owner_scan d from to (fi_chunklist fi) with
    | Some l => Some (fi_set_chunks fi l (fi_done fi))
    | None => None
    end.

Definition fi_set_size_chunks (fi : fileinfo) (size : filesize_t)
    (known swarming : bool) (l : list dl_file_chunk) : fileinfo :=
  mk_fileinfo (fi_pathname fi) size (fi_done fi) known swarming
    (fi_transient fi) (fi_refcount fi) (fi_lifecount fi) (fi_generation fi)
    (fi_created fi) (fi_ntime fi) (fi_guid fi) (fi_tth fi) (fi_tigertree fi)
    (fi_sha1 fi) (fi_cha1 fi) (fi_alias fi) l.

(** [fi_resize(fi, size)]: an EMPTY chunk is added at the tail; [hashed] is
    the flag [fi->hashed], which the record does not keep; [None] when an
    assertion fails. *)
Definition fi_resize (fileinfo_debug hashed : bool) (fi : fileinfo)
    (size : filesize_t) : option fileinfo :=
  if negb (fi_size fi <? size) || hashed then None
  else
    let fi' :=
      fi_set_size_chunks fi size (fi_file_size_known fi) (fi_use_swarming fi)
        (fi_chunklist fi
         ++ [mk_chunk (fi_size fi) size None DL_CHUNK_EMPTY]) in
    if file_info_check_chunklist fileinfo_debug fi' true then Some fi'
    else None.

(** [file_info_merge_adjacent] together with the assertions on the chunk
    list that open and close it. *)
Definition merge_adjacent_checked (fileinfo_debug : bool) (fi : fileinfo)
    : option fileinfo :=
  if negb (file_info_check_chunklist fileinfo_debug fi true) then None
  else
    let fi' := file_info_merge_adjacent fi in
    if file_info_check_chunklist fileinfo_debug fi' true then Some fi'
    else None.

(** The assertions of the loop of [fi_copy_chunks]. *)
Fixpoint copy_chunks_ok (first : bool) (l : list dl_file_chunk) : bool :=
  match l with
  | [] => true
  | fc :: sl =>
      (fc_from fc <=? fc_to fc) && (negb first || (fc_from fc =? 0))
      && copy_chunks_ok false sl
  end.

(** [fi_copy_chunks(fi, trailer)]: the chunks of the file information read
    from a trailer are copied into [fi], which has none; [None] when an
    assertion fails. *)
Definition fi_copy_chunks (fileinfo_debug : bool) (fi trailer : fileinfo)
    : option fileinfo :=
  match fi_chunklist fi with
  | _ :: _ => None
  | [] =>
      if negb (file_info_check_chunklist fileinfo_debug trailer true) then None
      else if negb (copy_chunks_ok true (fi_chunklist trailer)) then None
      else
        merge_adjacent_checked fileinfo_debug
          (mk_fileinfo (fi_pathname fi) (fi_size fi) (fi_done fi)
             (fi_file_size_known fi) (fi_use_swarming fi)
             (fi_transient fi) (fi_refcount fi) (fi_lifecount fi)
             (fi_generation trailer) (fi_created fi) (fi_ntime fi)
             (fi_guid fi) (fi_tth fi) (fi_tigertree fi) (fi_sha1 fi)
             (match fi_cha1 trailer with
              | Some c => Some c
              | None => fi_cha1 fi
              end)
             (fi_alias fi) (fi_chunklist trailer))
  end.

(** [file_info_size_known(d, size)] on the file information of [d]: what
    was received so far is DONE and the rest is a BUSY chunk of [d]; [None]
    when an assertion fails.  The insertion in the table of names and sizes
    is not part of the model. *)
Definition file_info_size_known (fileinfo_debug : bool) (fi : fileinfo)
    (d : download_id) (size : filesize_t) : option fileinfo :=
  if fi_file_size_known fi || fi_use_swarming fi then None
  else
    match fi_chunklist fi with
    | _ :: _ => None
    | [] =>
        let fi' :=
          fi_set_size_chunks fi size true true
            ((if negb (fi_done fi =? 0)
              then [mk_chunk 0 (fi_done fi) None DL_CHUNK_DONE] else [])
             ++ (if fi_done fi <? size
                 then [mk_chunk (fi_done fi) size (Some d) DL_CHUNK_BUSY]
                 else [])) in
        if file_info_check_chunklist fileinfo_debug fi' true then Some fi'
        else None
    end.

Section AvailableHole.

Context {D : DoubleOps}.
Variable P : gnet_property.
Variable dls : download_id -> download.

(** Inner loop of [file_info_find_available_hole]: the intersection of the
    EMPTY chunk [fc] with the first of the sorted [ranges] that meets it;
    the upper bound of a range is part of the range. *)
Fixpoint range_intersect (fc : dl_file_chunk)
    (ranges : list (filesize_t * filesize_t))
    : option (filesize_t * filesize_t) :=
  match ranges with
  | [] => None
  | (r_start, r_end) :: sl =>
      if fc_to fc <? r_start then None
      else
        let start := Z.max r_start (fc_from fc) in
        let end_ := Z.min (u64 (r_end + 1)) (fc_to fc) in
        if start <? end_ then Some (start, end_)
        else range_intersect fc sl
  end.

(** The loop over [cklist]: the range found ([inl]), or the counts of BUSY
    chunks and of those whose owner pipelines ([inr]); [None] when a BUSY
    chunk has no owner. *)
Fixpoint scan_available (ranges : list (filesize_t * filesize_t))
    (cklist : list dl_file_chunk) (busy pipelined : Z)
    : option ((filesize_t * filesize_t) + (Z * Z)) :=
  match cklist with
  | [] => Some (inr (busy, pipelined))
  | fc :: sl =>
      if negb (fc_status fc =? DL_CHUNK_EMPTY) then
        if fc_status fc =? DL_CHUNK_BUSY then
          match fc_download fc with
          | None => None
          | Some o =>
              scan_available ranges sl (u32 (busy + 1))
                (if d_pipelining (dls o) then u32 (pipelined + 1)
                 else pipelined)
          end
        else scan_available ranges sl busy pipelined
      else
        match range_intersect fc ranges with
        | Some r => Some (inl r)
        | None => scan_available ranges sl busy pipelined
        end
  end.

(** Whether the candidate [start, end) is fully held in one of the sorted
    [ranges]. *)
Fixpoint range_holds (start end_ : filesize_t)
    (ranges : list (filesize_t * filesize_t)) : bool :=
  match ranges with
  | [] => false
  | (r_start, r_end) :: sl =>
      if end_ <? r_start then false
      else if (r_start <=? start) && (u64 (end_ - 1) <=? r_end) then true
      else range_holds start end_ sl
  end.

(** [file_info_find_available_hole(d, ranges, &from, &to)] on the file
    information of [d]: [None] when an assertion fails, otherwise the range
    reserved, if any, and the file information afterwards.  [missing] and
    [rnd] are as for [file_info_find_hole]. *)
Definition file_info_find_available_hole (fileinfo_debug missing : bool)
    (rnd : filesize_t) (fi : fileinfo) (d : download_id)
    (ranges : list (filesize_t * filesize_t))
    : option (option (filesize_t * filesize_t) * fileinfo) :=
  match ranges with
  | [] => None
  | _ =>
      if negb (file_info_check_chunklist fileinfo_debug fi true) then None
      else if negb (fi_done fi =? 0) && (fi_done fi =? fi_size fi)
      then Some (None, fi)
      else
        fi ← find_hole_state dls missing fi;
        if negb (0 <? fi_lifecount fi) then None
        else
          shifted ←
            (if pfsp_server P then list_clone_shift P rnd fi
             else Some (fi, fi_chunklist fi));
          let fi := fst shifted in
          let cklist := snd shifted in
          found ← scan_available ranges cklist 0 0;
          match found with
          | inl (from, to) =>
              let chunksize := fi_chunksize P fi in
              let to := if chunksize <? u64 (to - from)
                        then u64 (from + chunksize) else to in
              fi' ← file_info_reserve fi d from to None;
              Some (Some (from, to), fi')
          | inr (busy, pipelined) =>
              let busy := u32 (busy - pipelined) in
              candidate ←
                (if use_aggressive_swarming P
                 then fi_find_aggressive_candidate P dls fi d busy
                 else Some None);
              match candidate with
              | Some (start, end_, chunk) =>
                  if range_holds start end_ ranges then
                    fi' ← file_info_reserve fi d start end_ (Some chunk);
                    Some (Some (start, end_), fi')
                  else Some (None, fi)
              | None => Some (None, fi)
              end
          end
  end.

End AvailableHole.

(** ** Properties of the chunk list *)

(** [chain a l b]: the chunks of [l] are not empty and cover [a, b) one after
    the other, without gap or overlap. *)
Fixpoint chain (a : Z) (l : list dl_file_chunk) (b : Z) : Prop :=
  match l with
  | [] => a = b
  | fc :: sl => fc_from fc = a /\ a < fc_to fc /\ chain (fc_to fc) sl b
  end.

(** Sum of the lengths of the DONE chunks. *)
Fixpoint done_sum (l : list dl_file_chunk) : Z :=
  match l with
  | [] => 0
  | fc :: sl =>
      (if fc_status fc =? DL_CHUNK_DONE then fc_to fc - fc_from fc else 0)
      + done_sum sl
  end.

(** The chunk list of a file of known size partitions [0, size): the first
    chunk starts at 0, no chunk is empty, each chunk ends where the next one
    starts, no chunk extends past [size] and the last one ends there. *)
Definition chunklist_partitions (size : Z) (l : list dl_file_chunk) : Prop :=
  (forall fc, head l = Some fc -> fc_from fc = 0)
  /\ (forall (i : nat) fc, l !! i = Some fc ->
        fc_from fc < fc_to fc /\ fc_to fc <= size)
  /\ (forall (i : nat) fc1 fc2, l !! i = Some fc1 -> l !! S i = Some fc2 ->
        fc_to fc1 = fc_from fc2 /\ fc_from fc1 < fc_from fc2)
  /\ (forall fc, last l = Some fc -> fc_to fc = size)
  /\ l <> [].

(** End of the range covered by the chunk list. *)
Definition covered_end (l : list dl_file_chunk) : filesize_t :=
  match last l with Some fc => fc_to fc | None => 0 end.

(** The offsets of the chunks are values of [filesize_t]. *)
Definition chunks_typed (l : list dl_file_chunk) : bool :=
  forallb (fun fc => (0 <=? fc_from fc) && (fc_from fc <? 2 ^ 64)
                     && (0 <=? fc_to fc) && (fc_to fc <? 2 ^ 64)) l.

(** A valid state of a file of known size: the size is known and not zero,
    the chunk list passes [file_info_check_chunklist] and reaches the end of
    the file. *)
Definition fi_valid (fi : fileinfo) : Prop :=
  fi_file_size_known fi = true
  /\ 0 < fi_size fi < 2 ^ 64
  /\ check_chunks true (fi_size fi) 0 (fi_chunklist fi) = true
  /\ covered_end (fi_chunklist fi) = fi_size fi.

(** A chunk as [file_info_merge_adjacent] leaves it: without owner when it is
    DONE. *)
Definition visited (fc : dl_file_chunk) : Prop :=
  fc_status fc = DL_CHUNK_DONE -> fc_download fc = None.

(** [mergeable fc1 fc2]: the test under which the merge pass joins two
    consecutive chunks. *)
Definition mergeable (fc1 fc2 : dl_file_chunk) : Prop :=
  fc_status fc1 = fc_status fc2 /\ fc_status fc2 <> DL_CHUNK_BUSY.

(** No two consecutive chunks of [fc1 :: sl] are mergeable. *)
Fixpoint merged_from (fc1 : dl_file_chunk) (sl : list dl_file_chunk) : Prop :=
  match sl with
  | [] => True
  | fc2 :: next => ~ mergeable fc1 fc2 /\ visited fc2 /\ merged_from fc2 next
  end.

Definition merged (l : list dl_file_chunk) : Prop :=
  match l with
  | [] => True
  | fc :: sl => visited fc /\ merged_from fc sl
  end.

(** ** Persistence codec: the binary trailer *)

Definition FILE_INFO_MAGIC32 : Z := 0xD1BB1ED0.
Definition FILE_INFO_MAGIC64 : Z := 0x91E63640.
Definition FILE_INFO_VERSION : Z := 6.

(** [enum dl_file_info_field] *)
Definition FILE_INFO_FIELD_NAME : Z := 1.
Definition FILE_INFO_FIELD_ALIAS : Z := 2.
Definition FILE_INFO_FIELD_SHA1 : Z := 3.
Definition FILE_INFO_FIELD_CHUNK : Z := 4.
Definition FILE_INFO_FIELD_END : Z := 5.
Definition FILE_INFO_FIELD_CHA1 : Z := 6.
Definition FILE_INFO_FIELD_GUID : Z := 7.
Definition FILE_INFO_FIELD_TTH : Z := 8.
Definition FILE_INFO_FIELD_TIGERTREE : Z := 9.

Definition GUID_RAW_SIZE : Z := 16.

(** Modelled from the spec: the sizes of the raw digests, defined in headers
    that are not among the sources: a SHA-1 digest has 20 bytes (32
    characters in base32) and a Tiger-tree hash 24. *)
Definition SHA1_RAW_SIZE : Z := 20.
Definition SHA1_BASE32_SIZE : nat := 32.
Definition TTH_RAW_SIZE : Z := 24.

Definition FI_TRAILER_INT : nat := 6.

(** [file_info_checksum]: one step per byte, on a 32-bit checksum. *)
Definition checksum_step (checksum p : Z) : Z :=
  u32 (Z.lxor (Z.lxor (u32 (Z.shiftl checksum 1)) (Z.shiftr checksum 31)) p).

Definition file_info_checksum (checksum : Z) (data : list Z) : Z :=
  fold_left checksum_step data checksum.

(** The four bytes that [htonl] followed by a copy to memory produces, and
    the value that a copy from memory followed by [ntohl] yields. *)
Definition htonl_bytes (val : Z) : list Z :=
  [Z.land (Z.shiftr val 24) 255; Z.land (Z.shiftr val 16) 255;
   Z.land (Z.shiftr val 8) 255; Z.land val 255].

Definition ntohl_bytes (bs : list Z) : Z :=
  match bs with
  | [b0; b1; b2; b3] =>
      Z.lor (Z.shiftl b0 24) (Z.lor (Z.shiftl b1 16) (Z.lor (Z.shiftl b2 8) b3))
  | _ => 0
  end.

(** A 32-bit value copied from memory without conversion, on a host that is
    little-endian or not. *)
Definition native_bytes (little_endian : bool) (bs : list Z) : Z :=
  if little_endian then ntohl_bytes (rev bs) else ntohl_bytes bs.

(** *** Writing *)

(** The trailer buffer while it is written: the bytes from [tbuf.arena] to
    [tbuf.wptr], and the running checksum. *)
Record wbuf := mk_wbuf { wb_bytes : list Z; wb_checksum : Z }.

Definition TBUF_INIT_WRITE : wbuf := mk_wbuf [] 0.

Definition WRITE_STR (data : list Z) (w : wbuf) : wbuf :=
  mk_wbuf (wb_bytes w ++ data) (file_info_checksum (wb_checksum w) data).

Definition WRITE_CHAR (val : Z) (w : wbuf) : wbuf := WRITE_STR [val] w.

Definition WRITE_UINT32 (val : Z) (w : wbuf) : wbuf :=
  WRITE_STR (htonl_bytes (u32 val)) w.

(** [FIELD_ADD(id, n, data, &checksum)], always called with [n] the number
    of bytes of [data]. *)
Definition FIELD_ADD (id : Z) (data : list Z) (w : wbuf) : wbuf :=
  WRITE_STR data (WRITE_UINT32 (Z.of_nat (length data)) (WRITE_UINT32 id w)).

Definition FIELD_ADD_opt (id : Z) (data : option (list Z)) (w : wbuf) : wbuf :=
  match data with Some bs => FIELD_ADD id bs w | None => w end.

(** A C string: the characters before the first NUL. *)
Fixpoint c_str (s : list Z) : list Z :=
  match s with
  | [] => []
  | c :: s' => if c =? 0 then [] else c :: c_str s'
  end.

Section Codec.

(** [TTH_MAX_LEAVES], which bounds the length of a field through
    [FI_MAX_FIELD_LEN], is defined in a header that is not among the
    sources. *)
Variable TTH_MAX_LEAVES : Z.

Definition FI_MAX_FIELD_LEN : Z := TTH_RAW_SIZE * TTH_MAX_LEAVES.

(** The alias loop of [file_info_fd_store_binary]: an alias is only stored
    when it is shorter than [FI_MAX_FIELD_LEN]. *)
Fixpoint store_aliases (aliases : list (list Z)) (w : wbuf) : wbuf :=
  match aliases with
  | [] => w
  | a :: sl =>
      let len := Z.of_nat (length (c_str a)) in
      store_aliases sl
        (if len <? FI_MAX_FIELD_LEN
         then FIELD_ADD FILE_INFO_FIELD_ALIAS (c_str a) w else w)
  end.

Definition chunk_field (fc : dl_file_chunk) : list Z :=
  htonl_bytes (u32 (Z.shiftr (u64 (fc_from fc)) 32))
  ++ htonl_bytes (u32 (fc_from fc))
  ++ htonl_bytes (u32 (Z.shiftr (u64 (fc_to fc)) 32))
  ++ htonl_bytes (u32 (fc_to fc))
  ++ htonl_bytes (u32 (fc_status fc)).

Fixpoint store_chunks (l : list dl_file_chunk) (w : wbuf) : wbuf :=
  match l with
  | [] => w
  | fc :: sl => store_chunks sl (FIELD_ADD FILE_INFO_FIELD_CHUNK (chunk_field fc) w)
  end.

(** The buffer built by [file_info_fd_store_binary], up to the fields. *)
Definition store_fields (fi : fileinfo) (guid : list Z) : wbuf :=
  let w := TBUF_INIT_WRITE in
  let w := WRITE_UINT32 FILE_INFO_VERSION w in
  let w := WRITE_UINT32 (fi_created fi) w in
  let w := WRITE_UINT32 (fi_ntime fi) w in
  let w := WRITE_CHAR (if fi_file_size_known fi then 1 else 0) w in
  let w := FIELD_ADD FILE_INFO_FIELD_GUID guid w in
  let w := FIELD_ADD_opt FILE_INFO_FIELD_TTH (fi_tth fi) w in
  let w :=
    match fi_tigertree fi with
    | [] => w
    | leaves => FIELD_ADD FILE_INFO_FIELD_TIGERTREE (concat leaves) w
    end in
  let w := FIELD_ADD_opt FILE_INFO_FIELD_SHA1 (fi_sha1 fi) w in
  let w := FIELD_ADD_opt FILE_INFO_FIELD_CHA1 (fi_cha1 fi) w in
  let w := store_aliases (fi_alias fi) w in
  store_chunks (fi_chunklist fi) w.

(** The whole trailer: the fields, the end marker and the fixed part, for a
    file information whose generation number is already incremented. *)
Definition store_trailer (fi : fileinfo) (guid : list Z) : list Z :=
  let w := store_fields fi guid in
  let w := WRITE_UINT32 FILE_INFO_FIELD_END w in
  let w := WRITE_UINT32 (Z.shiftr (u64 (fi_size fi)) 32) w in
  let w := WRITE_UINT32 (fi_size fi) w in
  let w := WRITE_UINT32 (fi_generation fi) w in
  let length := Z.of_nat (length (wb_bytes w)) + 3 * 4 in
  let w := WRITE_UINT32 length w in
  let w := WRITE_UINT32 (wb_checksum w) w in
  let w := WRITE_UINT32 FILE_INFO_MAGIC64 w in
  wb_bytes w.

Definition fi_set_generation (fi : fileinfo) (g : Z) : fileinfo :=
  mk_fileinfo (fi_pathname fi) (fi_size fi) (fi_done fi)
    (fi_file_size_known fi) (fi_use_swarming fi) (fi_transient fi)
    (fi_refcount fi) (fi_lifecount fi) g (fi_created fi) (fi_ntime fi)
    (fi_guid fi) (fi_tth fi) (fi_tigertree fi) (fi_sha1 fi) (fi_cha1 fi)
    (fi_alias fi) (fi_chunklist fi).

(** [file_info_fd_store_binary(fi, fo)]: [content] is what the file holds;
    the trailer is written at offset [fi->size] and the file truncated right
    after it.  Returns the file information, whose generation number has
    been incremented, and the new content of the file; there is no result
    when [fi->guid] is NULL. *)
Definition file_info_fd_store_binary (fi : fileinfo) (content : list Z)
    : option (fileinfo * list Z) :=
  match fi_guid fi with
  | None => None
  | Some guid =>
      let fi' := fi_set_generation fi (u32 (fi_generation fi + 1)) in
      Some (fi', resize (Z.to_nat (fi_size fi)) 0 content
                 ++ store_trailer fi' guid)
  end.

(** *** Reading *)

(** The trailer buffer while it is read: the bytes from [tbuf.rptr] to
    [tbuf.end], and the running checksum. *)
Record rbuf := mk_rbuf { rb_bytes : list Z; rb_checksum : Z }.

Definition READ_STR (size : nat) (r : rbuf) : option (list Z * rbuf) :=
  if (size <=? length (rb_bytes r))%nat then
    let data := firstn size (rb_bytes r) in
    Some (data, mk_rbuf (skipn size (rb_bytes r))
                  (file_info_checksum (rb_checksum r) data))
  else None.

Definition READ_CHAR (r : rbuf) : option (Z * rbuf) :=
  match READ_STR 1 r with
  | Some ([c], r') => Some (c, r')
  | _ => None
  end.

Definition READ_UINT32 (r : rbuf) : option (Z * rbuf) :=
  match READ_STR 4 r with
  | Some (bs, r') => Some (ntohl_bytes bs, r')
  | None => None
  end.

(** [struct trailer] *)
Record trailer := mk_trailer {
  tr_filesize : Z;
  tr_generation : Z;
  tr_length : Z;
  tr_checksum : Z;
  tr_magic : Z
}.

(** The six 32-bit words of the fixed trailer. *)
Fixpoint words (n : nat) (bs : list Z) : list Z :=
  match n with
  | O => []
  | S n' => ntohl_bytes (firstn 4 bs) :: words n' (skipn 4 bs)
  end.

(** [file_info_get_trailer] on a regular file whose content is [file]:
    [None] stands for FALSE. *)
Definition file_info_get_trailer (file : list Z) : option trailer :=
  let st_size := Z.of_nat (length file) in
  if st_size <? 4 * Z.of_nat FI_TRAILER_INT then None
  else
    let offset := (length file - 4 * FI_TRAILER_INT)%nat in
    match words FI_TRAILER_INT (skipn offset file) with
    | [tr0; tr1; tr2; tr3; tr4; tr5] =>
        let magic := tr5 in
        let filesize :=
          if magic =? FILE_INFO_MAGIC64
          then Some (Z.lor (Z.shiftl tr0 32) tr1)
          else if magic =? FILE_INFO_MAGIC32 then Some tr1
          else None in
        match filesize with
        | None => None
        | Some fs =>
            if st_size =? u64 (fs + tr3)
            then Some (mk_trailer fs tr2 tr3 tr4 tr5)
            else None
        end
    | _ => None
    end.

Definition trailer_is_64bit (tb : trailer) : bool :=
  tr_magic tb =? FILE_INFO_MAGIC64.

(** [file_info_has_trailer(path)], for a file that can be opened and holds
    [file]. *)
Definition file_info_has_trailer (file : list Z) : Z :=
  match file_info_get_trailer file with Some _ => 1 | None => 0 end.

(** [is_strcaseprefix(s, prefix)] on ASCII strings: the rest of [s] after
    the prefix, compared without regard to case. *)
Definition ascii_tolower (c : Z) : Z :=
  if (65 <=? c) && (c <=? 90) then c + 32 else c.

Fixpoint is_strcaseprefix (s prefix : list Z) : option (list Z) :=
  match prefix, s with
  | [], _ => Some s
  | p :: prefix', c :: s' =>
      if ascii_tolower c =? ascii_tolower p then is_strcaseprefix s' prefix'
      else None
  | _ :: _, [] => None
  end.

Definition is_ascii_alnum (c : Z) : bool :=
  ((48 <=? c) && (c <=? 57)) || ((65 <=? c) && (c <=? 90))
  || ((97 <=? c) && (c <=? 122)).

Fixpoint alnum_run (n : nat) (q : list Z) : bool :=
  match n with
  | O => true
  | S n' =>
      match q with
      | c :: q' => is_ascii_alnum c && alnum_run n' q'
      | [] => false
      end
  end.

(** [looks_like_urn]: the pattern
    [(urn.)?(sha1|bitprint).[a-zA-Z0-9]{SHA1_BASE32_SIZE,}]. *)
Definition looks_like_urn (filename : list Z) : bool :=
  let p :=
    match is_strcaseprefix filename [117; 114; 110] with
    | Some [] => None
    | Some (_ :: p') => Some p'
    | None => Some filename
    end in
  match p with
  | None => false
  | Some p =>
      let q :=
        match is_strcaseprefix p [115; 104; 97; 49] with
        | Some q => Some q
        | None =>
            is_strcaseprefix p [98; 105; 116; 112; 114; 105; 110; 116]
        end in
      match q with
      | None | Some [] => false
      | Some (_ :: q') => alnum_run SHA1_BASE32_SIZE q'
      end
  end.

(** What the field loop of [file_info_retrieve_binary] has built so far:
    the fields of [fi] it assigns, the chunk list in reverse order and the
    scratch buffer [tmp], which keeps the bytes of earlier fields. *)
Record fields_state := mk_fields {
  fs_file_size_known : bool;
  fs_guid : option (list Z);
  fs_tth : option (list Z);
  fs_tigertree : list (list Z);
  fs_sha1 : option (list Z);
  fs_cha1 : option (list Z);
  fs_alias : list (list Z);
  fs_chunklist : list dl_file_chunk;
  fs_tmp : list Z
}.

(** The identity of a file information (its address).  The table
    [fi_by_namesize] is a map that gives, under a name and a size, the file
    informations listed there; a [GSList] that is [NULL] is the empty list,
    so a missing entry reads as [[]]. *)
Definition fi_id := nat.

(** [fi_alias(fi, name, record)] (the record has a field of that name):
    the aliases of [fi] and the table afterwards; [None] when the assertion
    [!record || fi->hashed] fails.  [id] is the identity of [fi], [size] is
    [fi->size]. *)
Definition fi_alias_add (fi_by_namesize : gmap (list Z * Z) (list fi_id))
    (id : fi_id) (hashed : bool) (size : Z) (aliases : list (list Z))
    (name : list Z) (record : bool)
    : option (list (list Z) * gmap (list Z * Z) (list fi_id)) :=
  if record && negb hashed then None
  else
    let ns := (name, size) in
    let list := default [] (fi_by_namesize !! ns) in
    if bool_decide (id ∈ list) then Some (aliases, fi_by_namesize)
    else if looks_like_urn name then Some (aliases, fi_by_namesize)
    else
      Some (aliases ++ [name],
            if record then <[ns := list ++ [id]]> fi_by_namesize
            else fi_by_namesize).

(** [fi_alias(fi, name, FALSE)] as [file_info_retrieve_binary] calls it, on
    the file information it has just allocated, which no table lists: the
    alias is appended unless it looks like an URN. *)
Definition fi_alias_append (aliases : list (list Z)) (name : list Z)
    : list (list Z) :=
  if looks_like_urn name then aliases else aliases ++ [name].

(** The leaves of a tiger tree, [TTH_RAW_SIZE] bytes each. *)
Fixpoint tth_leaves (n : nat) (data : list Z) : list (list Z) :=
  match n with
  | O => []
  | S n' => firstn (Z.to_nat TTH_RAW_SIZE) data
            :: tth_leaves n' (skipn (Z.to_nat TTH_RAW_SIZE) data)
  end.

(** The chunk decoded from the first twenty bytes of [tmp], for a trailer of
    the given version, 64-bit or not; [None] when the assertion on the
    version fails. *)
Definition decode_chunk (little_endian t64 : bool) (version : Z)
    (tmp : list Z) : option dl_file_chunk :=
  let w (i : nat) := firstn 4 (skipn (4 * i) tmp) in
  let fc :=
    if negb t64 then
      if negb (version <? 6) then None
      else if version =? 1 then
        Some (native_bytes little_endian (w 0%nat),
              native_bytes little_endian (w 1%nat),
              native_bytes little_endian (w 2%nat))
      else
        Some (ntohl_bytes (w 0%nat), ntohl_bytes (w 1%nat),
              ntohl_bytes (w 2%nat))
    else
      if negb (6 <=? version) then None
      else
        Some (Z.lor (Z.shiftl (ntohl_bytes (w 0%nat)) 32)
                (ntohl_bytes (w 1%nat)),
              Z.lor (Z.shiftl (ntohl_bytes (w 2%nat)) 32)
                (ntohl_bytes (w 3%nat)),
              ntohl_bytes (w 4%nat)) in
  match fc with
  | None => None
  | Some (from, to, status) =>
      Some (mk_chunk from to None
              (if status =? DL_CHUNK_BUSY then DL_CHUNK_EMPTY else status))
  end.

(** The [switch (field)] of the loop, for a field of [tmpuint] bytes now at
    the start of [tmp]. *)
Definition retrieve_field (little_endian t64 : bool) (version : Z)
    (field : Z) (tmpuint : Z) (st : fields_state) : option fields_state :=
  let tmp := fs_tmp st in
  let data := firstn (Z.to_nat tmpuint) tmp in
  let set_guid g :=
    mk_fields (fs_file_size_known st) g (fs_tth st) (fs_tigertree st)
      (fs_sha1 st) (fs_cha1 st) (fs_alias st) (fs_chunklist st) tmp in
  let set_tth t :=
    mk_fields (fs_file_size_known st) (fs_guid st) t (fs_tigertree st)
      (fs_sha1 st) (fs_cha1 st) (fs_alias st) (fs_chunklist st) tmp in
  let set_tigertree l :=
    mk_fields (fs_file_size_known st) (fs_guid st) (fs_tth st) l
      (fs_sha1 st) (fs_cha1 st) (fs_alias st) (fs_chunklist st) tmp in
  let set_sha1 s :=
    mk_fields (fs_file_size_known st) (fs_guid st) (fs_tth st)
      (fs_tigertree st) s (fs_cha1 st) (fs_alias st) (fs_chunklist st) tmp in
  let set_cha1 s :=
    mk_fields (fs_file_size_known st) (fs_guid st) (fs_tth st)
      (fs_tigertree st) (fs_sha1 st) s (fs_alias st) (fs_chunklist st) tmp in
  let set_alias a :=
    mk_fields (fs_file_size_known st) (fs_guid st) (fs_tth st)
      (fs_tigertree st) (fs_sha1 st) (fs_cha1 st) a (fs_chunklist st) tmp in
  let set_chunks l :=
    mk_fields (fs_file_size_known st) (fs_guid st) (fs_tth st)
      (fs_tigertree st) (fs_sha1 st) (fs_cha1 st) (fs_alias st) l tmp in
  if field =? FILE_INFO_FIELD_NAME then
    if 3 <=? version then Some st
    else Some (set_alias (fi_alias_append (fs_alias st) (c_str data)))
  else if field =? FILE_INFO_FIELD_ALIAS then
    Some (set_alias (fi_alias_append (fs_alias st) (c_str data)))
  else if field =? FILE_INFO_FIELD_GUID then
    if tmpuint =? GUID_RAW_SIZE then Some (set_guid (Some data)) else Some st
  else if field =? FILE_INFO_FIELD_TTH then
    if tmpuint =? TTH_RAW_SIZE then
      match fs_tth st with
      | None => Some (set_tth (Some data))
      | Some _ => Some st
      end
    else Some st
  else if field =? FILE_INFO_FIELD_TIGERTREE then
    if (0 <? tmpuint) && (tmpuint mod TTH_RAW_SIZE =? 0) then
      let num_leaves := tmpuint / TTH_RAW_SIZE in
      if (0 <? num_leaves)
         && (Z.of_nat (length (fs_tigertree st)) <? num_leaves)
         && fs_file_size_known st
      then Some (set_tigertree (tth_leaves (Z.to_nat num_leaves) data))
      else Some st
    else Some st
  else if field =? FILE_INFO_FIELD_SHA1 then
    if tmpuint =? SHA1_RAW_SIZE then Some (set_sha1 (Some data)) else Some st
  else if field =? FILE_INFO_FIELD_CHA1 then
    if tmpuint =? SHA1_RAW_SIZE then Some (set_cha1 (Some data)) else Some st
  else if field =? FILE_INFO_FIELD_CHUNK then
    match decode_chunk little_endian t64 version tmp with
    | Some fc => Some (set_chunks (fc :: fs_chunklist st))
    | None => None
    end
  else Some st.

(** Why [file_info_retrieve_binary] returns NULL, or does not return. *)
Inductive retrieve_error :=
| NoTrailer            (* "could not find trailer" *)
| UnexpectedEof        (* a read past the end of the buffer *)
| StrangeVersion
| ZeroSizeField
| FieldTooLarge
| InconsistentChunks   (* "File contains inconsistent chunk list" *)
| ChecksumMismatch
| AssertionFailed      (* the process aborts *)
| OutOfFuel.           (* the model gave the field loop too few steps *)

(** The [for (;;)] loop over the variable-length fields: [fuel] bounds the
    number of fields read. *)
Fixpoint retrieve_fields (fuel : nat) (little_endian t64 : bool)
    (version : Z) (st : fields_state) (r : rbuf)
    : (fields_state * rbuf) + retrieve_error :=
  match fuel with
  | O => inr OutOfFuel
  | S fuel' =>
      match READ_UINT32 r with
      | None => inr UnexpectedEof
      | Some (field, r1) =>
          if field =? FILE_INFO_FIELD_END then inl (st, r1)
          else
            match READ_UINT32 r1 with
            | None => inr UnexpectedEof
            | Some (tmpuint, r2) =>
                if tmpuint =? 0 then inr ZeroSizeField
                else if FI_MAX_FIELD_LEN <? tmpuint then inr FieldTooLarge
                else
                  match READ_STR (Z.to_nat tmpuint) r2 with
                  | None => inr UnexpectedEof
                  | Some (data, r3) =>
                      let tmp :=
                        data ++ 0 :: skipn (S (length data)) (fs_tmp st) in
                      let st1 :=
                        mk_fields (fs_file_size_known st) (fs_guid st)
                          (fs_tth st) (fs_tigertree st) (fs_sha1 st)
                          (fs_cha1 st) (fs_alias st) (fs_chunklist st) tmp in
                      match retrieve_field little_endian t64 version field
                              tmpuint st1 with
                      | None => inr AssertionFailed
                      | Some st2 =>
                          retrieve_fields fuel' little_endian t64 version
                            st2 r3
                      end
                  end
            end
      end
  end.

(** The environment of a retrieval: the byte order of the host (for the
    oldest trailers), the time of day, the GUID drawn when the trailer has
    none, the initial content of the scratch buffer [tmp], the bytes that
    the arena of the trailer buffer holds after those read from the file
    ([tbuf.end] is the end of the arena, which is never shrunk), and the
    functions of the tiger-tree library used by [fi_tigertree_check]. *)
Record retrieve_env := mk_env {
  env_little_endian : bool;
  env_tm_time : Z;
  env_random_guid : list Z;
  env_tmp : list Z;     (* [FI_MAX_FIELD_LEN + 1] bytes *)
  env_arena : list Z;
  env_tt_depth : Z -> Z;
  env_tt_node_count_at_depth : Z -> Z -> Z;
  env_tt_root_hash : list (list Z) -> list Z
}.

(** [fi_tigertree_check]: the leaves that are kept. *)
Definition fi_tigertree_check (env : retrieve_env) (size : Z) (known : bool)
    (tth : option (list Z)) (leaves : list (list Z)) : list (list Z) :=
  match leaves with
  | [] => []
  | _ =>
      match tth with
      | None => []
      | Some root =>
          let num_leaves := Z.of_nat (length leaves) in
          let depth := env_tt_depth env num_leaves in
          if known
             && negb (num_leaves =? env_tt_node_count_at_depth env size depth)
          then []
          else if bool_decide (env_tt_root_hash env leaves = root)
          then leaves else []
      end
  end.

(** The end of [file_info_retrieve_binary], once the checksum has been found
    right: the values missing from the older versions are supplied
    ([fi_upgrade_older_version]), the tiger tree is checked and the chunk
    list merged.  [created] and [ntime] are the values read from the
    trailer, if the version has them. *)
Definition retrieved_fileinfo (env : retrieve_env) (pathname : list Z)
    (tb : trailer) (version created ntime : Z) (st : fields_state)
    : fileinfo :=
  let created := if version <? 4 then env_tm_time env else created in
  let ntime := if version <? 4 then env_tm_time env else ntime in
  let known := if version <? 5 then true else fs_file_size_known st in
  (* fi_upgrade_older_version *)
  let created := if created =? 0 then env_tm_time env else created in
  let ntime := if ntime =? 0 then created else ntime in
  let known :=
    if negb (tr_filesize tb =? 0) && negb known then true else known in
  let guid :=
    match fs_guid st with
    | None => Some (env_random_guid env)
    | g => g
    end in
  file_info_merge_adjacent
    (mk_fileinfo pathname (tr_filesize tb) 0 known true false 0 0
       (tr_generation tb) created ntime guid (fs_tth st)
       (fi_tigertree_check env (tr_filesize tb) known (fs_tth st)
          (fs_tigertree st))
       (fs_sha1 st) (fs_cha1 st) (fs_alias st) (rev (fs_chunklist st))).

(** The words read after the end marker: the size (two words in a 64-bit
    trailer), the generation number and the length of the trailer. *)
Definition retrieve_tail (t64 : bool) (r : rbuf) : option rbuf :=
  match (if t64 then READ_UINT32 r else Some (0, r)) with
  | None => None
  | Some (_, r) =>
      match READ_UINT32 r with
      | None => None
      | Some (_, r) =>
          match READ_UINT32 r with
          | None => None
          | Some (_, r) =>
              match READ_UINT32 r with
              | None => None
              | Some (_, r) => Some r
              end
          end
      end
  end.

(** [file_info_retrieve_binary(pathname)] for a regular file that holds
    [file]. *)
Definition file_info_retrieve_binary (env : retrieve_env)
    (pathname : list Z) (file : list Z) : fileinfo + retrieve_error :=
  match file_info_get_trailer file with
  | None => inr NoTrailer
  | Some tb =>
      let t64 := trailer_is_64bit tb in
      let tbuf :=
        firstn (Z.to_nat (tr_length tb))
          (skipn (Z.to_nat (tr_filesize tb)) file) ++ env_arena env in
      let r := mk_rbuf tbuf 0 in
      match READ_UINT32 r with
      | None => inr UnexpectedEof
      | Some (version, r) =>
          if (t64 && (FILE_INFO_VERSION <? version))
             || (negb t64 && (5 <? version))
          then inr StrangeVersion
          else
            let leading :=
              if 4 <=? version then
                match READ_UINT32 r with
                | None => None
                | Some (created, r) =>
                    match READ_UINT32 r with
                    | None => None
                    | Some (ntime, r) => Some (created, ntime, r)
                    end
                end
              else Some (0, 0, r) in
            match leading with
            | None => inr UnexpectedEof
            | Some (created, ntime, r) =>
                let fskn :=
                  if 5 <=? version then
                    match READ_CHAR r with
                    | None => None
                    | Some (c, r) => Some (negb (c =? 0), r)
                    end
                  else Some (true, r) in
                match fskn with
                | None => inr UnexpectedEof
                | Some (known, r) =>
                    let st0 :=
                      mk_fields known None None [] None None [] []
                        (env_tmp env) in
                    match retrieve_fields (S (length (rb_bytes r)))
                            (env_little_endian env) t64 version st0 r with
                    | inr e => inr e
                    | inl (st, r) =>
                        if negb (check_chunks (fs_file_size_known st)
                                   (tr_filesize tb) 0
                                   (rev (fs_chunklist st)))
                        then inr InconsistentChunks
                        else
                          match retrieve_tail t64 r with
                          | None => inr UnexpectedEof
                          | Some r =>
                              if negb (rb_checksum r =? tr_checksum tb)
                              then inr ChecksumMismatch
                              else
                                inl (retrieved_fileinfo env pathname tb
                                       version created ntime st)
                          end
                    end
                end
            end
      end
  end.

(** *** The layout of a trailer *)

(** A write buffer that holds [bytes], with their checksum. *)
Definition wbuf_of (bytes : list Z) : wbuf :=
  mk_wbuf bytes (file_info_checksum 0 bytes).

(** The bytes of a field: its id, the length of its data, its data. *)
Definition field_bytes (f : Z * list Z) : list Z :=
  htonl_bytes (u32 (fst f))
  ++ htonl_bytes (u32 (Z.of_nat (length (snd f)))) ++ snd f.

Definition opt_field (id : Z) (data : option (list Z)) : list (Z * list Z) :=
  match data with Some bs => [(id, bs)] | None => [] end.

Definition alias_fields (aliases : list (list Z)) : list (Z * list Z) :=
  omap (fun a =>
          if Z.of_nat (length (c_str a)) <? FI_MAX_FIELD_LEN
          then Some (FILE_INFO_FIELD_ALIAS, c_str a) else None) aliases.

(** The fields that [file_info_fd_store_binary] writes, in order. *)
Definition stored_fields (fi : fileinfo) (guid : list Z)
    : list (Z * list Z) :=
  [(FILE_INFO_FIELD_GUID, guid)]
  ++ opt_field FILE_INFO_FIELD_TTH (fi_tth fi)
  ++ match fi_tigertree fi with
     | [] => []
     | leaves => [(FILE_INFO_FIELD_TIGERTREE, concat leaves)]
     end
  ++ opt_field FILE_INFO_FIELD_SHA1 (fi_sha1 fi)
  ++ opt_field FILE_INFO_FIELD_CHA1 (fi_cha1 fi)
  ++ alias_fields (fi_alias fi)
  ++ map (fun fc => (FILE_INFO_FIELD_CHUNK, chunk_field fc)) (fi_chunklist fi).

(** The part of a trailer that the checksum covers: the version, the leading
    values, the fields, the end marker, the size, the generation number and
    the length of the trailer. *)
Definition covered_bytes (version created ntime fskn : Z)
    (fields : list (Z * list Z)) (size generation length : Z) : list Z :=
  htonl_bytes (u32 version) ++ htonl_bytes (u32 created)
  ++ htonl_bytes (u32 ntime) ++ [fskn]
  ++ concat (map field_bytes fields)
  ++ htonl_bytes (u32 FILE_INFO_FIELD_END)
  ++ htonl_bytes (u32 (Z.shiftr (u64 size) 32)) ++ htonl_bytes (u32 size)
  ++ htonl_bytes (u32 generation) ++ htonl_bytes (u32 length).

(** A field that the loop accepts: it is not the end marker, and its data is
    neither empty nor longer than [FI_MAX_FIELD_LEN]. *)
Definition field_ok (f : Z * list Z) : Prop :=
  0 <= fst f < 2 ^ 32 /\ fst f <> FILE_INFO_FIELD_END
  /\ 0 < Z.of_nat (length (snd f)) <= FI_MAX_FIELD_LEN
  /\ Z.of_nat (length (snd f)) < 2 ^ 32.

(** One turn of the loop on a field whose bytes have been read: the data
    goes to the start of [tmp], followed by a NUL. *)
Definition apply_field (little_endian t64 : bool) (version : Z)
    (st : fields_state) (f : Z * list Z) : option fields_state :=
  retrieve_field little_endian t64 version (fst f)
    (Z.of_nat (length (snd f)))
    (mk_fields (fs_file_size_known st) (fs_guid st) (fs_tth st)
       (fs_tigertree st) (fs_sha1 st) (fs_cha1 st) (fs_alias st)
       (fs_chunklist st)
       (snd f ++ 0 :: skipn (S (length (snd f))) (fs_tmp st))).

Fixpoint apply_fields (little_endian t64 : bool) (version : Z)
    (st : fields_state) (fields : list (Z * list Z)) : option fields_state :=
  match fields with
  | [] => Some st
  | f :: fields' =>
      match apply_field little_endian t64 version st f with
      | Some st' => apply_fields little_endian t64 version st' fields'
      | None => None
      end
  end.

(** The chunks that the loop decodes from the CHUNK fields of a version 6
    trailer whose chunk fields are complete. *)
Fixpoint field_chunks (little_endian : bool) (fields : list (Z * list Z))
    : list dl_file_chunk :=
  match fields with
  | [] => []
  | f :: fields' =>
      if fst f =? FILE_INFO_FIELD_CHUNK then
        match decode_chunk little_endian true FILE_INFO_VERSION (snd f) with
        | Some fc => fc :: field_chunks little_endian fields'
        | None => field_chunks little_endian fields'
        end
      else field_chunks little_endian fields'
  end.

(** How a stored chunk comes back: without owner, and EMPTY when it was
    BUSY. *)
Definition retrieved_chunk (fc : dl_file_chunk) : dl_file_chunk :=
  mk_chunk (fc_from fc) (fc_to fc) None
    (if fc_status fc =? DL_CHUNK_BUSY then DL_CHUNK_EMPTY else fc_status fc).

(** The boundaries and status of a chunk. *)
Definition chunk_extent (fc : dl_file_chunk) : Z * Z * Z :=
  (fc_from fc, fc_to fc, fc_status fc).

(** No two consecutive chunks have the same status. *)
Fixpoint statuses_alternate (l : list dl_file_chunk) : bool :=
  match l with
  | fc1 :: ((fc2 :: _) as sl) =>
      negb (fc_status fc1 =? fc_status fc2) && statuses_alternate sl
  | _ => true
  end.

(** A file information that can be stored and read back: its chunk list
    passes [file_info_check_chunklist], the numbers have the width of their
    C type, a GUID, a digest and a leaf have their size, the leaves fit in a
    field, and an alias is a non-empty string that fits in a field and does
    not look like an URN. *)
Record fi_storable (fi : fileinfo) : Prop := mk_storable {
  st_size : 0 <= fi_size fi < 2 ^ 64;
  st_created : 0 <= fi_created fi < 2 ^ 32;
  st_ntime : 0 <= fi_ntime fi < 2 ^ 32;
  st_chunks :
    check_chunks (fi_file_size_known fi) (fi_size fi) 0 (fi_chunklist fi)
    = true;
  st_typed : chunks_typed (fi_chunklist fi) = true;
  st_status :
    Forall (fun fc => 0 <= fc_status fc < 2 ^ 32) (fi_chunklist fi);
  st_guid : forall g, fi_guid fi = Some g -> Z.of_nat (length g) = GUID_RAW_SIZE;
  st_tth : forall t, fi_tth fi = Some t -> Z.of_nat (length t) = TTH_RAW_SIZE;
  st_sha1 : forall s, fi_sha1 fi = Some s -> Z.of_nat (length s) = SHA1_RAW_SIZE;
  st_cha1 : forall s, fi_cha1 fi = Some s -> Z.of_nat (length s) = SHA1_RAW_SIZE;
  st_leaves :
    Forall (fun l => Z.of_nat (length l) = TTH_RAW_SIZE) (fi_tigertree fi);
  st_num_leaves : Z.of_nat (length (fi_tigertree fi)) <= TTH_MAX_LEAVES;
  st_alias :
    Forall (fun a => c_str a = a /\ a <> []
                     /\ Z.of_nat (length a) < FI_MAX_FIELD_LEN
                     /\ looks_like_urn a = false) (fi_alias fi)
}.

End Codec.

(** What [file_info_new_chunk_owner] may do to a chunk: nothing, give a
    BUSY chunk of another download to [d], or release a BUSY chunk. *)
Definition owner_step (d : download_id) (fc fc' : dl_file_chunk) : Prop :=
  fc' = fc
  \/ (fc_status fc = DL_CHUNK_BUSY
      /\ (exists old, fc_download fc = Some old /\ old <> d)
      /\ fc' = mk_chunk (fc_from fc) (fc_to fc) (Some d) DL_CHUNK_BUSY)
  \/ (fc_status fc = DL_CHUNK_BUSY
      /\ fc' = mk_chunk (fc_from fc) (fc_to fc) None DL_CHUNK_EMPTY).

(** What an update may do to the status of a byte after the range it marks:
    nothing, or free it when it was BUSY (the rest of a reserved chunk of
    which the beginning is taken over). *)
Definition released (s s' : Z) : Prop :=
  s' = s \/ (s = DL_CHUNK_BUSY /\ s' = DL_CHUNK_EMPTY).

(** The chunk list [l'] is [l] with the bytes from [from] to [to] (excluded)
    given the status [status], as far as [l] reaches, which is up to [b]. *)
Definition marked (from to status b : Z) (l l' : list dl_file_chunk) : Prop :=
  forall pos,
    (pos < from -> pos_status_scan pos l' = pos_status_scan pos l)
    /\ (from <= pos < to -> pos < b -> pos_status_scan pos l' = status)
    /\ (to <= pos ->
        released (pos_status_scan pos l) (pos_status_scan pos l')).

Definition scan_marked (from to status b : Z) (l : list dl_file_chunk)
    (r : scan_result) : Prop :=
  match r with
  | ScanStop l' _ _ _ _ => marked from to status b l l'
  | ScanAgain l' from' _ _ => from < from' /\ marked from from' status b l l'
  end.

(** The BUSY chunk [fc] holds one of the bounds of the segment. *)
Definition meets_segment (from to : Z) (fc : dl_file_chunk) : Prop :=
  fc_status fc = DL_CHUNK_BUSY
  /\ (fc_from fc <= from < fc_to fc \/ fc_from fc <= to < fc_to fc).

(** Calls of the two operations that maintain the byte counter. *)
Inductive chunk_call :=
| CallUpdate (d : download_id) (from to : filesize_t) (status : Z)
| CallMergeAdjacent.

Definition run_call (fi : fileinfo) (c : chunk_call) : option fileinfo :=
  match c with
  | CallUpdate d from to status => file_info_update fi d from to status
  | CallMergeAdjacent => Some (file_info_merge_adjacent fi)
  end.

Fixpoint run_calls (fi : fileinfo) (calls : list chunk_call)
    : option fileinfo :=
  match calls with
  | [] => Some fi
  | c :: rest =>
      match run_call fi c with
      | Some fi' => run_calls fi' rest
      | None => None
      end
  end.

(** The three chunks that replace [fc] when [from, to) is written strictly
    inside it. *)
Definition inside_lower (fc : dl_file_chunk) (from : Z) : dl_file_chunk :=
  fc_set_to fc from.
Definition inside_upper (fc : dl_file_chunk) (to : Z) : dl_file_chunk :=
  if fc_status fc =? DL_CHUNK_BUSY
  then mk_chunk to (fc_to fc) None DL_CHUNK_EMPTY
  else mk_chunk to (fc_to fc) (fc_download fc) (fc_status fc).

(** The range taken by aggressive swarming from a chunk [0, n): the second
    half from the midpoint [(0 + n - 1) / 2] when the chunk is at least
    [2 * FI_MIN_CHUNK_SPLIT] bytes long, the whole chunk otherwise; and the
    chunk list that results when [B] takes it from [A]. *)
Definition stolen_start (n : Z) : filesize_t :=
  if 2 * FI_MIN_CHUNK_SPLIT <=? n then (n - 1) / 2 else 0.

Definition chunks_after_steal (A B : download_id) (n : Z)
    : list dl_file_chunk :=
  if 2 * FI_MIN_CHUNK_SPLIT <=? n
  then [mk_chunk 0 ((n - 1) / 2) (Some A) DL_CHUNK_BUSY;
        mk_chunk ((n - 1) / 2) n (Some B) DL_CHUNK_BUSY]
  else [mk_chunk 0 n (Some B) DL_CHUNK_BUSY].

(** ** Sample states *)

Definition merge_sample : fileinfo :=
  sample_fi 1000
    [mk_chunk 0 100 None DL_CHUNK_EMPTY; mk_chunk 100 300 None DL_CHUNK_EMPTY;
     mk_chunk 300 400 (Some 1%nat) DL_CHUNK_BUSY;
     mk_chunk 400 500 (Some 1%nat) DL_CHUNK_BUSY;
     mk_chunk 500 700 (Some 2%nat) DL_CHUNK_DONE;
     mk_chunk 700 1000 None DL_CHUNK_DONE] 0.


Definition done_sample : fileinfo :=
  sample_fi 1000
    [mk_chunk 0 300 None DL_CHUNK_DONE; mk_chunk 300 1000 None DL_CHUNK_EMPTY]
    300.

Definition sample_props : gnet_property :=
  mk_props 65536 1048576 65536 false true 0 0 0 true 5.

(** Download 1 is a stalled source, the others transfer at 100 B/s; none
    advertises partial ranges. *)
Definition sample_dls (d : download_id) : download :=
  match d with
  | 1%nat => mk_download 500 0 0 false true [] 0
  | _ => mk_download 500 0 100 false true [] 0
  end.

Definition partition_sample : fileinfo :=
  mk_fileinfo [] 1000000 0 true true false 3 3 0 0 0 None None [] None None []
    [mk_chunk 0 1000000 None DL_CHUNK_EMPTY].

Definition partition_ops : list fi_op :=
  [OpFindHole false 300000 1%nat;
   OpReset;
   OpFindHole false 300000 1%nat;
   OpUpdate 1%nat 262144 300000 DL_CHUNK_DONE;
   OpFindHole false 0 2%nat;
   OpUpdate 2%nat 0 1000 DL_CHUNK_DONE;
   OpClearDownload 1%nat;
   OpMergeAdjacent;
   OpFindHole false 700000 3%nat].

Definition partition_final : fileinfo :=
  mk_fileinfo [] 1000000 38856 true true false 3 3 0 0 0 None None [] None
    None []
    [mk_chunk 0 1000 None DL_CHUNK_DONE;
     mk_chunk 1000 65536 (Some 2%nat) DL_CHUNK_BUSY;
     mk_chunk 65536 262144 None DL_CHUNK_EMPTY;
     mk_chunk 262144 300000 None DL_CHUNK_DONE;
     mk_chunk 300000 655360 None DL_CHUNK_EMPTY;
     mk_chunk 655360 720896 (Some 3%nat) DL_CHUNK_BUSY;
     mk_chunk 720896 1000000 None DL_CHUNK_EMPTY].

Definition steal_sample : fileinfo :=
  mk_fileinfo [] 1000 0 true true false 2 2 0 0 0 None None [] None None []
    [mk_chunk 0 1000 (Some 1%nat) DL_CHUNK_BUSY].

(** Download 1 is stalled; download 3 pipelines its requests. *)
Definition pipeline_dls (d : download_id) : download :=
  match d with
  | 1%nat => mk_download 6000 0 0 false true [] 0
  | _ => mk_download 6000 1 100 true true [] 0
  end.

Definition pipeline_props : gnet_property :=
  mk_props 65536 1048576 65536 true false 0 0 0 true 5.

Definition pipeline_sample : fileinfo :=
  mk_fileinfo [] 6000 0 true true false 2 2 0 0 0 None None [] None None []
    [mk_chunk 0 5000 (Some 1%nat) DL_CHUNK_BUSY;
     mk_chunk 5000 6000 (Some 3%nat) DL_CHUNK_BUSY].

Definition pipeline_after : fileinfo :=
  mk_fileinfo [] 6000 0 true true false 2 2 0 0 0 None None [] None None []
    [mk_chunk 0 2499 (Some 1%nat) DL_CHUNK_BUSY;
     mk_chunk 2499 5000 (Some 3%nat) DL_CHUNK_BUSY;
     mk_chunk 5000 6000 (Some 3%nat) DL_CHUNK_BUSY].

Definition aggressive_props : gnet_property :=
  mk_props 65536 1048576 65536 false false 0 0 0 true 5.

(** The whole file is one BUSY chunk reserved by download 1. *)
Definition busy500 : fileinfo :=
  mk_fileinfo [] 500 0 true true false 2 2 0 0 0 None None [] None None []
    [mk_chunk 0 500 (Some 1%nat) DL_CHUNK_BUSY].

Definition busy5000 : fileinfo :=
  mk_fileinfo [] 5000 0 true true false 2 2 0 0 0 None None [] None None []
    [mk_chunk 0 5000 (Some 1%nat) DL_CHUNK_BUSY].

(** A file information with a BUSY chunk and two adjacent DONE chunks, its
    GUID, its SHA1 and two aliases; and one whose chunk list is merged and
    has no BUSY chunk.  In the examples [TTH_MAX_LEAVES] is 512. *)
Definition codec_sample : fileinfo :=
  mk_fileinfo [47; 120] 40 20 true true false 1 1 7 1000 2000
    (Some [1; 2; 3; 4; 5; 6; 7; 8; 9; 10; 11; 12; 13; 14; 15; 16]) None []
    (Some [3; 3; 3; 3; 3; 3; 3; 3; 3; 3; 3; 3; 3; 3; 3; 3; 3; 3; 3; 3]) None
    [[97; 46; 116; 120; 116]; [98]]
    [mk_chunk 0 10 None DL_CHUNK_DONE; mk_chunk 10 20 None DL_CHUNK_DONE;
     mk_chunk 20 30 (Some 1%nat) DL_CHUNK_BUSY;
     mk_chunk 30 40 None DL_CHUNK_EMPTY].

Definition merged_sample : fileinfo :=
  mk_fileinfo [47; 120] 40 10 true true false 1 1 7 1000 2000
    (Some [1; 2; 3; 4; 5; 6; 7; 8; 9; 10; 11; 12; 13; 14; 15; 16]) None []
    (Some [3; 3; 3; 3; 3; 3; 3; 3; 3; 3; 3; 3; 3; 3; 3; 3; 3; 3; 3; 3]) None
    [[97; 46; 116; 120; 116]; [98]]
    [mk_chunk 0 10 None DL_CHUNK_DONE; mk_chunk 10 40 None DL_CHUNK_EMPTY].

Definition sample_env : retrieve_env :=
  mk_env true 5000 (repeat 0 16) [] [] (fun _ => 0) (fun _ _ => 0)
    (fun _ => []).

Definition codec_sample_stored : option (fileinfo * list Z) :=
  Eval vm_compute in file_info_fd_store_binary 512 codec_sample [].

Definition codec_sample_file : list Z :=
  match codec_sample_stored with Some (_, file) => file | None => [] end.

Definition merged_sample_file : list Z :=
  Eval vm_compute in
    match file_info_fd_store_binary 512 merged_sample [] with
    | Some (_, file) => file
    | None => []
    end.

(** What reading [codec_sample_file] gives. *)
Definition codec_sample_back : fileinfo :=
  Eval vm_compute in
    match file_info_retrieve_binary 512 sample_env [47; 120]
            codec_sample_file with
    | inl fi => fi
    | inr _ => codec_sample
    end.

(** Download 1 holds two BUSY chunks. *)
Definition owner_sample : fileinfo :=
  sample_fi 300
    [mk_chunk 0 100 (Some 1%nat) DL_CHUNK_BUSY;
     mk_chunk 100 200 (Some 1%nat) DL_CHUNK_BUSY;
     mk_chunk 200 300 None DL_CHUNK_EMPTY] 0.

(** A file of unknown size of which 100 bytes were received. *)
Definition unknown_sample : fileinfo :=
  mk_fileinfo [] 0 100 false false false 1 1 0 0 0 None None [] None None []
    [].

(** The state of [partition_sample] once download 1 was granted a range out
    of the bytes 100000 to 199999 that its source offers. *)
Definition available_sample_after : fileinfo :=
  Eval vm_compute in
    match file_info_find_available_hole (D := Q_double) aggressive_props
            sample_dls true false 0 partition_sample 1%nat
            [(100000, 199999)] with
    | Some (_, fi') => fi'
    | None => partition_sample
    end.

(** The state of [merge_sample] once download 3 has written the bytes 50 to
    349. *)
Definition update_sample_after : fileinfo :=
  Eval vm_compute in
    match file_info_update merge_sample 3%nat 50 350 DL_CHUNK_DONE with
    | Some fi' => fi'
    | None => merge_sample
    end.

(** A file information whose size is recorded as unknown although it is not
    zero, with a chunk that ends after the size; and the file that holds its
    trailer. *)
Definition unknown_size_sample : fileinfo :=
  mk_fileinfo [47; 120] 40 0 false true false 1 1 7 1000 2000
    (Some [1; 2; 3; 4; 5; 6; 7; 8; 9; 10; 11; 12; 13; 14; 15; 16])
    None [] None None []
    [mk_chunk 0 50 None DL_CHUNK_EMPTY].

Definition unknown_size_file : list Z :=
  Eval vm_compute in
    match file_info_fd_store_binary 512 unknown_size_sample [] with
    | Some (_, file) => file
    | None => []
    end.


(** ** The tables of file informations and the SHA1 of a running download *)

(** Besides the fields of [fileinfo], the table functions use [fi->hashed],
    [fi->sf] (here: whether it is not NULL), the flag [FI_F_DISCARD] and the
    list [fi->sources].  The other flags ([FI_F_PAUSED], [FI_F_SEEDING],
    [FI_F_UNLINKED], [FI_F_STRIPPED]), the file on disk, the handles and the
    events sent to the listeners are left out. *)
Record fi_entry := mk_entry {
  fe_fi : fileinfo;
  fe_hashed : bool;
  fe_sf : bool;
  fe_discard : bool;
  fe_sources : list download_id
}.

(** Modelled from the spec: what the functions below use of a
    [struct download], declared in a header that is not among the sources:
    [d->file_info], [d->src_handle_valid] and the value of
    [download_is_alive(d)], the "liveness flag" of the spec's Source. *)
Record dl_source := mk_source {
  src_file_info : option fi_id;
  src_handle_valid : bool;
  src_alive : bool
}.

(** The allocated [fileinfo_t], the four tables of [fileinfo.c], the
    downloads, and the two property counters.  A file information is named
    by a [fi_id], which stands for its address. *)
Record fi_tables := mk_tables {
  t_heap : gmap fi_id fi_entry;
  fi_by_outname : gmap (list Z) fi_id;
  fi_by_sha1 : gmap (list Z) fi_id;
  fi_by_guid : gmap (list Z) fi_id;
  fi_by_namesize : gmap (list Z * Z) (list fi_id);
  t_downloads : gmap download_id dl_source;
  fi_all_count : Z;
  fi_with_source_count : Z
}.



Definition set_heap (t : fi_tables) (h : gmap fi_id fi_entry) : fi_tables :=
  mk_tables h (fi_by_outname t) (fi_by_sha1 t) (fi_by_guid t)
    (fi_by_namesize t) (t_downloads t) (fi_all_count t)
    (fi_with_source_count t).





















(** The downloads whose file information is [fi], in the order of their
    identifiers. *)
Definition downloads_of (t : fi_tables) (fi : fi_id) : list download_id :=
  (filter (fun ds => src_file_info ds.2 = Some fi)
     (map_to_list (t_downloads t))).*1.















(** * Properties *)

Lemma u64_small z : 0 <= z < 2 ^ 64 -> u64 z = z.
Proof. intros. unfold u64. apply Z.mod_small. lia. Qed.

Lemma u32_small z : 0 <= z < 2 ^ 32 -> u32 z = z.
Proof. intros. unfold u32. apply Z.mod_small. lia. Qed.

Lemma chain_le a l b : chain a l b -> a <= b.
Proof.
  revert a. induction l as [|fc sl IH]; simpl; intros a H; [lia|].
  destruct H as (? & ? & H). apply IH in H. lia.
Qed.

Lemma chain_app a l1 l2 b :
  chain a (l1 ++ l2) b <-> exists m, chain a l1 m /\ chain m l2 b.
Proof.
  revert a. induction l1 as [|fc sl IH]; simpl; intros a.
  - split; [intros H; exists a; auto | intros (m & -> & H); auto].
  - rewrite IH. split.
    + intros (? & ? & m & ? & ?). exists m. auto.
    + intros (m & (? & ? & ?) & ?). repeat split; auto. exists m; auto.
Qed.

Lemma chain_done_sum a l b : chain a l b -> 0 <= done_sum l <= b - a.
Proof.
  revert a. induction l as [|fc sl IH]; simpl; intros a H; [lia|].
  destruct H as (? & ? & H). apply IH in H.
  destruct (fc_status fc =? DL_CHUNK_DONE); lia.
Qed.

Lemma chain_In a l b fc :
  chain a l b -> In fc l -> a <= fc_from fc /\ fc_from fc < fc_to fc <= b.
Proof.
  revert a. induction l as [|x sl IH]; simpl; intros a H Hin; [tauto|].
  destruct H as (? & ? & H). pose proof (chain_le _ _ _ H).
  destruct Hin as [->|Hin]; [lia|]. apply (IH _ H) in Hin. lia.
Qed.

Lemma chain_lookup a l b (i : nat) fc :
  chain a l b -> l !! i = Some fc ->
  a <= fc_from fc /\ fc_from fc < fc_to fc <= b.
Proof.
  intros H Hi. apply (chain_In _ _ _ _ H).
  apply list_elem_of_In. eapply list_elem_of_lookup_2; eauto.
Qed.

Lemma chain_next a l b (i : nat) fc1 fc2 :
  chain a l b -> l !! i = Some fc1 -> l !! S i = Some fc2 ->
  fc_to fc1 = fc_from fc2.
Proof.
  revert a i. induction l as [|x sl IH]; intros a i H H1 H2; [done|].
  simpl in H. destruct H as (? & ? & H).
  destruct i as [|i]; simpl in *.
  - simplify_eq. destruct sl; simpl in *; simplify_eq.
    destruct H as [? _]. lia.
  - eapply IH; eauto.
Qed.

Lemma chain_last a l b fc : chain a l b -> last l = Some fc -> fc_to fc = b.
Proof.
  revert a. induction l as [|x sl IH]; intros a H Hl; [done|].
  simpl in H. destruct H as (? & ? & H).
  destruct sl as [|y sl].
  - simpl in *. simplify_eq. done.
  - eapply IH; eauto.
Qed.

Lemma chain_partitions size l :
  0 < size -> chain 0 l size -> chunklist_partitions size l.
Proof.
  intros Hs H. unfold chunklist_partitions.
  split; [|split; [|split; [|split]]].
  - intros fc Hh. destruct l; simpl in *; simplify_eq. tauto.
  - intros i fc Hi. pose proof (chain_lookup _ _ _ _ _ H Hi). lia.
  - intros i fc1 fc2 H1 H2.
    pose proof (chain_next _ _ _ _ _ _ H H1 H2).
    pose proof (chain_lookup _ _ _ _ _ H H1). lia.
  - intros fc Hl. eapply chain_last; eauto.
  - intros ->. simpl in H. lia.
Qed.

Lemma partitions_chain size l :
  chunklist_partitions size l -> chain 0 l size.
Proof.
  intros (Hh & Hb & Hn & Hl & Hne).
  assert (forall a, (forall fc, head l = Some fc -> fc_from fc = a) ->
                    chain a l size) as G; [|apply G; auto].
  clear Hh. induction l as [|x sl IH]; [done|].
  intros a Ha. simpl. split; [apply Ha; done|].
  destruct (Hb 0%nat x eq_refl) as [Hx _].
  split; [rewrite <- (Ha x eq_refl); done|].
  destruct sl as [|y sl].
  - simpl. apply Hl. done.
  - apply IH.
    + intros i fc. apply (Hb (S i)).
    + intros i fc1 fc2. apply (Hn (S i)).
    + intros fc. apply Hl.
    + done.
    + intros fc Hfc. simpl in Hfc. simplify_eq.
      symmetry. apply (Hn 0%nat x fc); done.
Qed.

(** *** The merge pass *)

Lemma merge_visit_from fc : fc_from (merge_visit fc) = fc_from fc.
Proof. unfold merge_visit. destruct (_ =? _); done. Qed.

Lemma merge_visit_to fc : fc_to (merge_visit fc) = fc_to fc.
Proof. unfold merge_visit. destruct (_ =? _); done. Qed.

Lemma merge_visit_status fc : fc_status (merge_visit fc) = fc_status fc.
Proof. unfold merge_visit. destruct (_ =? _); done. Qed.

Lemma merge_visit_visited fc : visited (merge_visit fc).
Proof.
  unfold merge_visit, visited.
  destruct (Z.eqb_spec (fc_status fc) DL_CHUNK_DONE); simpl; [done|].
  intros; congruence.
Qed.

Lemma merge_visit_id fc : visited fc -> merge_visit fc = fc.
Proof.
  unfold merge_visit, visited.
  destruct (Z.eqb_spec (fc_status fc) DL_CHUNK_DONE); [|done].
  intros H. destruct fc; simpl in *. rewrite H; done.
Qed.

Lemma merge_visit_busy fc :
  fc_status fc = DL_CHUNK_BUSY -> merge_visit fc = fc.
Proof.
  intros H. unfold merge_visit. rewrite H. done.
Qed.

Lemma fc_set_to_id fc : fc_set_to fc (fc_to fc) = fc.
Proof. destruct fc; done. Qed.

Lemma merge_loop_chain fc1 sl done a b :
  chain a (fc1 :: sl) b -> chain a (merge_loop fc1 sl done).1 b.
Proof.
  revert fc1 done a. induction sl as [|fc2 next IH]; intros fc1 done a H.
  - done.
  - simpl in H. destruct H as (H1 & H2 & H3 & H4 & H5).
    cbn [merge_loop].
    rewrite merge_visit_status, merge_visit_to.
    destruct (_ && _).
    + apply IH. simpl. repeat split; auto. lia.
    + specialize (IH (merge_visit fc2) (merge_done done fc2) (fc_to fc1)).
      destruct (merge_loop _ _ _) as [l d]. simpl in *.
      repeat split; auto. apply IH.
      rewrite merge_visit_from, merge_visit_to. auto.
Qed.

Lemma merge_loop_done fc1 sl done b :
  chain (fc_to fc1) sl b -> 0 <= done -> done + (b - fc_to fc1) < 2 ^ 64 ->
  0 <= fc_to fc1 ->
  (merge_loop fc1 sl done).2 = done + done_sum sl.
Proof.
  revert fc1 done. induction sl as [|fc2 next IH]; intros fc1 done H Hd Hb H0.
  - simpl. lia.
  - simpl in H. destruct H as (H3 & H4 & H5).
    pose proof (chain_le _ _ _ H5). pose proof (chain_done_sum _ _ _ H5).
    cbn [merge_loop done_sum].
    rewrite merge_visit_status, merge_visit_to.
    assert (merge_done done fc2 =
            done + (if fc_status fc2 =? DL_CHUNK_DONE
                    then fc_to fc2 - fc_from fc2 else 0)) as Hmd.
    { unfold merge_done. destruct (_ =? _); [|lia].
      rewrite (u64_small (fc_to fc2 - fc_from fc2)) by lia.
      apply u64_small. lia. }
    assert (0 <= (if fc_status fc2 =? DL_CHUNK_DONE
                  then fc_to fc2 - fc_from fc2 else 0)
            <= fc_to fc2 - fc_from fc2) as Hx
      by (destruct (_ =? _); lia).
    destruct (_ && _).
    + rewrite IH; simpl; rewrite ?Hmd; auto;
        destruct (fc_status fc2 =? DL_CHUNK_DONE); lia.
    + specialize (IH (merge_visit fc2) (merge_done done fc2)).
      destruct (merge_loop _ _ _) as [l d]. simpl in *.
      rewrite IH; rewrite ?merge_visit_to, ?Hmd; auto;
        destruct (fc_status fc2 =? DL_CHUNK_DONE); lia.
Qed.

Lemma merge_loop_done_sum fc1 sl done b :
  chain (fc_to fc1) sl b ->
  done_sum (merge_loop fc1 sl done).1 = done_sum (fc1 :: sl).
Proof.
  revert fc1 done. induction sl as [|fc2 next IH]; intros fc1 done H.
  - done.
  - simpl in H. destruct H as (H3 & H4 & H5).
    cbn [merge_loop].
    rewrite merge_visit_status, merge_visit_to.
    destruct (Z.eqb_spec (fc_status fc1) (fc_status fc2)) as [He|Hne]; simpl.
    + destruct (fc_status fc2 =? DL_CHUNK_BUSY); simpl.
      * specialize (IH (merge_visit fc2) (merge_done done fc2)).
        destruct (merge_loop _ _ _) as [l d]. simpl in *.
        rewrite IH by (rewrite merge_visit_to; auto).
        rewrite merge_visit_status, merge_visit_to, merge_visit_from. done.
      * rewrite IH by (simpl; auto). simpl. rewrite He.
        destruct (fc_status fc2 =? DL_CHUNK_DONE); lia.
    + specialize (IH (merge_visit fc2) (merge_done done fc2)).
      destruct (merge_loop _ _ _) as [l d]. simpl in *.
      rewrite IH by (rewrite merge_visit_to; auto).
      rewrite merge_visit_status, merge_visit_to, merge_visit_from. done.
Qed.

Lemma merge_loop_merged fc1 sl done :
  exists t rest,
    (merge_loop fc1 sl done).1 = fc_set_to fc1 t :: rest
    /\ merged_from (fc_set_to fc1 t) rest.
Proof.
  revert fc1 done. induction sl as [|fc2 next IH]; intros fc1 done.
  - exists (fc_to fc1), []. rewrite fc_set_to_id. done.
  - cbn [merge_loop]. rewrite merge_visit_status, merge_visit_to.
    destruct (Z.eqb_spec (fc_status fc1) (fc_status fc2)) as [He|Hne]; simpl.
    + destruct (Z.eqb_spec (fc_status fc2) DL_CHUNK_BUSY) as [Hb|Hnb]; simpl.
      * destruct (IH (merge_visit fc2) (merge_done done fc2))
          as (t & rest & E & M).
        destruct (merge_loop _ _ _) as [l d]. simpl in *. subst l.
        exists (fc_to fc1), (fc_set_to (merge_visit fc2) t :: rest).
        rewrite fc_set_to_id. split; [done|]. simpl.
        repeat split; auto.
        -- unfold mergeable. simpl. rewrite merge_visit_status. tauto.
        -- pose proof (merge_visit_visited fc2) as V.
           unfold visited in *. simpl. auto.
      * destruct (IH (fc_set_to fc1 (fc_to fc2)) (merge_done done fc2))
          as (t & rest & E & M).
        exists t, rest. split; auto.
    + destruct (IH (merge_visit fc2) (merge_done done fc2))
        as (t & rest & E & M).
      destruct (merge_loop _ _ _) as [l d]. simpl in *. subst l.
      exists (fc_to fc1), (fc_set_to (merge_visit fc2) t :: rest).
      rewrite fc_set_to_id. split; [done|]. simpl.
      repeat split; auto.
      -- unfold mergeable. simpl. rewrite merge_visit_status. tauto.
      -- pose proof (merge_visit_visited fc2) as V.
         unfold visited in *. simpl. auto.
Qed.

Lemma merge_loop_fixed fc1 sl done :
  merged_from fc1 sl -> (merge_loop fc1 sl done).1 = fc1 :: sl.
Proof.
  revert fc1 done. induction sl as [|fc2 next IH]; intros fc1 done H.
  - done.
  - simpl in H. destruct H as (Hm & Hv & H).
    cbn [merge_loop]. rewrite (merge_visit_id fc2 Hv).
    destruct (Z.eqb_spec (fc_status fc1) (fc_status fc2)) as [He|Hne]; simpl.
    + destruct (Z.eqb_spec (fc_status fc2) DL_CHUNK_BUSY) as [Hb|Hnb]; simpl.
      * specialize (IH fc2 (merge_done done fc2) H).
        destruct (merge_loop _ _ _) as [l d]. simpl in *. congruence.
      * exfalso. apply Hm. split; auto.
    + specialize (IH fc2 (merge_done done fc2) H).
      destruct (merge_loop _ _ _) as [l d]. simpl in *. congruence.
Qed.

Lemma merge_chunks_merged l : merged (merge_chunks l).1.
Proof.
  destruct l as [|fc sl]; [done|]. simpl.
  destruct (merge_loop_merged (merge_visit fc) sl (merge_done 0 fc))
    as (t & rest & E & M).
  rewrite E. split; auto.
  pose proof (merge_visit_visited fc) as V. unfold visited in *. simpl. auto.
Qed.

Lemma merge_chunks_fixed l : merged l -> (merge_chunks l).1 = l.
Proof.
  destruct l as [|fc sl]; [done|]. intros [Hv H]. simpl.
  rewrite (merge_visit_id fc Hv). apply merge_loop_fixed. done.
Qed.

Lemma merge_chunks_chain a l b : chain a l b -> chain a (merge_chunks l).1 b.
Proof.
  destruct l as [|fc sl]; [done|]. intros H. simpl.
  apply merge_loop_chain. simpl in *.
  rewrite merge_visit_from, merge_visit_to. done.
Qed.

Lemma merge_chunks_done a l b :
  chain a l b -> 0 <= a -> b < 2 ^ 64 -> (merge_chunks l).2 = done_sum l.
Proof.
  destruct l as [|fc sl]; [done|]. intros H Ha Hb. simpl in *.
  destruct H as (H1 & H2 & H3). pose proof (chain_le _ _ _ H3).
  assert (merge_done 0 fc =
          (if fc_status fc =? DL_CHUNK_DONE
           then fc_to fc - fc_from fc else 0)) as Hmd.
  { unfold merge_done. destruct (_ =? _); [|lia].
    rewrite (u64_small (fc_to fc - fc_from fc)) by lia.
    apply u64_small. lia. }
  assert (0 <= (if fc_status fc =? DL_CHUNK_DONE
                then fc_to fc - fc_from fc else 0)
          <= fc_to fc - fc_from fc) as Hx
    by (destruct (_ =? _); lia).
  rewrite (merge_loop_done _ _ _ b); rewrite ?merge_visit_to, ?Hmd; auto;
    destruct (fc_status fc =? DL_CHUNK_DONE); lia.
Qed.

Lemma merge_chunks_done_sum a l b :
  chain a l b -> done_sum (merge_chunks l).1 = done_sum l.
Proof.
  destruct l as [|fc sl]; [done|]. intros H. simpl in *.
  destruct H as (H1 & H2 & H3).
  rewrite (merge_loop_done_sum _ _ _ b) by (rewrite merge_visit_to; auto).
  simpl. rewrite merge_visit_status, merge_visit_to, merge_visit_from. done.
Qed.

Lemma merge_chunks_nil l : (merge_chunks l).1 = [] -> l = [].
Proof.
  destruct l as [|fc sl]; [done|]. simpl.
  destruct (merge_loop_merged (merge_visit fc) sl (merge_done 0 fc))
    as (t & rest & E & M).
  rewrite E. done.
Qed.

(** *** The consistency check and [chain] *)

Lemma check_chunks_chain known size a l :
  check_chunks known size a l = true ->
  exists b, chain a l b
            /\ (l <> [] -> covered_end l = b)
            /\ (known = true -> size <> 0 -> l <> [] -> b <= size).
Proof.
  revert a. induction l as [|fc sl IH]; intros a H.
  - exists a. simpl. split; [done|]. split; done.
  - simpl in H.
    destruct (Z.eqb_spec a (fc_from fc)); simpl in H; [|done].
    destruct (Z.leb_spec (fc_to fc) (fc_from fc)); simpl in H; [done|].
    assert (check_chunks known size (fc_to fc) sl = true
            /\ (known = true -> size <> 0 -> fc_to fc <= size)) as [H1 H2].
    { destruct known; simpl in H.
      - destruct (Z.eqb_spec size 0); simpl in H; [split; [done|lia]|].
        destruct (Z.leb_spec size (fc_from fc)); simpl in H; [done|].
        destruct (Z.ltb_spec size (fc_to fc)); simpl in H; [done|].
        split; [done|lia].
      - split; [done|]. done. }
    destruct (IH _ H1) as (b & Hc & He & Hs).
    exists b. simpl. split; [repeat split; auto; lia|].
    split.
    + intros _. unfold covered_end in *.
      destruct sl as [|y sl]; [simpl in *; lia|].
      rewrite last_cons_cons. apply He. done.
    + intros Hk Hz _. destruct sl as [|y sl].
      * simpl in Hc. subst b. auto.
      * apply Hs; auto.
Qed.

Lemma chain_check_chunks known size a l b :
  chain a l b -> (known = true -> size <> 0 -> l <> [] -> b <= size) ->
  check_chunks known size a l = true.
Proof.
  revert a. induction l as [|fc sl IH]; intros a H Hs; [done|].
  simpl in H. destruct H as (H1 & H2 & H3). pose proof (chain_le _ _ _ H3).
  simpl.
  destruct (Z.eqb_spec a (fc_from fc)); simpl; [|lia].
  destruct (Z.leb_spec (fc_to fc) (fc_from fc)); simpl; [lia|].
  assert (check_chunks known size (fc_to fc) sl = true) as IH'.
  { apply IH; auto; intros; apply Hs; auto. }
  destruct known; simpl; [|done].
  destruct (Z.eqb_spec size 0); simpl; [done|].
  assert (b <= size) by (apply Hs; auto).
  destruct (Z.leb_spec size (fc_from fc)); simpl; [lia|].
  destruct (Z.ltb_spec size (fc_to fc)); simpl; [lia|]. done.
Qed.

Lemma chain_covered_end a l b : chain a l b -> l <> [] -> covered_end l = b.
Proof.
  intros H Hne. unfold covered_end.
  destruct (last l) as [fc|] eqn:E.
  - eapply chain_last; eauto.
  - apply last_None in E. done.
Qed.

Lemma fi_valid_chain fi :
  fi_valid fi -> chain 0 (fi_chunklist fi) (fi_size fi).
Proof.
  intros (Hk & Hs & Hc & He).
  destruct (check_chunks_chain _ _ _ _ Hc) as (b & Hb & Hce & _).
  destruct (fi_chunklist fi) as [|fc sl] eqn:E.
  - unfold covered_end in He. simpl in He. lia.
  - rewrite <- He, Hce; done.
Qed.

Lemma chain_fi_valid fi :
  fi_file_size_known fi = true -> 0 < fi_size fi < 2 ^ 64 ->
  chain 0 (fi_chunklist fi) (fi_size fi) -> fi_valid fi.
Proof.
  intros Hk Hs Hc. repeat split; auto; try lia.
  - eapply chain_check_chunks; eauto. lia.
  - apply (chain_covered_end _ _ _ Hc). intros E. rewrite E in Hc.
    simpl in Hc. lia.
Qed.

Lemma chunks_typed_In l fc :
  chunks_typed l = true -> In fc l ->
  0 <= fc_from fc < 2 ^ 64 /\ 0 <= fc_to fc < 2 ^ 64.
Proof.
  unfold chunks_typed. rewrite forallb_forall. intros H Hin.
  apply H in Hin. lia.
Qed.

Lemma chain_typed_end a l b :
  chain a l b -> chunks_typed l = true -> l <> [] -> 0 <= a /\ b < 2 ^ 64.
Proof.
  intros H Ht Hne.
  destruct (last l) as [fc|] eqn:E; [|apply last_None in E; done].
  pose proof (chain_last _ _ _ _ H E).
  assert (In fc l) as Hin.
  { apply list_elem_of_In. apply last_Some in E as [l' ->].
    apply elem_of_app. right. apply list_elem_of_singleton. done. }
  pose proof (chunks_typed_In _ _ Ht Hin).
  destruct l as [|x sl]; [done|]. simpl in H.
  assert (In x (x :: sl)) as Hx by (left; done).
  pose proof (chunks_typed_In _ _ Ht Hx). lia.
Qed.

(** *** Idempotence of the merge pass *)

Lemma merge_loop_busy fc1 sl done fc :
  In fc (fc1 :: sl) -> fc_status fc = DL_CHUNK_BUSY ->
  In fc (merge_loop fc1 sl done).1.
Proof.
  revert fc1 done. induction sl as [|fc2 next IH]; intros fc1 done Hin Hb.
  - done.
  - cbn [merge_loop]. rewrite merge_visit_status, merge_visit_to.
    destruct (Z.eqb_spec (fc_status fc1) (fc_status fc2)) as [He|Hne]; simpl.
    + destruct (Z.eqb_spec (fc_status fc2) DL_CHUNK_BUSY) as [Hb2|Hnb]; simpl.
      * specialize (IH (merge_visit fc2) (merge_done done fc2)).
        destruct (merge_loop _ _ _) as [l d]. simpl in *.
        destruct Hin as [->|Hin]; [auto|]. right. apply IH; auto.
        destruct Hin as [->|Hin]; [|auto].
        left. apply merge_visit_busy. done.
      * apply IH; auto. simpl in *.
        destruct Hin as [->|[->|Hin]]; [congruence|congruence|auto].
    + specialize (IH (merge_visit fc2) (merge_done done fc2)).
      destruct (merge_loop _ _ _) as [l d]. simpl in *.
      destruct Hin as [->|Hin]; [auto|]. right. apply IH; auto.
      destruct Hin as [->|Hin]; [|auto].
      left. apply merge_visit_busy. done.
Qed.

Lemma merge_chunks_busy l fc :
  In fc l -> fc_status fc = DL_CHUNK_BUSY -> In fc (merge_chunks l).1.
Proof.
  destruct l as [|x sl]; [done|]. simpl. intros Hin Hb.
  apply merge_loop_busy; auto. simpl.
  destruct Hin as [->|Hin]; [|auto]. left. apply merge_visit_busy. done.
Qed.

Lemma file_info_merge_adjacent_chunks fi :
  fi_chunklist (file_info_merge_adjacent fi) = (merge_chunks (fi_chunklist fi)).1.
Proof.
  unfold file_info_merge_adjacent.
  destruct (fi_chunklist fi) as [|x sl] eqn:E; [rewrite E; done|].
  destruct (merge_chunks (x :: sl)) as [l d]. done.
Qed.

(** C5.  [file_info_merge_adjacent] is idempotent on every state whose chunk
    list passes the consistency check: a second call in a row changes
    neither the chunk list nor the byte counter (nor anything else).  After
    the pass no two consecutive chunks have the same status unless they are
    BUSY, and every BUSY chunk is still there as it was: BUSY chunks are
    never merged. *)
Theorem merge_adjacent_idempotent (fi : fileinfo) :
  check_chunks (fi_file_size_known fi) (fi_size fi) 0 (fi_chunklist fi) = true ->
  chunks_typed (fi_chunklist fi) = true ->
  file_info_merge_adjacent (file_info_merge_adjacent fi)
    = file_info_merge_adjacent fi
  /\ fi_chunklist (file_info_merge_adjacent fi)
     = fi_chunklist (file_info_merge_adjacent (file_info_merge_adjacent fi))
  /\ fi_done (file_info_merge_adjacent fi)
     = fi_done (file_info_merge_adjacent (file_info_merge_adjacent fi))
  /\ merged (fi_chunklist (file_info_merge_adjacent fi))
  /\ (forall fc, In fc (fi_chunklist fi) -> fc_status fc = DL_CHUNK_BUSY ->
        In fc (fi_chunklist (file_info_merge_adjacent fi))).
Proof.
  intros Hc Ht.
  assert (file_info_merge_adjacent (file_info_merge_adjacent fi)
          = file_info_merge_adjacent fi) as Hidem.
  { destruct (check_chunks_chain _ _ _ _ Hc) as (b & Hb & _ & _).
    unfold file_info_merge_adjacent at 2 3.
    destruct (fi_chunklist fi) as [|x sl] eqn:E.
    - unfold file_info_merge_adjacent. rewrite E. done.
    - rewrite <- E in *.
      assert (fi_chunklist fi <> []) as Hne by (rewrite E; done).
      destruct (chain_typed_end _ _ _ Hb Ht Hne) as [H0 Hb64].
      pose proof (merge_chunks_chain _ _ _ Hb) as Hc1.
      pose proof (merge_chunks_done _ _ _ Hb H0 Hb64) as Hd1.
      pose proof (merge_chunks_done_sum _ _ _ Hb) as Hs1.
      pose proof (merge_chunks_merged (fi_chunklist fi)) as Hm1.
      pose proof (merge_chunks_fixed _ Hm1) as Hf1.
      pose proof (merge_chunks_done _ _ _ Hc1 H0 Hb64) as Hd2.
      destruct (merge_chunks (fi_chunklist fi)) as [l d] eqn:E1.
      simpl in *.
      unfold file_info_merge_adjacent. simpl.
      destruct l as [|y l'].
      + done.
      + destruct (merge_chunks (y :: l')) as [l2 d2] eqn:E2. simpl in *.
        subst l2. unfold fi_set_chunks. simpl. f_equal. lia. }
  split; [done|]. rewrite Hidem. split; [done|]. split; [done|].
  rewrite file_info_merge_adjacent_chunks.
  split; [apply merge_chunks_merged|].
  intros fc Hin Hb. apply merge_chunks_busy; auto.
Qed.

Lemma merge_adjacent_idempotent_witness :
  fi_chunklist (file_info_merge_adjacent merge_sample)
  = [mk_chunk 0 300 None DL_CHUNK_EMPTY;
     mk_chunk 300 400 (Some 1%nat) DL_CHUNK_BUSY;
     mk_chunk 400 500 (Some 1%nat) DL_CHUNK_BUSY;
     mk_chunk 500 1000 None DL_CHUNK_DONE]
  /\ file_info_merge_adjacent (file_info_merge_adjacent merge_sample)
     = file_info_merge_adjacent merge_sample.
Proof.
  split; [reflexivity|].
  apply (merge_adjacent_idempotent merge_sample); reflexivity.
Defined.

(** *** One pass of [file_info_update] *)

(** What a pass of the update loop guarantees, [a] and [b] being the bounds
    of the list, [c] the DONE bytes before the part of the list shown and
    [nm] the value of [need_merging] when the pass started. *)
Definition scan_post (to a b c : Z) (nm : bool) (r : scan_result) : Prop :=
  match r with
  | ScanStop l' _ _ done' nm' =>
      chain a l' b
      /\ (nm' = false -> done' = c + done_sum l')
      /\ (nm = true -> nm' = true)
  | ScanAgain l' from' done' nm' =>
      chain a l' b
      /\ (nm' = false -> done' = c + done_sum l')
      /\ (nm = true -> nm' = true)
      /\ from' < to /\ In from' (map fc_to l')
  end.

Ltac break_if :=
  match goal with
  | |- context [if ?c then _ else _] => destruct c eqn:?
  | H : context [if ?c then _ else _] |- _ => destruct c eqn:?
  end.

Ltac via_prepend Hpre :=
  match goal with
  | |- scan_post ?to ?a ?b ?c ?nm
         (ScanStop (with_prev ?p ?X) ?f ?fr ?d ?n) =>
      apply (Hpre n (ScanStop X f fr d n))
  | |- scan_post ?to ?a ?b ?c ?nm (ScanAgain (with_prev ?p ?X) ?fr ?d ?n) =>
      apply (Hpre n (ScanAgain X fr d n))
  end.

Ltac u64_simpl :=
  repeat match goal with
         | |- context [u64 ?z] => rewrite (u64_small z) by lia
         end.

Ltac scan_simpl :=
  unfold add_done, prev_has_status, fc_set_owner, fc_set_to, fc_set_from,
    DL_CHUNK_EMPTY, DL_CHUNK_BUSY, DL_CHUNK_DONE in *;
  cbn [scan_post chain done_sum fc_from fc_to fc_status fc_download
       map In app with_prev Z.eqb Pos.eqb] in *.

Ltac scan_close :=
  scan_simpl;
  repeat (break_if; scan_simpl);
  repeat match goal with
         | |- _ /\ _ => split
         | |- _ -> _ => intros
         end;
  repeat match goal with
         | Hx : ?x = false, Hi : ?x = false -> _ |- _ => specialize (Hi Hx)
         end;
  try done; try lia; auto;
  try (u64_simpl; lia).

Lemma chain_cons a fc sl b :
  chain a (fc :: sl) b <-> fc_from fc = a /\ a < fc_to fc /\ chain (fc_to fc) sl b.
Proof. done. Qed.

Lemma done_sum_cons fc sl :
  done_sum (fc :: sl)
  = (if fc_status fc =? DL_CHUNK_DONE then fc_to fc - fc_from fc else 0)
    + done_sum sl.
Proof. done. Qed.

Lemma scan_post_prepend to a b c nm nm0 p r :
  scan_post to (fc_to p) b
    (c + (if fc_status p =? DL_CHUNK_DONE then fc_to p - fc_from p else 0))
    nm r ->
  fc_from p = a -> a < fc_to p -> (nm0 = true -> nm = true) ->
  scan_post to a b c nm0 (scan_prepend (Some p) r).
Proof.
  intros H Ha Hlt Hnm.
  destruct r as [l' f from' done' nm'|l' from' done' nm']; simpl in *.
  - destruct H as (H1 & H2 & H3). repeat split; auto.
    intros E. rewrite (H2 E). lia.
  - destruct H as (H1 & H2 & H3 & H4 & H5). repeat split; auto.
    intros E. rewrite (H2 E). lia.
Qed.

Lemma update_scan_spec to status newval sl :
  forall prevfc from done nm a b c,
    chain a (with_prev prevfc sl) b ->
    from < to -> 0 <= a -> 0 <= c -> c + (b - a) < 2 ^ 64 ->
    (nm = false -> done = c + done_sum (with_prev prevfc sl)) ->
    scan_post to a b c nm
      (update_scan to status newval prevfc sl from done nm).
Proof.
  induction sl as [|fc next IH];
    intros prevfc from done nm a b c Hc Hft H0 Hc0 Hb Hd.
  - simpl. repeat split; auto.
  - assert (exists a' c',
             chain a' (fc :: next) b /\ 0 <= a' /\ 0 <= c'
             /\ c' + (b - a') < 2 ^ 64
             /\ (nm = false -> done = c' + done_sum (fc :: next))
             /\ forall nm1 r, scan_post to a' b c' nm1 r ->
                  (nm = true -> nm1 = true) ->
                  scan_post to a b c nm (scan_prepend prevfc r))
      as (a' & c' & Hc' & H0' & Hc0' & Hb' & Hd' & Hpre).
    { destruct prevfc as [p|]; unfold with_prev in Hc, Hd.
      - apply chain_cons in Hc as (Hp1 & Hp2 & Hc).
        rewrite done_sum_cons in Hd.
        pose proof (chain_le _ _ _ Hc).
        exists (fc_to p),
          (c + (if fc_status p =? DL_CHUNK_DONE
                then fc_to p - fc_from p else 0)).
        split; [done|]. split; [lia|].
        split; [destruct (_ =? _); lia|].
        split; [destruct (fc_status p =? _); lia|].
        split; [intros E; rewrite (Hd E); lia|].
        intros nm1 r Hr Hnm. eapply scan_post_prepend; eauto.
      - exists a, c. do 5 (split; [done|]).
        intros nm1 r Hr Hnm. destruct r; simpl in *; intuition. }
    apply chain_cons in Hc' as (Hf1 & Hf2 & Hn). rewrite done_sum_cons in Hd'.
    pose proof (chain_le _ _ _ Hn) as Hle.
    pose proof (chain_done_sum _ _ _ Hn) as Hds.
    assert (forall from1 done1 nm1 st dl,
              from1 < to -> (nm = true -> nm1 = true) ->
              (nm1 = false ->
               done1 = c' + ((if st =? DL_CHUNK_DONE
                              then fc_to fc - fc_from fc else 0)
                             + done_sum next)) ->
              scan_post to a b c nm
                (scan_prepend prevfc
                   (update_scan to status newval
                      (Some (mk_chunk (fc_from fc) (fc_to fc) dl st))
                      next from1 done1 nm1))) as Hrec.
    { intros from1 done1 nm1 st dl Hf1' Hnm1 Hd1.
      apply (Hpre nm1); [|done].
      apply IH; auto.
      cbn [with_prev]. apply chain_cons. cbn. auto. }
    assert (Hrec0 := Hrec from done nm (fc_status fc) (fc_download fc)).
    replace (mk_chunk (fc_from fc) (fc_to fc) (fc_download fc) (fc_status fc))
      with fc in Hrec0 by (destruct fc; done).
    cbn [update_scan]. cbv zeta.
    destruct (Z.leb_spec (fc_to fc) from) as [T1|T1].
    { apply Hrec0; auto. }
    destruct (Z.leb_spec to (fc_from fc)) as [T2|T2].
    { via_prepend Hpre; [|done]. scan_close. }
    destruct (Z.eqb_spec (fc_from fc) from) as [T3|T3]; cbn [andb].
    + destruct (Z.eqb_spec (fc_to fc) to) as [T4|T4].
      { via_prepend Hpre; scan_close. }
      destruct (Z.ltb_spec (fc_to fc) to) as [T5|T5].
      { apply Hrec; auto; scan_close. }
      destruct (Z.ltb_spec to (fc_to fc)) as [T6|T6]; [|lia].
      destruct prevfc as [p|].
      * unfold with_prev in Hc, Hd.
        apply chain_cons in Hc as (Hp1 & Hp2 & Hc).
        apply chain_cons in Hc as (Hq1 & Hq2 & Hc).
        rewrite !done_sum_cons in Hd.
        destruct (_ && _) eqn:T7.
        -- scan_close.
        -- scan_close.
      * unfold with_prev in Hc, Hd.
        apply chain_cons in Hc as (Hq1 & Hq2 & Hc).
        rewrite !done_sum_cons in Hd.
        scan_close.
    + destruct (Z.ltb_spec (fc_from fc) from) as [T4|T4]; cbn [andb].
      * destruct (Z.leb_spec to (fc_to fc)) as [T5|T5].
        { destruct (Z.ltb_spec to (fc_to fc)) as [T6|T6].
          - via_prepend Hpre; scan_close.
          - assert (to = fc_to fc) as -> by lia.
            via_prepend Hpre; scan_close. }
        destruct (Z.ltb_spec (fc_to fc) to) as [T6|T6]; [|lia].
        via_prepend Hpre; scan_close.
      * apply Hrec0; auto.
Qed.

Lemma chain_to_gt a l b x : chain a l b -> In x (map fc_to l) -> a < x <= b.
Proof.
  revert a. induction l as [|fc sl IH]; intros a H Hin; [done|].
  apply chain_cons in H as (H1 & H2 & H3). pose proof (chain_le _ _ _ H3).
  destruct Hin as [<-|Hin]; [lia|]. apply (IH _ H3) in Hin. lia.
Qed.

(** A pass that starts with [from] on a chunk boundary never asks for
    another pass. *)
Lemma update_scan_aligned to status newval sl :
  forall prevfc from done nm a b,
    chain a sl b ->
    from = a \/ In from (map fc_to sl) \/ b <= from ->
    exists l f fr d n,
      update_scan to status newval prevfc sl from done nm = ScanStop l f fr d n.
Proof.
  induction sl as [|fc next IH]; intros prevfc from done nm a b Hc Hal.
  - simpl. eauto 10.
  - apply chain_cons in Hc as (Hf1 & Hf2 & Hn).
    pose proof (chain_le _ _ _ Hn) as Hle.
    assert (forall x, In x (map fc_to next) -> fc_to fc < x) as Hgt.
    { intros x Hx. apply (chain_to_gt _ _ _ _ Hn) in Hx. lia. }
    assert (forall p from1 done1 nm1,
              from1 = fc_to fc \/ In from1 (map fc_to next) \/ b <= from1 ->
              exists l f fr d n,
                scan_prepend prevfc
                  (update_scan to status newval p next from1 done1 nm1)
                = ScanStop l f fr d n) as Hrec.
    { intros p from1 done1 nm1 Hal1.
      destruct (IH p from1 done1 nm1 _ _ Hn Hal1) as (l & f & fr & d & n & E).
      rewrite E. simpl. eauto 10. }
    cbn [update_scan]. cbv zeta.
    destruct (Z.leb_spec (fc_to fc) from) as [T1|T1].
    { apply Hrec. cbn [map In] in Hal.
      destruct Hal as [->|[[E|Hin]|Hb]]; auto; lia. }
    destruct (Z.leb_spec to (fc_from fc)) as [T2|T2]; [eauto 10|].
    destruct (Z.eqb_spec (fc_from fc) from) as [T3|T3]; cbn [andb].
    + destruct (Z.eqb_spec (fc_to fc) to) as [T4|T4]; [eauto 10|].
      destruct (Z.ltb_spec (fc_to fc) to) as [T5|T5].
      { apply Hrec. auto. }
      destruct (Z.ltb_spec to (fc_to fc)) as [T6|T6]; [|lia].
      destruct prevfc as [p|]; [destruct (_ && _)|]; eauto 10.
    + exfalso. cbn [map In] in Hal.
      destruct Hal as [->|[[E|Hin]|Hb]]; try lia.
      apply Hgt in Hin. lia.
Qed.

(** The passes of [file_info_update]: two are always enough, so that the
    guard on [againcount] never fires on a consistent list. *)
Lemma update_again_spec n to status newval l from done nm a b :
  chain a l b -> from < to -> 0 <= a -> b - a < 2 ^ 64 ->
  (nm = false -> done = done_sum l) ->
  exists l' found done' nm',
    update_again (S (S n)) to status newval l from done nm
      = Some (l', found, done', nm')
    /\ chain a l' b
    /\ (nm' = false -> done' = done_sum l')
    /\ (nm = true -> nm' = true).
Proof.
  intros Hc Hft H0 Hb Hd.
  pose proof (update_scan_spec to status newval l None from done nm a b 0) as S1.
  cbn [with_prev] in S1.
  specialize (S1 Hc Hft H0 (Z.le_refl 0)).
  cbn [update_again].
  destruct (update_scan to status newval None l from done nm)
    as [l1 f1 fr1 d1 n1|l1 fr1 d1 n1]; cbn [scan_post] in S1.
  - destruct S1 as (C1 & D1 & N1); [lia|intros E; rewrite (Hd E); lia|].
    exists l1, f1, d1, n1.
    repeat split; auto; try (intros E; rewrite (D1 E); lia).
  - destruct S1 as (C1 & D1 & N1 & F1 & I1); [lia|intros E; rewrite (Hd E); lia|].
    destruct (update_scan_aligned to status newval l1 None fr1 d1 n1 a b C1)
      as (l2 & f2 & fr2 & d2 & n2 & E2); [auto|].
    pose proof (update_scan_spec to status newval l1 None fr1 d1 n1 a b 0) as S2.
    cbn [with_prev] in S2.
    specialize (S2 C1 F1 H0 (Z.le_refl 0)).
    rewrite E2 in *. cbn [scan_post] in S2.
    destruct S2 as (C2 & D2 & N2); [lia|auto|].
    exists l2, f2, d2, n2.
    repeat split; auto; try (intros E; rewrite (D2 E); lia).
Qed.

(** The chunk list built by the update loop does not depend on the byte
    counter. *)
Definition scan_shape (r : scan_result)
    : option bool * list dl_file_chunk * Z * bool :=
  match r with
  | ScanStop l f fr _ n => (Some f, l, fr, n)
  | ScanAgain l fr _ n => (None, l, fr, n)
  end.

Lemma scan_shape_prepend p r1 r2 :
  scan_shape r1 = scan_shape r2 ->
  scan_shape (scan_prepend p r1) = scan_shape (scan_prepend p r2).
Proof.
  destruct r1, r2; simpl; intros; simplify_eq; done.
Qed.

Lemma update_scan_shape to status newval sl :
  forall prevfc from done1 done2 nm,
    scan_shape (update_scan to status newval prevfc sl from done1 nm)
    = scan_shape (update_scan to status newval prevfc sl from done2 nm).
Proof.
  induction sl as [|fc next IH]; intros prevfc from done1 done2 nm; [done|].
  cbn [update_scan]. cbv zeta.
  repeat break_if; try reflexivity;
    try (apply scan_shape_prepend, IH);
    destruct prevfc; repeat break_if; reflexivity.
Qed.

Lemma update_again_shape n to status newval :
  forall l from done1 done2 nm,
    match update_again n to status newval l from done1 nm,
          update_again n to status newval l from done2 nm with
    | Some (l1, f1, _, n1), Some (l2, f2, _, n2) =>
        l1 = l2 /\ f1 = f2 /\ n1 = n2
    | None, None => True
    | _, _ => False
    end.
Proof.
  induction n as [|n IH]; intros l from done1 done2 nm; [done|].
  cbn [update_again].
  pose proof (update_scan_shape to status newval l None from done1 done2 nm) as E.
  destruct (update_scan to status newval None l from done1 nm),
           (update_scan to status newval None l from done2 nm);
    simpl in E; simplify_eq; [done|apply IH].
Qed.

Lemma fi_set_chunks_chunklist fi l d : fi_chunklist (fi_set_chunks fi l d) = l.
Proof. done. Qed.

Lemma fi_set_chunks_done fi l d : fi_done (fi_set_chunks fi l d) = d.
Proof. done. Qed.

(** Fields of the file information that the chunk operations leave alone. *)
Definition same_file (fi fi' : fileinfo) : Prop :=
  fi_size fi' = fi_size fi
  /\ fi_file_size_known fi' = fi_file_size_known fi
  /\ fi_use_swarming fi' = fi_use_swarming fi
  /\ fi_transient fi' = fi_transient fi
  /\ fi_refcount fi' = fi_refcount fi
  /\ fi_lifecount fi' = fi_lifecount fi.

Lemma same_file_refl fi : same_file fi fi.
Proof. repeat split. Qed.

Lemma same_file_trans fi1 fi2 fi3 :
  same_file fi1 fi2 -> same_file fi2 fi3 -> same_file fi1 fi3.
Proof. unfold same_file. intuition congruence. Qed.

Lemma same_file_set_chunks fi l d : same_file fi (fi_set_chunks fi l d).
Proof. repeat split. Qed.

Lemma same_file_merge fi : same_file fi (file_info_merge_adjacent fi).
Proof.
  unfold file_info_merge_adjacent.
  destruct (fi_chunklist fi); [apply same_file_refl|].
  destruct (merge_chunks _). apply same_file_set_chunks.
Qed.

Lemma merge_adjacent_chain fi a b :
  chain a (fi_chunklist fi) b ->
  chain a (fi_chunklist (file_info_merge_adjacent fi)) b.
Proof.
  rewrite file_info_merge_adjacent_chunks. apply merge_chunks_chain.
Qed.

Lemma merge_adjacent_done fi b :
  chain 0 (fi_chunklist fi) b -> b < 2 ^ 64 ->
  fi_chunklist fi = [] \/
  fi_done (file_info_merge_adjacent fi)
  = done_sum (fi_chunklist (file_info_merge_adjacent fi)).
Proof.
  intros Hc Hb.
  destruct (fi_chunklist fi) as [|x sl] eqn:E; [left; done|right].
  rewrite file_info_merge_adjacent_chunks.
  unfold file_info_merge_adjacent. rewrite E. rewrite <- E in *.
  pose proof (merge_chunks_done _ _ _ Hc (Z.le_refl 0) Hb) as Hd.
  pose proof (merge_chunks_done_sum _ _ _ Hc) as Hs.
  destruct (merge_chunks (fi_chunklist fi)) as [l d]. simpl in *. lia.
Qed.

(** The status argument of [file_info_update] is one of the enumerators, and
    a reservation needs a live source. *)
Definition update_status_ok (fi : fileinfo) (status : Z) : Prop :=
  status = DL_CHUNK_DONE \/ status = DL_CHUNK_EMPTY
  \/ (status = DL_CHUNK_BUSY /\ 0 < fi_lifecount fi).

(** [file_info_update] on a file of known size: the chunk list still covers
    the same range and the counter of DONE bytes stays exact. *)
Lemma file_info_update_inv fi d from to status fi' b :
  file_info_update fi d from to status = Some fi' ->
  fi_file_size_known fi = true ->
  chain 0 (fi_chunklist fi) b -> b < 2 ^ 64 ->
  chain 0 (fi_chunklist fi') b
  /\ same_file fi fi'
  /\ (fi_done fi = done_sum (fi_chunklist fi) ->
      fi_done fi' = done_sum (fi_chunklist fi')).
Proof.
  unfold file_info_update. intros H Hk Hc Hb.
  destruct (0 <? fi_refcount fi); [|done]. cbn [negb] in H.
  destruct (Z.ltb_spec from to) as [Hft|]; [|done]. cbn [negb] in H.
  destruct (if status =? DL_CHUNK_DONE then _ else _)
    as [[nm newval]|] eqn:Esw; [|done].
  rewrite Hk in H. cbn [negb] in H.
  destruct (update_again_spec 8 to status newval (fi_chunklist fi) from
              (done_sum (fi_chunklist fi)) nm 0 b Hc Hft (Z.le_refl 0))
    as (l0 & found0 & done0 & nm0 & E0 & C0 & D0 & N0); [lia|done|].
  pose proof (update_again_shape 10 to status newval (fi_chunklist fi) from
                (fi_done fi) (done_sum (fi_chunklist fi)) nm) as Esh.
  rewrite E0 in Esh.
  destruct (update_again 10 to status newval (fi_chunklist fi) from
              (fi_done fi) nm) as [[[[l' found] done'] nm']|] eqn:E; [|done].
  destruct Esh as (-> & -> & ->).
  assert (fi_done fi = done_sum (fi_chunklist fi) -> nm0 = false ->
          done' = done_sum l0) as D'.
  { intros Hd Hn. rewrite Hd in E. rewrite E0 in E. simplify_eq. auto. }
  destruct nm0; simplify_eq.
  - split; [apply merge_adjacent_chain; done|].
    split; [eapply same_file_trans;
            [apply same_file_set_chunks|apply same_file_merge]|].
    intros Hd.
    destruct (merge_adjacent_done (fi_set_chunks fi l0 done') b C0 Hb)
      as [E1|E1]; [|done].
    rewrite fi_set_chunks_chunklist in E1. subst l0.
    unfold file_info_merge_adjacent. simpl.
    rewrite Hd in E. rewrite E0 in E. simplify_eq.
    assert (b = 0) as -> by (simpl in C0; lia).
    destruct (fi_chunklist fi) as [|x sl] eqn:El.
    + simpl in E0. simplify_eq. simpl in Hd. done.
    + apply chain_cons in Hc as (? & ? & Hc).
      apply chain_le in Hc. lia.
  - split; [done|]. split; [apply same_file_set_chunks|].
    intros Hd. simpl. apply D'; auto.
Qed.

(** *** The counter of DONE bytes *)

Lemma file_info_update_unknown_size fi d from to status x sl :
  fi_file_size_known fi = false -> fi_chunklist fi = x :: sl ->
  file_info_update fi d from to status = None.
Proof.
  intros Hk Hl. unfold file_info_update. rewrite Hk, Hl. cbn [negb].
  repeat break_if; done.
Qed.

Lemma file_info_update_total fi d from to status b :
  fi_file_size_known fi = true ->
  chain 0 (fi_chunklist fi) b -> b < 2 ^ 64 ->
  0 < fi_refcount fi -> from < to -> update_status_ok fi status ->
  exists fi', file_info_update fi d from to status = Some fi'.
Proof.
  intros Hk Hc Hb Hr Hft Hs. unfold file_info_update.
  destruct (Z.ltb_spec 0 (fi_refcount fi)); [|lia]. cbn [negb].
  destruct (Z.ltb_spec from to); [|lia]. cbn [negb].
  rewrite Hk. cbn [negb].
  assert (exists nm newval,
            (if status =? DL_CHUNK_DONE then Some (false, Some d)
             else if status =? DL_CHUNK_BUSY
                  then if 0 <? fi_lifecount fi
                       then Some (true, Some d) else None
                  else if status =? DL_CHUNK_EMPTY
                       then Some (true, None) else None)
            = Some (nm, newval)) as (nm & newval & ->).
  { destruct Hs as [->|[->|[-> Hl]]]; cbn; eauto.
    destruct (Z.ltb_spec 0 (fi_lifecount fi)); [eauto|lia]. }
  destruct (update_again_spec 8 to status newval (fi_chunklist fi) from
              (done_sum (fi_chunklist fi)) nm 0 b Hc Hft (Z.le_refl 0))
    as (l0 & found0 & done0 & nm0 & E0 & _); [lia|done|].
  pose proof (update_again_shape 10 to status newval (fi_chunklist fi) from
                (fi_done fi) (done_sum (fi_chunklist fi)) nm) as Esh.
  rewrite E0 in Esh.
  destruct (update_again 10 to status newval (fi_chunklist fi) from
              (fi_done fi) nm) as [[[[l' found] done'] nm']|]; [eauto|done].
Qed.

(** The state kept by the calls of C2: a chunk list that covers a range
    [0, b) of file offsets, with an exact byte counter. *)
Definition counted (fi : fileinfo) : Prop :=
  exists b, chain 0 (fi_chunklist fi) b /\ 0 < b < 2 ^ 64
            /\ fi_done fi = done_sum (fi_chunklist fi).

Lemma run_call_counted fi c fi' :
  counted fi -> run_call fi c = Some fi' -> counted fi'.
Proof.
  intros (b & Hc & Hb & Hd) H. destruct c as [d from to status|]; simpl in H.
  - destruct (fi_file_size_known fi) eqn:Hk.
    + destruct (file_info_update_inv _ _ _ _ _ _ b H Hk Hc) as (C & S & Dn);
        [lia|].
      exists b. auto.
    + destruct (fi_chunklist fi) as [|x sl] eqn:El; [simpl in Hc; lia|].
      rewrite (file_info_update_unknown_size _ _ _ _ _ _ _ Hk El) in H. done.
  - simplify_eq. exists b.
    split; [apply merge_adjacent_chain; done|]. split; [done|].
    destruct (merge_adjacent_done fi b Hc) as [E|E]; [lia| |done].
    rewrite E in Hc. simpl in Hc. lia.
Qed.

(** C2.  On a file information with a non-empty, consistent chunk list whose
    cached counter [fi->done] equals the sum of the lengths of its DONE
    chunks, every sequence of calls of [file_info_update] and
    [file_info_merge_adjacent] that runs to its end leaves the counter equal
    to that sum: bytes written again into a DONE chunk are not counted
    twice. *)
Theorem done_counter_consistent (fi : fileinfo) (calls : list chunk_call)
    (fi' : fileinfo) :
  fi_chunklist fi <> [] ->
  check_chunks (fi_file_size_known fi) (fi_size fi) 0 (fi_chunklist fi) = true ->
  chunks_typed (fi_chunklist fi) = true ->
  fi_done fi = done_sum (fi_chunklist fi) ->
  run_calls fi calls = Some fi' ->
  fi_done fi' = done_sum (fi_chunklist fi').
Proof.
  intros Hne Hc Ht Hd Hrun.
  assert (counted fi) as Hinv.
  { destruct (check_chunks_chain _ _ _ _ Hc) as (b & Hb & _ & _).
    destruct (chain_typed_end _ _ _ Hb Ht Hne) as [_ Hb64].
    exists b. repeat split; auto.
    destruct (fi_chunklist fi) as [|x sl]; [done|].
    apply chain_cons in Hb as (? & ? & Hb). apply chain_le in Hb. lia. }
  clear Hne Hc Ht Hd. revert fi Hinv Hrun.
  induction calls as [|c rest IH]; intros fi Hinv Hrun; simpl in Hrun.
  - simplify_eq. destruct Hinv as (b & _ & _ & Hd). done.
  - destruct (run_call fi c) as [fi1|] eqn:E; [|done].
    eapply IH; [|done]. eapply run_call_counted; eauto.
Qed.

Lemma done_counter_consistent_witness :
  run_calls done_sample
    [CallUpdate 7%nat 100 400 DL_CHUNK_DONE; CallMergeAdjacent;
     CallUpdate 8%nat 350 500 DL_CHUNK_BUSY;
     CallUpdate 7%nat 0 1000 DL_CHUNK_DONE]
  = Some (sample_fi 1000 [mk_chunk 0 1000 None DL_CHUNK_DONE] 1000)
  /\ fi_done (sample_fi 1000 [mk_chunk 0 1000 None DL_CHUNK_DONE] 1000)
     = done_sum [mk_chunk 0 1000 None DL_CHUNK_DONE].
Proof.
  split; [reflexivity|].
  apply (done_counter_consistent done_sample
           [CallUpdate 7%nat 100 400 DL_CHUNK_DONE; CallMergeAdjacent;
            CallUpdate 8%nat 350 500 DL_CHUNK_BUSY;
            CallUpdate 7%nat 0 1000 DL_CHUNK_DONE]);
    [discriminate|reflexivity|reflexivity|reflexivity|reflexivity].
Defined.

(** *** Coverage is preserved by the public operations *)

Lemma chain_map (f : dl_file_chunk -> dl_file_chunk) a l b :
  (forall fc, fc_from (f fc) = fc_from fc /\ fc_to (f fc) = fc_to fc) ->
  chain a l b -> chain a (map f l) b.
Proof.
  intros Hf. revert a. induction l as [|fc sl IH]; intros a H; [done|].
  apply chain_cons in H as (H1 & H2 & H3). cbn [map]. apply chain_cons.
  destruct (Hf fc) as [-> ->]. auto.
Qed.

Lemma clear_chunk_bounds d fc :
  fc_from (clear_chunk d fc) = fc_from fc /\ fc_to (clear_chunk d fc) = fc_to fc.
Proof. unfold clear_chunk. destruct (decide _); done. Qed.

Lemma clear_download_chain fi d a b :
  chain a (fi_chunklist fi) b ->
  chain a (fi_chunklist (file_info_clear_download fi d)) b.
Proof.
  intros H. unfold file_info_clear_download.
  apply merge_adjacent_chain. cbn.
  apply chain_map; [apply clear_chunk_bounds|done].
Qed.

Lemma same_file_clear fi d : same_file fi (file_info_clear_download fi d).
Proof.
  unfold file_info_clear_download.
  eapply same_file_trans; [|apply same_file_merge]. apply same_file_set_chunks.
Qed.

Lemma reset_requeue_chain n dls :
  forall fi fi1 a b,
    reset_requeue n dls fi = Some fi1 ->
    chain a (fi_chunklist fi) b ->
    chain a (fi_chunklist fi1) b /\ same_file fi fi1.
Proof.
  induction n as [|n IH]; intros fi fi1 a b H Hc; simpl in H.
  - destruct (first_running dls (fi_chunklist fi)); simplify_eq.
    split; [done|apply same_file_refl].
  - destruct (first_running dls (fi_chunklist fi)) as [d|]; simplify_eq.
    + destruct (IH _ _ a b H) as [C S]; [apply clear_download_chain; done|].
      split; [done|]. eapply same_file_trans; [apply same_file_clear|done].
    + split; [done|apply same_file_refl].
Qed.

Lemma reset_chunks_chain l :
  forall l' a b, reset_chunks l = Some l' -> chain a l b -> chain a l' b.
Proof.
  induction l as [|fc sl IH]; intros l' a b H Hc; simpl in H.
  - simplify_eq. done.
  - destruct (fc_download fc); [done|].
    destruct (reset_chunks sl) as [sl'|] eqn:E; [|done]. simplify_eq.
    apply chain_cons in Hc as (H1 & H2 & H3). apply chain_cons. cbn.
    repeat split; auto.
Qed.

Lemma file_info_reset_chain dls fi fi' a b :
  file_info_reset dls fi = Some fi' ->
  chain a (fi_chunklist fi) b ->
  chain a (fi_chunklist fi') b /\ same_file fi fi'.
Proof.
  unfold file_info_reset. intros H Hc.
  destruct (reset_requeue _ dls fi) as [fi1|] eqn:E1; [|done].
  destruct (reset_requeue_chain _ _ _ _ a b E1 Hc) as [C1 S1].
  destruct (reset_chunks (fi_chunklist fi1)) as [l|] eqn:E2; [|done].
  simplify_eq.
  split.
  - apply merge_adjacent_chain. cbn. eapply reset_chunks_chain; eauto.
  - eapply same_file_trans; [exact S1|].
    eapply same_file_trans; [|apply same_file_merge]. repeat split.
Qed.

Lemma fi_check_file_chain dls missing fi fi' a b :
  fi_check_file dls missing fi = Some fi' ->
  chain a (fi_chunklist fi) b ->
  chain a (fi_chunklist fi') b /\ same_file fi fi'.
Proof.
  unfold fi_check_file. intros H Hc.
  destruct (fi_done fi =? 0); [done|].
  destruct (negb (fi_transient fi) && missing).
  - eapply file_info_reset_chain; eauto.
  - simplify_eq. split; [done|apply same_file_refl].
Qed.

Lemma clone_split_chain offset l :
  forall l' c a b,
    clone_split offset l = Some (Some (l', c)) ->
    chain a l b -> 0 <= a -> b < 2 ^ 64 ->
    chain a l' b.
Proof.
  induction l as [|fc sl IH]; intros l' c a b H Hc H0 Hb; simpl in H; [done|].
  apply chain_cons in Hc as (H1 & H2 & H3). pose proof (chain_le _ _ _ H3).
  rewrite (u64_small (fc_to fc - 1)) in H by lia.
  destruct ((fc_status fc =? DL_CHUNK_EMPTY) && (offset <? fc_to fc - 1)) eqn:T.
  - destruct ((fc_from fc <? offset) && bool_decide (fc_download fc = None))
      eqn:T2; [|done].
    simplify_eq. rewrite !chain_cons. cbn. repeat split; auto; lia.
  - destruct (clone_split offset sl) as [[[l1 c1]|]|] eqn:E; simplify_eq.
    apply chain_cons. repeat split; auto. eapply IH; eauto. lia.
Qed.

Lemma list_clone_shift_chain P rnd fi fi1 ck a b :
  list_clone_shift P rnd fi = Some (fi1, ck) ->
  chain a (fi_chunklist fi) b -> 0 <= a -> b < 2 ^ 64 ->
  chain a (fi_chunklist fi1) b /\ same_file fi fi1 /\ fi_done fi1 = fi_done fi.
Proof.
  unfold list_clone_shift. intros H Hc H0 Hb.
  assert (chain a (fi_chunklist fi) b /\ same_file fi fi
          /\ fi_done fi = fi_done fi) as Hsame
    by (split; [done|split; [apply same_file_refl|done]]).
  destruct (if 0 <? pfsp_first_chunk P then _ else _) as [[|]|]; [| |done].
  2:{ simplify_eq. done. }
  set (offset := if _ =? 0 then _ else _) in H.
  destruct (clone_first_pass offset (fi_chunklist fi)) as [c|] eqn:E1.
  - destruct c as [|fc c]; [done|].
    destruct (clone_wrap (fc_from fc) (fi_chunklist fi)); [|done].
    simplify_eq. cbn. split; [done|]. split; [apply same_file_set_chunks|done].
  - destruct (clone_split offset (fi_chunklist fi)) as [[[l c]|]|] eqn:E2;
      [| |done].
    + destruct c as [|fc c]; [done|].
      destruct (clone_wrap (fc_from fc) l); [|done].
      simplify_eq. cbn.
      split; [eapply clone_split_chain; eauto|].
      split; [apply same_file_set_chunks|done].
    + simplify_eq. done.
Qed.

Lemma file_info_reserve_update fi d from to chunk fi' :
  file_info_reserve fi d from to chunk = Some fi' ->
  file_info_update fi d from to DL_CHUNK_BUSY = Some fi'.
Proof.
  unfold file_info_reserve. intros H.
  destruct (negb (from <=? to)); [done|].
  destruct chunk as [c|]; [destruct (_ && _)|]; done.
Qed.

Lemma file_info_find_hole_chain {D : DoubleOps} P dls missing rnd fi d r fi' b :
  file_info_find_hole P dls missing rnd fi d = Some (r, fi') ->
  fi_file_size_known fi = true ->
  chain 0 (fi_chunklist fi) b -> b < 2 ^ 64 ->
  chain 0 (fi_chunklist fi') b /\ same_file fi fi'.
Proof.
  unfold file_info_find_hole. intros H Hk Hc Hb.
  destruct (negb _ || negb _); [done|].
  destruct (fi_busy_count dls fi d) as [reserved|]; [|done]. cbn in H.
  destruct (negb (reserved <=? _)); [done|].
  destruct (negb (fi_done fi =? 0) && (fi_done fi =? fi_size fi)).
  { simplify_eq. split; [done|apply same_file_refl]. }
  destruct (find_hole_state dls missing fi) as [fi0|] eqn:E0; [|done].
  cbn in H.
  assert (chain 0 (fi_chunklist fi0) b /\ same_file fi fi0) as [C0 S0].
  { unfold find_hole_state in E0. destruct (negb _).
    - eapply fi_check_file_chain; eauto.
    - simplify_eq. split; [done|apply same_file_refl]. }
  destruct (if pfsp_server P then list_clone_shift P rnd fi0 else _)
    as [[fi1 ck]|] eqn:E1; [|done].
  cbn in H.
  assert (chain 0 (fi_chunklist fi1) b /\ same_file fi0 fi1) as [C1 S1].
  { destruct (pfsp_server P).
    - destruct (list_clone_shift_chain _ _ _ _ _ 0 b E1 C0) as (? & ? & ?);
        auto; lia.
    - simplify_eq. split; [done|apply same_file_refl]. }
  assert (fi_file_size_known fi1 = true) as Hk1.
  { destruct S0 as (_ & K0 & _), S1 as (_ & K1 & _). congruence. }
  assert (forall from to chunk fi2,
            file_info_reserve fi1 d from to chunk = Some fi2 ->
            chain 0 (fi_chunklist fi2) b /\ same_file fi fi2) as Hres.
  { intros from to chunk fi2 E. apply file_info_reserve_update in E.
    destruct (file_info_update_inv _ _ _ _ _ _ b E Hk1 C1 Hb) as (C2 & S2 & _).
    split; [done|].
    eapply same_file_trans; [exact S0|].
    eapply same_file_trans; [exact S1|done]. }
  destruct (scan_holes dls d ck 0) as [[fc|pipelined]|]; [| |done]; cbn in H.
  - destruct (file_info_reserve fi1 d _ _ None) as [fi2|] eqn:E2; [|done].
    cbn in H. simplify_eq. eapply Hres; eauto.
  - destruct (negb _); [done|].
    destruct (if use_aggressive_swarming P then _ else _)
      as [[[[start end_] chunk]|]|]; [| |done]; cbn in H.
    + destruct (file_info_reserve fi1 d _ _ _) as [fi2|] eqn:E2; [|done].
      cbn in H. simplify_eq. eapply Hres; eauto.
    + simplify_eq. split; [done|].
      eapply same_file_trans; [exact S0|done].
Qed.

Lemma fi_valid_same fi fi' :
  fi_valid fi -> same_file fi fi' ->
  chain 0 (fi_chunklist fi') (fi_size fi) -> fi_valid fi'.
Proof.
  intros (Hk & Hs & _) (S1 & S2 & _) Hc.
  apply chain_fi_valid; rewrite ?S1, ?S2; auto.
Qed.

Lemma run_op_valid {D : DoubleOps} P dls fi op fi' :
  fi_valid fi -> run_op P dls fi op = Some fi' ->
  fi_valid fi' /\ same_file fi fi'.
Proof.
  intros Hv H. pose proof (fi_valid_chain _ Hv) as Hc.
  pose proof Hv as (Hk & Hs & _).
  assert (chain 0 (fi_chunklist fi') (fi_size fi) /\ same_file fi fi')
    as [C S]; [|split; [eapply fi_valid_same; eauto|done]].
  destruct op as [d from to status| |missing rnd d|d|]; simpl in H.
  - destruct (file_info_update_inv _ _ _ _ _ _ _ H Hk Hc) as (? & ? & _);
      [lia|done].
  - simplify_eq. split; [apply merge_adjacent_chain; done|apply same_file_merge].
  - destruct (file_info_find_hole P dls missing rnd fi d)
      as [[[st rg] fi1]|] eqn:E; [|done].
    simplify_eq. eapply file_info_find_hole_chain; eauto. lia.
  - simplify_eq. split; [apply clear_download_chain; done|apply same_file_clear].
  - eapply file_info_reset_chain; eauto.
Qed.

(** C1.  Starting from a valid state of a file of known size, every sequence
    of public chunk-list operations ([file_info_update],
    [file_info_merge_adjacent], [file_info_find_hole] with its reservation,
    [file_info_clear_download], [file_info_reset]) that runs to its end
    leaves a chunk list that partitions [0, size): the first chunk starts at
    0, every chunk has [from < to], each chunk ends where the next one
    starts, none extends past the size and the last one ends at the size;
    the list also passes [file_info_check_chunklist]. *)
Theorem chunklist_partition_invariant {D : DoubleOps} (P : gnet_property)
    (dls : download_id -> download) (fi : fileinfo) (ops : list fi_op)
    (fi' : fileinfo) :
  fi_valid fi ->
  run_ops P dls fi ops = Some fi' ->
  fi_size fi' = fi_size fi
  /\ chunklist_partitions (fi_size fi') (fi_chunklist fi')
  /\ file_info_check_chunklist true fi' false = true.
Proof.
  intros Hv Hrun.
  assert (fi_valid fi' /\ same_file fi fi') as [Hv' S].
  { revert fi Hv Hrun.
    induction ops as [|op rest IH]; intros fi Hv Hrun; simpl in Hrun.
    - simplify_eq. split; [done|apply same_file_refl].
    - destruct (run_op P dls fi op) as [fi1|] eqn:E; [|done].
      destruct (run_op_valid _ _ _ _ _ Hv E) as [Hv1 S1].
      destruct (IH _ Hv1 Hrun) as [Hv' S'].
      split; [done|]. eapply same_file_trans; eauto. }
  destruct S as (Hs & _). split; [done|].
  pose proof Hv' as (Hk & Hsz & Hck & _).
  split.
  - apply chain_partitions; [lia|]. apply fi_valid_chain. done.
  - unfold file_info_check_chunklist. simpl. rewrite Hk. done.
Qed.

Lemma chunklist_partition_invariant_witness :
  run_ops (D := Q_double) sample_props sample_dls partition_sample
    partition_ops = Some partition_final
  /\ chunklist_partitions (fi_size partition_final)
       (fi_chunklist partition_final).
Proof.
  split; [vm_compute; reflexivity|].
  apply (chunklist_partition_invariant (D := Q_double) sample_props sample_dls
           partition_sample partition_ops partition_final).
  - unfold fi_valid. simpl. repeat split; try reflexivity; lia.
  - vm_compute. reflexivity.
Defined.

(** *** A range written strictly inside a BUSY chunk *)

Lemma update_scan_inside to status newval fc l2 from done nm :
  forall l1 prevfc a b,
    chain a (l1 ++ fc :: l2) b ->
    fc_from fc < from -> from < to -> to < fc_to fc ->
    update_scan to status newval prevfc (l1 ++ fc :: l2) from done nm
    = ScanStop
        (with_prev prevfc
           (l1 ++ inside_lower fc from :: mk_chunk from to newval status
               :: inside_upper fc to :: l2))
        true from (add_done status done (u64 (to - from)))
        (if fc_status fc =? DL_CHUNK_DONE then true else nm).
Proof.
  induction l1 as [|x l1 IH]; intros prevfc a b Hc H1 H2 H3.
  - cbn [app update_scan]. cbv zeta.
    destruct (Z.leb_spec (fc_to fc) from); [lia|].
    destruct (Z.leb_spec to (fc_from fc)); [lia|].
    destruct (Z.eqb_spec (fc_from fc) from); [lia|]. cbn [andb].
    destruct (Z.ltb_spec (fc_from fc) from); [|lia].
    destruct (Z.leb_spec to (fc_to fc)); [|lia]. cbn [andb].
    destruct (Z.ltb_spec to (fc_to fc)); [|lia].
    unfold inside_upper, inside_lower. destruct (_ =? DL_CHUNK_BUSY); done.
  - cbn [app] in *. apply chain_cons in Hc as (Hx1 & Hx2 & Hc).
    assert (fc_to x <= fc_from fc) as Hle.
    { apply chain_app in Hc as (m & C1 & C2).
      apply chain_le in C1. apply chain_cons in C2 as (? & _). lia. }
    cbn [update_scan].
    destruct (Z.leb_spec (fc_to x) from); [|lia].
    rewrite (IH (Some x) _ b Hc H1 H2 H3).
    destruct prevfc; done.
Qed.

Lemma merge_loop_head fc1 sl done b :
  chain (fc_to fc1) sl b ->
  exists t rest,
    (merge_loop fc1 sl done).1 = fc_set_to fc1 t :: rest /\ fc_to fc1 <= t.
Proof.
  revert fc1 done. induction sl as [|fc2 next IH]; intros fc1 done Hc.
  - exists (fc_to fc1), []. rewrite fc_set_to_id. split; [done|lia].
  - apply chain_cons in Hc as (H1 & H2 & H3).
    cbn [merge_loop]. rewrite merge_visit_status, merge_visit_to.
    destruct (_ && _).
    + destruct (IH (fc_set_to fc1 (fc_to fc2)) (merge_done done fc2))
        as (t & rest & E & Ht); [done|].
      exists t, rest. split; [done|]. cbn in Ht. lia.
    + destruct (merge_loop (merge_visit fc2) next (merge_done done fc2))
        as [l d].
      exists (fc_to fc1), l. rewrite fc_set_to_id. split; [done|lia].
Qed.

(** A BUSY chunk is a barrier for the merge pass. *)
Lemma merge_loop_app_busy A rest :
  fc_status A = DL_CHUNK_BUSY ->
  forall sl1 fc1 done,
    exists done',
      (merge_loop fc1 (sl1 ++ A :: rest) done).1
      = (merge_loop fc1 sl1 done).1 ++ (merge_loop A rest done').1.
Proof.
  intros HA. induction sl1 as [|fc2 next IH]; intros fc1 done.
  - cbn [app merge_loop]. rewrite (merge_visit_busy A HA).
    rewrite HA. rewrite Z.eqb_refl, andb_false_r.
    destruct (merge_loop A rest (merge_done done A)) as [l d] eqn:E.
    exists (merge_done done A). rewrite E. done.
  - cbn [app merge_loop].
    destruct (_ && _).
    + apply IH.
    + destruct (IH (merge_visit fc2) (merge_done done fc2)) as (done' & E).
      exists done'.
      destruct (merge_loop (merge_visit fc2) (next ++ A :: rest) _) as [l d].
      destruct (merge_loop (merge_visit fc2) next _) as [l0 d0].
      cbn in *. rewrite E. done.
Qed.

Lemma merge_chunks_app_busy A rest l1 :
  fc_status A = DL_CHUNK_BUSY ->
  exists pre done',
    (merge_chunks (l1 ++ A :: rest)).1 = pre ++ (merge_loop A rest done').1.
Proof.
  intros HA. destruct l1 as [|x l1].
  - exists [], (merge_done 0 A). cbn. rewrite (merge_visit_busy A HA). done.
  - cbn [app merge_chunks].
    destruct (merge_loop_app_busy A rest HA l1 (merge_visit x) (merge_done 0 x))
      as (done' & E).
    eauto.
Qed.

(** After the merge pass the bytes of an ownerless EMPTY chunk [C], which
    follows a BUSY chunk [A] and a chunk [B] that is itself ownerless when
    EMPTY, are still EMPTY and without owner. *)
Lemma merge_loop_after_busy A B C l2 done b :
  fc_status A = DL_CHUNK_BUSY ->
  (fc_status B = DL_CHUNK_EMPTY -> fc_download B = None) ->
  fc_status C = DL_CHUNK_EMPTY -> fc_download C = None ->
  chain (fc_from B) (B :: C :: l2) b ->
  exists c,
    In c (merge_loop A (B :: C :: l2) done).1
    /\ fc_from c <= fc_from C /\ fc_to C <= fc_to c
    /\ fc_status c = DL_CHUNK_EMPTY /\ fc_download c = None.
Proof.
  intros HA HB HC HCd Hc.
  apply chain_cons in Hc as (_ & Hb1 & Hc).
  apply chain_cons in Hc as (Hc1 & Hc2 & Hc).
  cbn [merge_loop].
  rewrite !merge_visit_status, !merge_visit_to.
  assert ((fc_status A =? fc_status B) && negb (fc_status B =? DL_CHUNK_BUSY)
          = false) as ->.
  { rewrite HA. unfold DL_CHUNK_BUSY. lia. }
  assert (merge_visit C = C) as EC.
  { apply merge_visit_id. unfold visited. rewrite HC. done. }
  destruct (Z.eqb_spec (fc_status B) DL_CHUNK_EMPTY) as [HBe|HBne].
  - assert (merge_visit B = B) as EB.
    { apply merge_visit_id. unfold visited. rewrite HBe. done. }
    rewrite EB, HBe, HC. cbn [Z.eqb andb negb DL_CHUNK_EMPTY DL_CHUNK_BUSY].
    destruct (merge_loop_head (fc_set_to B (fc_to C)) l2
                (merge_done (merge_done done B) C) b)
      as (t & rest & E & Ht); [done|].
    destruct (merge_loop (fc_set_to B (fc_to C)) l2 _) as [l d].
    cbn in E, Ht. subst l.
    exists (fc_set_to (fc_set_to B (fc_to C)) t). cbn.
    split; [auto|]. repeat split; auto; lia.
  - assert ((fc_status B =? fc_status C)
            && negb (fc_status C =? DL_CHUNK_BUSY) = false) as ->.
    { rewrite HC. unfold DL_CHUNK_EMPTY in *. lia. }
    rewrite EC.
    destruct (merge_loop_head C l2 (merge_done (merge_done done B) C) b)
      as (t & rest & E & Ht); [done|].
    destruct (merge_loop C l2 _) as [l d].
    cbn in E, Ht. subst l.
    exists (fc_set_to C t). cbn.
    split; [auto|]. repeat split; auto; lia.
Qed.

(** C9.  When [file_info_update] writes a range [from, to) that lies
    strictly inside one BUSY chunk [fc] of a valid chunk list
    ([fc->from < from] and [to < fc->to]), the call succeeds, the lower part
    [fc->from, from) stays BUSY under the original owner, and the bytes of
    the upper remainder [to, fc->to) end up in a chunk that is EMPTY and has
    no owner: the owner of the reservation is not left with two BUSY chunks
    made out of it. *)
Theorem update_inside_busy_frees_remainder (fi : fileinfo) (d : download_id)
    (from to status : Z) (l1 l2 : list dl_file_chunk) (fc : dl_file_chunk) :
  fi_valid fi ->
  0 < fi_refcount fi ->
  update_status_ok fi status ->
  fi_chunklist fi = l1 ++ fc :: l2 ->
  fc_status fc = DL_CHUNK_BUSY ->
  fc_from fc < from -> from < to -> to < fc_to fc ->
  exists fi',
    file_info_update fi d from to status = Some fi'
    /\ In (mk_chunk (fc_from fc) from (fc_download fc) DL_CHUNK_BUSY)
         (fi_chunklist fi')
    /\ exists c,
         In c (fi_chunklist fi')
         /\ fc_from c <= to /\ fc_to fc <= fc_to c
         /\ fc_status c = DL_CHUNK_EMPTY /\ fc_download c = None.
Proof.
  intros Hv Hr Hs Hl Hb H1 H2 H3.
  pose proof (fi_valid_chain _ Hv) as Hc. pose proof Hv as (Hk & Hsz & _).
  unfold file_info_update.
  destruct (Z.ltb_spec 0 (fi_refcount fi)); [|lia]. cbn [negb].
  destruct (Z.ltb_spec from to); [|lia]. cbn [negb].
  rewrite Hk. cbn [negb].
  assert (exists nm newval,
            (if status =? DL_CHUNK_DONE then Some (false, Some d)
             else if status =? DL_CHUNK_BUSY
                  then if 0 <? fi_lifecount fi
                       then Some (true, Some d) else None
                  else if status =? DL_CHUNK_EMPTY
                       then Some (true, None) else None)
            = Some (nm, newval)
            /\ (status = DL_CHUNK_EMPTY -> newval = None)
            /\ (status <> DL_CHUNK_DONE -> nm = true)) as (nm & newval & -> & Hnv & Hnm).
  { destruct Hs as [->|[->|[-> Hlc]]]; cbn.
    - exists false, (Some d). done.
    - exists true, None. done.
    - destruct (Z.ltb_spec 0 (fi_lifecount fi)); [|lia].
      exists true, (Some d). done. }
  rewrite Hl in *. cbn [update_again].
  rewrite (update_scan_inside to status newval fc l2 from (fi_done fi) nm
             l1 None 0 (fi_size fi) Hc H1 H2 H3).
  cbn [with_prev]. rewrite Hb.
  change (DL_CHUNK_BUSY =? DL_CHUNK_DONE) with false. cbv iota.
  set (A := inside_lower fc from).
  set (B := mk_chunk from to newval status).
  assert (inside_upper fc to = mk_chunk to (fc_to fc) None DL_CHUNK_EMPTY)
    as ->.
  { unfold inside_upper. rewrite Hb. done. }
  set (C := mk_chunk to (fc_to fc) None DL_CHUNK_EMPTY).
  assert (A = mk_chunk (fc_from fc) from (fc_download fc) DL_CHUNK_BUSY) as EA.
  { unfold A, inside_lower, fc_set_to. rewrite Hb. done. }
  eexists. split; [reflexivity|].
  destruct nm.
  - rewrite file_info_merge_adjacent_chunks, fi_set_chunks_chunklist.
    split.
    + rewrite <- EA. apply merge_chunks_busy.
      * apply in_or_app. right. left. done.
      * rewrite EA. done.
    + destruct (merge_chunks_app_busy A (B :: C :: l2) l1) as (pre & done' & E).
      { rewrite EA. done. }
      rewrite E.
      destruct (merge_loop_after_busy A B C l2 done' (fi_size fi))
        as (c & Hin & Hc1 & Hc2 & Hc3 & Hc4); try done.
      { apply chain_app in Hc as (m & C1 & C2).
        apply chain_cons in C2 as (? & ? & C2).
        unfold B, C. rewrite !chain_cons. cbn. repeat split; auto; lia. }
      exists c. split; [apply in_or_app; right; done|].
      cbn in Hc1, Hc2. auto.
  - rewrite fi_set_chunks_chunklist. split.
    + rewrite <- EA. apply in_or_app. right. left. done.
    + exists C. split.
      * apply in_or_app. right. right. right. left. done.
      * cbn. repeat split; auto; lia.
Qed.

Lemma update_inside_busy_frees_remainder_witness :
  exists fi',
    file_info_update steal_sample 2%nat 400 600 DL_CHUNK_BUSY = Some fi'
    /\ In (mk_chunk 0 400 (Some 1%nat) DL_CHUNK_BUSY) (fi_chunklist fi')
    /\ exists c,
         In c (fi_chunklist fi')
         /\ fc_from c <= 600 /\ 1000 <= fc_to c
         /\ fc_status c = DL_CHUNK_EMPTY /\ fc_download c = None.
Proof.
  apply (update_inside_busy_frees_remainder steal_sample 2%nat 400 600
           DL_CHUNK_BUSY [] [] (mk_chunk 0 1000 (Some 1%nat) DL_CHUNK_BUSY)).
  - unfold fi_valid. simpl. repeat split; try reflexivity; lia.
  - simpl. lia.
  - right. right. split; [reflexivity|simpl; lia].
  - reflexivity.
  - reflexivity.
  - simpl. lia.
  - lia.
  - simpl. lia.
Defined.

(** *** No self-theft *)

Lemma chain_disjoint a l b x y :
  chain a l b -> In x l -> In y l ->
  x = y \/ fc_to x <= fc_from y \/ fc_to y <= fc_from x.
Proof.
  revert a. induction l as [|z sl IH]; intros a Hc Hx Hy; [done|].
  apply chain_cons in Hc as (H1 & H2 & Hc).
  destruct Hx as [->|Hx], Hy as [->|Hy]; auto.
  - pose proof (chain_In _ _ _ _ Hc Hy). right. left. lia.
  - pose proof (chain_In _ _ _ _ Hc Hx). right. right. lia.
  - eapply IH; eauto.
Qed.

Lemma find_largest_spec d l :
  forall acc c,
    find_largest d l acc = Some c ->
    acc = Some c
    \/ (In c l /\ fc_status c = DL_CHUNK_BUSY /\ fc_download c <> Some d).
Proof.
  induction l as [|fc sl IH]; intros acc c H; simpl in H; [auto|].
  destruct (Z.eqb_spec (fc_status fc) DL_CHUNK_BUSY) as [Hb|Hb]; cbn in H.
  2:{ apply IH in H as [?|(? & ? & ?)]; [auto|right; cbn; auto]. }
  destruct (bool_decide_reflect (fc_download fc = Some d)) as [Hd|Hd].
  { apply IH in H as [?|(? & ? & ?)]; [auto|right; cbn; auto]. }
  assert (forall acc', find_largest d sl acc' = Some c ->
            acc' = Some fc \/ acc' = acc ->
            acc = Some c
            \/ (In c (fc :: sl) /\ fc_status c = DL_CHUNK_BUSY
                /\ fc_download c <> Some d)) as G.
  { intros acc' E Hacc. apply IH in E as [E|(? & ? & ?)].
    - destruct Hacc as [->| ->]; [|auto]. simplify_eq. right. cbn. auto.
    - right. cbn. auto. }
  destruct acc as [lg|]; [destruct (_ <? _)|]; eapply G; eauto.
Qed.

Lemma find_slowest_spec dls d l :
  forall acc sp c,
    find_slowest dls d l acc sp = Some (Some c) ->
    acc = Some c
    \/ (In c l /\ fc_status c = DL_CHUNK_BUSY /\ fc_download c <> Some d).
Proof.
  induction l as [|fc sl IH]; intros acc sp c H; simpl in H;
    [simplify_eq; auto|].
  destruct (Z.eqb_spec (fc_status fc) DL_CHUNK_BUSY) as [Hb|Hb]; cbn in H.
  2:{ apply IH in H as [?|(? & ? & ?)]; [auto|right; cbn; auto]. }
  destruct (bool_decide_reflect (fc_download fc = Some d)) as [Hd|Hd].
  { apply IH in H as [?|(? & ? & ?)]; [auto|right; cbn; auto]. }
  destruct (owner_speed_avg dls fc) as [speed_avg|]; [|done].
  assert (forall acc' sp', find_slowest dls d sl acc' sp' = Some (Some c) ->
            acc' = Some fc \/ acc' = acc ->
            acc = Some c
            \/ (In c (fc :: sl) /\ fc_status c = DL_CHUNK_BUSY
                /\ fc_download c <> Some d)) as G.
  { intros acc' sp' E Hacc. apply IH in E as [E|(? & ? & ?)].
    - destruct Hacc as [->| ->]; [|auto]. simplify_eq. right. cbn. auto.
    - right. cbn. auto. }
  destruct acc as [sw|]; [destruct (_ || _)|]; eapply G; eauto.
Qed.

Lemma fi_find_largest_other fi d c :
  fi_find_largest fi d = Some c ->
  In c (fi_chunklist fi) /\ fc_status c = DL_CHUNK_BUSY
  /\ fc_download c <> Some d.
Proof.
  unfold fi_find_largest. intros H.
  apply find_largest_spec in H as [?|?]; done.
Qed.

Lemma fi_find_slowest_other dls fi d c :
  fi_find_slowest dls fi d = Some (Some c) ->
  In c (fi_chunklist fi) /\ fc_status c = DL_CHUNK_BUSY
  /\ fc_download c <> Some d.
Proof.
  unfold fi_find_slowest. intros H.
  apply find_slowest_spec in H as [?|?]; done.
Qed.

Lemma aggressive_range_spec d fc from to c :
  aggressive_range d fc = Some (Some (from, to, c)) ->
  c = fc /\ to = fc_to fc /\ fc_download fc <> Some d.
Proof.
  unfold aggressive_range. intros H.
  destruct (bool_decide_reflect (fc_download fc = None)); [done|].
  destruct (bool_decide_reflect (fc_download fc = Some d)); [done|].
  cbn in H. destruct (_ <=? _); simplify_eq; done.
Qed.

Lemma aggressive_fallback_spec {D : DoubleOps} dls fi d mc from to c :
  aggressive_fallback dls fi d mc = Some (Some (from, to, c)) ->
  In c (fi_chunklist fi) /\ fc_status c = DL_CHUNK_BUSY
  /\ fc_download c <> Some d /\ to = fc_to c.
Proof.
  unfold aggressive_fallback. intros H.
  destruct (fi_find_slowest dls fi d) as [[fc|]|] eqn:E; try done.
  destruct (aggressive_vs_slowest dls fi d mc fc) as [[|]|]; try done.
  apply aggressive_range_spec in H as (-> & -> & ?).
  apply fi_find_slowest_other in E as (? & ? & ?). done.
Qed.

Lemma fi_find_aggressive_candidate_spec {D : DoubleOps} P dls fi d busy
    from to c :
  fi_find_aggressive_candidate P dls fi d busy = Some (Some (from, to, c)) ->
  In c (fi_chunklist fi) /\ fc_status c = DL_CHUNK_BUSY
  /\ fc_download c <> Some d /\ to = fc_to c.
Proof.
  unfold fi_find_aggressive_candidate. intros H.
  destruct (_ =? 0); [done|].
  destruct (fi_missing_coverage dls fi d) as [mc|]; [|done].
  destruct (fi_find_largest fi d) as [fc|] eqn:E.
  - destruct (_ <? _).
    + eapply aggressive_fallback_spec; eauto.
    + destruct (aggressive_vs_largest dls fi d mc fc) as [[|]|]; try done.
      * apply aggressive_range_spec in H as (-> & -> & ?).
        apply fi_find_largest_other in E as (? & ? & ?). done.
      * eapply aggressive_fallback_spec; eauto.
  - eapply aggressive_fallback_spec; eauto.
Qed.

Lemma scan_holes_spec dls d ck :
  forall pipelined fc,
    scan_holes dls d ck pipelined = Some (inl fc) ->
    In fc ck /\ fc_status fc = DL_CHUNK_EMPTY.
Proof.
  induction ck as [|x sl IH]; intros pipelined fc H; simpl in H; [done|].
  destruct (Z.eqb_spec (fc_status x) DL_CHUNK_EMPTY) as [He|Hne]; cbn in H.
  - simplify_eq. split; [left; done|done].
  - assert (forall p, scan_holes dls d sl p = Some (inl fc) ->
              In fc (x :: sl) /\ fc_status fc = DL_CHUNK_EMPTY) as G.
    { intros p E. apply IH in E as [? ?]. split; [right; done|done]. }
    destruct (_ =? DL_CHUNK_BUSY); [|eauto].
    destruct (fc_download x); [|done].
    destruct (_ && _); eauto.
Qed.

Lemma clone_first_pass_incl offset l c :
  clone_first_pass offset l = Some c -> forall x, In x c -> In x l.
Proof.
  revert c. induction l as [|fc sl IH]; intros c H x Hx; simpl in H; [done|].
  destruct (_ <=? _); [simplify_eq; done|].
  destruct (_ && _); [done|]. right. eapply IH; eauto.
Qed.

Lemma clone_split_incl offset l :
  forall l' c,
    clone_split offset l = Some (Some (l', c)) ->
    (forall x, In x c -> In x l')
    /\ (forall x, In x l -> fc_status x <> DL_CHUNK_EMPTY -> In x l').
Proof.
  induction l as [|fc sl IH]; intros l' c H; simpl in H; [done|].
  destruct (Z.eqb_spec (fc_status fc) DL_CHUNK_EMPTY) as [He|Hne]; cbn in H.
  - destruct (_ <? _).
    + destruct (_ && _); [|done]. simplify_eq. split.
      * intros x Hx. right. done.
      * intros x [->|Hx] Hs; [done|]. right. right. done.
    + destruct (clone_split offset sl) as [[[l1 c1]|]|]; simplify_eq.
      destruct (IH _ _ eq_refl) as [I1 I2]. split.
      * intros x Hx. right. auto.
      * intros x [->|Hx] Hs; [left; done|right; auto].
  - destruct (clone_split offset sl) as [[[l1 c1]|]|]; simplify_eq.
    destruct (IH _ _ eq_refl) as [I1 I2]. split.
    + intros x Hx. right. auto.
    + intros x [->|Hx] Hs; [left; done|right; auto].
Qed.

Lemma clone_wrap_incl offset l w :
  clone_wrap offset l = Some w -> forall x, In x w -> In x l.
Proof.
  revert w. induction l as [|fc sl IH]; intros w H x Hx; simpl in H.
  - simplify_eq. done.
  - destruct (_ <? _); [simplify_eq; done|].
    destruct (_ <? _); [|done].
    destruct (clone_wrap offset sl) as [w'|]; [|done]. simplify_eq.
    destruct Hx as [->|Hx]; [left; done|right; eauto].
Qed.

Lemma list_clone_shift_incl P rnd fi fi1 ck :
  list_clone_shift P rnd fi = Some (fi1, ck) ->
  (forall x, In x ck -> In x (fi_chunklist fi1))
  /\ (forall x, In x (fi_chunklist fi) -> fc_status x <> DL_CHUNK_EMPTY ->
        In x (fi_chunklist fi1)).
Proof.
  unfold list_clone_shift. intros H.
  destruct (if 0 <? pfsp_first_chunk P then _ else _) as [[|]|]; [| |done].
  2:{ simplify_eq. done. }
  set (offset := if _ =? 0 then _ else _) in H.
  destruct (clone_first_pass offset (fi_chunklist fi)) as [c|] eqn:E1.
  - destruct c as [|fc c]; [done|].
    destruct (clone_wrap (fc_from fc) (fi_chunklist fi)) as [w|] eqn:E3;
      [|done].
    simplify_eq. rewrite fi_set_chunks_chunklist. split; [|done].
    intros x Hx. apply in_app_or in Hx as [Hx|Hx].
    + eapply clone_first_pass_incl; eauto.
    + eapply clone_wrap_incl; eauto.
  - destruct (clone_split offset (fi_chunklist fi)) as [[[l c]|]|] eqn:E2;
      [| |done].
    + destruct c as [|fc c]; [done|].
      destruct (clone_wrap (fc_from fc) l) as [w|] eqn:E3; [|done].
      simplify_eq. rewrite fi_set_chunks_chunklist.
      destruct (clone_split_incl _ _ _ _ E2) as [I1 I2].
      split; [|done].
      intros x Hx. apply in_app_or in Hx as [Hx|Hx]; [auto|].
      eapply clone_wrap_incl; eauto.
    + simplify_eq. done.
Qed.

Lemma file_info_reserve_bounds fi d from to chunk fi' :
  file_info_reserve fi d from to chunk = Some fi' ->
  from < to
  /\ match chunk with
     | Some c => fc_from c <= from /\ to <= fc_to c
                 /\ fc_download c <> Some d
     | None => True
     end.
Proof.
  unfold file_info_reserve, file_info_update. intros H.
  destruct (negb (from <=? to)); [done|].
  split.
  - destruct (match chunk with Some _ => _ | None => _ end); [|done].
    destruct (negb (0 <? fi_refcount fi)); [done|].
    destruct (Z.ltb_spec from to); [done|done].
  - destruct chunk as [c|]; [|done].
    destruct (Z.leb_spec (fc_from c) from); [|done].
    destruct (Z.leb_spec to (fc_to c)); [|done].
    destruct (bool_decide_reflect (fc_download c = None)); [done|].
    destruct (bool_decide_reflect (fc_download c = Some d)); [done|].
    done.
Qed.

Lemma file_info_reserve_own_chunk fi d from to c :
  fc_download c = Some d -> file_info_reserve fi d from to (Some c) = None.
Proof.
  intros H. unfold file_info_reserve.
  destruct (negb (from <=? to)); [done|].
  rewrite H. rewrite (bool_decide_eq_true_2 (Some d = Some d)) by done.
  rewrite bool_decide_eq_false_2 by done. cbn.
  rewrite !andb_false_r. done.
Qed.

(** C6.  Whatever [file_info_find_hole] reserves for the download [d] on a
    valid file information, aggressive swarming included, is never a
    sub-range of a BUSY chunk that [d] owns in the state the range is
    selected on.  The candidate searches [fi_find_largest] and
    [fi_find_slowest] only return chunks of other owners, and
    [file_info_reserve] refuses a stolen chunk owned by the requester. *)
Theorem find_hole_no_self_theft {D : DoubleOps} (P : gnet_property)
    (dls : download_id -> download) (missing : bool) (rnd : filesize_t)
    (fi : fileinfo) (d : download_id) (st from to : Z) (fi' : fileinfo) :
  fi_valid fi ->
  file_info_find_hole P dls missing rnd fi d = Some (st, Some (from, to), fi') ->
  (exists fi0,
     find_hole_state dls missing fi = Some fi0
     /\ forall fc, In fc (fi_chunklist fi0) ->
          fc_status fc = DL_CHUNK_BUSY -> fc_download fc = Some d ->
          ~ (fc_from fc <= from /\ to <= fc_to fc))
  /\ (forall fi1 c, fi_find_largest fi1 d = Some c -> fc_download c <> Some d)
  /\ (forall fi1 c, fi_find_slowest dls fi1 d = Some (Some c) ->
        fc_download c <> Some d)
  /\ (forall fi1 from1 to1 c, fc_download c = Some d ->
        file_info_reserve fi1 d from1 to1 (Some c) = None).
Proof.
  intros Hv H.
  split; [|split; [|split]].
  2:{ intros fi1 c E. apply fi_find_largest_other in E. tauto. }
  2:{ intros fi1 c E. apply fi_find_slowest_other in E. tauto. }
  2:{ intros. apply file_info_reserve_own_chunk. done. }
  pose proof (fi_valid_chain _ Hv) as Hc. pose proof Hv as (Hk & Hsz & _).
  unfold file_info_find_hole in H.
  destruct (negb _ || negb _); [done|].
  destruct (fi_busy_count dls fi d) as [reserved|]; [|done]. cbn in H.
  destruct (negb (reserved <=? _)); [done|].
  destruct (negb (fi_done fi =? 0) && (fi_done fi =? fi_size fi)); [done|].
  destruct (find_hole_state dls missing fi) as [fi0|] eqn:E0; [|done].
  cbn in H. exists fi0. split; [done|].
  assert (chain 0 (fi_chunklist fi0) (fi_size fi)) as C0.
  { unfold find_hole_state in E0. destruct (negb _).
    - eapply fi_check_file_chain; eauto.
    - simplify_eq. done. }
  destruct (if pfsp_server P then list_clone_shift P rnd fi0 else _)
    as [[fi1 ck]|] eqn:E1; [|done].
  cbn in H.
  assert (chain 0 (fi_chunklist fi1) (fi_size fi)
          /\ (forall x, In x ck -> In x (fi_chunklist fi1))
          /\ (forall x, In x (fi_chunklist fi0) ->
                fc_status x <> DL_CHUNK_EMPTY -> In x (fi_chunklist fi1)))
    as (C1 & I1 & I2).
  { destruct (pfsp_server P).
    - destruct (list_clone_shift_chain _ _ _ _ _ 0 (fi_size fi) E1 C0)
        as (? & _); [lia|lia|].
      destruct (list_clone_shift_incl _ _ _ _ _ E1). done.
    - simplify_eq. done. }
  assert (forall c, In c (fi_chunklist fi1) ->
            fc_from c <= from -> from < to -> to <= fc_to c ->
            fc_status c <> DL_CHUNK_BUSY \/ fc_download c <> Some d ->
            forall fc, In fc (fi_chunklist fi0) ->
              fc_status fc = DL_CHUNK_BUSY -> fc_download fc = Some d ->
              ~ (fc_from fc <= from /\ to <= fc_to fc)) as G.
  { intros c Hin Hf Hft Ht Hother fc Hfc Hb Hd [Hf' Ht'].
    assert (In fc (fi_chunklist fi1)) as Hfc1.
    { apply I2; [done|]. rewrite Hb. done. }
    destruct (chain_disjoint _ _ _ _ _ C1 Hin Hfc1) as [->|[?|?]]; try lia.
    destruct Hother; congruence. }
  destruct (scan_holes dls d ck 0) as [[fc|pipelined]|] eqn:Esc; [| |done];
    cbn in H.
  - destruct (file_info_reserve fi1 d _ _ None) as [fi2|] eqn:E2; [|done].
    cbn in H. simplify_eq.
    apply scan_holes_spec in Esc as [Hin He].
    apply file_info_reserve_bounds in E2 as [Hft _].
    apply I1 in Hin.
    pose proof (chain_In _ _ _ _ C1 Hin) as Hb.
    intros x Hx Hxb Hxd [Hf' Ht'].
    assert (In x (fi_chunklist fi1)) as Hx1.
    { apply I2; [done|]. rewrite Hxb. done. }
    destruct (chain_disjoint _ _ _ _ _ C1 Hin Hx1) as [->|[?|?]]; try lia.
    rewrite Hxb in He. done.
  - destruct (negb _); [done|].
    destruct (if use_aggressive_swarming P then _ else _)
      as [[[[start end_] chunk]|]|] eqn:Ec; [| |done]; cbn in H; [|done].
    destruct (file_info_reserve fi1 d _ _ _) as [fi2|] eqn:E2; [|done].
    cbn in H. simplify_eq.
    apply file_info_reserve_bounds in E2 as (Hft & Hf & Ht & Hd).
    destruct (use_aggressive_swarming P); [|done].
    apply fi_find_aggressive_candidate_spec in Ec as (Hin & _ & _ & _).
    eapply G; eauto.
Qed.

Lemma find_hole_no_self_theft_witness :
  file_info_find_hole (D := Q_double) pipeline_props pipeline_dls false 0
    pipeline_sample 3%nat
  = Some (DL_CHUNK_EMPTY, Some (2499, 5000), pipeline_after)
  /\ forall fc, In fc (fi_chunklist pipeline_sample) ->
       fc_status fc = DL_CHUNK_BUSY -> fc_download fc = Some 3%nat ->
       ~ (fc_from fc <= 2499 /\ 5000 <= fc_to fc).
Proof.
  assert (fi_valid pipeline_sample) as Hv.
  { unfold fi_valid. simpl. repeat split; try reflexivity; lia. }
  assert (file_info_find_hole (D := Q_double) pipeline_props pipeline_dls
            false 0 pipeline_sample 3%nat
          = Some (DL_CHUNK_EMPTY, Some (2499, 5000), pipeline_after)) as E
    by (vm_compute; reflexivity).
  split; [exact E|].
  destruct (find_hole_no_self_theft (D := Q_double) pipeline_props
              pipeline_dls false 0 pipeline_sample 3%nat DL_CHUNK_EMPTY
              2499 5000 pipeline_after Hv E) as [(fi0 & E0 & G) _].
  vm_compute in E0. injection E0 as <-. exact G.
Defined.

(** *** Aggressive swarming on a file made of one BUSY chunk *)

Ltac Zify.zify_post_hook ::= Z.div_mod_to_equations.

Section SingleBusyChunk.

Context {D : DoubleOps}.
Variables (P : gnet_property) (dls : download_id -> download).
Variables (A B : download_id) (n : Z) (fi : fileinfo).

Hypothesis Haggressive : use_aggressive_swarming P = true.
Hypothesis Hn : 0 < n < 2 ^ 63.
Hypothesis HAB : A <> B.
Hypothesis Hknown : fi_file_size_known fi = true.
Hypothesis Hsize : fi_size fi = n.
Hypothesis Hdone : fi_done fi = 0.
Hypothesis Hrefcount : 0 < fi_refcount fi.
Hypothesis Hlifecount : 0 < fi_lifecount fi < 2 ^ 30.
Hypothesis Hchunks :
  fi_chunklist fi = [mk_chunk 0 n (Some A) DL_CHUNK_BUSY].
Hypothesis HspeedA : d_speed_avg (dls A) = 0.
Hypothesis HspeedB : 0 < d_speed_avg (dls B).
Hypothesis HpipeA : d_pipelining (dls A) = false.
Hypothesis HrangesA : d_ranges (dls A) = [] /\ d_ranges_size (dls A) = 0.
Hypothesis HrangesB : d_ranges (dls B) = [] /\ d_ranges_size (dls B) = 0.
Hypothesis Hone : dbl_ge dbl_one dbl_one = true.

Let whole : dl_file_chunk := mk_chunk 0 n (Some A) DL_CHUNK_BUSY.

Lemma single_busy_count : fi_busy_count dls fi B = Some 0.
Proof.
  unfold fi_busy_count, busy_chunks_of. rewrite Hchunks. cbn.
  rewrite bool_decide_eq_false_2 by congruence. cbn.
  destruct (d_pipelining (dls B));
    match goal with
    | |- context [?x <=? ?y] => destruct (Z.leb_spec x y)
    end; try done; lia.
Qed.

Lemma single_coverage d :
  d_ranges (dls d) = [] /\ d_ranges_size (dls d) = 0 ->
  fi_missing_coverage dls fi d = Some dbl_one.
Proof.
  intros [Hr Hs]. unfold fi_missing_coverage.
  destruct (Z.ltb_spec 0 (fi_lifecount fi)); [|lia]. cbn.
  rewrite Hr, Hs. done.
Qed.

Lemma single_largest : fi_find_largest fi B = Some whole.
Proof.
  unfold fi_find_largest. rewrite Hchunks. cbn.
  rewrite bool_decide_eq_false_2 by congruence. done.
Qed.

Lemma single_slowest : fi_find_slowest dls fi B = Some (Some whole).
Proof.
  unfold fi_find_slowest. rewrite Hchunks. cbn.
  rewrite bool_decide_eq_false_2 by congruence. done.
Qed.

Lemma single_range :
  aggressive_range B whole
  = Some (Some (stolen_start n, n, whole)).
Proof.
  unfold aggressive_range, stolen_start, whole, chunk_len.
  cbn [fc_download fc_from fc_to].
  rewrite bool_decide_eq_false_2 by congruence.
  rewrite bool_decide_eq_false_2 by congruence. cbn [orb].
  unfold u64, FI_MIN_CHUNK_SPLIT.
  destruct (Z.leb_spec (2 * 512) ((n - 0) mod 2 ^ 64));
    destruct (Z.leb_spec (2 * 512) n); try lia.
  - do 4 f_equal. lia.
  - done.
Qed.

Lemma single_candidate :
  fi_find_aggressive_candidate P dls fi B 0
  = Some (Some (stolen_start n, n, whole)).
Proof.
  unfold fi_find_aggressive_candidate.
  assert (u64 (s32 (2 * s32 (fi_lifecount fi - 0))) = 2 * fi_lifecount fi) as ->.
  { unfold u64, s32. lia. }
  destruct (Z.eqb_spec (2 * fi_lifecount fi) 0); [lia|].
  rewrite single_largest, (single_coverage B HrangesB).
  rewrite Hsize, Hdone.
  unfold aggressive_fallback, aggressive_vs_largest, aggressive_vs_slowest.
  rewrite single_slowest.
  cbn [whole fc_download]. rewrite (single_coverage A HrangesA).
  rewrite HspeedA, Hone. cbn [Z.eqb orb andb].
  destruct (Z.ltb_spec 0 (d_speed_avg (dls B))); [|lia].
  destruct (_ <? _).
  - apply single_range.
  - cbn [whole fc_download]. rewrite (single_coverage A HrangesA), HspeedA.
    cbn [Z.eqb orb]. apply single_range.
Qed.

Lemma single_scan : scan_holes dls B [whole] 0 = Some (inr 0).
Proof.
  cbn. rewrite bool_decide_eq_false_2 by done. rewrite HpipeA. done.
Qed.

Lemma single_shift rnd :
  list_clone_shift P rnd fi = Some (fi, [whole])
  \/ list_clone_shift P rnd fi
     = Some (fi_set_chunks fi (fi_chunklist fi) (fi_done fi), [whole]).
Proof.
  unfold list_clone_shift. rewrite Hchunks. cbn [fc_status fc_to].
  change (DL_CHUNK_BUSY =? DL_CHUNK_DONE) with false. cbn [negb orb].
  destruct (0 <? pfsp_first_chunk P); [left; done|].
  set (offset := if _ =? 0 then _ else _).
  cbn [clone_first_pass clone_split fc_from fc_status].
  change (DL_CHUNK_BUSY =? DL_CHUNK_EMPTY) with false. cbn [andb].
  destruct (offset <=? 0); [|left; done].
  cbn [clone_wrap fc_from fc_to].
  destruct (Z.ltb_spec 0 n); [|lia]. right. done.
Qed.

Lemma single_update :
  file_info_update fi B
    (stolen_start n) n DL_CHUNK_BUSY
  = Some (fi_set_chunks fi (chunks_after_steal A B n) 0).
Proof.
  unfold file_info_update, stolen_start, chunks_after_steal,
    FI_MIN_CHUNK_SPLIT.
  destruct (Z.ltb_spec 0 (fi_refcount fi)); [|lia].
  destruct (Z.ltb_spec 0 (fi_lifecount fi)); [|lia].
  rewrite Hknown, Hchunks, Hdone.
  cbn [negb Z.eqb DL_CHUNK_BUSY DL_CHUNK_DONE Pos.eqb].
  destruct (Z.leb_spec (2 * 512) n).
  - destruct (Z.ltb_spec ((n - 1) / 2) n); [|lia]. cbn [negb].
    cbn [update_again update_scan whole fc_to fc_from fc_status fc_download].
    cbv zeta.
    destruct (Z.leb_spec n ((n - 1) / 2)); [lia|].
    destruct (Z.leb_spec n 0); [lia|].
    destruct (Z.eqb_spec 0 ((n - 1) / 2)); [lia|]. cbn [andb].
    destruct (Z.ltb_spec 0 ((n - 1) / 2)); [|lia].
    destruct (Z.leb_spec n n); [|lia]. cbn [andb].
    destruct (Z.ltb_spec n n); [lia|].
    cbn. reflexivity.
  - destruct (Z.ltb_spec 0 n); [|lia]. cbn [negb].
    cbn [update_again update_scan whole fc_to fc_from fc_status fc_download].
    cbv zeta.
    destruct (Z.leb_spec n 0); [lia|].
    rewrite !Z.eqb_refl. cbn. reflexivity.
Qed.

Lemma single_reserve :
  file_info_reserve fi B
    (stolen_start n) n (Some whole)
  = Some (fi_set_chunks fi (chunks_after_steal A B n) 0).
Proof.
  unfold file_info_reserve. rewrite single_update.
  cbn [whole fc_from fc_to fc_download fc_status].
  rewrite bool_decide_eq_false_2 by done.
  rewrite bool_decide_eq_false_2 by congruence.
  unfold stolen_start, FI_MIN_CHUNK_SPLIT.
  destruct (Z.leb_spec (2 * 512) n).
  - destruct (Z.leb_spec ((n - 1) / 2) n); [|lia].
    destruct (Z.leb_spec 0 ((n - 1) / 2)); [|lia].
    destruct (Z.leb_spec n n); [|lia]. done.
  - destruct (Z.leb_spec 0 n); [|lia].
    destruct (Z.leb_spec n n); [|lia]. done.
Qed.

(** The selection and the reservation made by [file_info_find_hole] once
    the scan found no EMPTY chunk. *)
Lemma single_steal :
  match fi_find_aggressive_candidate P dls fi B 0 with
  | Some (Some (start, end_, chunk)) =>
      match file_info_reserve fi B start end_ (Some chunk) with
      | Some fi' => Some (DL_CHUNK_EMPTY, Some (start, end_), fi')
      | None => None
      end
  | _ => None
  end
  = Some (DL_CHUNK_EMPTY,
          Some (stolen_start n, n),
          fi_set_chunks fi (chunks_after_steal A B n) 0).
Proof.
  rewrite single_candidate. cbv beta iota. rewrite single_reserve. done.
Qed.

End SingleBusyChunk.

(** C7, as amended.  The file, of known size [n] and of which no byte is
    done yet, is one BUSY chunk [0, n) reserved by the download [A], whose
    average speed is zero and which does not pipeline its requests; [B] is
    another download, with a positive average speed; aggressive swarming is
    enabled, neither source advertises partial ranges (each can supply all
    the missing bytes) and the file information is in use.  Then
    [file_info_find_hole] called for [B] reserves a range: the whole chunk
    [0, n) when it is shorter than [2 * FI_MIN_CHUNK_SPLIT] = 1024 bytes, and
    otherwise its second half, from the midpoint [(from + to - 1) / 2]
    = [(n - 1) / 2] to [n], the first half staying with [A]. *)
Theorem aggressive_steal_single_chunk {D : DoubleOps} (P : gnet_property)
    (dls : download_id -> download) (A B : download_id) (n : Z)
    (fi : fileinfo) (missing : bool) (rnd : filesize_t) :
  use_aggressive_swarming P = true ->
  0 < n < 2 ^ 63 ->
  A <> B ->
  fi_file_size_known fi = true ->
  fi_size fi = n ->
  fi_done fi = 0 ->
  0 < fi_refcount fi ->
  0 < fi_lifecount fi < 2 ^ 30 ->
  fi_chunklist fi = [mk_chunk 0 n (Some A) DL_CHUNK_BUSY] ->
  d_speed_avg (dls A) = 0 ->
  0 < d_speed_avg (dls B) ->
  d_pipelining (dls A) = false ->
  d_ranges (dls A) = [] /\ d_ranges_size (dls A) = 0 ->
  d_ranges (dls B) = [] /\ d_ranges_size (dls B) = 0 ->
  dbl_ge dbl_one dbl_one = true ->
  file_info_find_hole P dls missing rnd fi B
  = Some (DL_CHUNK_EMPTY,
          Some (stolen_start n, n),
          fi_set_chunks fi (chunks_after_steal A B n) 0).
Proof.
  intros Haggr Hn HAB Hk Hsz Hd Hr Hl Hc HsA HsB HpA HrA HrB Hone.
  unfold file_info_find_hole.
  destruct (Z.ltb_spec 0 (fi_refcount fi)); [|lia].
  destruct (Z.ltb_spec 0 (fi_lifecount fi)); [|lia]. cbn [negb orb].
  rewrite (single_busy_count P dls A B n fi HAB Hl Hc).
  cbn [mbind option_bind].
  assert ((0 <=? (if d_pipelining (dls B) then 1 else 0)) = true) as ->
    by (destruct (d_pipelining (dls B)); done).
  cbn [negb]. unfold find_hole_state. rewrite Hd.
  cbn [Z.eqb negb andb mbind option_bind].
  assert (exists fi1,
            (if pfsp_server P then list_clone_shift P rnd fi
             else Some (fi, fi_chunklist fi))
            = Some (fi1, [mk_chunk 0 n (Some A) DL_CHUNK_BUSY])
            /\ (fi1 = fi
                \/ fi1 = fi_set_chunks fi (fi_chunklist fi) (fi_done fi)))
    as (fi1 & -> & Hfi1).
  { destruct (pfsp_server P).
    - destruct (single_shift P dls A B n fi Hn HAB Hc rnd) as [E|E];
        rewrite E; eauto.
    - rewrite Hc. eauto. }
  cbn [mbind option_bind fst snd].
  rewrite (single_scan dls A B n HAB HpA).
  cbn [mbind option_bind].
  change (u32 (0 - 0)) with 0. change (s32 0) with 0.
  rewrite Haggr.
  assert (fi_set_chunks fi1 (chunks_after_steal A B n) 0
          = fi_set_chunks fi (chunks_after_steal A B n) 0) as <-
    by (destruct Hfi1 as [->| ->]; done).
  assert (fi_lifecount fi1 = fi_lifecount fi) as El
    by (destruct Hfi1 as [->| ->]; done).
  rewrite El. destruct (Z.ltb_spec 0 (fi_lifecount fi)); [|lia]. cbn [negb].
  pose proof (single_steal P dls A B n fi1) as Hsteal.
  cbn [mbind option_bind] in *.
  assert (Some (DL_CHUNK_EMPTY, @None (filesize_t * filesize_t), fi1)
          = Some (DL_CHUNK_EMPTY, @None (filesize_t * filesize_t), fi1)) as _
    by done.
  destruct Hfi1 as [->| ->].
  - specialize (Hsteal Hn HAB Hk Hsz Hd Hr Hl Hc HsA HsB HrA HrB Hone).
    destruct (fi_find_aggressive_candidate P dls fi B 0)
      as [[[[start end_] chunk]|]|]; [|done|done].
    cbn [mbind option_bind].
    destruct (file_info_reserve fi B start end_ (Some chunk)); [|done].
    cbn [mbind option_bind]. done.
  - specialize (Hsteal Hn HAB Hk Hsz Hd Hr Hl Hc HsA HsB HrA HrB Hone).
    destruct (fi_find_aggressive_candidate P dls _ B 0)
      as [[[[start end_] chunk]|]|]; [|done|done].
    cbn [mbind option_bind].
    destruct (file_info_reserve _ B start end_ (Some chunk)); [|done].
    cbn [mbind option_bind]. done.
Qed.

(** C7 as the spec states it fails: with the whole file one BUSY chunk
    [0, 500) of a stalled download 1, the faster download 2 is given the
    whole chunk [0, 500), not a second half starting near 250. *)
Lemma aggressive_steal_500_counterexample :
  file_info_find_hole (D := Q_double) aggressive_props sample_dls false 0
    busy500 2%nat
  = Some (DL_CHUNK_EMPTY, Some (0, 500),
          fi_set_chunks busy500
            [mk_chunk 0 500 (Some 2%nat) DL_CHUNK_BUSY] 0)
  /\ ~ (exists from fi',
          0 < from
          /\ file_info_find_hole (D := Q_double) aggressive_props sample_dls
               false 0 busy500 2%nat
             = Some (DL_CHUNK_EMPTY, Some (from, 500), fi')).
Proof.
  assert (file_info_find_hole (D := Q_double) aggressive_props sample_dls
            false 0 busy500 2%nat
          = Some (DL_CHUNK_EMPTY, Some (0, 500),
                  fi_set_chunks busy500
                    [mk_chunk 0 500 (Some 2%nat) DL_CHUNK_BUSY] 0)) as E
    by (vm_compute; reflexivity).
  split; [exact E|].
  intros (from & fi' & Hpos & E'). rewrite E in E'.
  injection E' as Hfrom _. lia.
Qed.

Lemma aggressive_steal_single_chunk_witness :
  file_info_find_hole (D := Q_double) aggressive_props sample_dls false 0
    busy5000 2%nat
  = Some (DL_CHUNK_EMPTY, Some (2499, 5000),
          fi_set_chunks busy5000
            [mk_chunk 0 2499 (Some 1%nat) DL_CHUNK_BUSY;
             mk_chunk 2499 5000 (Some 2%nat) DL_CHUNK_BUSY] 0).
Proof.
  apply (aggressive_steal_single_chunk (D := Q_double) aggressive_props
           sample_dls 1%nat 2%nat 5000 busy5000 false 0);
    try reflexivity; simpl; try lia; try (split; reflexivity).
Defined.

(** ** The binary trailer *)

(** *** Words and bytes *)

Lemma testbit_255 n : 0 <= n -> Z.testbit 255 n = (n <? 8).
Proof.
  intros Hn. change 255 with (Z.ones 8). rewrite Z.testbit_ones by lia. lia.
Qed.

Lemma byte_bit v k n :
  0 <= k -> 0 <= n ->
  Z.testbit (Z.shiftl (Z.land (Z.shiftr v k) 255) k) n
  = (k <=? n) && (n <? k + 8) && Z.testbit v n.
Proof.
  intros Hk Hn. destruct (Z.leb_spec k n) as [Hle|Hlt]; simpl.
  - rewrite Z.shiftl_spec, Z.land_spec, Z.shiftr_spec, testbit_255 by lia.
    replace (n - k + k) with n by lia. rewrite andb_comm. f_equal. lia.
  - apply Z.shiftl_spec_low. lia.
Qed.

Lemma u32_bit_high v n : 0 <= v < 2 ^ 32 -> 32 <= n -> Z.testbit v n = false.
Proof.
  intros Hv Hn. rewrite <- (Z.mod_small v (2 ^ 32)) by lia.
  apply Z.mod_pow2_bits_high. lia.
Qed.

Lemma ntohl_htonl v : 0 <= v < 2 ^ 32 -> ntohl_bytes (htonl_bytes v) = v.
Proof.
  intros Hv. unfold ntohl_bytes, htonl_bytes. apply Z.bits_inj'. intros n Hn.
  rewrite !Z.lor_spec, !byte_bit by lia.
  rewrite Z.land_spec, testbit_255 by lia.
  destruct (Z.lt_ge_cases n 32) as [Hlt|Hge].
  - destruct (Z.testbit v n); [|rewrite !andb_false_r; done].
    rewrite !andb_true_r. lia.
  - rewrite (u32_bit_high v n) by lia. rewrite !andb_false_r. done.
Qed.

Lemma htonl_bytes_length v : length (htonl_bytes v) = 4%nat.
Proof. done. Qed.

Lemma u32_range z : 0 <= u32 z < 2 ^ 32.
Proof. unfold u32. apply Z.mod_pos_bound. lia. Qed.

Lemma u64_range z : 0 <= u64 z < 2 ^ 64.
Proof. unfold u64. apply Z.mod_pos_bound. lia. Qed.

Lemma ntohl_htonl_u32 v : ntohl_bytes (htonl_bytes (u32 v)) = u32 v.
Proof. apply ntohl_htonl, u32_range. Qed.

(** The two halves of a 64-bit offset put together again. *)
Lemma hi_lo_join x :
  0 <= x < 2 ^ 64 ->
  Z.lor (Z.shiftl (u32 (Z.shiftr (u64 x) 32)) 32) (u32 x) = x.
Proof.
  intros Hx. rewrite (u64_small x) by lia. rewrite Z.shiftr_div_pow2 by lia.
  rewrite (u32_small (x / 2 ^ 32)).
  2: { split; [apply Z.div_pos; lia|]. apply Z.div_lt_upper_bound; lia. }
  rewrite <- Z.shiftr_div_pow2 by lia. unfold u32.
  apply Z.bits_inj'. intros n Hn.
  rewrite Z.lor_spec, Z.testbit_mod_pow2 by lia.
  destruct (Z.lt_ge_cases n 32) as [Hlt|Hge].
  - rewrite Z.shiftl_spec_low by lia. simpl.
    replace (n <? 32) with true by lia. done.
  - rewrite Z.shiftl_spec, Z.shiftr_spec by lia.
    replace (n - 32 + 32) with n by lia.
    replace (n <? 32) with false by lia. simpl. apply orb_false_r.
Qed.

(** *** The checksum *)

Lemma file_info_checksum_app c a b :
  file_info_checksum c (a ++ b) = file_info_checksum (file_info_checksum c a) b.
Proof. unfold file_info_checksum. apply fold_left_app. Qed.

Lemma checksum_step_range c p : 0 <= checksum_step c p < 2 ^ 32.
Proof. apply u32_range. Qed.

Lemma file_info_checksum_range c data :
  0 <= c < 2 ^ 32 -> 0 <= file_info_checksum c data < 2 ^ 32.
Proof.
  revert c. induction data as [|p data IH]; intros c Hc; [done|].
  apply IH, checksum_step_range.
Qed.

(** The bits of one step: the checksum is rotated by one bit to the left,
    and the byte is added bit by bit. *)
Lemma checksum_step_bit c p n :
  0 <= c < 2 ^ 32 -> 0 <= n ->
  Z.testbit (checksum_step c p) n
  = (n <? 32)
    && xorb (if n =? 0 then Z.testbit c 31 else Z.testbit c (n - 1))
         (Z.testbit p n).
Proof.
  intros Hc Hn. unfold checksum_step, u32.
  rewrite Z.testbit_mod_pow2 by lia.
  destruct (Z.ltb_spec n 32) as [Hlt|Hge]; [|done]. simpl.
  rewrite !Z.lxor_spec, Z.testbit_mod_pow2 by lia. f_equal.
  rewrite Z.shiftr_spec by lia. replace (n <? 32) with true by lia. simpl.
  destruct (Z.eqb_spec n 0) as [->|Hn0].
  - rewrite Z.shiftl_spec_low by lia. done.
  - rewrite Z.shiftl_spec by lia. rewrite (u32_bit_high c (n + 31)) by lia.
    apply xorb_false_r.
Qed.

Lemma xorb_cancel_r a b p : xorb a p = xorb b p -> a = b.
Proof. by destruct a, b, p. Qed.

Lemma xorb_cancel_l a p q : xorb a p = xorb a q -> p = q.
Proof. by destruct a, p, q. Qed.

(** A step is injective in the checksum... *)
Lemma checksum_step_inj c1 c2 p :
  0 <= c1 < 2 ^ 32 -> 0 <= c2 < 2 ^ 32 ->
  checksum_step c1 p = checksum_step c2 p -> c1 = c2.
Proof.
  intros H1 H2 He. apply Z.bits_inj'. intros n Hn.
  destruct (Z.lt_ge_cases n 32) as [Hlt|Hge].
  2: { rewrite !u32_bit_high by lia. done. }
  assert (Hb : Z.testbit (checksum_step c1 p) (if n =? 31 then 0 else n + 1)
               = Z.testbit (checksum_step c2 p) (if n =? 31 then 0 else n + 1))
    by (rewrite He; done).
  rewrite !checksum_step_bit in Hb by (try done; destruct (n =? 31); lia).
  destruct (Z.eqb_spec n 31) as [->|Hn31].
  - apply (xorb_cancel_r _ _ (Z.testbit p 0)). exact Hb.
  - replace (n + 1 <? 32) with true in Hb by lia.
    replace (n + 1 =? 0) with false in Hb by lia.
    replace (n + 1 - 1) with n in Hb by lia.
    apply (xorb_cancel_r _ _ (Z.testbit p (n + 1))). exact Hb.
Qed.

(** ... and in the byte. *)
Lemma checksum_step_byte c p1 p2 :
  0 <= c < 2 ^ 32 -> 0 <= p1 < 256 -> 0 <= p2 < 256 ->
  checksum_step c p1 = checksum_step c p2 -> p1 = p2.
Proof.
  intros Hc H1 H2 He. apply Z.bits_inj'. intros n Hn.
  destruct (Z.lt_ge_cases n 32) as [Hlt|Hge].
  2: { rewrite !u32_bit_high by lia. done. }
  assert (Hb : Z.testbit (checksum_step c p1) n
               = Z.testbit (checksum_step c p2) n) by (rewrite He; done).
  rewrite !checksum_step_bit in Hb by done.
  replace (n <? 32) with true in Hb by lia.
  apply (xorb_cancel_l _ _ _ Hb).
Qed.

Lemma file_info_checksum_inj c1 c2 data :
  0 <= c1 < 2 ^ 32 -> 0 <= c2 < 2 ^ 32 ->
  file_info_checksum c1 data = file_info_checksum c2 data -> c1 = c2.
Proof.
  revert c1 c2. induction data as [|p data IH]; intros c1 c2 H1 H2 He; [done|].
  simpl in He. apply IH in He; try apply checksum_step_range.
  by apply checksum_step_inj in He.
Qed.

(** The checksum tells apart two runs of bytes that differ in one byte. *)
Lemma file_info_checksum_flip c pre b b' post :
  0 <= c < 2 ^ 32 -> 0 <= b < 256 -> 0 <= b' < 256 -> b <> b' ->
  file_info_checksum c (pre ++ b :: post)
  <> file_info_checksum c (pre ++ b' :: post).
Proof.
  intros Hc Hb Hb' Hne He. rewrite !file_info_checksum_app in He. simpl in He.
  pose proof (file_info_checksum_range c pre Hc) as Hr.
  apply file_info_checksum_inj in He; try apply checksum_step_range.
  by apply checksum_step_byte in He.
Qed.

(** *** Writing *)

Lemma WRITE_STR_bytes data b : WRITE_STR data (wbuf_of b) = wbuf_of (b ++ data).
Proof.
  unfold WRITE_STR, wbuf_of. simpl. by rewrite file_info_checksum_app.
Qed.

Lemma WRITE_UINT32_bytes v b :
  WRITE_UINT32 v (wbuf_of b) = wbuf_of (b ++ htonl_bytes (u32 v)).
Proof. apply WRITE_STR_bytes. Qed.

Lemma WRITE_CHAR_bytes v b : WRITE_CHAR v (wbuf_of b) = wbuf_of (b ++ [v]).
Proof. apply WRITE_STR_bytes. Qed.

Lemma FIELD_ADD_bytes id data b :
  FIELD_ADD id data (wbuf_of b) = wbuf_of (b ++ field_bytes (id, data)).
Proof.
  unfold FIELD_ADD, field_bytes.
  rewrite !WRITE_UINT32_bytes, WRITE_STR_bytes. simpl.
  by rewrite <- !app_assoc.
Qed.

Lemma FIELD_ADD_opt_bytes id data b :
  FIELD_ADD_opt id data (wbuf_of b)
  = wbuf_of (b ++ concat (map field_bytes (opt_field id data))).
Proof.
  destruct data as [bs|]; simpl.
  - by rewrite FIELD_ADD_bytes, app_nil_r.
  - by rewrite app_nil_r.
Qed.

Section CodecFacts.

Variable TTH_MAX_LEAVES : Z.

Lemma store_aliases_cons a sl w :
  store_aliases TTH_MAX_LEAVES (a :: sl) w
  = store_aliases TTH_MAX_LEAVES sl
      (if Z.of_nat (length (c_str a)) <? FI_MAX_FIELD_LEN TTH_MAX_LEAVES
       then FIELD_ADD FILE_INFO_FIELD_ALIAS (c_str a) w else w).
Proof. done. Qed.

Lemma alias_fields_cons a sl :
  alias_fields TTH_MAX_LEAVES (a :: sl)
  = (if Z.of_nat (length (c_str a)) <? FI_MAX_FIELD_LEN TTH_MAX_LEAVES
     then [(FILE_INFO_FIELD_ALIAS, c_str a)] else [])
    ++ alias_fields TTH_MAX_LEAVES sl.
Proof.
  unfold alias_fields. cbn [omap list_omap]. by destruct (_ <? _).
Qed.

Lemma store_aliases_bytes aliases b :
  store_aliases TTH_MAX_LEAVES aliases (wbuf_of b)
  = wbuf_of
      (b ++ concat (map field_bytes (alias_fields TTH_MAX_LEAVES aliases))).
Proof.
  revert b. induction aliases as [|a sl IH]; intros b.
  - change (alias_fields TTH_MAX_LEAVES []) with (@nil (Z * list Z)).
    change (store_aliases TTH_MAX_LEAVES [] (wbuf_of b)) with (wbuf_of b).
    by rewrite app_nil_r.
  - rewrite store_aliases_cons, alias_fields_cons, map_app, concat_app.
    destruct (_ <? _).
    + rewrite FIELD_ADD_bytes, IH. f_equal.
      change (concat (map field_bytes [(FILE_INFO_FIELD_ALIAS, c_str a)]))
        with (field_bytes (FILE_INFO_FIELD_ALIAS, c_str a) ++ []).
      by rewrite app_nil_r, app_assoc.
    + apply IH.
Qed.

Lemma store_chunks_cons fc sl w :
  store_chunks (fc :: sl) w
  = store_chunks sl (FIELD_ADD FILE_INFO_FIELD_CHUNK (chunk_field fc) w).
Proof. done. Qed.

Lemma store_chunks_bytes l b :
  store_chunks l (wbuf_of b)
  = wbuf_of
      (b ++ concat (map field_bytes
                      (map (fun fc => (FILE_INFO_FIELD_CHUNK, chunk_field fc))
                         l))).
Proof.
  revert b. induction l as [|fc sl IH]; intros b.
  - change (store_chunks [] (wbuf_of b)) with (wbuf_of b).
    cbn [map concat]. by rewrite app_nil_r.
  - rewrite store_chunks_cons, FIELD_ADD_bytes, IH. cbn [map concat].
    by rewrite <- app_assoc.
Qed.

Lemma store_fields_bytes fi guid :
  store_fields TTH_MAX_LEAVES fi guid
  = wbuf_of
      (htonl_bytes (u32 FILE_INFO_VERSION) ++ htonl_bytes (u32 (fi_created fi))
       ++ htonl_bytes (u32 (fi_ntime fi))
       ++ [if fi_file_size_known fi then 1 else 0]
       ++ concat (map field_bytes (stored_fields TTH_MAX_LEAVES fi guid))).
Proof.
  unfold store_fields, stored_fields, TBUF_INIT_WRITE.
  change (mk_wbuf [] 0) with (wbuf_of []).
  rewrite !WRITE_UINT32_bytes, WRITE_CHAR_bytes, FIELD_ADD_bytes.
  rewrite FIELD_ADD_opt_bytes.
  destruct (fi_tigertree fi) as [|leaf leaves].
  - rewrite !FIELD_ADD_opt_bytes, store_aliases_bytes, store_chunks_bytes.
    f_equal. rewrite !map_app, !concat_app. cbn [map concat].
    by rewrite <- !app_assoc, !app_nil_l.
  - rewrite FIELD_ADD_bytes.
    rewrite !FIELD_ADD_opt_bytes, store_aliases_bytes, store_chunks_bytes.
    f_equal. rewrite !map_app, !concat_app. cbn [map].
    change (concat [field_bytes (FILE_INFO_FIELD_GUID, guid)])
      with (field_bytes (FILE_INFO_FIELD_GUID, guid) ++ []).
    change (concat [field_bytes (FILE_INFO_FIELD_TIGERTREE,
                                 concat (leaf :: leaves))])
      with (field_bytes (FILE_INFO_FIELD_TIGERTREE, concat (leaf :: leaves))
            ++ []).
    by rewrite <- !app_assoc, !app_nil_l.
Qed.

Lemma store_trailer_bytes fi guid :
  let fields := stored_fields TTH_MAX_LEAVES fi guid in
  let fskn := if fi_file_size_known fi then 1 else 0 in
  let length :=
    Z.of_nat
      (length (covered_bytes FILE_INFO_VERSION (fi_created fi) (fi_ntime fi)
                 fskn fields (fi_size fi) (fi_generation fi) 0)) + 8 in
  let covered :=
    covered_bytes FILE_INFO_VERSION (fi_created fi) (fi_ntime fi) fskn fields
      (fi_size fi) (fi_generation fi) length in
  store_trailer TTH_MAX_LEAVES fi guid
  = covered ++ htonl_bytes (u32 (file_info_checksum 0 covered))
    ++ htonl_bytes (u32 FILE_INFO_MAGIC64).
Proof.
  intros fields fskn len covered. unfold store_trailer.
  rewrite store_fields_bytes, !WRITE_UINT32_bytes.
  cbn [wb_bytes wb_checksum wbuf_of].
  rewrite ?WRITE_UINT32_bytes. cbn [wb_bytes wb_checksum wbuf_of].
  match goal with
  | |- context [Z.of_nat (length ?l) + 3 * 4] =>
      assert (Hlen : Z.of_nat (length l) + 3 * 4 = len)
  end.
  { subst len covered fields fskn. unfold covered_bytes.
    rewrite !length_app, !htonl_bytes_length. simpl length. lia. }
  rewrite Hlen. subst covered. unfold covered_bytes. fold fields fskn.
  by rewrite <- !app_assoc.
Qed.

(** *** Reading *)

Lemma READ_STR_app data rest c :
  READ_STR (length data) (mk_rbuf (data ++ rest) c)
  = Some (data, mk_rbuf rest (file_info_checksum c data)).
Proof.
  unfold READ_STR. cbn [rb_bytes rb_checksum].
  rewrite length_app, take_app_length, drop_app_length.
  replace (length data <=? length data + length rest)%nat with true; [done|].
  symmetry. apply Nat.leb_le. lia.
Qed.

Lemma READ_UINT32_app v rest c :
  READ_UINT32 (mk_rbuf (htonl_bytes (u32 v) ++ rest) c)
  = Some (u32 v, mk_rbuf rest (file_info_checksum c (htonl_bytes (u32 v)))).
Proof.
  unfold READ_UINT32.
  change 4%nat with (length (htonl_bytes (u32 v))).
  by rewrite READ_STR_app, ntohl_htonl_u32.
Qed.

Lemma READ_CHAR_app b rest c :
  READ_CHAR (mk_rbuf (b :: rest) c)
  = Some (b, mk_rbuf rest (file_info_checksum c [b])).
Proof. done. Qed.

Lemma READ_STR_length n r data r' :
  READ_STR n r = Some (data, r') ->
  (length (rb_bytes r) = n + length (rb_bytes r'))%nat.
Proof.
  unfold READ_STR. destruct (Nat.leb_spec n (length (rb_bytes r))); [|done].
  intros [= <- <-]. cbn [rb_bytes]. rewrite length_drop. lia.
Qed.

Lemma READ_UINT32_length r v r' :
  READ_UINT32 r = Some (v, r') ->
  (length (rb_bytes r) = 4 + length (rb_bytes r'))%nat.
Proof.
  unfold READ_UINT32. destruct (READ_STR 4 r) as [[bs r1]|] eqn:E; [|done].
  intros [= <- <-]. by apply READ_STR_length in E.
Qed.

(** The loop over the fields never runs out of steps: a turn consumes at
    least the four bytes of a field id. *)
Lemma retrieve_fields_fuel fuel le t64 v st r :
  (length (rb_bytes r) < fuel)%nat ->
  retrieve_fields TTH_MAX_LEAVES fuel le t64 v st r <> inr OutOfFuel.
Proof.
  revert st r. induction fuel as [|fuel IH]; intros st r Hlen; [lia|].
  cbn [retrieve_fields].
  destruct (READ_UINT32 r) as [[field r1]|] eqn:E1; [|done].
  apply READ_UINT32_length in E1.
  destruct (field =? FILE_INFO_FIELD_END); [done|].
  destruct (READ_UINT32 r1) as [[tmpuint r2]|] eqn:E2; [|done].
  apply READ_UINT32_length in E2.
  destruct (tmpuint =? 0); [done|].
  destruct (_ <? tmpuint); [done|].
  destruct (READ_STR _ r2) as [[data r3]|] eqn:E3; [|done].
  apply READ_STR_length in E3.
  destruct (retrieve_field _ _ _ _ _ _) as [st2|]; [|done].
  apply IH. lia.
Qed.

Lemma fields_length fs :
  (length fs <= length (concat (map field_bytes fs)))%nat.
Proof.
  induction fs as [|f fs IH]; cbn [map concat length]; [lia|].
  rewrite length_app. unfold field_bytes at 1.
  rewrite length_app, htonl_bytes_length. lia.
Qed.

(** The loop on the bytes of a list of fields followed by the end marker:
    it takes the fields one by one. *)
Lemma retrieve_fields_layout le t64 v fs :
  Forall (field_ok TTH_MAX_LEAVES) fs ->
  forall fuel st c rest,
  (length fs < fuel)%nat ->
  retrieve_fields TTH_MAX_LEAVES fuel le t64 v st
    (mk_rbuf (concat (map field_bytes fs)
              ++ htonl_bytes (u32 FILE_INFO_FIELD_END) ++ rest) c)
  = match apply_fields le t64 v st fs with
    | Some st' =>
        inl (st',
             mk_rbuf rest
               (file_info_checksum c
                  (concat (map field_bytes fs)
                   ++ htonl_bytes (u32 FILE_INFO_FIELD_END))))
    | None => inr AssertionFailed
    end.
Proof.
  induction 1 as [|[id data] fs Hf Hfs IH]; intros fuel st c rest Hfuel.
  - destruct fuel as [|fuel]; [simpl in Hfuel; lia|].
    cbn [retrieve_fields map concat app apply_fields].
    rewrite READ_UINT32_app. done.
  - destruct fuel as [|fuel]; [simpl in Hfuel; lia|].
    destruct Hf as (Hid & Hend & Hlen & Hlen32). cbn [fst snd] in *.
    cbn [retrieve_fields map concat apply_fields].
    unfold field_bytes at 1. cbn [fst snd]. rewrite <- !app_assoc.
    rewrite READ_UINT32_app, (u32_small id) by done.
    destruct (Z.eqb_spec id FILE_INFO_FIELD_END) as [|_]; [done|].
    rewrite READ_UINT32_app, (u32_small (Z.of_nat (length data))) by lia.
    destruct (Z.eqb_spec (Z.of_nat (length data)) 0) as [|_]; [lia|].
    destruct (Z.ltb_spec (FI_MAX_FIELD_LEN TTH_MAX_LEAVES)
                (Z.of_nat (length data))) as [|_]; [lia|].
    rewrite Nat2Z.id, READ_STR_app.
    unfold apply_field. cbn [fst snd].
    destruct (retrieve_field _ _ _ _ _ _) as [st2|]; [|done].
    rewrite IH by (simpl in Hfuel; lia).
    destruct (apply_fields _ _ _ _ _) as [st3|]; [|done].
    do 2 f_equal. f_equal.
    rewrite <- !file_info_checksum_app. f_equal.
    unfold field_bytes at 2. cbn [fst snd].
    rewrite (u32_small id), (u32_small (Z.of_nat (length data))) by lia.
    by rewrite <- !app_assoc.
Qed.

Lemma words_cons n v rest :
  words (S n) (htonl_bytes v ++ rest)
  = ntohl_bytes (htonl_bytes v) :: words n rest.
Proof. done. Qed.

Lemma words_one v : words 1 (htonl_bytes v) = [ntohl_bytes (htonl_bytes v)].
Proof. done. Qed.

(** The fixed trailer of a file that ends with the six words of a 64-bit
    trailer. *)
Lemma file_info_get_trailer_words pre size gen len ck :
  0 <= size < 2 ^ 64 ->
  Z.of_nat (length pre) + 24 = size + u32 len ->
  size + u32 len < 2 ^ 64 ->
  file_info_get_trailer
    (pre ++ htonl_bytes (u32 (Z.shiftr (u64 size) 32))
     ++ htonl_bytes (u32 size) ++ htonl_bytes (u32 gen)
     ++ htonl_bytes (u32 len) ++ htonl_bytes (u32 ck)
     ++ htonl_bytes (u32 FILE_INFO_MAGIC64))
  = Some (mk_trailer size (u32 gen) (u32 len) (u32 ck) FILE_INFO_MAGIC64).
Proof.
  intros Hsize Hlen Hmax. unfold file_info_get_trailer.
  pose proof (u32_range len) as Hl.
  rewrite !length_app, !htonl_bytes_length.
  destruct (Z.ltb_spec (Z.of_nat (length pre + (4 + (4 + (4 + (4 + (4 + 4)))))))
              (4 * Z.of_nat FI_TRAILER_INT)) as [Hlt|_].
  { unfold FI_TRAILER_INT in Hlt. lia. }
  replace (length pre + (4 + (4 + (4 + (4 + (4 + 4)))))
           - 4 * FI_TRAILER_INT)%nat with (length pre)
    by (unfold FI_TRAILER_INT; lia).
  rewrite drop_app_length. unfold FI_TRAILER_INT.
  rewrite !words_cons, words_one, !ntohl_htonl_u32.
  change (u32 FILE_INFO_MAGIC64 =? FILE_INFO_MAGIC64) with true. cbv iota.
  rewrite hi_lo_join by done.
  rewrite (u64_small (size + u32 len)) by lia.
  destruct (Z.eqb_spec
              (Z.of_nat (length pre + (4 + (4 + (4 + (4 + (4 + 4)))))))
              (size + u32 len)) as [_|Hne]; [done|lia].
Qed.

Lemma covered_bytes_length version created ntime fskn fs size gen len :
  length (covered_bytes version created ntime fskn fs size gen len)
  = (33 + length (concat (map field_bytes fs)))%nat.
Proof.
  unfold covered_bytes. rewrite !length_app, !htonl_bytes_length.
  cbn [length]. lia.
Qed.

(** The retrieval of a file that holds a well-formed version 6 trailer: the
    fields are taken one by one, then the chunk list and the checksum are
    checked. *)
Lemma retrieve_binary_layout env pathname payload created ntime fskn fs
    size gen ck :
  let len :=
    Z.of_nat
      (length (covered_bytes FILE_INFO_VERSION created ntime fskn fs size
                 gen 0)) + 8 in
  let covered :=
    covered_bytes FILE_INFO_VERSION created ntime fskn fs size gen len in
  Forall (field_ok TTH_MAX_LEAVES) fs ->
  0 <= size < 2 ^ 64 ->
  Z.of_nat (length payload) = size ->
  len < 2 ^ 32 ->
  size + len < 2 ^ 64 ->
  file_info_retrieve_binary TTH_MAX_LEAVES env pathname
    (payload ++ covered ++ htonl_bytes (u32 ck)
     ++ htonl_bytes (u32 FILE_INFO_MAGIC64))
  = match apply_fields (env_little_endian env) true FILE_INFO_VERSION
            (mk_fields (negb (fskn =? 0)) None None [] None None [] []
               (env_tmp env)) fs with
    | None => inr AssertionFailed
    | Some st =>
        if negb (check_chunks (fs_file_size_known st) size 0
                   (rev (fs_chunklist st)))
        then inr InconsistentChunks
        else if negb (file_info_checksum 0 covered =? u32 ck)
        then inr ChecksumMismatch
        else
          inl (retrieved_fileinfo env pathname
                 (mk_trailer size (u32 gen) len (u32 ck) FILE_INFO_MAGIC64)
                 FILE_INFO_VERSION (u32 created) (u32 ntime) st)
    end.
Proof.
  intros len covered Hfs Hsize Hpay Hlen Hmax.
  assert (Hcov : Z.of_nat (length covered) + 8 = len).
  { subst covered len. by rewrite !covered_bytes_length. }
  assert (Hl32 : u32 len = len) by (apply u32_small; lia).
  set (body := htonl_bytes (u32 FILE_INFO_VERSION) ++ htonl_bytes (u32 created)
         ++ htonl_bytes (u32 ntime) ++ [fskn]
         ++ concat (map field_bytes fs)
         ++ htonl_bytes (u32 FILE_INFO_FIELD_END)).
  set (tail := htonl_bytes (u32 (Z.shiftr (u64 size) 32))
         ++ htonl_bytes (u32 size) ++ htonl_bytes (u32 gen)
         ++ htonl_bytes (u32 len)).
  assert (Hcb : covered = body ++ tail).
  { subst covered body tail. unfold covered_bytes. by rewrite <- !app_assoc. }
  assert (Htr : file_info_get_trailer
            (payload ++ covered ++ htonl_bytes (u32 ck)
             ++ htonl_bytes (u32 FILE_INFO_MAGIC64))
          = Some (mk_trailer size (u32 gen) (u32 len) (u32 ck)
                    FILE_INFO_MAGIC64)).
  { rewrite Hcb. subst tail.
    replace (payload ++ (body ++ htonl_bytes (u32 (Z.shiftr (u64 size) 32))
               ++ htonl_bytes (u32 size) ++ htonl_bytes (u32 gen)
               ++ htonl_bytes (u32 len)) ++ htonl_bytes (u32 ck)
             ++ htonl_bytes (u32 FILE_INFO_MAGIC64))
      with ((payload ++ body)
            ++ htonl_bytes (u32 (Z.shiftr (u64 size) 32))
            ++ htonl_bytes (u32 size) ++ htonl_bytes (u32 gen)
            ++ htonl_bytes (u32 len) ++ htonl_bytes (u32 ck)
            ++ htonl_bytes (u32 FILE_INFO_MAGIC64))
      by (by rewrite <- !app_assoc).
    apply file_info_get_trailer_words; [done| |lia].
    rewrite Hl32, length_app. rewrite Hcb, length_app in Hcov.
    unfold tail in Hcov. rewrite !length_app, !htonl_bytes_length in Hcov.
    lia. }
  unfold file_info_retrieve_binary. rewrite Htr.
  cbn [tr_length tr_filesize tr_generation tr_checksum tr_magic].
  unfold trailer_is_64bit. cbn [tr_magic].
  change (FILE_INFO_MAGIC64 =? FILE_INFO_MAGIC64) with true.
  replace (Z.to_nat size) with (length payload) by lia.
  rewrite drop_app_length.
  rewrite Hl32.
  rewrite (take_ge (covered ++ _)).
  2: { rewrite !length_app, !htonl_bytes_length. lia. }
  rewrite Hcb. unfold body.
  rewrite <- !app_assoc.
  rewrite READ_UINT32_app.
  change (u32 FILE_INFO_VERSION) with 6.
  change (FILE_INFO_VERSION <? 6) with false.
  change (true && false || negb true && (5 <? 6)) with false. cbv iota.
  change (4 <=? 6) with true. cbv iota.
  rewrite !READ_UINT32_app.
  change (5 <=? 6) with true. cbv iota.
  cbn [app]. rewrite READ_CHAR_app.
  rewrite retrieve_fields_layout; [|done|].
  2: { cbn [rb_bytes]. rewrite length_app. pose proof (fields_length fs). lia. }
  change FILE_INFO_VERSION with 6.
  destruct (apply_fields _ _ _ _ _) as [st|]; [|done].
  destruct (check_chunks _ _ _ _); [|done]. cbn [negb].
  unfold retrieve_tail, tail. rewrite <- !app_assoc.
  rewrite !READ_UINT32_app. cbn [rb_checksum].
  rewrite <- !file_info_checksum_app.
  match goal with
  | |- context [file_info_checksum 0 ?l] => replace l with (body ++ tail)
  end.
  2: { unfold body, tail. change (u32 FILE_INFO_VERSION) with 6.
       rewrite <- !app_assoc. done. }
  by rewrite <- Hcb.
Qed.

(** *** The fields of a stored trailer, read back *)

Lemma apply_fields_app le t64 v st fs1 fs2 :
  apply_fields le t64 v st (fs1 ++ fs2)
  = match apply_fields le t64 v st fs1 with
    | Some st' => apply_fields le t64 v st' fs2
    | None => None
    end.
Proof.
  revert st. induction fs1 as [|f fs1 IH]; intros st; [done|].
  cbn [app apply_fields]. destruct (apply_field _ _ _ _ _); [apply IH|done].
Qed.

Lemma take_data_tmp (data : list Z) rest :
  firstn (Z.to_nat (Z.of_nat (length data))) (data ++ rest) = data.
Proof. by rewrite Nat2Z.id, take_app_length. Qed.

Lemma apply_field_guid le st g :
  Z.of_nat (length g) = GUID_RAW_SIZE ->
  exists tmp,
    apply_field le true FILE_INFO_VERSION st (FILE_INFO_FIELD_GUID, g)
    = Some (mk_fields (fs_file_size_known st) (Some g) (fs_tth st)
              (fs_tigertree st) (fs_sha1 st) (fs_cha1 st) (fs_alias st)
              (fs_chunklist st) tmp).
Proof.
  intros Hg. eexists. unfold apply_field, retrieve_field.
  cbn [fst snd fs_tmp fs_file_size_known fs_guid fs_tth fs_tigertree
       fs_sha1 fs_cha1 fs_alias fs_chunklist].
  rewrite take_data_tmp, Hg. done.
Qed.

Lemma apply_field_tth le st t :
  Z.of_nat (length t) = TTH_RAW_SIZE -> fs_tth st = None ->
  exists tmp,
    apply_field le true FILE_INFO_VERSION st (FILE_INFO_FIELD_TTH, t)
    = Some (mk_fields (fs_file_size_known st) (fs_guid st) (Some t)
              (fs_tigertree st) (fs_sha1 st) (fs_cha1 st) (fs_alias st)
              (fs_chunklist st) tmp).
Proof.
  intros Ht Hnone. eexists. unfold apply_field, retrieve_field.
  cbn [fst snd fs_tmp fs_file_size_known fs_guid fs_tth fs_tigertree
       fs_sha1 fs_cha1 fs_alias fs_chunklist].
  rewrite take_data_tmp, Ht, Hnone. done.
Qed.

Lemma apply_field_tigertree le st data :
  exists leaves tmp,
    apply_field le true FILE_INFO_VERSION st (FILE_INFO_FIELD_TIGERTREE, data)
    = Some (mk_fields (fs_file_size_known st) (fs_guid st) (fs_tth st)
              leaves (fs_sha1 st) (fs_cha1 st) (fs_alias st)
              (fs_chunklist st) tmp).
Proof.
  unfold apply_field, retrieve_field.
  cbn [fst snd fs_tmp fs_file_size_known fs_guid fs_tth fs_tigertree
       fs_sha1 fs_cha1 fs_alias fs_chunklist].
  change (FILE_INFO_FIELD_TIGERTREE =? FILE_INFO_FIELD_NAME) with false.
  change (FILE_INFO_FIELD_TIGERTREE =? FILE_INFO_FIELD_ALIAS) with false.
  change (FILE_INFO_FIELD_TIGERTREE =? FILE_INFO_FIELD_GUID) with false.
  change (FILE_INFO_FIELD_TIGERTREE =? FILE_INFO_FIELD_TTH) with false.
  change (FILE_INFO_FIELD_TIGERTREE =? FILE_INFO_FIELD_TIGERTREE) with true.
  cbv iota.
  destruct (_ && _); [|eauto]. destruct (_ && _); eauto.
Qed.

Lemma apply_field_sha1 le st s :
  Z.of_nat (length s) = SHA1_RAW_SIZE ->
  exists tmp,
    apply_field le true FILE_INFO_VERSION st (FILE_INFO_FIELD_SHA1, s)
    = Some (mk_fields (fs_file_size_known st) (fs_guid st) (fs_tth st)
              (fs_tigertree st) (Some s) (fs_cha1 st) (fs_alias st)
              (fs_chunklist st) tmp).
Proof.
  intros Hs. eexists. unfold apply_field, retrieve_field.
  cbn [fst snd fs_tmp fs_file_size_known fs_guid fs_tth fs_tigertree
       fs_sha1 fs_cha1 fs_alias fs_chunklist].
  rewrite take_data_tmp, Hs. done.
Qed.

Lemma apply_field_cha1 le st s :
  Z.of_nat (length s) = SHA1_RAW_SIZE ->
  exists tmp,
    apply_field le true FILE_INFO_VERSION st (FILE_INFO_FIELD_CHA1, s)
    = Some (mk_fields (fs_file_size_known st) (fs_guid st) (fs_tth st)
              (fs_tigertree st) (fs_sha1 st) (Some s) (fs_alias st)
              (fs_chunklist st) tmp).
Proof.
  intros Hs. eexists. unfold apply_field, retrieve_field.
  cbn [fst snd fs_tmp fs_file_size_known fs_guid fs_tth fs_tigertree
       fs_sha1 fs_cha1 fs_alias fs_chunklist].
  rewrite take_data_tmp, Hs. done.
Qed.

Lemma apply_field_alias le st a :
  c_str a = a -> looks_like_urn a = false ->
  exists tmp,
    apply_field le true FILE_INFO_VERSION st (FILE_INFO_FIELD_ALIAS, a)
    = Some (mk_fields (fs_file_size_known st) (fs_guid st) (fs_tth st)
              (fs_tigertree st) (fs_sha1 st) (fs_cha1 st)
              (fs_alias st ++ [a]) (fs_chunklist st) tmp).
Proof.
  intros Hc Hu. eexists. unfold apply_field, retrieve_field.
  cbn [fst snd fs_tmp fs_file_size_known fs_guid fs_tth fs_tigertree
       fs_sha1 fs_cha1 fs_alias fs_chunklist].
  rewrite take_data_tmp, Hc.
  change (FILE_INFO_FIELD_ALIAS =? FILE_INFO_FIELD_NAME) with false.
  change (FILE_INFO_FIELD_ALIAS =? FILE_INFO_FIELD_ALIAS) with true.
  cbv iota. unfold fi_alias_append. rewrite Hu. done.
Qed.

Lemma chunk_field_words a b c d e rest :
  let tmp :=
    (htonl_bytes a ++ htonl_bytes b ++ htonl_bytes c ++ htonl_bytes d
     ++ htonl_bytes e) ++ rest in
  firstn 4 (skipn (4 * 0) tmp) = htonl_bytes a
  /\ firstn 4 (skipn (4 * 1) tmp) = htonl_bytes b
  /\ firstn 4 (skipn (4 * 2) tmp) = htonl_bytes c
  /\ firstn 4 (skipn (4 * 3) tmp) = htonl_bytes d
  /\ firstn 4 (skipn (4 * 4) tmp) = htonl_bytes e.
Proof. done. Qed.

(** A stored chunk is decoded with the same boundaries, without owner, and
    with the same status unless it was BUSY. *)
Lemma decode_chunk_field le fc rest :
  0 <= fc_from fc < 2 ^ 64 -> 0 <= fc_to fc < 2 ^ 64 ->
  0 <= fc_status fc < 2 ^ 32 ->
  decode_chunk le true FILE_INFO_VERSION (chunk_field fc ++ rest)
  = Some (retrieved_chunk fc).
Proof.
  intros Hfrom Hto Hst. unfold decode_chunk, chunk_field.
  destruct (chunk_field_words
              (u32 (Z.shiftr (u64 (fc_from fc)) 32)) (u32 (fc_from fc))
              (u32 (Z.shiftr (u64 (fc_to fc)) 32)) (u32 (fc_to fc))
              (u32 (fc_status fc)) rest) as (-> & -> & -> & -> & ->).
  rewrite !ntohl_htonl_u32, !hi_lo_join, (u32_small (fc_status fc)) by done.
  done.
Qed.

Lemma chunk_field_length fc : length (chunk_field fc) = 20%nat.
Proof. done. Qed.

Lemma apply_field_chunk le st fc :
  0 <= fc_from fc < 2 ^ 64 -> 0 <= fc_to fc < 2 ^ 64 ->
  0 <= fc_status fc < 2 ^ 32 ->
  exists tmp,
    apply_field le true FILE_INFO_VERSION st
      (FILE_INFO_FIELD_CHUNK, chunk_field fc)
    = Some (mk_fields (fs_file_size_known st) (fs_guid st) (fs_tth st)
              (fs_tigertree st) (fs_sha1 st) (fs_cha1 st) (fs_alias st)
              (retrieved_chunk fc :: fs_chunklist st) tmp).
Proof.
  intros Hfrom Hto Hst. eexists. unfold apply_field, retrieve_field.
  cbn [fst snd fs_tmp fs_file_size_known fs_guid fs_tth fs_tigertree
       fs_sha1 fs_cha1 fs_alias fs_chunklist].
  rewrite decode_chunk_field by done.
  rewrite chunk_field_length. done.
Qed.

Lemma apply_fields_chunks le l :
  Forall (fun fc => (0 <= fc_from fc < 2 ^ 64 /\ 0 <= fc_to fc < 2 ^ 64)
                    /\ 0 <= fc_status fc < 2 ^ 32) l ->
  forall st, exists tmp,
    apply_fields le true FILE_INFO_VERSION st
      (map (fun fc => (FILE_INFO_FIELD_CHUNK, chunk_field fc)) l)
    = Some (mk_fields (fs_file_size_known st) (fs_guid st) (fs_tth st)
              (fs_tigertree st) (fs_sha1 st) (fs_cha1 st) (fs_alias st)
              (rev (map retrieved_chunk l) ++ fs_chunklist st) tmp).
Proof.
  induction 1 as [|fc l [[Hfrom Hto] Hst] Hl IH]; intros st.
  - exists (fs_tmp st). by destruct st.
  - cbn [map apply_fields].
    destruct (apply_field_chunk le st fc Hfrom Hto Hst) as [tmp ->].
    destruct (IH (mk_fields (fs_file_size_known st) (fs_guid st) (fs_tth st)
                    (fs_tigertree st) (fs_sha1 st) (fs_cha1 st) (fs_alias st)
                    (retrieved_chunk fc :: fs_chunklist st) tmp))
      as [tmp' ->].
    exists tmp'. cbn [fs_file_size_known fs_guid fs_tth fs_tigertree
                      fs_sha1 fs_cha1 fs_alias fs_chunklist rev].
    by rewrite <- app_assoc.
Qed.

Lemma alias_fields_storable aliases :
  Forall (fun a => c_str a = a /\ a <> []
                   /\ Z.of_nat (length a) < FI_MAX_FIELD_LEN TTH_MAX_LEAVES
                   /\ looks_like_urn a = false) aliases ->
  alias_fields TTH_MAX_LEAVES aliases
  = map (fun a => (FILE_INFO_FIELD_ALIAS, a)) aliases.
Proof.
  induction 1 as [|a l (Hc & _ & Hlen & _) Hl IH]; [done|].
  rewrite alias_fields_cons, IH, Hc.
  destruct (Z.ltb_spec (Z.of_nat (length a))
              (FI_MAX_FIELD_LEN TTH_MAX_LEAVES)); [done|lia].
Qed.

Lemma apply_fields_aliases le aliases :
  Forall (fun a => c_str a = a /\ a <> []
                   /\ Z.of_nat (length a) < FI_MAX_FIELD_LEN TTH_MAX_LEAVES
                   /\ looks_like_urn a = false) aliases ->
  forall st, exists tmp,
    apply_fields le true FILE_INFO_VERSION st
      (map (fun a => (FILE_INFO_FIELD_ALIAS, a)) aliases)
    = Some (mk_fields (fs_file_size_known st) (fs_guid st) (fs_tth st)
              (fs_tigertree st) (fs_sha1 st) (fs_cha1 st)
              (fs_alias st ++ aliases) (fs_chunklist st) tmp).
Proof.
  induction 1 as [|a l (Hc & _ & _ & Hu) Hl IH]; intros st.
  - exists (fs_tmp st). rewrite app_nil_r. by destruct st.
  - cbn [map apply_fields].
    destruct (apply_field_alias le st a Hc Hu) as [tmp ->].
    destruct (IH (mk_fields (fs_file_size_known st) (fs_guid st) (fs_tth st)
                    (fs_tigertree st) (fs_sha1 st) (fs_cha1 st)
                    (fs_alias st ++ [a]) (fs_chunklist st) tmp))
      as [tmp' ->].
    exists tmp'. cbn [fs_file_size_known fs_guid fs_tth fs_tigertree
                      fs_sha1 fs_cha1 fs_alias fs_chunklist].
    by rewrite <- app_assoc.
Qed.

Lemma chunks_typed_Forall l :
  chunks_typed l = true ->
  Forall (fun fc => 0 <= fc_from fc < 2 ^ 64 /\ 0 <= fc_to fc < 2 ^ 64) l.
Proof.
  unfold chunks_typed. rewrite forallb_forall, Forall_forall.
  intros H fc Hin. apply list_elem_of_In, H in Hin. lia.
Qed.

Lemma leaves_length (leaves : list (list Z)) :
  Forall (fun l => Z.of_nat (length l) = TTH_RAW_SIZE) leaves ->
  Z.of_nat (length (concat leaves))
  = TTH_RAW_SIZE * Z.of_nat (length leaves).
Proof.
  induction 1 as [|l leaves Hl _ IH]; [done|].
  cbn [concat]. rewrite length_app. cbn [length]. lia.
Qed.

(** The number of leaves is positive, and a field of the largest size has
    its length in 32 bits. *)
Hypothesis TTH_MAX_LEAVES_pos : 1 <= TTH_MAX_LEAVES.
Hypothesis FI_MAX_FIELD_LEN_u32 : FI_MAX_FIELD_LEN TTH_MAX_LEAVES < 2 ^ 32.

Lemma stored_fields_ok fi guid :
  fi_storable TTH_MAX_LEAVES fi ->
  Z.of_nat (length guid) = GUID_RAW_SIZE ->
  Forall (field_ok TTH_MAX_LEAVES) (stored_fields TTH_MAX_LEAVES fi guid).
Proof.
  intros Hs Hg. unfold stored_fields.
  assert (Hmax : 24 <= FI_MAX_FIELD_LEN TTH_MAX_LEAVES)
    by (unfold FI_MAX_FIELD_LEN, TTH_RAW_SIZE; lia).
  repeat apply Forall_app_2.
  - apply Forall_singleton. unfold field_ok. cbn [fst snd].
    unfold FILE_INFO_FIELD_GUID, FILE_INFO_FIELD_END, GUID_RAW_SIZE in *. lia.
  - destruct (fi_tth fi) as [t|] eqn:E; [|apply Forall_nil_2].
    apply Forall_singleton. pose proof (st_tth _ _ Hs t E).
    unfold field_ok. cbn [fst snd].
    unfold FILE_INFO_FIELD_TTH, FILE_INFO_FIELD_END, TTH_RAW_SIZE in *. lia.
  - pose proof (leaves_length _ (st_leaves _ _ Hs)) as Hl.
    pose proof (st_num_leaves _ _ Hs) as Hn.
    destruct (fi_tigertree fi) as [|leaf leaves] eqn:E; [apply Forall_nil_2|].
    apply Forall_singleton. unfold field_ok. cbn [fst snd].
    cbn [length] in Hl, Hn.
    unfold FILE_INFO_FIELD_TIGERTREE, FILE_INFO_FIELD_END, FI_MAX_FIELD_LEN,
      TTH_RAW_SIZE in *.
    lia.
  - destruct (fi_sha1 fi) as [s|] eqn:E; [|apply Forall_nil_2].
    apply Forall_singleton. pose proof (st_sha1 _ _ Hs s E).
    unfold field_ok. cbn [fst snd].
    unfold FILE_INFO_FIELD_SHA1, FILE_INFO_FIELD_END, SHA1_RAW_SIZE in *. lia.
  - destruct (fi_cha1 fi) as [s|] eqn:E; [|apply Forall_nil_2].
    apply Forall_singleton. pose proof (st_cha1 _ _ Hs s E).
    unfold field_ok. cbn [fst snd].
    unfold FILE_INFO_FIELD_CHA1, FILE_INFO_FIELD_END, SHA1_RAW_SIZE in *. lia.
  - rewrite (alias_fields_storable _ (st_alias _ _ Hs)).
    apply Forall_map. eapply Forall_impl; [apply (st_alias _ _ Hs)|].
    intros a (_ & Hne & Hlen & _). unfold field_ok. cbn [fst snd].
    destruct a; [done|]. cbn [length] in *.
    unfold FILE_INFO_FIELD_ALIAS, FILE_INFO_FIELD_END. lia.
  - apply Forall_map, Forall_forall. intros fc _.
    unfold field_ok. cbn [fst snd]. rewrite chunk_field_length.
    unfold FILE_INFO_FIELD_CHUNK, FILE_INFO_FIELD_END. lia.
Qed.

Lemma apply_fields_opt le st id data st' :
  (forall bs, data = Some bs ->
     apply_field le true FILE_INFO_VERSION st (id, bs) = Some st') ->
  (data = None -> st' = st) ->
  apply_fields le true FILE_INFO_VERSION st (opt_field id data) = Some st'.
Proof.
  intros Hsome Hnone. destruct data as [bs|]; cbn [opt_field apply_fields].
  - by rewrite (Hsome bs).
  - by rewrite Hnone.
Qed.

(** The fields of a storable file information, read back: everything but
    the leaves of the tiger tree is known. *)
Lemma apply_fields_stored le fi guid known tmp0 :
  fi_storable TTH_MAX_LEAVES fi ->
  Z.of_nat (length guid) = GUID_RAW_SIZE ->
  exists leaves tmp,
    apply_fields le true FILE_INFO_VERSION
      (mk_fields known None None [] None None [] [] tmp0)
      (stored_fields TTH_MAX_LEAVES fi guid)
    = Some (mk_fields known (Some guid) (fi_tth fi) leaves (fi_sha1 fi)
              (fi_cha1 fi) (fi_alias fi)
              (rev (map retrieved_chunk (fi_chunklist fi))) tmp).
Proof.
  intros Hs Hg. unfold stored_fields.
  rewrite !apply_fields_app. cbn [apply_fields].
  destruct (apply_field_guid le
              (mk_fields known None None [] None None [] [] tmp0) guid Hg)
    as [tmp1 ->].
  cbn [fs_file_size_known fs_guid fs_tth fs_tigertree fs_sha1 fs_cha1
       fs_alias fs_chunklist].
  (* TTH *)
  assert (Htth : exists tmp2,
    apply_fields le true FILE_INFO_VERSION
      (mk_fields known (Some guid) None [] None None [] [] tmp1)
      (opt_field FILE_INFO_FIELD_TTH (fi_tth fi))
    = Some (mk_fields known (Some guid) (fi_tth fi) [] None None [] [] tmp2)).
  { destruct (fi_tth fi) as [t|] eqn:E; cbn [opt_field apply_fields].
    - destruct (apply_field_tth le
                  (mk_fields known (Some guid) None [] None None [] [] tmp1)
                  t (st_tth _ _ Hs t E) eq_refl) as [tmp2 ->]. eauto.
    - eauto. }
  rewrite apply_fields_app. destruct Htth as [tmp2 ->].
  (* TIGERTREE *)
  assert (Htt : exists leaves tmp3,
    apply_fields le true FILE_INFO_VERSION
      (mk_fields known (Some guid) (fi_tth fi) [] None None [] [] tmp2)
      match fi_tigertree fi with
      | [] => []
      | _ :: _ => [(FILE_INFO_FIELD_TIGERTREE, concat (fi_tigertree fi))]
      end
    = Some (mk_fields known (Some guid) (fi_tth fi) leaves None None [] []
              tmp3)).
  { destruct (fi_tigertree fi) as [|leaf leaves]; cbn [apply_fields].
    - eauto.
    - destruct (apply_field_tigertree le
                  (mk_fields known (Some guid) (fi_tth fi) [] None None []
                     [] tmp2) (concat (leaf :: leaves)))
        as (l & tmp3 & ->). eauto. }
  destruct Htt as (leaves & tmp3 & Htt).
  exists leaves. rewrite apply_fields_app.
  match goal with
  | |- context [match ?x with Some _ => _ | None => _ end] =>
      replace x with
        (Some (mk_fields known (Some guid) (fi_tth fi) leaves None None []
                 [] tmp3))
  end.
  2: { rewrite <- Htt. by destruct (fi_tigertree fi). }
  (* SHA1 *)
  assert (Hsha : exists tmp4,
    apply_fields le true FILE_INFO_VERSION
      (mk_fields known (Some guid) (fi_tth fi) leaves None None [] [] tmp3)
      (opt_field FILE_INFO_FIELD_SHA1 (fi_sha1 fi))
    = Some (mk_fields known (Some guid) (fi_tth fi) leaves (fi_sha1 fi) None
              [] [] tmp4)).
  { destruct (fi_sha1 fi) as [s|] eqn:E; cbn [opt_field apply_fields].
    - destruct (apply_field_sha1 le
                  (mk_fields known (Some guid) (fi_tth fi) leaves None None
                     [] [] tmp3) s (st_sha1 _ _ Hs s E)) as [tmp4 ->]. eauto.
    - eauto. }
  rewrite apply_fields_app. destruct Hsha as [tmp4 ->].
  (* CHA1 *)
  assert (Hcha : exists tmp5,
    apply_fields le true FILE_INFO_VERSION
      (mk_fields known (Some guid) (fi_tth fi) leaves (fi_sha1 fi) None [] []
         tmp4)
      (opt_field FILE_INFO_FIELD_CHA1 (fi_cha1 fi))
    = Some (mk_fields known (Some guid) (fi_tth fi) leaves (fi_sha1 fi)
              (fi_cha1 fi) [] [] tmp5)).
  { destruct (fi_cha1 fi) as [s|] eqn:E; cbn [opt_field apply_fields].
    - destruct (apply_field_cha1 le
                  (mk_fields known (Some guid) (fi_tth fi) leaves
                     (fi_sha1 fi) None [] [] tmp4) s (st_cha1 _ _ Hs s E))
        as [tmp5 ->]. eauto.
    - eauto. }
  rewrite apply_fields_app. destruct Hcha as [tmp5 ->].
  (* aliases and chunks *)
  rewrite (alias_fields_storable _ (st_alias _ _ Hs)), apply_fields_app.
  destruct (apply_fields_aliases le _ (st_alias _ _ Hs)
              (mk_fields known (Some guid) (fi_tth fi) leaves (fi_sha1 fi)
                 (fi_cha1 fi) [] [] tmp5)) as [tmp6 ->].
  cbn [fs_file_size_known fs_guid fs_tth fs_tigertree fs_sha1 fs_cha1
       fs_alias fs_chunklist app].
  assert (Hck : Forall (fun fc =>
              (0 <= fc_from fc < 2 ^ 64 /\ 0 <= fc_to fc < 2 ^ 64)
              /\ 0 <= fc_status fc < 2 ^ 32) (fi_chunklist fi)).
  { apply Forall_and. split; [apply chunks_typed_Forall, (st_typed _ _ Hs)|].
    apply (st_status _ _ Hs). }
  destruct (apply_fields_chunks le _ Hck
              (mk_fields known (Some guid) (fi_tth fi) leaves (fi_sha1 fi)
                 (fi_cha1 fi) (fi_alias fi) [] tmp6)) as [tmp7 ->].
  exists tmp7.
  cbn [fs_file_size_known fs_guid fs_tth fs_tigertree fs_sha1 fs_cha1
       fs_alias fs_chunklist]. by rewrite app_nil_r.
Qed.

Lemma check_chunks_retrieved known size last l :
  check_chunks known size last (map retrieved_chunk l)
  = check_chunks known size last l.
Proof.
  revert last. induction l as [|fc sl IH]; intros last; [done|].
  cbn [map check_chunks retrieved_chunk fc_from fc_to]. by rewrite !IH.
Qed.

Lemma merge_adjacent_fields fi :
  let fi' := file_info_merge_adjacent fi in
  fi_pathname fi' = fi_pathname fi /\ fi_size fi' = fi_size fi
  /\ fi_file_size_known fi' = fi_file_size_known fi
  /\ fi_generation fi' = fi_generation fi
  /\ fi_created fi' = fi_created fi /\ fi_ntime fi' = fi_ntime fi
  /\ fi_guid fi' = fi_guid fi /\ fi_tth fi' = fi_tth fi
  /\ fi_tigertree fi' = fi_tigertree fi
  /\ fi_sha1 fi' = fi_sha1 fi /\ fi_cha1 fi' = fi_cha1 fi
  /\ fi_alias fi' = fi_alias fi.
Proof.
  unfold file_info_merge_adjacent.
  destruct (fi_chunklist fi) as [|x sl]; [done|].
  by destruct (merge_chunks (x :: sl)) as [l d].
Qed.

Lemma length_resize_Z (size : Z) (content : list Z) :
  0 <= size -> Z.of_nat (length (resize (Z.to_nat size) 0 content)) = size.
Proof. intros Hs. rewrite length_resize. lia. Qed.

(** The retrieval of a file that has just been stored: the trailer is
    accepted, and the loop over the fields has rebuilt the fields of the file
    information. *)
Lemma store_retrieve_gen env pathname fi content fi1 file :
  fi_storable TTH_MAX_LEAVES fi ->
  file_info_fd_store_binary TTH_MAX_LEAVES fi content = Some (fi1, file) ->
  Z.of_nat (length file) - fi_size fi < 2 ^ 32 ->
  Z.of_nat (length file) < 2 ^ 64 ->
  exists tb created ntime st,
    file_info_retrieve_binary TTH_MAX_LEAVES env pathname file
    = inl (retrieved_fileinfo env pathname tb FILE_INFO_VERSION created ntime
             st)
    /\ fi_generation fi1 = u32 (fi_generation fi + 1)
    /\ tr_filesize tb = fi_size fi
    /\ tr_generation tb = u32 (fi_generation fi + 1)
    /\ fs_guid st = fi_guid fi /\ fs_tth st = fi_tth fi
    /\ fs_sha1 st = fi_sha1 fi /\ fs_cha1 st = fi_cha1 fi
    /\ fs_alias st = fi_alias fi
    /\ fs_chunklist st = rev (map retrieved_chunk (fi_chunklist fi)).
Proof.
  intros Hs Hstore Hlen Hmax. unfold file_info_fd_store_binary in Hstore.
  destruct (fi_guid fi) as [guid|] eqn:Hguid; [|done].
  injection Hstore as <- <-.
  pose proof (st_guid _ _ Hs guid Hguid) as Hg.
  pose proof (st_size _ _ Hs) as Hsize.
  rewrite store_trailer_bytes in *. cbv zeta in *.
  change (stored_fields TTH_MAX_LEAVES
            (fi_set_generation fi (u32 (fi_generation fi + 1))) guid)
    with (stored_fields TTH_MAX_LEAVES fi guid) in *.
  cbn [fi_set_generation fi_created fi_ntime fi_file_size_known fi_size
       fi_generation] in *.
  rewrite !length_app, !htonl_bytes_length, length_resize,
    !covered_bytes_length in Hlen, Hmax.
  rewrite retrieve_binary_layout; cycle 1.
  - by apply stored_fields_ok.
  - done.
  - apply length_resize_Z. lia.
  - rewrite covered_bytes_length. lia.
  - rewrite covered_bytes_length. lia.
  - destruct (apply_fields_stored (env_little_endian env) fi guid
                (negb ((if fi_file_size_known fi then 1 else 0) =? 0))
                (env_tmp env) Hs Hg) as (leaves & tmp & ->).
    cbn [fs_file_size_known fs_chunklist].
    rewrite rev_involutive, check_chunks_retrieved.
    replace (negb ((if fi_file_size_known fi then 1 else 0) =? 0))
      with (fi_file_size_known fi) by (by destruct (fi_file_size_known fi)).
    rewrite (st_chunks _ _ Hs). cbn [negb].
    rewrite (u32_small (file_info_checksum 0 _))
      by (apply file_info_checksum_range; lia).
    rewrite Z.eqb_refl. cbn [negb].
    do 4 eexists. split; [done|].
    cbn [tr_filesize tr_generation fs_guid fs_tth fs_sha1 fs_cha1 fs_alias
         fs_chunklist].
    rewrite (u32_small (u32 _)) by apply u32_range. done.
Qed.

(** *** What any accepted trailer gives *)

Lemma decode_chunk_not_busy le t64 v tmp fc :
  decode_chunk le t64 v tmp = Some fc ->
  fc_status fc <> DL_CHUNK_BUSY /\ fc_download fc = None.
Proof.
  unfold decode_chunk.
  destruct (if negb t64 then _ else _) as [[[from to] status]|]; [|done].
  intros [= <-]. cbn [fc_status fc_download]. split; [|done].
  destruct (Z.eqb_spec status DL_CHUNK_BUSY); [done|done].
Qed.

Lemma retrieve_field_not_busy le t64 v field tmpuint st st' :
  retrieve_field le t64 v field tmpuint st = Some st' ->
  Forall (fun fc => fc_status fc <> DL_CHUNK_BUSY /\ fc_download fc = None)
    (fs_chunklist st) ->
  Forall (fun fc => fc_status fc <> DL_CHUNK_BUSY /\ fc_download fc = None)
    (fs_chunklist st').
Proof.
  unfold retrieve_field. intros H Hall.
  repeat match type of H with
         | (if ?c then _ else _) = _ => destruct c
         | match ?x with Some _ => _ | None => _ end = _ =>
             destruct x eqn:?
         end;
    try (injection H as <-); try done.
  cbn [fs_chunklist]. apply Forall_cons. split; [|done].
  by eapply decode_chunk_not_busy.
Qed.

Lemma retrieve_fields_not_busy fuel le t64 v st r st' r' :
  retrieve_fields TTH_MAX_LEAVES fuel le t64 v st r = inl (st', r') ->
  Forall (fun fc => fc_status fc <> DL_CHUNK_BUSY /\ fc_download fc = None)
    (fs_chunklist st) ->
  Forall (fun fc => fc_status fc <> DL_CHUNK_BUSY /\ fc_download fc = None)
    (fs_chunklist st').
Proof.
  revert st r. induction fuel as [|fuel IH]; intros st r H Hall; [done|].
  cbn [retrieve_fields] in H.
  destruct (READ_UINT32 r) as [[field r1]|]; [|done].
  destruct (field =? FILE_INFO_FIELD_END); [by injection H as <- <-|].
  destruct (READ_UINT32 r1) as [[tmpuint r2]|]; [|done].
  destruct (tmpuint =? 0); [done|]. destruct (_ <? tmpuint); [done|].
  destruct (READ_STR _ r2) as [[data r3]|]; [|done].
  destruct (retrieve_field _ _ _ _ _ _) as [st2|] eqn:E; [|done].
  apply (IH _ _ H). by apply (retrieve_field_not_busy _ _ _ _ _ _ _ E).
Qed.

Lemma merge_loop_not_busy fc1 sl done :
  Forall (fun fc => fc_status fc <> DL_CHUNK_BUSY /\ fc_download fc = None)
    (fc1 :: sl) ->
  Forall (fun fc => fc_status fc <> DL_CHUNK_BUSY /\ fc_download fc = None)
    (merge_loop fc1 sl done).1.
Proof.
  revert fc1 done. induction sl as [|fc2 next IH]; intros fc1 done Hall.
  - done.
  - cbn [merge_loop]. apply Forall_cons in Hall as [H1 Hall].
    apply Forall_cons in Hall as [H2 Hall].
    assert (Hv : fc_status (merge_visit fc2) <> DL_CHUNK_BUSY
                 /\ fc_download (merge_visit fc2) = None).
    { rewrite merge_visit_status. split; [tauto|].
      unfold merge_visit. destruct (_ =? _); [done|tauto]. }
    destruct (_ && _).
    + apply IH. apply Forall_cons. split; [|done]. by destruct fc1.
    + specialize (IH (merge_visit fc2) (merge_done done fc2)).
      destruct (merge_loop _ _ _) as [l d]. cbn [fst] in *.
      apply Forall_cons. split; [done|]. apply IH. by apply Forall_cons.
Qed.

Lemma merge_chunks_not_busy l :
  Forall (fun fc => fc_status fc <> DL_CHUNK_BUSY /\ fc_download fc = None) l ->
  Forall (fun fc => fc_status fc <> DL_CHUNK_BUSY /\ fc_download fc = None)
    (merge_chunks l).1.
Proof.
  destruct l as [|fc sl]; [done|]. intros Hall. cbn [merge_chunks].
  apply merge_loop_not_busy. apply Forall_cons in Hall as [H1 Hall].
  apply Forall_cons. split; [|done]. rewrite merge_visit_status.
  split; [tauto|]. unfold merge_visit. destruct (_ =? _); [done|tauto].
Qed.

(** What [file_info_retrieve_binary] returns is built from the state that the
    loop over the fields has left. *)
Lemma retrieve_binary_inv env pathname file fi :
  file_info_retrieve_binary TTH_MAX_LEAVES env pathname file = inl fi ->
  exists tb version created ntime known fuel r st r',
    file_info_get_trailer file = Some tb
    /\ retrieve_fields TTH_MAX_LEAVES fuel (env_little_endian env)
         (trailer_is_64bit tb) version
         (mk_fields known None None [] None None [] [] (env_tmp env)) r
       = inl (st, r')
    /\ check_chunks (fs_file_size_known st) (tr_filesize tb) 0
         (rev (fs_chunklist st)) = true
    /\ fi = retrieved_fileinfo env pathname tb version created ntime st.
Proof.
  unfold file_info_retrieve_binary. intros H.
  destruct (file_info_get_trailer file) as [tb|]; [|done].
  destruct (READ_UINT32 _) as [[version r0]|]; [|done].
  destruct (_ || _); [done|].
  destruct (if 4 <=? version then _ else _) as [[[created ntime] r1]|];
    [|done].
  destruct (if 5 <=? version then _ else _) as [[known r2]|]; [|done].
  destruct (retrieve_fields _ _ _ _ _ _ _) as [[st r3]|e] eqn:E; [|done].
  destruct (check_chunks _ _ _ _) eqn:Hck; [|done]. cbn [negb] in H.
  destruct (retrieve_tail _ r3) as [r4|]; [|done].
  destruct (negb _); [done|]. injection H as <-.
  by exists tb, version, created, ntime, known, (S (length (rb_bytes r2))),
    r2, st, r3.
Qed.

Lemma retrieved_no_busy env pathname file fi :
  file_info_retrieve_binary TTH_MAX_LEAVES env pathname file = inl fi ->
  Forall (fun fc => fc_status fc <> DL_CHUNK_BUSY /\ fc_download fc = None)
    (fi_chunklist fi).
Proof.
  intros H. apply retrieve_binary_inv in H
    as (tb & version & created & ntime & known & fuel & r & st & r'
        & _ & Hf & _ & ->).
  unfold retrieved_fileinfo. rewrite file_info_merge_adjacent_chunks.
  cbn [fi_chunklist]. apply merge_chunks_not_busy, Forall_rev.
  by apply (retrieve_fields_not_busy _ _ _ _ _ _ _ _ Hf).
Qed.

(** *** A changed byte *)

Lemma decode_chunk_total le tmp :
  exists fc, decode_chunk le true FILE_INFO_VERSION tmp = Some fc.
Proof. unfold decode_chunk. cbn. eauto. Qed.

Lemma decode_chunk_prefix le (data rest : list Z) :
  length data = 20%nat ->
  decode_chunk le true FILE_INFO_VERSION (data ++ rest)
  = decode_chunk le true FILE_INFO_VERSION data.
Proof.
  intros Hlen. do 21 (destruct data as [|? data]; try done).
Qed.

(** A field other than a chunk leaves the chunk list alone, and a chunk
    field adds the chunk decoded from [tmp]. *)
Lemma retrieve_field_chunklist le field tmpuint st :
  exists st',
    retrieve_field le true FILE_INFO_VERSION field tmpuint st = Some st'
    /\ fs_file_size_known st' = fs_file_size_known st
    /\ fs_chunklist st'
       = if field =? FILE_INFO_FIELD_CHUNK then
           match decode_chunk le true FILE_INFO_VERSION (fs_tmp st) with
           | Some fc => fc :: fs_chunklist st
           | None => fs_chunklist st
           end
         else fs_chunklist st.
Proof.
  unfold retrieve_field.
  destruct (decode_chunk_total le (fs_tmp st)) as [fc ->].
  destruct (Z.eqb_spec field FILE_INFO_FIELD_NAME) as [->|_].
  { change (3 <=? FILE_INFO_VERSION) with true. cbv iota. eauto. }
  destruct (Z.eqb_spec field FILE_INFO_FIELD_ALIAS) as [->|_]; [eauto|].
  destruct (Z.eqb_spec field FILE_INFO_FIELD_GUID) as [->|_].
  { destruct (_ =? _); eauto. }
  destruct (Z.eqb_spec field FILE_INFO_FIELD_TTH) as [->|_].
  { destruct (_ =? _); [|eauto]. destruct (fs_tth st); eauto. }
  destruct (Z.eqb_spec field FILE_INFO_FIELD_TIGERTREE) as [->|_].
  { destruct (_ && _); [|eauto]. destruct (_ && _); eauto. }
  destruct (Z.eqb_spec field FILE_INFO_FIELD_SHA1) as [->|_].
  { destruct (_ =? _); eauto. }
  destruct (Z.eqb_spec field FILE_INFO_FIELD_CHA1) as [->|_].
  { destruct (_ =? _); eauto. }
  destruct (Z.eqb_spec field FILE_INFO_FIELD_CHUNK) as [->|_]; eauto.
Qed.

Lemma apply_fields_chunklist le fs :
  Forall (fun f => fst f = FILE_INFO_FIELD_CHUNK
                   -> length (snd f) = 20%nat) fs ->
  forall st, exists st',
    apply_fields le true FILE_INFO_VERSION st fs = Some st'
    /\ fs_file_size_known st' = fs_file_size_known st
    /\ fs_chunklist st' = rev (field_chunks le fs) ++ fs_chunklist st.
Proof.
  induction 1 as [|[id data] fs Hf Hfs IH]; intros st.
  - exists st. done.
  - cbn [apply_fields field_chunks fst snd]. unfold apply_field.
    cbn [fst snd] in *.
    match goal with
    | |- context [retrieve_field le true FILE_INFO_VERSION id ?n ?s] =>
        destruct (retrieve_field_chunklist le id n s) as (st1 & -> & Hk & Hc)
    end.
    cbn [fs_tmp fs_chunklist fs_file_size_known] in Hk, Hc.
    destruct (IH st1) as (st2 & -> & Hk2 & Hc2).
    exists st2. split; [done|]. split; [congruence|].
    rewrite Hc2, Hc. destruct (Z.eqb_spec id FILE_INFO_FIELD_CHUNK) as [E|_].
    + rewrite decode_chunk_prefix by auto.
      destruct (decode_chunk le true FILE_INFO_VERSION data) as [fc|].
      * cbn [rev]. by rewrite <- app_assoc.
      * done.
    + done.
Qed.

Lemma field_chunks_app le fs1 fs2 :
  field_chunks le (fs1 ++ fs2) = field_chunks le fs1 ++ field_chunks le fs2.
Proof.
  induction fs1 as [|f fs1 IH]; [done|]. cbn [app field_chunks].
  destruct (_ =? _); [|done]. destruct (decode_chunk _ _ _ _); [|done].
  cbn [app]. by rewrite IH.
Qed.

Lemma stored_fields_chunk_length fi guid :
  fi_storable TTH_MAX_LEAVES fi ->
  Forall (fun f => fst f = FILE_INFO_FIELD_CHUNK -> length (snd f) = 20%nat)
    (stored_fields TTH_MAX_LEAVES fi guid).
Proof.
  intros Hs. unfold stored_fields. repeat apply Forall_app_2.
  - by apply Forall_singleton.
  - destruct (fi_tth fi); [by apply Forall_singleton|apply Forall_nil_2].
  - destruct (fi_tigertree fi); [apply Forall_nil_2|by apply Forall_singleton].
  - destruct (fi_sha1 fi); [by apply Forall_singleton|apply Forall_nil_2].
  - destruct (fi_cha1 fi); [by apply Forall_singleton|apply Forall_nil_2].
  - rewrite (alias_fields_storable _ (st_alias _ _ Hs)).
    apply Forall_map, Forall_forall. intros a _. done.
  - apply Forall_map, Forall_forall. intros fc _ _. apply chunk_field_length.
Qed.

(** The file that [file_info_fd_store_binary] leaves. *)
Lemma store_binary_layout fi content fi1 file :
  file_info_fd_store_binary TTH_MAX_LEAVES fi content = Some (fi1, file) ->
  exists guid,
    fi_guid fi = Some guid
    /\ fi1 = fi_set_generation fi (u32 (fi_generation fi + 1))
    /\ let fskn := if fi_file_size_known fi then 1 else 0 in
       let fields := stored_fields TTH_MAX_LEAVES fi guid in
       let len :=
         Z.of_nat
           (length (covered_bytes FILE_INFO_VERSION (fi_created fi)
                      (fi_ntime fi) fskn fields (fi_size fi)
                      (u32 (fi_generation fi + 1)) 0)) + 8 in
       let covered :=
         covered_bytes FILE_INFO_VERSION (fi_created fi) (fi_ntime fi) fskn
           fields (fi_size fi) (u32 (fi_generation fi + 1)) len in
       file = resize (Z.to_nat (fi_size fi)) 0 content ++ covered
              ++ htonl_bytes (u32 (file_info_checksum 0 covered))
              ++ htonl_bytes (u32 FILE_INFO_MAGIC64).
Proof.
  unfold file_info_fd_store_binary.
  destruct (fi_guid fi) as [guid|]; [|done]. intros [= <- <-].
  exists guid. split; [done|]. split; [done|].
  rewrite store_trailer_bytes. done.
Qed.

Lemma covered_bytes_split version created ntime fskn fs1 id d1 b d2 fs2
    size gen len :
  covered_bytes version created ntime fskn (fs1 ++ (id, d1 ++ b :: d2) :: fs2)
    size gen len
  = (htonl_bytes (u32 version) ++ htonl_bytes (u32 created)
     ++ htonl_bytes (u32 ntime) ++ [fskn]
     ++ concat (map field_bytes fs1)
     ++ htonl_bytes (u32 id)
     ++ htonl_bytes (u32 (Z.of_nat (length d1 + S (length d2)))) ++ d1)
    ++ b :: (d2 ++ concat (map field_bytes fs2)
             ++ htonl_bytes (u32 FILE_INFO_FIELD_END)
             ++ htonl_bytes (u32 (Z.shiftr (u64 size) 32))
             ++ htonl_bytes (u32 size) ++ htonl_bytes (u32 gen)
             ++ htonl_bytes (u32 len)).
Proof.
  unfold covered_bytes. rewrite map_app, concat_app. cbn [map concat].
  unfold field_bytes at 2. cbn [fst snd].
  rewrite length_app. cbn [length].
  rewrite <- !app_assoc. cbn [app]. done.
Qed.

Lemma field_ok_change fs1 id (d1 : list Z) b d2 fs2 b' :
  Forall (field_ok TTH_MAX_LEAVES) (fs1 ++ (id, d1 ++ b :: d2) :: fs2) ->
  Forall (field_ok TTH_MAX_LEAVES) (fs1 ++ (id, d1 ++ b' :: d2) :: fs2).
Proof.
  rewrite !Forall_app, !Forall_cons. intros (H1 & H & H2).
  split; [done|]. split; [|done]. unfold field_ok in *. cbn [fst snd] in *.
  rewrite length_app in *. done.
Qed.

Lemma chunk_length_change fs1 id (d1 : list Z) b d2 fs2 b' :
  Forall (fun f => fst f = FILE_INFO_FIELD_CHUNK -> length (snd f) = 20%nat)
    (fs1 ++ (id, d1 ++ b :: d2) :: fs2) ->
  Forall (fun f => fst f = FILE_INFO_FIELD_CHUNK -> length (snd f) = 20%nat)
    (fs1 ++ (id, d1 ++ b' :: d2) :: fs2).
Proof.
  rewrite !Forall_app, !Forall_cons. intros (H1 & H & H2).
  split; [done|]. split; [|done]. cbn [fst snd] in *.
  rewrite length_app in *. done.
Qed.

Lemma field_chunks_change le fs1 id (d1 : list Z) b d2 fs2 b' :
  id <> FILE_INFO_FIELD_CHUNK ->
  field_chunks le (fs1 ++ (id, d1 ++ b' :: d2) :: fs2)
  = field_chunks le (fs1 ++ (id, d1 ++ b :: d2) :: fs2).
Proof.
  intros Hid. rewrite !field_chunks_app. f_equal. cbn [field_chunks fst].
  by destruct (Z.eqb_spec id FILE_INFO_FIELD_CHUNK).
Qed.

(** X5.  When one byte in the data of a field of a stored trailer is
    changed, [file_info_retrieve_binary] returns no file information: it
    reports a checksum mismatch, or, when the byte belongs to a chunk field
    and the chunk list is no longer contiguous, an inconsistent chunk list
    (the chunk list is checked before the checksum). *)
Theorem retrieve_rejects_changed_data env pathname fi content fi1 file guid
    fs1 id d1 b d2 fs2 b' :
  fi_storable TTH_MAX_LEAVES fi ->
  file_info_fd_store_binary TTH_MAX_LEAVES fi content = Some (fi1, file) ->
  Z.of_nat (length file) - fi_size fi < 2 ^ 32 ->
  Z.of_nat (length file) < 2 ^ 64 ->
  fi_guid fi = Some guid ->
  stored_fields TTH_MAX_LEAVES fi guid = fs1 ++ (id, d1 ++ b :: d2) :: fs2 ->
  0 <= b < 256 -> 0 <= b' < 256 -> b' <> b ->
  let pos :=
    (Z.to_nat (fi_size fi) + 13 + length (concat (map field_bytes fs1)) + 8
     + length d1)%nat in
  file !! pos = Some b
  /\ (file_info_retrieve_binary TTH_MAX_LEAVES env pathname
        (<[pos := b']> file) = inr ChecksumMismatch
      \/ (id = FILE_INFO_FIELD_CHUNK
          /\ file_info_retrieve_binary TTH_MAX_LEAVES env pathname
               (<[pos := b']> file) = inr InconsistentChunks)).
Proof.
  intros Hs Hstore Hlen Hmax Hguid Hfs Hb Hb' Hne pos.
  destruct (store_binary_layout _ _ _ _ Hstore) as (g & Hg & _ & Hfile).
  rewrite Hguid in Hg. injection Hg as <-. cbv zeta in Hfile.
  pose proof (st_guid _ _ Hs guid Hguid) as Hgl.
  pose proof (st_size _ _ Hs) as Hsize.
  pose proof (stored_fields_ok fi guid Hs Hgl) as Hok.
  pose proof (stored_fields_chunk_length fi guid Hs) as Hcl.
  rewrite Hfs in Hfile, Hok, Hcl.
  rewrite !covered_bytes_length in Hfile.
  set (fs := fs1 ++ (id, d1 ++ b :: d2) :: fs2) in *.
  set (fs' := fs1 ++ (id, d1 ++ b' :: d2) :: fs2).
  assert (Hsame : length (concat (map field_bytes fs'))
                  = length (concat (map field_bytes fs))).
  { subst fs fs'. rewrite !map_app, !concat_app, !length_app.
    cbn [map concat]. rewrite !length_app. unfold field_bytes.
    cbn [fst snd]. rewrite !length_app. cbn [length]. done. }
  set (len := Z.of_nat (33 + length (concat (map field_bytes fs))) + 8) in *.
  set (ck := file_info_checksum 0
               (covered_bytes FILE_INFO_VERSION (fi_created fi) (fi_ntime fi)
                  (if fi_file_size_known fi then 1 else 0) fs (fi_size fi)
                  (u32 (fi_generation fi + 1)) len)) in *.
  set (payload := resize (Z.to_nat (fi_size fi)) 0 content) in *.
  assert (Hpl : length payload = Z.to_nat (fi_size fi))
    by apply length_resize.
  (* the byte at [pos], and the file once it is changed *)
  set (pre := payload
         ++ htonl_bytes (u32 FILE_INFO_VERSION)
         ++ htonl_bytes (u32 (fi_created fi))
         ++ htonl_bytes (u32 (fi_ntime fi))
         ++ [if fi_file_size_known fi then 1 else 0]
         ++ concat (map field_bytes fs1)
         ++ htonl_bytes (u32 id)
         ++ htonl_bytes (u32 (Z.of_nat (length d1 + S (length d2)))) ++ d1).
  set (post := d2 ++ concat (map field_bytes fs2)
         ++ htonl_bytes (u32 FILE_INFO_FIELD_END)
         ++ htonl_bytes (u32 (Z.shiftr (u64 (fi_size fi)) 32))
         ++ htonl_bytes (u32 (fi_size fi))
         ++ htonl_bytes (u32 (u32 (fi_generation fi + 1)))
         ++ htonl_bytes (u32 len)
         ++ htonl_bytes (u32 ck) ++ htonl_bytes (u32 FILE_INFO_MAGIC64)).
  assert (Hpre : length pre = pos).
  { subst pos pre. rewrite !length_app, !htonl_bytes_length, Hpl.
    cbn [length]. lia. }
  assert (Heq : forall y,
    payload
    ++ covered_bytes FILE_INFO_VERSION (fi_created fi) (fi_ntime fi)
         (if fi_file_size_known fi then 1 else 0)
         (fs1 ++ (id, d1 ++ y :: d2) :: fs2) (fi_size fi)
         (u32 (fi_generation fi + 1)) len
    ++ htonl_bytes (u32 ck) ++ htonl_bytes (u32 FILE_INFO_MAGIC64)
    = pre ++ y :: post).
  { intros y. rewrite covered_bytes_split. subst pre post.
    rewrite <- !app_assoc. cbn [app]. rewrite <- !app_assoc. done. }
  pose proof (Heq b) as Hfb. fold fs in Hfb. rewrite Hfb in Hfile.
  pose proof (Heq b') as Hfb'. fold fs' in Hfb'. split.
  { rewrite Hfile, <- Hpre. by apply list_lookup_middle. }
  assert (Hdam : <[pos := b']> file
    = payload
      ++ covered_bytes FILE_INFO_VERSION (fi_created fi) (fi_ntime fi)
           (if fi_file_size_known fi then 1 else 0) fs' (fi_size fi)
           (u32 (fi_generation fi + 1)) len
      ++ htonl_bytes (u32 ck) ++ htonl_bytes (u32 FILE_INFO_MAGIC64)).
  { rewrite Hfile, Hfb', <- Hpre.
    replace (length pre) with (length pre + 0)%nat by lia.
    by rewrite insert_app_r. }
  rewrite Hdam.
  rewrite Hfile, length_app in Hlen, Hmax.
  set (known := negb ((if fi_file_size_known fi then 1 else 0) =? 0)).
  assert (Hknown : known = fi_file_size_known fi)
    by (subst known; by destruct (fi_file_size_known fi)).
  set (st0 := mk_fields known None None [] None None [] [] (env_tmp env)).
  assert (Hlen' : len
    = Z.of_nat
        (length (covered_bytes FILE_INFO_VERSION (fi_created fi) (fi_ntime fi)
                   (if fi_file_size_known fi then 1 else 0) fs' (fi_size fi)
                   (u32 (fi_generation fi + 1)) 0)) + 8).
  { rewrite covered_bytes_length, Hsame. done. }
  assert (Hplen : Z.of_nat (length (pre ++ b :: post))
                  = fi_size fi + len).
  { rewrite <- Hfb, !length_app, covered_bytes_length, !htonl_bytes_length,
      Hpl. subst len. lia. }
  rewrite <- length_app in Hlen, Hmax.
  pose proof (retrieve_binary_layout env pathname payload (fi_created fi)
                (fi_ntime fi) (if fi_file_size_known fi then 1 else 0) fs'
                (fi_size fi) (u32 (fi_generation fi + 1)) ck) as Hret.
  cbv zeta in Hret. rewrite <- Hlen' in Hret.
  rewrite Hret; cycle 1.
  { subst fs'. by apply (field_ok_change fs1 id d1 b d2 fs2 b'). }
  { done. }
  { rewrite Hpl. lia. }
  { lia. }
  { lia. }
  clear Hret. fold known. fold st0.
  destruct (apply_fields_chunklist (env_little_endian env) fs'
              (chunk_length_change fs1 id d1 b d2 fs2 b' Hcl) st0)
    as (st' & -> & Hk' & Hc').
  cbn [fs_chunklist fs_file_size_known st0] in Hk', Hc'.
  rewrite app_nil_r in Hc'. rewrite Hk', Hc', rev_involutive, Hknown.
  destruct (check_chunks (fi_file_size_known fi) (fi_size fi) 0
              (field_chunks (env_little_endian env) fs')) eqn:Hck;
    cbn [negb].
  - left.
    destruct (Z.eqb_spec
                (file_info_checksum 0
                   (covered_bytes FILE_INFO_VERSION (fi_created fi)
                      (fi_ntime fi) (if fi_file_size_known fi then 1 else 0)
                      fs' (fi_size fi) (u32 (fi_generation fi + 1)) len))
                (u32 ck)) as [E|_]; [|done].
    exfalso. rewrite (u32_small ck) in E
      by (apply file_info_checksum_range; lia).
    subst ck fs fs'. rewrite !covered_bytes_split in E.
    by apply file_info_checksum_flip in E.
  - right. split; [|done].
    destruct (Z.eq_dec id FILE_INFO_FIELD_CHUNK) as [|Hid]; [done|].
    exfalso. subst fs'. rewrite (field_chunks_change (env_little_endian env) fs1 id d1 b d2 fs2 b' Hid) in Hck.
    fold fs in Hck.
    destruct (apply_fields_chunklist (env_little_endian env) fs Hcl st0)
      as (st1 & Ha & _ & Hc1).
    destruct (apply_fields_stored (env_little_endian env) fi guid known
                (env_tmp env) Hs Hgl) as (leaves & tmp & Ha').
    rewrite Hfs in Ha'. fold fs st0 in Ha'. rewrite Ha in Ha'.
    injection Ha' as ->. cbn [fs_chunklist st0] in Hc1.
    rewrite app_nil_r in Hc1. apply (f_equal (@rev _)) in Hc1.
    rewrite !rev_involutive in Hc1.
    rewrite <- Hc1, check_chunks_retrieved, (st_chunks _ _ Hs) in Hck. done.
Qed.

Lemma retrieved_merged l :
  Forall (fun fc => fc_status fc <> DL_CHUNK_BUSY) l ->
  statuses_alternate l = true ->
  merged (map retrieved_chunk l)
  /\ map chunk_extent (map retrieved_chunk l) = map chunk_extent l.
Proof.
  intros Hnb Halt.
  assert (Hext : forall fc, fc_status fc <> DL_CHUNK_BUSY ->
            chunk_extent (retrieved_chunk fc) = chunk_extent fc).
  { intros fc Hfc. unfold chunk_extent, retrieved_chunk.
    cbn [fc_from fc_to fc_status].
    by destruct (Z.eqb_spec (fc_status fc) DL_CHUNK_BUSY). }
  split.
  - destruct l as [|fc1 sl]; [done|]. cbn [map merged]. split; [done|].
    revert fc1 Hnb Halt. induction sl as [|fc2 next IH]; intros fc1 Hnb Halt.
    + done.
    + cbn [map merged_from].
      apply Forall_cons in Hnb as [H1 Hnb].
      pose proof Hnb as Hnb'. apply Forall_cons in Hnb' as [H2 _].
      cbn [statuses_alternate] in Halt.
      apply andb_true_iff in Halt as [Hd Halt].
      split; [|split; [done|by apply IH]].
      unfold mergeable. intros [He _]. revert He.
      unfold retrieved_chunk. cbn [fc_status].
      destruct (Z.eqb_spec (fc_status fc1) DL_CHUNK_BUSY); [done|].
      destruct (Z.eqb_spec (fc_status fc2) DL_CHUNK_BUSY); [done|]. lia.
  - rewrite map_map. apply map_ext_Forall.
    eapply Forall_impl; [apply Hnb|]. intros fc Hfc. by apply Hext.
Qed.

(** X2.  Storing the binary trailer of a storable file information
    ([file_info_fd_store_binary]) and reading the file again
    ([file_info_retrieve_binary]) gives a file information with the same
    size, GUID, TTH, SHA1, CHA1 and aliases (in the same order), the
    generation number incremented by the store, and the chunk list of the
    stored one with the owners dropped, the BUSY chunks turned EMPTY and the
    adjacent chunks of equal status merged. *)
Theorem store_retrieve_round_trip env pathname fi content fi1 file :
  fi_storable TTH_MAX_LEAVES fi ->
  file_info_fd_store_binary TTH_MAX_LEAVES fi content = Some (fi1, file) ->
  Z.of_nat (length file) - fi_size fi < 2 ^ 32 ->
  Z.of_nat (length file) < 2 ^ 64 ->
  exists fi2,
    file_info_retrieve_binary TTH_MAX_LEAVES env pathname file = inl fi2
    /\ fi_size fi2 = fi_size fi
    /\ fi_generation fi2 = u32 (fi_generation fi + 1)
    /\ fi_generation fi2 = fi_generation fi1
    /\ fi_guid fi2 = fi_guid fi /\ fi_tth fi2 = fi_tth fi
    /\ fi_sha1 fi2 = fi_sha1 fi /\ fi_cha1 fi2 = fi_cha1 fi
    /\ fi_alias fi2 = fi_alias fi
    /\ fi_chunklist fi2
       = (merge_chunks (map retrieved_chunk (fi_chunklist fi))).1.
Proof.
  intros Hs Hstore Hlen Hmax.
  destruct (store_retrieve_gen env pathname fi content fi1 file Hs Hstore
              Hlen Hmax)
    as (tb & created & ntime & st & Hr & Hg1 & Hsz & Hgen & Hguid & Htth
        & Hsha & Hcha & Hal & Hck).
  eexists. split; [exact Hr|]. unfold retrieved_fileinfo.
  rewrite file_info_merge_adjacent_chunks.
  match goal with
  | |- context [file_info_merge_adjacent ?x] =>
      destruct (merge_adjacent_fields x)
        as (_ & -> & _ & -> & _ & _ & -> & -> & _ & -> & -> & ->)
  end.
  cbn [fi_size fi_generation fi_guid fi_tth fi_sha1 fi_cha1 fi_alias
       fi_chunklist].
  rewrite Hsz, Hgen, Hg1, Htth, Hsha, Hcha, Hal, Hck, rev_involutive.
  repeat split; try done.
  rewrite Hguid. unfold file_info_fd_store_binary in Hstore.
  by destruct (fi_guid fi).
Qed.

(** X3.  When the stored chunk list has no BUSY chunk and no two
    consecutive chunks of the same status, the chunk list read back has
    exactly the same boundaries and statuses, and no owner. *)
Theorem store_retrieve_same_chunks env pathname fi content fi1 file :
  fi_storable TTH_MAX_LEAVES fi ->
  file_info_fd_store_binary TTH_MAX_LEAVES fi content = Some (fi1, file) ->
  Z.of_nat (length file) - fi_size fi < 2 ^ 32 ->
  Z.of_nat (length file) < 2 ^ 64 ->
  Forall (fun fc => fc_status fc <> DL_CHUNK_BUSY) (fi_chunklist fi) ->
  statuses_alternate (fi_chunklist fi) = true ->
  exists fi2,
    file_info_retrieve_binary TTH_MAX_LEAVES env pathname file = inl fi2
    /\ map chunk_extent (fi_chunklist fi2)
       = map chunk_extent (fi_chunklist fi)
    /\ Forall (fun fc => fc_download fc = None) (fi_chunklist fi2).
Proof.
  intros Hs Hstore Hlen Hmax Hnb Halt.
  destruct (store_retrieve_gen env pathname fi content fi1 file Hs Hstore
              Hlen Hmax)
    as (tb & created & ntime & st & Hr & _ & _ & _ & _ & _ & _ & _ & _ & Hck).
  eexists. split; [exact Hr|]. unfold retrieved_fileinfo.
  rewrite file_info_merge_adjacent_chunks. cbn [fi_chunklist].
  rewrite Hck, rev_involutive.
  destruct (retrieved_merged _ Hnb Halt) as [Hm He].
  rewrite (merge_chunks_fixed _ Hm). split; [done|].
  apply Forall_map, Forall_forall. done.
Qed.

(** X4.  Whatever the file holds, a file information that
    [file_info_retrieve_binary] returns has no BUSY chunk and no chunk with
    an owner; its chunks follow one another from offset 0 without gap, and no
    two consecutive chunks have the same status. *)
Theorem retrieved_chunklist_normal env pathname file fi :
  file_info_retrieve_binary TTH_MAX_LEAVES env pathname file = inl fi ->
  Forall (fun fc => fc_status fc <> DL_CHUNK_BUSY /\ fc_download fc = None)
    (fi_chunklist fi)
  /\ (exists b, chain 0 (fi_chunklist fi) b)
  /\ merged (fi_chunklist fi)
  /\ statuses_alternate (fi_chunklist fi) = true.
Proof.
  intros H. pose proof (retrieved_no_busy _ _ _ _ H) as Hnb.
  split; [done|].
  apply retrieve_binary_inv in H
    as (tb & version & created & ntime & known & fuel & r & st & r'
        & _ & _ & Hck & ->).
  unfold retrieved_fileinfo in *.
  rewrite file_info_merge_adjacent_chunks in *. cbn [fi_chunklist] in *.
  apply check_chunks_chain in Hck as (b & Hch & _).
  split; [exists b; by apply merge_chunks_chain|].
  pose proof (merge_chunks_merged (rev (fs_chunklist st))) as Hm.
  split; [done|].
  revert Hm Hnb. generalize (merge_chunks (rev (fs_chunklist st))).1.
  intros l. destruct l as [|fc1 sl]; [done|]. intros [_ Hm].
  revert fc1 Hm. induction sl as [|fc2 next IH]; intros fc1 Hm Hnb; [done|].
  cbn [merged_from] in Hm. destruct Hm as (Hnm & _ & Hm).
  apply Forall_cons in Hnb as [_ Hnb]. pose proof Hnb as Hnb'.
  apply Forall_cons in Hnb' as [[H2 _] _].
  cbn [statuses_alternate]. apply andb_true_iff. split; [|by apply IH].
  unfold mergeable in Hnm.
  destruct (Z.eqb_spec (fc_status fc1) (fc_status fc2)); [tauto|done].
Qed.


End CodecFacts.

Ltac storable_sample :=
  constructor;
  [ vm_compute; split; [discriminate|reflexivity]
  | vm_compute; split; [discriminate|reflexivity]
  | vm_compute; split; [discriminate|reflexivity]
  | reflexivity
  | reflexivity
  | repeat constructor; discriminate
  | intros g [= <-]; reflexivity
  | intros t [=]
  | intros s [= <-]; reflexivity
  | intros s [=]
  | constructor
  | vm_compute; discriminate
  | repeat constructor; discriminate ].

Lemma store_retrieve_round_trip_witness :
  exists fi2,
    file_info_retrieve_binary 512 sample_env [47; 120] codec_sample_file
    = inl fi2
    /\ fi_size fi2 = 40
    /\ fi_generation fi2 = 8
    /\ fi_generation fi2 = fi_generation (fi_set_generation codec_sample 8)
    /\ fi_guid fi2 = fi_guid codec_sample /\ fi_tth fi2 = None
    /\ fi_sha1 fi2 = fi_sha1 codec_sample /\ fi_cha1 fi2 = None
    /\ fi_alias fi2 = [[97; 46; 116; 120; 116]; [98]]
    /\ fi_chunklist fi2
       = [mk_chunk 0 20 None DL_CHUNK_DONE; mk_chunk 20 40 None DL_CHUNK_EMPTY].
Proof.
  apply (store_retrieve_round_trip 512 ltac:(lia) ltac:(vm_compute; reflexivity)
           sample_env [47; 120] codec_sample []
           (fi_set_generation codec_sample 8) codec_sample_file).
  - storable_sample.
  - vm_compute. reflexivity.
  - vm_compute. reflexivity.
  - vm_compute. reflexivity.
Defined.

Lemma store_retrieve_same_chunks_witness :
  exists fi2,
    file_info_retrieve_binary 512 sample_env [47; 120] merged_sample_file
    = inl fi2
    /\ map chunk_extent (fi_chunklist fi2)
       = [(0, 10, DL_CHUNK_DONE); (10, 40, DL_CHUNK_EMPTY)]
    /\ Forall (fun fc => fc_download fc = None) (fi_chunklist fi2).
Proof.
  apply (store_retrieve_same_chunks 512 ltac:(lia)
           ltac:(vm_compute; reflexivity) sample_env [47; 120] merged_sample
           [] (fi_set_generation merged_sample 8) merged_sample_file).
  - storable_sample.
  - vm_compute. reflexivity.
  - vm_compute. reflexivity.
  - vm_compute. reflexivity.
  - repeat constructor; discriminate.
  - reflexivity.
Defined.

Lemma retrieved_chunklist_normal_witness :
  Forall (fun fc => fc_status fc <> DL_CHUNK_BUSY /\ fc_download fc = None)
    (fi_chunklist codec_sample_back)
  /\ (exists b, chain 0 (fi_chunklist codec_sample_back) b)
  /\ merged (fi_chunklist codec_sample_back)
  /\ statuses_alternate (fi_chunklist codec_sample_back) = true.
Proof.
  apply (retrieved_chunklist_normal 512 sample_env [47; 120]
           codec_sample_file codec_sample_back).
  vm_compute. reflexivity.
Defined.

(** The third byte of the first alias of [codec_sample], at offset 115 of
    the stored file, is changed from 116 to 117. *)
Lemma retrieve_rejects_changed_data_witness :
  codec_sample_file !! 115%nat = Some 116
  /\ (file_info_retrieve_binary 512 sample_env [47; 120]
        (<[115%nat := 117]> codec_sample_file) = inr ChecksumMismatch
      \/ (FILE_INFO_FIELD_ALIAS = FILE_INFO_FIELD_CHUNK
          /\ file_info_retrieve_binary 512 sample_env [47; 120]
               (<[115%nat := 117]> codec_sample_file)
             = inr InconsistentChunks)).
Proof.
  apply (retrieve_rejects_changed_data 512 ltac:(lia)
           ltac:(vm_compute; reflexivity) sample_env [47; 120] codec_sample
           [] (fi_set_generation codec_sample 8) codec_sample_file
           [1; 2; 3; 4; 5; 6; 7; 8; 9; 10; 11; 12; 13; 14; 15; 16]
           [(FILE_INFO_FIELD_GUID,
             [1; 2; 3; 4; 5; 6; 7; 8; 9; 10; 11; 12; 13; 14; 15; 16]);
            (FILE_INFO_FIELD_SHA1,
             [3; 3; 3; 3; 3; 3; 3; 3; 3; 3; 3; 3; 3; 3; 3; 3; 3; 3; 3; 3])]
           FILE_INFO_FIELD_ALIAS [97; 46] 116 [120; 116]
           ((FILE_INFO_FIELD_ALIAS, [98])
            :: map (fun fc => (FILE_INFO_FIELD_CHUNK, chunk_field fc))
                 (fi_chunklist codec_sample))
           117).
  - storable_sample.
  - vm_compute. reflexivity.
  - vm_compute. reflexivity.
  - vm_compute. reflexivity.
  - reflexivity.
  - reflexivity.
  - lia.
  - lia.
  - lia.
Defined.

(** X1.  [file_info_checksum] tells apart two runs of bytes of the same
    length that differ in exactly one place, whatever the checksum so far:
    replacing the byte at any index by another byte changes the checksum. *)
Theorem checksum_detects_changed_byte c data (i : nat) b b' :
  0 <= c < 2 ^ 32 -> data !! i = Some b ->
  0 <= b < 256 -> 0 <= b' < 256 -> b' <> b ->
  file_info_checksum c (<[i := b']> data) <> file_info_checksum c data.
Proof.
  intros Hc Hi Hb Hb' Hne He.
  pose proof (take_drop_middle data i b Hi) as Hsplit.
  assert (Hlen : length (take i data) = i).
  { apply length_take_le. apply lookup_lt_Some in Hi. lia. }
  rewrite <- Hsplit in He at 2.
  rewrite <- Hsplit, <- Hlen in He at 1.
  replace (length (take i data)) with (length (take i data) + 0)%nat in He
    by lia.
  rewrite insert_app_r in He. cbn [list_insert insert] in He.
  by apply file_info_checksum_flip in He.
Qed.

Lemma checksum_detects_changed_byte_witness :
  file_info_checksum 0 (<[2%nat := 4]> [1; 2; 3; 5])
  <> file_info_checksum 0 [1; 2; 3; 5].
Proof.
  apply (checksum_detects_changed_byte 0 [1; 2; 3; 5] 2 3 4);
    [lia|reflexivity|lia|lia|lia].
Defined.

Lemma words_app n (w rest : list Z) :
  length w = 4%nat -> words (S n) (w ++ rest) = ntohl_bytes w :: words n rest.
Proof.
  intros Hw. cbn [words].
  by rewrite (take_app_length' w rest 4), (drop_app_length' w rest 4).
Qed.

(** The last six words of a file of at least 24 bytes. *)
Lemma last_words (file : list Z) :
  (24 <= length file)%nat ->
  exists pre w0 w1 w2 w3 w4 w5,
    file = pre ++ w0 ++ w1 ++ w2 ++ w3 ++ w4 ++ w5
    /\ length pre = (length file - 24)%nat
    /\ length w0 = 4%nat /\ length w1 = 4%nat /\ length w2 = 4%nat
    /\ length w3 = 4%nat /\ length w4 = 4%nat /\ length w5 = 4%nat.
Proof.
  intros Hlen.
  set (t0 := drop (length file - 24) file).
  set (t1 := drop 4 t0). set (t2 := drop 4 t1). set (t3 := drop 4 t2).
  set (t4 := drop 4 t3). set (t5 := drop 4 t4).
  assert (L0 : length t0 = 24%nat) by (unfold t0; rewrite length_drop; lia).
  assert (L1 : length t1 = 20%nat) by (unfold t1; rewrite length_drop; lia).
  assert (L2 : length t2 = 16%nat) by (unfold t2; rewrite length_drop; lia).
  assert (L3 : length t3 = 12%nat) by (unfold t3; rewrite length_drop; lia).
  assert (L4 : length t4 = 8%nat) by (unfold t4; rewrite length_drop; lia).
  assert (L5 : length t5 = 4%nat) by (unfold t5; rewrite length_drop; lia).
  exists (take (length file - 24) file), (take 4 t0), (take 4 t1),
    (take 4 t2), (take 4 t3), (take 4 t4), t5.
  split.
  { unfold t5. rewrite (take_drop 4 t4). unfold t4.
    rewrite (take_drop 4 t3). unfold t3. rewrite (take_drop 4 t2).
    unfold t2. rewrite (take_drop 4 t1). unfold t1.
    rewrite (take_drop 4 t0). unfold t0. by rewrite take_drop. }
  rewrite !length_take. repeat split; lia.
Qed.

(** X6.  [file_info_get_trailer] accepts a file exactly when it has at least
    24 bytes, its last 32-bit word, read in network order, is
    [FILE_INFO_MAGIC64] or [FILE_INFO_MAGIC32], and its size is the file
    size plus the trailer length that the fixed trailer records (the sum
    taken on 64 bits).  The trailer returned is read from the last six words
    of the file: the file size from the first two (64-bit) or the second one
    (32-bit), then the generation number, the length, the checksum and the
    magic number.  [file_info_has_trailer] answers 1 exactly for the files
    accepted, and a trailer is 64-bit exactly when its magic number is
    [FILE_INFO_MAGIC64]. *)
Theorem get_trailer_sound file tb :
  (file_info_get_trailer file = Some tb <->
   exists pre w0 w1 w2 w3 w4 w5,
     file = pre ++ w0 ++ w1 ++ w2 ++ w3 ++ w4 ++ w5
     /\ length w0 = 4%nat /\ length w1 = 4%nat /\ length w2 = 4%nat
     /\ length w3 = 4%nat /\ length w4 = 4%nat /\ length w5 = 4%nat
     /\ tr_magic tb = ntohl_bytes w5
     /\ (tr_magic tb = FILE_INFO_MAGIC64
         /\ tr_filesize tb
            = Z.lor (Z.shiftl (ntohl_bytes w0) 32) (ntohl_bytes w1)
         \/ tr_magic tb = FILE_INFO_MAGIC32
            /\ tr_filesize tb = ntohl_bytes w1)
     /\ tr_generation tb = ntohl_bytes w2
     /\ tr_length tb = ntohl_bytes w3
     /\ tr_checksum tb = ntohl_bytes w4
     /\ Z.of_nat (length file) = u64 (tr_filesize tb + tr_length tb))
  /\ (file_info_has_trailer file = 1 <->
      exists tb', file_info_get_trailer file = Some tb')
  /\ (trailer_is_64bit tb = true <-> tr_magic tb = FILE_INFO_MAGIC64).
Proof.
  assert (Hw : forall pre w0 w1 w2 w3 w4 w5,
            length w0 = 4%nat -> length w1 = 4%nat -> length w2 = 4%nat ->
            length w3 = 4%nat -> length w4 = 4%nat -> length w5 = 4%nat ->
            file_info_get_trailer (pre ++ w0 ++ w1 ++ w2 ++ w3 ++ w4 ++ w5)
            = let magic := ntohl_bytes w5 in
              let filesize :=
                if magic =? FILE_INFO_MAGIC64
                then Some (Z.lor (Z.shiftl (ntohl_bytes w0) 32)
                             (ntohl_bytes w1))
                else if magic =? FILE_INFO_MAGIC32
                     then Some (ntohl_bytes w1) else None in
              match filesize with
              | None => None
              | Some fs =>
                  if Z.of_nat (length pre + 24) =? u64 (fs + ntohl_bytes w3)
                  then Some (mk_trailer fs (ntohl_bytes w2) (ntohl_bytes w3)
                               (ntohl_bytes w4) (ntohl_bytes w5))
                  else None
              end).
  { intros pre w0 w1 w2 w3 w4 w5 L0 L1 L2 L3 L4 L5.
    unfold file_info_get_trailer.
    assert (Hl : length (pre ++ w0 ++ w1 ++ w2 ++ w3 ++ w4 ++ w5)
                 = (length pre + 24)%nat)
      by (rewrite !length_app; lia).
    cbv zeta. rewrite !Hl.
    destruct (Z.ltb_spec (Z.of_nat (length pre + 24))
                (4 * Z.of_nat FI_TRAILER_INT)) as [Hlt|_];
      [unfold FI_TRAILER_INT in Hlt; lia|].
    replace (length pre + 24 - 4 * FI_TRAILER_INT)%nat with (length pre)
      by (unfold FI_TRAILER_INT; lia).
    rewrite drop_app_length. unfold FI_TRAILER_INT.
    rewrite !words_app by done.
    rewrite <- (app_nil_r w5) at 1. rewrite words_app by done.
    cbn [words]. done. }
  split; [split|split].
  - intros H.
    assert (Hlen : (24 <= length file)%nat).
    { unfold file_info_get_trailer in H.
      destruct (Z.ltb_spec (Z.of_nat (length file))
                  (4 * Z.of_nat FI_TRAILER_INT)) as [|Hlen]; [done|].
      unfold FI_TRAILER_INT in Hlen. lia. }
    destruct (last_words file Hlen)
      as (pre & w0 & w1 & w2 & w3 & w4 & w5 & E & Lp & L0 & L1 & L2 & L3 & L4
          & L5).
    exists pre, w0, w1, w2, w3, w4, w5.
    split; [done|]. do 6 (split; [done|]).
    rewrite E, Hw in H by done. cbv zeta in H.
    replace (length pre + 24)%nat with (length file) in H by lia.
    destruct (Z.eqb_spec (ntohl_bytes w5) FILE_INFO_MAGIC64) as [M64|M64].
    + destruct (Z.eqb_spec (Z.of_nat (length file))
                  (u64 (Z.lor (Z.shiftl (ntohl_bytes w0) 32) (ntohl_bytes w1)
                        + ntohl_bytes w3))) as [Es|]; [|done].
      injection H as <-. cbn [tr_magic tr_filesize tr_generation tr_length
                               tr_checksum].
      split; [done|]. split; [by left|]. done.
    + destruct (Z.eqb_spec (ntohl_bytes w5) FILE_INFO_MAGIC32) as [M32|];
        [|done].
      destruct (Z.eqb_spec (Z.of_nat (length file))
                  (u64 (ntohl_bytes w1 + ntohl_bytes w3))) as [Es|]; [|done].
      injection H as <-. cbn [tr_magic tr_filesize tr_generation tr_length
                               tr_checksum].
      split; [done|]. split; [by right|]. done.
  - intros (pre & w0 & w1 & w2 & w3 & w4 & w5 & E & L0 & L1 & L2 & L3 & L4
            & L5 & Hm & Hfs & Hg & Hl & Hc & Hs).
    rewrite E, Hw by done. cbv zeta.
    replace (length pre + 24)%nat with (length file)
      by (rewrite E, !length_app; lia).
    destruct tb as [fs gen len ck magic].
    cbn [tr_magic tr_filesize tr_generation tr_length tr_checksum] in *.
    subst magic gen len ck.
    destruct Hfs as [[M64 ->]|[M32 ->]].
    + rewrite M64. change (FILE_INFO_MAGIC64 =? FILE_INFO_MAGIC64) with true.
      cbv iota. rewrite <- Hs, Z.eqb_refl. done.
    + rewrite M32.
      change (FILE_INFO_MAGIC32 =? FILE_INFO_MAGIC64) with false.
      change (FILE_INFO_MAGIC32 =? FILE_INFO_MAGIC32) with true.
      cbv iota. rewrite <- Hs, Z.eqb_refl. done.
  - unfold file_info_has_trailer.
    destruct (file_info_get_trailer file) as [tb'|].
    + split; [by exists tb'|done].
    + split; [done|]. by intros [tb' ?].
  - unfold trailer_is_64bit. apply Z.eqb_eq.
Qed.

(** X7.  Right after [file_info_fd_store_binary] the file has a trailer:
    [file_info_get_trailer] finds a 64-bit trailer with the size of the file
    information, the incremented generation number and the length of what
    was written after the data, and [file_info_has_trailer] answers 1. *)
Theorem stored_file_has_trailer TTH_MAX_LEAVES fi content fi1 file :
  file_info_fd_store_binary TTH_MAX_LEAVES fi content = Some (fi1, file) ->
  0 <= fi_size fi < 2 ^ 64 ->
  Z.of_nat (length file) - fi_size fi < 2 ^ 32 ->
  Z.of_nat (length file) < 2 ^ 64 ->
  (exists checksum,
     file_info_get_trailer file
     = Some (mk_trailer (fi_size fi) (u32 (fi_generation fi + 1))
               (Z.of_nat (length file) - fi_size fi) checksum
               FILE_INFO_MAGIC64))
  /\ file_info_has_trailer file = 1
  /\ fi_generation fi1 = u32 (fi_generation fi + 1).
Proof.
  intros Hstore Hsize Hlen Hmax.
  destruct (store_binary_layout _ _ _ _ _ Hstore) as (guid & _ & -> & Hfile).
  cbv zeta in Hfile. rewrite covered_bytes_length in Hfile.
  set (fs := stored_fields TTH_MAX_LEAVES fi guid) in *.
  set (len := Z.of_nat (33 + length (concat (map field_bytes fs))) + 8) in *.
  set (ck := file_info_checksum 0 _) in *.
  set (payload := resize (Z.to_nat (fi_size fi)) 0 content) in *.
  assert (Hpl : length payload = Z.to_nat (fi_size fi))
    by apply length_resize.
  assert (Hfl : Z.of_nat (length file) = fi_size fi + len).
  { rewrite Hfile, !length_app, covered_bytes_length, !htonl_bytes_length,
      Hpl. subst len. lia. }
  assert (Htr : file_info_get_trailer file
                = Some (mk_trailer (fi_size fi) (u32 (fi_generation fi + 1))
                          len ck FILE_INFO_MAGIC64)).
  { rewrite Hfile. unfold covered_bytes.
    replace (payload ++ (htonl_bytes (u32 FILE_INFO_VERSION)
               ++ htonl_bytes (u32 (fi_created fi))
               ++ htonl_bytes (u32 (fi_ntime fi))
               ++ [if fi_file_size_known fi then 1 else 0]
               ++ concat (map field_bytes fs)
               ++ htonl_bytes (u32 FILE_INFO_FIELD_END)
               ++ htonl_bytes (u32 (Z.shiftr (u64 (fi_size fi)) 32))
               ++ htonl_bytes (u32 (fi_size fi))
               ++ htonl_bytes (u32 (u32 (fi_generation fi + 1)))
               ++ htonl_bytes (u32 len))
             ++ htonl_bytes (u32 ck) ++ htonl_bytes (u32 FILE_INFO_MAGIC64))
      with ((payload ++ htonl_bytes (u32 FILE_INFO_VERSION)
               ++ htonl_bytes (u32 (fi_created fi))
               ++ htonl_bytes (u32 (fi_ntime fi))
               ++ [if fi_file_size_known fi then 1 else 0]
               ++ concat (map field_bytes fs)
               ++ htonl_bytes (u32 FILE_INFO_FIELD_END))
            ++ htonl_bytes (u32 (Z.shiftr (u64 (fi_size fi)) 32))
            ++ htonl_bytes (u32 (fi_size fi))
            ++ htonl_bytes (u32 (u32 (fi_generation fi + 1)))
            ++ htonl_bytes (u32 len) ++ htonl_bytes (u32 ck)
            ++ htonl_bytes (u32 FILE_INFO_MAGIC64))
      by (by rewrite <- !app_assoc).
    assert (Hl32 : u32 len = len) by (apply u32_small; lia).
    rewrite file_info_get_trailer_words.
    - rewrite Hl32, (u32_small (u32 _)) by apply u32_range.
      rewrite (u32_small ck) by (apply file_info_checksum_range; lia). done.
    - done.
    - rewrite Hl32, !length_app, !htonl_bytes_length, Hpl. cbn [length].
      subst len. lia.
    - lia. }
  split; [|split; [by unfold file_info_has_trailer; rewrite Htr|done]].
  exists ck. rewrite Htr. do 2 f_equal. lia.
Qed.

Lemma stored_file_has_trailer_witness :
  (exists checksum,
     file_info_get_trailer codec_sample_file
     = Some (mk_trailer 40 8 227 checksum FILE_INFO_MAGIC64))
  /\ file_info_has_trailer codec_sample_file = 1
  /\ fi_generation (fi_set_generation codec_sample 8) = 8.
Proof.
  apply (stored_file_has_trailer 512 codec_sample []
           (fi_set_generation codec_sample 8) codec_sample_file).
  - vm_compute. reflexivity.
  - vm_compute. split; [discriminate|reflexivity].
  - vm_compute. reflexivity.
  - vm_compute. reflexivity.
Defined.

(** *** Names that look like an URN *)

Lemma is_strcaseprefix_length s prefix rest :
  is_strcaseprefix s prefix = Some rest ->
  length s = (length prefix + length rest)%nat.
Proof.
  revert s. induction prefix as [|p prefix IH]; intros s H.
  - destruct s; cbn in H; by injection H as <-.
  - destruct s as [|c s]; [done|]. cbn [is_strcaseprefix] in H.
    destruct (_ =? _); [|done]. apply IH in H. cbn [length]. lia.
Qed.

Lemma alnum_run_length n q : alnum_run n q = true -> (n <= length q)%nat.
Proof.
  revert q. induction n as [|n IH]; intros q H; [lia|].
  destruct q as [|c q]; [done|]. cbn [alnum_run] in H.
  apply andb_true_iff in H as [_ H]. apply IH in H. cbn [length]. lia.
Qed.

Lemma looks_like_urn_length filename :
  looks_like_urn filename = true -> (37 <= length filename)%nat.
Proof.
  unfold looks_like_urn. intros H.
  assert (Hq : forall p,
    match
      match is_strcaseprefix p [115; 104; 97; 49] with
      | Some q => Some q
      | None => is_strcaseprefix p [98; 105; 116; 112; 114; 105; 110; 116]
      end
    with
    | Some (_ :: q') => alnum_run SHA1_BASE32_SIZE q'
    | _ => false
    end = true -> (37 <= length p)%nat).
  { intros p Hp.
    destruct (is_strcaseprefix p [115; 104; 97; 49]) as [q|] eqn:E1.
    - destruct q as [|c q']; [done|]. apply alnum_run_length in Hp.
      apply is_strcaseprefix_length in E1. unfold SHA1_BASE32_SIZE in Hp.
      cbn [length] in E1. lia.
    - destruct (is_strcaseprefix p [98; 105; 116; 112; 114; 105; 110; 116])
        as [q|] eqn:E2; [|done].
      destruct q as [|c q']; [done|]. apply alnum_run_length in Hp.
      apply is_strcaseprefix_length in E2. unfold SHA1_BASE32_SIZE in Hp.
      cbn [length] in E2. lia. }
  destruct (is_strcaseprefix filename [117; 114; 110]) as [p|] eqn:E.
  - destruct p as [|c p']; [done|]. apply Hq in H.
    apply is_strcaseprefix_length in E. cbn [length] in E. lia.
  - by apply Hq.
Qed.

(** X8.  [fi_alias] adds nothing when [fi_by_namesize] already lists the
    file information under the name and its size, nor when the name looks
    like an URN, which takes at least 37 characters ("sha1", a separator and
    32 alphanumeric characters).  Otherwise the name is appended at the end
    of the aliases and, with [record], the file information is listed in the
    table, so that the same call made again adds nothing.  The call aborts
    exactly when [record] is asked for a file information that is not
    hashed.  On a file information that no table lists and without [record],
    as in the decoder, it is [fi_alias_append]. *)
Theorem fi_alias_adds_once (table : gmap (list Z * Z) (list fi_id))
    (id : fi_id) (hashed : bool) (size : Z) (aliases : list (list Z))
    (name : list Z) (record : bool) :
  match fi_alias_add table id hashed size aliases name record with
  | None => record = true /\ hashed = false
  | Some (aliases', table') =>
      (record = true -> hashed = true)
      /\ (id ∈ default [] (table !! (name, size)) ->
          aliases' = aliases /\ table' = table)
      /\ (id ∉ default [] (table !! (name, size)) ->
          looks_like_urn name = true ->
          (37 <= length name)%nat /\ aliases' = aliases /\ table' = table)
      /\ (id ∉ default [] (table !! (name, size)) ->
          looks_like_urn name = false ->
          aliases' = aliases ++ [name]
          /\ (record = true ->
              table' !! (name, size)
              = Some (default [] (table !! (name, size)) ++ [id])
              /\ forall ns, ns <> (name, size) -> table' !! ns = table !! ns)
          /\ (record = false -> table' = table))
      /\ ((length name < 37)%nat -> looks_like_urn name = false)
      /\ (record = true ->
          fi_alias_add table' id hashed size aliases' name record
          = Some (aliases', table'))
      /\ (id ∉ default [] (table !! (name, size)) -> record = false ->
          aliases' = fi_alias_append aliases name /\ table' = table)
  end.
Proof.
  unfold fi_alias_add.
  assert (Hshort : (length name < 37)%nat -> looks_like_urn name = false).
  { intros Hlen. destruct (looks_like_urn name) eqn:E; [|done].
    apply looks_like_urn_length in E. lia. }
  destruct record, hashed; cbn [andb negb]; try (split; done).
  - (* record, hashed *)
    destruct (bool_decide_reflect
                (id ∈ default [] (table !! (name, size)))) as [Hin|Hin].
    { split; [done|]. split; [done|]. split; [done|]. split; [done|].
      split; [done|]. split; [|done]. intros _.
      rewrite bool_decide_eq_true_2 by done. done. }
    destruct (looks_like_urn name) eqn:E.
    { split; [done|]. split; [done|].
      split; [intros _ _; split; [by apply looks_like_urn_length|done]|].
      split; [done|]. split; [done|]. split; [|done]. intros _.
      by rewrite bool_decide_eq_false_2. }
    split; [done|]. split; [done|]. split; [done|]. split.
    { intros _ _. split; [done|]. split; [|done]. intros _.
      split; [by rewrite lookup_insert_eq|].
      intros ns Hns. by rewrite lookup_insert_ne. }
    split; [done|]. split; [|done]. intros _.
    rewrite lookup_insert_eq. cbn [default].
    rewrite bool_decide_eq_true_2; [done|].
    apply elem_of_app. right. by apply list_elem_of_singleton.
  - (* no record, hashed *)
    destruct (bool_decide_reflect
                (id ∈ default [] (table !! (name, size)))) as [Hin|Hin].
    { repeat (split; [done|]). done. }
    unfold fi_alias_append. destruct (looks_like_urn name) eqn:E.
    { split; [done|]. split; [done|].
      split; [intros _ _; split; [by apply looks_like_urn_length|done]|].
      repeat (split; [done|]). done. }
    repeat (split; [done|]). done.
  - (* no record, not hashed *)
    destruct (bool_decide_reflect
                (id ∈ default [] (table !! (name, size)))) as [Hin|Hin].
    { repeat (split; [done|]). done. }
    unfold fi_alias_append. destruct (looks_like_urn name) eqn:E.
    { split; [done|]. split; [done|].
      split; [intros _ _; split; [by apply looks_like_urn_length|done]|].
      repeat (split; [done|]). done. }
    repeat (split; [done|]). done.
Qed.

(** ** Queries on the chunk list *)

Lemma pos_status_scan_In pos a l b fc :
  chain a l b -> In fc l -> fc_from fc <= pos < fc_to fc ->
  pos_status_scan pos l = fc_status fc.
Proof.
  revert a. induction l as [|x sl IH]; intros a Hc Hin Hpos; [done|].
  apply chain_cons in Hc as (Hx & Hlt & Hc). cbn [pos_status_scan].
  destruct Hin as [->|Hin].
  - replace ((fc_from fc <=? pos) && (pos <? fc_to fc)) with true by lia.
    done.
  - pose proof (chain_In _ _ _ _ Hc Hin).
    replace ((fc_from x <=? pos) && (pos <? fc_to x)) with false by lia.
    by apply (IH (fc_to x)).
Qed.

Lemma pos_status_scan_inside pos a l b :
  chain a l b -> a <= pos < b ->
  exists fc, In fc l /\ fc_from fc <= pos < fc_to fc.
Proof.
  revert a. induction l as [|x sl IH]; intros a Hc Hpos.
  - cbn in Hc. lia.
  - apply chain_cons in Hc as (Hx & Hlt & Hc).
    destruct (Z.lt_ge_cases pos (fc_to x)) as [Hin|Hout].
    + exists x. split; [by left|lia].
    + destruct (IH _ Hc) as (fc & Hfc & Hr); [lia|].
      exists fc. split; [by right|done].
Qed.

Lemma pos_status_scan_outside pos a l b :
  chain a l b -> pos < a \/ b <= pos ->
  pos_status_scan pos l = DL_CHUNK_DONE.
Proof.
  revert a. induction l as [|x sl IH]; intros a Hc Hpos; [done|].
  apply chain_cons in Hc as (Hx & Hlt & Hc). cbn [pos_status_scan].
  pose proof (chain_le _ _ _ Hc).
  replace ((fc_from x <=? pos) && (pos <? fc_to x)) with false by lia.
  apply (IH _ Hc). lia.
Qed.

Lemma check_chunks_covered fi :
  check_chunks (fi_file_size_known fi) (fi_size fi) 0 (fi_chunklist fi) = true ->
  chain 0 (fi_chunklist fi) (covered_end (fi_chunklist fi)).
Proof.
  intros H. apply check_chunks_chain in H as (b & Hc & He & _).
  destruct (fi_chunklist fi) as [|x sl] eqn:E.
  - cbn in Hc. subst b. done.
  - rewrite He by done. done.
Qed.

(** X9.  On a chunk list that passes [file_info_check_chunklist],
    [file_info_pos_status] returns the status of the chunk that holds the
    byte, which exists for every offset below the end of the last chunk; for
    an offset that no chunk holds (at or after the end of the list) it
    returns DONE. *)
Theorem pos_status_spec fi pos :
  check_chunks (fi_file_size_known fi) (fi_size fi) 0 (fi_chunklist fi) = true ->
  (forall fc, In fc (fi_chunklist fi) -> fc_from fc <= pos < fc_to fc ->
     file_info_pos_status fi pos = fc_status fc)
  /\ (0 <= pos < covered_end (fi_chunklist fi) ->
      exists fc, In fc (fi_chunklist fi) /\ fc_from fc <= pos < fc_to fc
                 /\ file_info_pos_status fi pos = fc_status fc)
  /\ (pos < 0 \/ covered_end (fi_chunklist fi) <= pos ->
      file_info_pos_status fi pos = DL_CHUNK_DONE).
Proof.
  intros H. apply check_chunks_covered in H.
  unfold file_info_pos_status. split; [|split].
  - intros fc Hin Hpos. by apply (pos_status_scan_In _ _ _ _ _ H).
  - intros Hpos.
    destruct (pos_status_scan_inside _ _ _ _ H Hpos) as (fc & Hin & Hr).
    exists fc. split; [done|]. split; [done|].
    by apply (pos_status_scan_In _ _ _ _ _ H).
  - intros Hpos. by apply (pos_status_scan_outside _ _ _ _ H).
Qed.

Lemma pos_status_spec_witness :
  (forall fc, In fc (fi_chunklist done_sample) ->
     fc_from fc <= 299 < fc_to fc ->
     file_info_pos_status done_sample 299 = fc_status fc)
  /\ (0 <= 299 < covered_end (fi_chunklist done_sample) ->
      exists fc, In fc (fi_chunklist done_sample)
                 /\ fc_from fc <= 299 < fc_to fc
                 /\ file_info_pos_status done_sample 299 = fc_status fc)
  /\ (299 < 0 \/ covered_end (fi_chunklist done_sample) <= 299 ->
      file_info_pos_status done_sample 299 = DL_CHUNK_DONE).
Proof. apply (pos_status_spec done_sample 299). reflexivity. Defined.

Lemma chunk_status_scan_found from to l st :
  chunk_status_scan from to l = st -> st <> DL_CHUNK_BUSY ->
  exists fc, In fc l /\ fc_from fc <= from /\ to <= fc_to fc
             /\ fc_status fc = st.
Proof.
  induction l as [|x sl IH]; intros H Hst; [done|].
  cbn [chunk_status_scan] in H.
  destruct ((fc_from x <=? from) && (to <=? fc_to x)) eqn:E.
  - exists x. split; [by left|]. lia.
  - destruct (IH H Hst) as (fc & Hin & Hr). exists fc. split; [by right|done].
Qed.

Lemma chunk_status_scan_In from to a l b fc :
  chain a l b -> from < to -> In fc l ->
  fc_from fc <= from -> to <= fc_to fc ->
  chunk_status_scan from to l = fc_status fc.
Proof.
  revert a. induction l as [|x sl IH]; intros a Hc Hft Hin Hf Ht; [done|].
  apply chain_cons in Hc as (Hx & Hlt & Hc). cbn [chunk_status_scan].
  destruct Hin as [->|Hin].
  - replace ((fc_from fc <=? from) && (to <=? fc_to fc)) with true by lia.
    done.
  - pose proof (chain_In _ _ _ _ Hc Hin).
    replace ((fc_from x <=? from) && (to <=? fc_to x)) with false by lia.
    by apply (IH (fc_to x)).
Qed.

(** X10.  On a chunk list that passes the consistency check and for a
    non-empty range, [file_info_chunk_status] returns the status of the
    chunk that holds the whole range, and BUSY when the range is not within
    one chunk; so when it answers DONE (or EMPTY) every byte of the range
    has that status for [file_info_pos_status]. *)
Theorem chunk_status_spec fi from to :
  check_chunks (fi_file_size_known fi) (fi_size fi) 0 (fi_chunklist fi) = true ->
  from < to ->
  (forall fc, In fc (fi_chunklist fi) -> fc_from fc <= from ->
     to <= fc_to fc -> file_info_chunk_status fi from to = fc_status fc)
  /\ ((forall fc, In fc (fi_chunklist fi) ->
         ~ (fc_from fc <= from /\ to <= fc_to fc)) ->
      file_info_chunk_status fi from to = DL_CHUNK_BUSY)
  /\ (file_info_chunk_status fi from to <> DL_CHUNK_BUSY ->
      forall pos, from <= pos < to ->
        file_info_pos_status fi pos = file_info_chunk_status fi from to).
Proof.
  intros H Hft. apply check_chunks_covered in H.
  unfold file_info_chunk_status, file_info_pos_status. split; [|split].
  - intros fc Hin Hf Ht. by apply (chunk_status_scan_In _ _ _ _ _ _ H).
  - intros Hno.
    destruct (Z.eq_dec (chunk_status_scan from to (fi_chunklist fi))
                DL_CHUNK_BUSY) as [|Hne]; [done|].
    destruct (chunk_status_scan_found _ _ _ _ eq_refl Hne)
      as (fc & Hin & Hf & Ht & _).
    destruct (Hno fc Hin). done.
  - intros Hne pos Hpos.
    destruct (chunk_status_scan_found _ _ _ _ eq_refl Hne)
      as (fc & Hin & Hf & Ht & Hst).
    rewrite <- Hst. apply (pos_status_scan_In _ _ _ _ _ H Hin). lia.
Qed.

Lemma chunk_status_spec_witness :
  (forall fc, In fc (fi_chunklist done_sample) -> fc_from fc <= 100 ->
     200 <= fc_to fc ->
     file_info_chunk_status done_sample 100 200 = fc_status fc)
  /\ ((forall fc, In fc (fi_chunklist done_sample) ->
         ~ (fc_from fc <= 100 /\ 200 <= fc_to fc)) ->
      file_info_chunk_status done_sample 100 200 = DL_CHUNK_BUSY)
  /\ (file_info_chunk_status done_sample 100 200 <> DL_CHUNK_BUSY ->
      forall pos, 100 <= pos < 200 ->
        file_info_pos_status done_sample pos
        = file_info_chunk_status done_sample 100 200).
Proof. apply (chunk_status_spec done_sample 100 200); [reflexivity|lia]. Defined.

Lemma restrict_scan_some start end_ l e :
  restrict_scan start end_ l = Some e ->
  exists fc, In fc l /\ fc_status fc = DL_CHUNK_DONE
             /\ fc_from fc <= start < fc_to fc
             /\ e = (if fc_to fc <=? end_ then u64 (fc_to fc - 1) else end_).
Proof.
  induction l as [|x sl IH]; intros H; [done|]. cbn [restrict_scan] in H.
  destruct (Z.eqb_spec (fc_status x) DL_CHUNK_DONE) as [Hd|Hd]; cbn [negb] in H.
  - destruct ((start <? fc_from x) || (fc_to x <=? start)) eqn:E.
    + destruct (IH H) as (fc & Hin & Hr). exists fc. split; [by right|done].
    + injection H as <-. exists x. split; [by left|]. split; [done|].
      split; [lia|done].
  - destruct (IH H) as (fc & Hin & Hr). exists fc. split; [by right|done].
Qed.

Lemma restrict_scan_none start end_ l :
  restrict_scan start end_ l = None ->
  forall fc, In fc l -> fc_from fc <= start < fc_to fc ->
    fc_status fc <> DL_CHUNK_DONE.
Proof.
  induction l as [|x sl IH]; intros H fc Hin Hr; [done|].
  cbn [restrict_scan] in H.
  destruct (Z.eqb_spec (fc_status x) DL_CHUNK_DONE) as [Hd|Hd]; cbn [negb] in H.
  - destruct ((start <? fc_from x) || (fc_to x <=? start)) eqn:E; [|done].
    destruct Hin as [->|Hin]; [lia|]. by apply IH.
  - destruct Hin as [->|Hin]; [done|]. by apply IH.
Qed.

(** X11.  On a consistent chunk list, when [file_info_restrict_range]
    answers TRUE the end it leaves is not after the requested end, not
    before [start] (if the request was not empty), and every byte from
    [start] to that end is DONE; when it answers FALSE the byte at [start]
    is in no DONE chunk. *)
Theorem restrict_range_spec fi start end_ :
  check_chunks (fi_file_size_known fi) (fi_size fi) 0 (fi_chunklist fi) = true ->
  chunks_typed (fi_chunklist fi) = true ->
  match file_info_restrict_range fi start end_ with
  | Some e =>
      e <= end_ /\ (start <= end_ -> start <= e)
      /\ forall pos, start <= pos <= e ->
           file_info_pos_status fi pos = DL_CHUNK_DONE
  | None =>
      (forall fc, In fc (fi_chunklist fi) ->
         fc_from fc <= start < fc_to fc -> fc_status fc <> DL_CHUNK_DONE)
      /\ (0 <= start < covered_end (fi_chunklist fi) ->
          file_info_pos_status fi start <> DL_CHUNK_DONE)
  end.
Proof.
  intros H Ht. apply check_chunks_covered in H.
  unfold file_info_restrict_range, file_info_pos_status.
  destruct (restrict_scan start end_ (fi_chunklist fi)) as [e|] eqn:E.
  - apply restrict_scan_some in E as (fc & Hin & Hst & Hr & ->).
    pose proof (chunks_typed_In _ _ Ht Hin) as Hty.
    pose proof (chain_In _ _ _ _ H Hin) as Hb.
    rewrite (u64_small (fc_to fc - 1)) by lia.
    destruct (Z.leb_spec (fc_to fc) end_).
    + split; [lia|]. split; [lia|]. intros pos Hpos. rewrite <- Hst.
      apply (pos_status_scan_In _ _ _ _ _ H Hin). lia.
    + split; [lia|]. split; [lia|]. intros pos Hpos. rewrite <- Hst.
      apply (pos_status_scan_In _ _ _ _ _ H Hin). lia.
  - pose proof (restrict_scan_none _ _ _ E) as Hn. split; [done|].
    intros Hpos.
    destruct (pos_status_scan_inside _ _ _ _ H Hpos) as (fc & Hin & Hr).
    rewrite (pos_status_scan_In _ _ _ _ _ H Hin Hr). by apply Hn.
Qed.

Lemma restrict_range_spec_witness :
  299 <= 500 /\ (100 <= 500 -> 100 <= 299)
  /\ forall pos, 100 <= pos <= 299 ->
       file_info_pos_status done_sample pos = DL_CHUNK_DONE.
Proof.
  apply (restrict_range_spec done_sample 100 500); reflexivity.
Defined.

(** ** Change of owner *)

Lemma owner_step_bounds d fc fc' :
  owner_step d fc fc' ->
  fc_from fc' = fc_from fc /\ fc_to fc' = fc_to fc
  /\ (fc_status fc' = DL_CHUNK_DONE <-> fc_status fc = DL_CHUNK_DONE).
Proof.
  intros [->|[(Hb & _ & ->)|(Hb & ->)]]; cbn; rewrite ?Hb; done.
Qed.

Lemma owner_steps_chain d l l' a b :
  Forall2 (owner_step d) l l' -> chain a l b -> chain a l' b.
Proof.
  intros H. revert a. induction H as [|fc fc' l l' Hs _ IH]; intros a Hc.
  - done.
  - apply chain_cons in Hc as (Hf & Hlt & Hc).
    destruct (owner_step_bounds _ _ _ Hs) as (E1 & E2 & _).
    apply chain_cons. rewrite E1, E2. split; [done|]. split; [done|].
    by apply IH.
Qed.

Lemma owner_steps_done_sum d l l' :
  Forall2 (owner_step d) l l' -> done_sum l' = done_sum l.
Proof.
  induction 1 as [|fc fc' l l' Hs _ IH]; [done|].
  rewrite !done_sum_cons, IH.
  destruct (owner_step_bounds _ _ _ Hs) as (E1 & E2 & E3).
  rewrite E1, E2.
  destruct (Z.eqb_spec (fc_status fc') DL_CHUNK_DONE) as [Hd|Hd],
           (Z.eqb_spec (fc_status fc) DL_CHUNK_DONE) as [Hd'|Hd'];
    try done; tauto.
Qed.

Lemma release_chunks_steps d old l :
  Forall2 (owner_step d) l (map (release_chunk old) l).
Proof.
  induction l as [|fc l IH]; [constructor|]. cbn [map].
  constructor; [|done]. unfold release_chunk.
  destruct (Z.eqb_spec (fc_status fc) DL_CHUNK_BUSY) as [Hb|]; [|by left].
  destruct (bool_decide _); [|by left]. right. right. done.
Qed.

Lemma release_chunks_free old l :
  Forall (fun fc => ~ (fc_status fc = DL_CHUNK_BUSY
                       /\ fc_download fc = Some old))
    (map (release_chunk old) l).
Proof.
  apply Forall_map, Forall_forall. intros fc _. unfold release_chunk.
  destruct (Z.eqb_spec (fc_status fc) DL_CHUNK_BUSY) as [Hb|Hb];
    [|cbn; tauto].
  destruct (bool_decide_reflect (fc_download fc = Some old)) as [Ho|Ho];
    cbn; [|tauto]. intros [E _]. done.
Qed.

Lemma new_owner_scan_unmet d from to l :
  Forall (fun c => ~ meets_segment from to c) l ->
  new_owner_scan d from to l = Some l.
Proof.
  induction 1 as [|fc l Hfc _ IH]; [done|]. cbn [new_owner_scan].
  rewrite IH.
  destruct (Z.eqb_spec (fc_status fc) DL_CHUNK_BUSY) as [Hb|Hb];
    cbn [negb]; [|done].
  destruct (((fc_from fc <=? from) && (from <? fc_to fc))
            || ((fc_from fc <=? to) && (to <? fc_to fc))) eqn:E; [|done].
  exfalso. apply Hfc. split; [done|lia].
Qed.

Lemma new_owner_scan_first d from to l1 fc l2 :
  Forall (fun c => ~ meets_segment from to c) l1 ->
  meets_segment from to fc ->
  new_owner_scan d from to (l1 ++ fc :: l2)
  = match fc_download fc with
    | Some old =>
        if bool_decide (old = d) then None
        else Some (l1 ++ mk_chunk (fc_from fc) (fc_to fc) (Some d)
                           DL_CHUNK_BUSY :: map (release_chunk old) l2)
    | None => None
    end.
Proof.
  intros Hl1 [Hb Hm]. induction Hl1 as [|c l1 Hc _ IH].
  - cbn [app new_owner_scan]. rewrite Hb.
    change (negb (DL_CHUNK_BUSY =? DL_CHUNK_BUSY)) with false. cbv iota.
    replace (((fc_from fc <=? from) && (from <? fc_to fc))
             || ((fc_from fc <=? to) && (to <? fc_to fc))) with true by lia.
    done.
  - cbn [app new_owner_scan]. rewrite IH.
    assert (Hskip : forall r : option (list dl_file_chunk),
              (if negb (fc_status c =? DL_CHUNK_BUSY)
               then match r with Some sl' => Some (c :: sl') | None => None end
               else if ((fc_from c <=? from) && (from <? fc_to c))
                       || ((fc_from c <=? to) && (to <? fc_to c))
                    then match fc_download c with
                         | Some old =>
                             if bool_decide (old = d) then None
                             else Some (mk_chunk (fc_from c) (fc_to c)
                                          (Some d) (fc_status c)
                                        :: map (release_chunk old)
                                             (l1 ++ fc :: l2))
                         | None => None
                         end
                    else match r with
                         | Some sl' => Some (c :: sl')
                         | None => None
                         end)
              = match r with Some sl' => Some (c :: sl') | None => None end).
    { intros r.
      destruct (Z.eqb_spec (fc_status c) DL_CHUNK_BUSY) as [Hcb|Hcb];
        cbn [negb]; [|done].
      destruct (((fc_from c <=? from) && (from <? fc_to c))
                || ((fc_from c <=? to) && (to <? fc_to c))) eqn:E; [|done].
      exfalso. apply Hc. split; [done|lia]. }
    rewrite Hskip.
    destruct (fc_download fc) as [old|]; [|done].
    by destruct (bool_decide (old = d)).
Qed.

(** Either no chunk meets the segment, or there is a first one. *)
Lemma first_meeting from to l :
  Forall (fun c => ~ meets_segment from to c) l
  \/ exists l1 fc l2,
       l = l1 ++ fc :: l2 /\ meets_segment from to fc
       /\ Forall (fun c => ~ meets_segment from to c) l1.
Proof.
  induction l as [|c l IH]; [left; constructor|].
  assert (Hdec : meets_segment from to c \/ ~ meets_segment from to c).
  { unfold meets_segment.
    destruct (Z.eq_dec (fc_status c) DL_CHUNK_BUSY); [|tauto].
    destruct (Z.le_gt_cases (fc_from c) from), (Z.lt_ge_cases from (fc_to c)),
      (Z.le_gt_cases (fc_from c) to), (Z.lt_ge_cases to (fc_to c));
      first [left; split; [done|lia] | right; intros [_ ?]; lia]. }
  destruct Hdec as [Hm|Hm].
  - right. exists [], c, l. split; [done|]. split; [done|constructor].
  - destruct IH as [IH|(l1 & fc & l2 & -> & Hfc & Hl1)].
    + left. by constructor.
    + right. exists (c :: l1), fc, l2.
      split; [done|]. split; [done|]. by constructor.
Qed.

(** X12.  [file_info_new_chunk_owner] looks for the first BUSY chunk that
    holds one bound of the segment.  When there is none, nothing changes.
    When that chunk belongs to another download, it is given to the
    download, every BUSY chunk of the former owner after it becomes EMPTY
    without owner (so that the former owner has no BUSY chunk after the one
    it lost), and nothing else changes: the chunks before it, the boundaries
    of all chunks and the count of DONE bytes are the same.  When that chunk
    has no owner or already belongs to the download, the call aborts; on a
    chunk list that passes the opening assertion it aborts in no other
    case. *)
Theorem new_chunk_owner_spec fileinfo_debug fi d from to b :
  chain 0 (fi_chunklist fi) b ->
  file_info_check_chunklist fileinfo_debug fi true = true ->
  (Forall (fun c => ~ meets_segment from to c) (fi_chunklist fi)
   /\ file_info_new_chunk_owner fileinfo_debug fi d from to = Some fi)
  \/ exists l1 fc l2,
       fi_chunklist fi = l1 ++ fc :: l2
       /\ meets_segment from to fc
       /\ Forall (fun c => ~ meets_segment from to c) l1
       /\ ((fc_download fc = None \/ fc_download fc = Some d)
           /\ file_info_new_chunk_owner fileinfo_debug fi d from to = None
           \/ exists old l',
                fc_download fc = Some old /\ old <> d
                /\ l' = l1 ++ mk_chunk (fc_from fc) (fc_to fc) (Some d)
                                DL_CHUNK_BUSY :: map (release_chunk old) l2
                /\ file_info_new_chunk_owner fileinfo_debug fi d from to
                   = Some (fi_set_chunks fi l' (fi_done fi))
                /\ Forall (fun c => ~ (fc_status c = DL_CHUNK_BUSY
                                       /\ fc_download c = Some old))
                     (map (release_chunk old) l2)
                /\ Forall2 (fun c c' =>
                              fc_from c' = fc_from c /\ fc_to c' = fc_to c
                              /\ (c' = c
                                  \/ fc_status c = DL_CHUNK_BUSY
                                     /\ fc_download c = Some old
                                     /\ fc_status c' = DL_CHUNK_EMPTY
                                     /\ fc_download c' = None))
                     l2 (map (release_chunk old) l2)
                /\ chain 0 l' b
                /\ done_sum l' = done_sum (fi_chunklist fi)).
Proof.
  intros Hc Hck. unfold file_info_new_chunk_owner. rewrite Hck. cbn [negb].
  destruct (first_meeting from to (fi_chunklist fi))
    as [Hno|(l1 & fc & l2 & El & Hm & Hl1)].
  { left. split; [done|]. rewrite new_owner_scan_unmet by done.
    by destruct fi. }
  right. exists l1, fc, l2. split; [done|]. split; [done|]. split; [done|].
  rewrite El, (new_owner_scan_first d from to l1 fc l2 Hl1 Hm).
  destruct (fc_download fc) as [old|] eqn:Ho; [|left; split; [by left|done]].
  destruct (bool_decide_reflect (old = d)) as [->|Hne];
    [left; split; [by right|done]|].
  right. exists old. eexists. split; [done|]. split; [done|].
  split; [reflexivity|]. split; [done|].
  split; [apply release_chunks_free|].
  split.
  { clear. induction l2 as [|c l2 IH]; [constructor|]. cbn [map].
    constructor; [|done]. unfold release_chunk.
    destruct (Z.eqb_spec (fc_status c) DL_CHUNK_BUSY) as [Hb|Hb];
      cbn [andb]; [|by repeat split; try left].
    destruct (bool_decide_reflect (fc_download c = Some old)) as [Hd|Hd];
      [|by repeat split; try left].
    cbn [fc_from fc_to fc_status fc_download]. repeat split. by right. }
  assert (HF : Forall2 (owner_step d) (l1 ++ fc :: l2)
                 (l1 ++ mk_chunk (fc_from fc) (fc_to fc) (Some d)
                          DL_CHUNK_BUSY :: map (release_chunk old) l2)).
  { apply Forall2_app.
    - clear. induction l1; constructor; [by left|done].
    - constructor; [|apply release_chunks_steps].
      right. left. destruct Hm as [Hb _]. split; [done|].
      split; [by exists old|done]. }
  rewrite El in Hc. split.
  - by apply (owner_steps_chain d _ _ _ _ HF).
  - by apply (owner_steps_done_sum d).
Qed.

Lemma new_chunk_owner_spec_witness :
  (Forall (fun c => ~ meets_segment 50 60 c) (fi_chunklist owner_sample)
   /\ file_info_new_chunk_owner true owner_sample 2%nat 50 60
      = Some owner_sample)
  \/ exists l1 fc l2,
       fi_chunklist owner_sample = l1 ++ fc :: l2
       /\ meets_segment 50 60 fc
       /\ Forall (fun c => ~ meets_segment 50 60 c) l1
       /\ ((fc_download fc = None \/ fc_download fc = Some 2%nat)
           /\ file_info_new_chunk_owner true owner_sample 2%nat 50 60 = None
           \/ exists old l',
                fc_download fc = Some old /\ old <> 2%nat
                /\ l' = l1 ++ mk_chunk (fc_from fc) (fc_to fc) (Some 2%nat)
                                DL_CHUNK_BUSY :: map (release_chunk old) l2
                /\ file_info_new_chunk_owner true owner_sample 2%nat 50 60
                   = Some (fi_set_chunks owner_sample l'
                             (fi_done owner_sample))
                /\ Forall (fun c => ~ (fc_status c = DL_CHUNK_BUSY
                                       /\ fc_download c = Some old))
                     (map (release_chunk old) l2)
                /\ Forall2 (fun c c' =>
                              fc_from c' = fc_from c /\ fc_to c' = fc_to c
                              /\ (c' = c
                                  \/ fc_status c = DL_CHUNK_BUSY
                                     /\ fc_download c = Some old
                                     /\ fc_status c' = DL_CHUNK_EMPTY
                                     /\ fc_download c' = None))
                     l2 (map (release_chunk old) l2)
                /\ chain 0 l' 300
                /\ done_sum l' = done_sum (fi_chunklist owner_sample)).
Proof.
  apply (new_chunk_owner_spec true owner_sample 2%nat 50 60 300).
  - cbn. repeat split; lia.
  - reflexivity.
Defined.

(** ** The size of the file *)

Lemma chain_snoc a l m b st o :
  chain a l m -> m < b -> chain a (l ++ [mk_chunk m b o st]) b.
Proof.
  intros Hc Hlt. apply chain_app. exists m. split; [done|]. cbn. done.
Qed.

Lemma done_sum_app l1 l2 : done_sum (l1 ++ l2) = done_sum l1 + done_sum l2.
Proof.
  induction l1 as [|fc l1 IH]; [done|]. cbn [app]. rewrite !done_sum_cons, IH.
  lia.
Qed.

(** X13.  When the chunk list covers the old size exactly, [fi_resize]
    leaves a chunk list that covers the new size and passes
    [file_info_check_chunklist]: the old chunks followed by one EMPTY chunk
    without owner, the count of DONE bytes being the same.  It aborts only
    when the new size is not larger than the old one, or when the file
    information is hashed: the closing assertion on the chunk list holds. *)
Theorem fi_resize_spec fileinfo_debug hashed fi size :
  chain 0 (fi_chunklist fi) (fi_size fi) ->
  match fi_resize fileinfo_debug hashed fi size with
  | Some fi' =>
      hashed = false /\ fi_size fi < size
      /\ fi_size fi' = size
      /\ fi_chunklist fi'
         = fi_chunklist fi ++ [mk_chunk (fi_size fi) size None DL_CHUNK_EMPTY]
      /\ chain 0 (fi_chunklist fi') size
      /\ file_info_check_chunklist true fi' false = true
      /\ done_sum (fi_chunklist fi') = done_sum (fi_chunklist fi)
      /\ fi_done fi' = fi_done fi
  | None => hashed = true \/ size <= fi_size fi
  end.
Proof.
  intros Hc. unfold fi_resize.
  destruct (Z.ltb_spec (fi_size fi) size) as [Hlt|Hge]; cbn [negb orb];
    [|right; lia].
  destruct hashed; [by left|].
  pose proof (chain_snoc _ _ _ size DL_CHUNK_EMPTY None Hc Hlt) as Hc'.
  assert (Hck : check_chunks (fi_file_size_known fi) size 0
                  (fi_chunklist fi
                   ++ [mk_chunk (fi_size fi) size None DL_CHUNK_EMPTY])
                = true)
    by (by apply (chain_check_chunks _ _ _ _ size)).
  assert (Hdbg : forall dbg,
            file_info_check_chunklist dbg
              (fi_set_size_chunks fi size (fi_file_size_known fi)
                 (fi_use_swarming fi)
                 (fi_chunklist fi
                  ++ [mk_chunk (fi_size fi) size None DL_CHUNK_EMPTY])) true
            = true).
  { intros dbg. unfold file_info_check_chunklist.
    cbn [fi_set_size_chunks fi_file_size_known fi_size fi_chunklist].
    by destruct dbg. }
  cbv zeta. rewrite Hdbg.
  cbn [fi_set_size_chunks fi_size fi_chunklist fi_done].
  split; [done|]. split; [done|]. split; [done|]. split; [done|].
  split; [done|]. split.
  - unfold file_info_check_chunklist.
    cbn [andb negb fi_file_size_known fi_size fi_chunklist]. done.
  - rewrite done_sum_app. cbn. split; [lia|done].
Qed.

Lemma fi_resize_spec_witness :
  false = false /\ fi_size done_sample < 2000
  /\ fi_size (fi_set_size_chunks done_sample 2000 true true
                (fi_chunklist done_sample
                 ++ [mk_chunk 1000 2000 None DL_CHUNK_EMPTY])) = 2000
  /\ fi_chunklist (fi_set_size_chunks done_sample 2000 true true
                     (fi_chunklist done_sample
                      ++ [mk_chunk 1000 2000 None DL_CHUNK_EMPTY]))
     = fi_chunklist done_sample
       ++ [mk_chunk (fi_size done_sample) 2000 None DL_CHUNK_EMPTY]
  /\ chain 0 (fi_chunklist
                (fi_set_size_chunks done_sample 2000 true true
                   (fi_chunklist done_sample
                    ++ [mk_chunk 1000 2000 None DL_CHUNK_EMPTY]))) 2000
  /\ file_info_check_chunklist true
       (fi_set_size_chunks done_sample 2000 true true
          (fi_chunklist done_sample
           ++ [mk_chunk 1000 2000 None DL_CHUNK_EMPTY])) false = true
  /\ done_sum (fi_chunklist
                 (fi_set_size_chunks done_sample 2000 true true
                    (fi_chunklist done_sample
                     ++ [mk_chunk 1000 2000 None DL_CHUNK_EMPTY])))
     = done_sum (fi_chunklist done_sample)
  /\ fi_done (fi_set_size_chunks done_sample 2000 true true
                (fi_chunklist done_sample
                 ++ [mk_chunk 1000 2000 None DL_CHUNK_EMPTY]))
     = fi_done done_sample.
Proof.
  apply (fi_resize_spec true false done_sample 2000). cbn. repeat split; lia.
Defined.

(** What [file_info_size_known] makes of the chunk list: the bytes received
    so far are a DONE chunk and the rest, if any, a BUSY chunk of the
    download. *)
Lemma size_known_result fileinfo_debug fi d size :
  fi_file_size_known fi = false -> fi_use_swarming fi = false ->
  fi_chunklist fi = [] ->
  let l := (if fi_done fi =? 0 then []
            else [mk_chunk 0 (fi_done fi) None DL_CHUNK_DONE])
           ++ (if fi_done fi <? size
               then [mk_chunk (fi_done fi) size (Some d) DL_CHUNK_BUSY]
               else []) in
  file_info_size_known fileinfo_debug fi d size
  = if fileinfo_debug && negb (check_chunks true size 0 l) then None
    else Some (fi_set_size_chunks fi size true true l).
Proof.
  intros Hk Hs Hl l. unfold file_info_size_known. rewrite Hk, Hs, Hl.
  cbn [orb]. cbv zeta. unfold file_info_check_chunklist.
  cbn [fi_set_size_chunks fi_file_size_known fi_size fi_chunklist andb].
  assert (El : (if negb (fi_done fi =? 0)
                then [mk_chunk 0 (fi_done fi) None DL_CHUNK_DONE] else [])
               ++ (if fi_done fi <? size
                   then [mk_chunk (fi_done fi) size (Some d) DL_CHUNK_BUSY]
                   else []) = l)
    by (unfold l; by destruct (fi_done fi =? 0)).
  rewrite El. destruct fileinfo_debug; cbn [negb andb]; [|done].
  by destruct (check_chunks true size 0 l).
Qed.

Lemma size_known_opening fileinfo_debug fi d size :
  fi_file_size_known fi = true \/ fi_use_swarming fi = true
  \/ fi_chunklist fi <> [] ->
  file_info_size_known fileinfo_debug fi d size = None.
Proof.
  unfold file_info_size_known. intros [->|[H|H]]; [done| |].
  - rewrite H, orb_true_r. done.
  - destruct (_ || _); [done|]. by destruct (fi_chunklist fi).
Qed.

(** X14.  When the size announced is at least the count of bytes received,
    [file_info_size_known] aborts only if one of its opening assertions
    fails (the size is already known, the file is swarming or it has
    chunks).  Otherwise it records the size as known, keeps the count of
    bytes received and builds this chunk list: a DONE chunk without owner
    for the bytes received so far, if any, followed by a BUSY chunk of the
    download for the rest, if any.  That list covers the file, passes
    [file_info_check_chunklist] (so the closing assertion holds) and its
    DONE bytes are the bytes received. *)
Theorem size_known_spec fileinfo_debug fi d size :
  0 <= fi_done fi <= size -> 0 < size ->
  match file_info_size_known fileinfo_debug fi d size with
  | Some fi' =>
      fi_file_size_known fi = false /\ fi_use_swarming fi = false
      /\ fi_chunklist fi = []
      /\ fi' = fi_set_size_chunks fi size true true (fi_chunklist fi')
      /\ fi_size fi' = size /\ fi_file_size_known fi' = true
      /\ fi_use_swarming fi' = true /\ fi_done fi' = fi_done fi
      /\ fi_chunklist fi'
         = (if fi_done fi =? 0 then []
            else [mk_chunk 0 (fi_done fi) None DL_CHUNK_DONE])
           ++ (if fi_done fi <? size
               then [mk_chunk (fi_done fi) size (Some d) DL_CHUNK_BUSY]
               else [])
      /\ chain 0 (fi_chunklist fi') size
      /\ file_info_check_chunklist true fi' false = true
      /\ done_sum (fi_chunklist fi') = fi_done fi
  | None =>
      fi_file_size_known fi = true \/ fi_use_swarming fi = true
      \/ fi_chunklist fi <> []
  end.
Proof.
  intros Hd Hs.
  destruct (fi_file_size_known fi) eqn:Hk.
  { rewrite size_known_opening by (rewrite Hk; by left). by left. }
  destruct (fi_use_swarming fi) eqn:Hsw.
  { rewrite size_known_opening by (rewrite Hsw; by right; left).
    by right; left. }
  destruct (fi_chunklist fi) as [|x sl] eqn:Hl.
  2:{ rewrite size_known_opening by (rewrite Hl; by right; right).
      by right; right. }
  rewrite (size_known_result fileinfo_debug fi d size Hk Hsw Hl). cbv zeta.
  set (l := (if fi_done fi =? 0 then []
             else [mk_chunk 0 (fi_done fi) None DL_CHUNK_DONE])
            ++ (if fi_done fi <? size
                then [mk_chunk (fi_done fi) size (Some d) DL_CHUNK_BUSY]
                else [])).
  assert (Hc : chain 0 l size).
  { unfold l.
    destruct (Z.eqb_spec (fi_done fi) 0), (Z.ltb_spec (fi_done fi) size);
      cbn [app chain fc_from fc_to]; repeat split; lia. }
  assert (Hck : check_chunks true size 0 l = true)
    by (by apply (chain_check_chunks _ _ _ _ size)).
  rewrite Hck. cbn [negb]. rewrite andb_false_r.
  cbn [fi_set_size_chunks fi_size fi_file_size_known fi_use_swarming fi_done
       fi_chunklist].
  do 9 (split; [done|]). split; [done|]. split.
  - unfold file_info_check_chunklist.
    cbn [andb fi_file_size_known fi_size fi_chunklist]. done.
  - unfold l.
    destruct (Z.eqb_spec (fi_done fi) 0), (Z.ltb_spec (fi_done fi) size);
      cbn [app done_sum fc_from fc_to fc_status];
      change (DL_CHUNK_DONE =? DL_CHUNK_DONE) with true;
      change (DL_CHUNK_BUSY =? DL_CHUNK_DONE) with false; cbv iota; lia.
Qed.

Lemma size_known_spec_witness :
  fi_file_size_known unknown_sample = false
  /\ fi_use_swarming unknown_sample = false
  /\ fi_chunklist unknown_sample = []
  /\ fi_set_size_chunks unknown_sample 250 true true
       [mk_chunk 0 100 None DL_CHUNK_DONE;
        mk_chunk 100 250 (Some 1%nat) DL_CHUNK_BUSY]
     = fi_set_size_chunks unknown_sample 250 true true
         [mk_chunk 0 100 None DL_CHUNK_DONE;
          mk_chunk 100 250 (Some 1%nat) DL_CHUNK_BUSY]
  /\ 250 = 250 /\ true = true /\ true = true
  /\ fi_done unknown_sample = fi_done unknown_sample
  /\ [mk_chunk 0 100 None DL_CHUNK_DONE;
      mk_chunk 100 250 (Some 1%nat) DL_CHUNK_BUSY]
     = (if fi_done unknown_sample =? 0 then []
        else [mk_chunk 0 (fi_done unknown_sample) None DL_CHUNK_DONE])
       ++ (if fi_done unknown_sample <? 250
           then [mk_chunk (fi_done unknown_sample) 250 (Some 1%nat)
                   DL_CHUNK_BUSY]
           else [])
  /\ chain 0 [mk_chunk 0 100 None DL_CHUNK_DONE;
              mk_chunk 100 250 (Some 1%nat) DL_CHUNK_BUSY] 250
  /\ file_info_check_chunklist true
       (fi_set_size_chunks unknown_sample 250 true true
          [mk_chunk 0 100 None DL_CHUNK_DONE;
           mk_chunk 100 250 (Some 1%nat) DL_CHUNK_BUSY]) false = true
  /\ done_sum [mk_chunk 0 100 None DL_CHUNK_DONE;
               mk_chunk 100 250 (Some 1%nat) DL_CHUNK_BUSY]
     = fi_done unknown_sample.
Proof.
  apply (size_known_spec true unknown_sample 1%nat 250).
  - cbn. lia.
  - lia.
Defined.

(** X25.  When the size announced is smaller than the count of bytes
    received (and not zero), [file_info_size_known] on a file information
    that meets its opening assertions records the size all the same and
    leaves one DONE chunk that extends past it: that chunk list fails
    [file_info_check_chunklist], so the closing assertion aborts the call
    when [fileinfo_debug] is set, and the inconsistent list is returned
    when it is not. *)
Theorem size_known_smaller_size fileinfo_debug fi d size :
  0 < size < fi_done fi ->
  match file_info_size_known fileinfo_debug fi d size with
  | Some fi' =>
      fileinfo_debug = false
      /\ fi_file_size_known fi = false /\ fi_use_swarming fi = false
      /\ fi_chunklist fi = []
      /\ fi' = fi_set_size_chunks fi size true true
                 [mk_chunk 0 (fi_done fi) None DL_CHUNK_DONE]
      /\ file_info_check_chunklist true fi' false = false
  | None =>
      fileinfo_debug = true
      \/ fi_file_size_known fi = true \/ fi_use_swarming fi = true
      \/ fi_chunklist fi <> []
  end.
Proof.
  intros Hs.
  destruct (fi_file_size_known fi) eqn:Hk.
  { rewrite size_known_opening by (rewrite Hk; by left). by right; left. }
  destruct (fi_use_swarming fi) eqn:Hsw.
  { rewrite size_known_opening by (rewrite Hsw; by right; left).
    by right; right; left. }
  destruct (fi_chunklist fi) as [|x sl] eqn:Hl.
  2:{ rewrite size_known_opening by (rewrite Hl; by right; right).
      by right; right; right. }
  rewrite (size_known_result fileinfo_debug fi d size Hk Hsw Hl). cbv zeta.
  replace (fi_done fi =? 0) with false by lia.
  replace (fi_done fi <? size) with false by lia.
  cbn [app].
  assert (Hck : check_chunks true size 0
                  [mk_chunk 0 (fi_done fi) None DL_CHUNK_DONE] = false).
  { cbn [check_chunks fc_from fc_to negb orb].
    replace (fi_done fi <=? 0) with false by lia.
    replace (size =? 0) with false by lia.
    replace (size <=? 0) with false by lia.
    replace (size <? fi_done fi) with true by lia. done. }
  rewrite Hck. cbn [negb]. rewrite andb_true_r.
  destruct fileinfo_debug; [by left|].
  do 5 (split; [done|]).
  unfold file_info_check_chunklist.
  cbn [andb fi_set_size_chunks fi_file_size_known fi_size fi_chunklist].
  done.
Qed.

Lemma size_known_smaller_size_witness :
  false = false
  /\ fi_file_size_known unknown_sample = false
  /\ fi_use_swarming unknown_sample = false
  /\ fi_chunklist unknown_sample = []
  /\ fi_set_size_chunks unknown_sample 50 true true
       [mk_chunk 0 100 None DL_CHUNK_DONE]
     = fi_set_size_chunks unknown_sample 50 true true
         [mk_chunk 0 (fi_done unknown_sample) None DL_CHUNK_DONE]
  /\ file_info_check_chunklist true
       (fi_set_size_chunks unknown_sample 50 true true
          [mk_chunk 0 100 None DL_CHUNK_DONE]) false = false.
Proof.
  apply (size_known_smaller_size false unknown_sample 1%nat 50).
  cbn. lia.
Defined.


(** ** The chunks of a trailer, a reset, a download that goes away *)

Lemma chain_copy_chunks_ok a l b first :
  chain a l b -> (first = true -> a = 0) -> copy_chunks_ok first l = true.
Proof.
  revert a first. induction l as [|fc sl IH]; intros a first Hc Ha; [done|].
  apply chain_cons in Hc as (Hf & Hlt & Hc). cbn [copy_chunks_ok].
  rewrite (IH (fc_to fc) false Hc) by done.
  destruct first; cbn [negb orb]; [rewrite Ha in Hf by done|]; lia.
Qed.

(** X15.  [fi_copy_chunks], given a file information without chunk and one
    read from a trailer whose chunks follow one another from offset 0 and
    pass the assertions on the chunk list (for the trailer and, once copied,
    for the file information), does not abort: it takes the generation
    number and the merged chunk list of the trailer, with the count of DONE
    bytes of that list.  When the chunk list of the trailer is already
    merged, as [file_info_retrieve_binary] leaves it, the chunk list is
    copied unchanged. *)
Theorem copy_chunks_spec fileinfo_debug fi trailer b :
  fi_chunklist fi = [] -> chain 0 (fi_chunklist trailer) b -> b < 2 ^ 64 ->
  file_info_check_chunklist fileinfo_debug trailer true = true ->
  (fileinfo_debug = true ->
   check_chunks (fi_file_size_known fi) (fi_size fi) 0 (fi_chunklist trailer)
   = true) ->
  exists fi',
    fi_copy_chunks fileinfo_debug fi trailer = Some fi'
    /\ fi_generation fi' = fi_generation trailer
    /\ fi_chunklist fi' = (merge_chunks (fi_chunklist trailer)).1
    /\ chain 0 (fi_chunklist fi') b
    /\ (fi_chunklist trailer <> [] ->
        fi_done fi' = done_sum (fi_chunklist trailer))
    /\ (merged (fi_chunklist trailer) ->
        fi_chunklist fi' = fi_chunklist trailer).
Proof.
  intros Hnil Hc Hb Hct Hcf. unfold fi_copy_chunks. rewrite Hnil, Hct.
  rewrite (chain_copy_chunks_ok 0 _ b true Hc) by done. cbn [negb].
  unfold merge_adjacent_checked.
  match goal with
  | |- context [file_info_merge_adjacent ?x] =>
      set (fi1 := x);
      pose proof (merge_adjacent_fields fi1)
        as (_ & Hsz & Hkn & Hg & _);
      pose proof (merge_adjacent_done fi1 b) as Hd;
      pose proof (file_info_merge_adjacent_chunks fi1) as Hl
  end.
  cbn [fi1 fi_chunklist fi_generation fi_size fi_file_size_known]
    in Hg, Hd, Hl, Hsz, Hkn.
  assert (Hc' : chain 0 (merge_chunks (fi_chunklist trailer)).1 b)
    by (by apply merge_chunks_chain).
  assert (H1 : file_info_check_chunklist fileinfo_debug fi1 true = true).
  { unfold file_info_check_chunklist. destruct fileinfo_debug; [|done].
    cbn [andb negb fi1 fi_file_size_known fi_size fi_chunklist]. by apply Hcf. }
  assert (H2 : file_info_check_chunklist fileinfo_debug
                 (file_info_merge_adjacent fi1) true = true).
  { unfold file_info_check_chunklist. destruct fileinfo_debug; [|done].
    cbn [andb negb]. rewrite Hl, Hsz, Hkn.
    apply (chain_check_chunks _ _ _ _ b); [done|].
    intros Hk Hz Hne.
    destruct (check_chunks_chain _ _ _ _ (Hcf eq_refl))
      as (b' & Hcb & He & Hs).
    assert (Hne' : fi_chunklist trailer <> []).
    { intros E. rewrite E in Hne. by apply Hne. }
    rewrite <- (chain_covered_end _ _ _ Hc Hne'), (He Hne').
    by apply Hs. }
  rewrite H1, H2. cbn [negb].
  eexists. split; [done|].
  rewrite Hl. split; [done|]. split; [done|].
  split; [done|]. split.
  - intros Hne. destruct (Hd Hc Hb) as [|Hd']; [done|].
    rewrite Hd', Hl. by apply (merge_chunks_done_sum 0 _ b).
  - apply merge_chunks_fixed.
Qed.

Lemma copy_chunks_spec_witness :
  exists fi',
    fi_copy_chunks true unknown_sample codec_sample_back = Some fi'
    /\ fi_generation fi' = fi_generation codec_sample_back
    /\ fi_chunklist fi' = (merge_chunks (fi_chunklist codec_sample_back)).1
    /\ chain 0 (fi_chunklist fi') 40
    /\ (fi_chunklist codec_sample_back <> [] ->
        fi_done fi' = done_sum (fi_chunklist codec_sample_back))
    /\ (merged (fi_chunklist codec_sample_back) ->
        fi_chunklist fi' = fi_chunklist codec_sample_back).
Proof.
  apply (copy_chunks_spec true unknown_sample codec_sample_back 40).
  - reflexivity.
  - cbn. repeat split; lia.
  - lia.
  - reflexivity.
  - intros _. reflexivity.
Defined.

Lemma merge_loop_uniform fc1 sl done b :
  fc_status fc1 = DL_CHUNK_EMPTY ->
  Forall (fun fc => fc_status fc = DL_CHUNK_EMPTY) sl ->
  chain (fc_to fc1) sl b ->
  merge_loop fc1 sl done = ([fc_set_to fc1 b], done).
Proof.
  revert fc1 done. induction sl as [|fc2 next IH]; intros fc1 done H1 Hall Hc.
  - cbn in Hc. subst b. cbn [merge_loop]. by rewrite fc_set_to_id.
  - apply Forall_cons in Hall as [H2 Hall].
    apply chain_cons in Hc as (Hf & Hlt & Hc).
    cbn [merge_loop]. rewrite merge_visit_status, merge_visit_to, H1, H2.
    change ((DL_CHUNK_EMPTY =? DL_CHUNK_EMPTY)
            && negb (DL_CHUNK_EMPTY =? DL_CHUNK_BUSY)) with true. cbv iota.
    rewrite IH; [|done|done|done].
    unfold merge_done. rewrite H2.
    change (DL_CHUNK_EMPTY =? DL_CHUNK_DONE) with false. done.
Qed.

Lemma reset_chunks_empty l l' :
  reset_chunks l = Some l' ->
  Forall (fun fc => fc_status fc = DL_CHUNK_EMPTY /\ fc_download fc = None) l'.
Proof.
  revert l'. induction l as [|fc sl IH]; intros l' H; cbn [reset_chunks] in H.
  - injection H as <-. constructor.
  - destruct (fc_download fc); [done|].
    destruct (reset_chunks sl) as [sl'|]; [|done]. injection H as <-.
    constructor; [done|]. by apply IH.
Qed.

(** X16.  When [file_info_reset] returns, a chunk list that was not empty
    has become one EMPTY chunk without owner that covers the same range,
    the count of DONE bytes is 0 and the computed SHA1 is dropped; the size
    is unchanged. *)
Theorem reset_spec dls fi fi' a b :
  file_info_reset dls fi = Some fi' ->
  chain a (fi_chunklist fi) b -> fi_chunklist fi <> [] ->
  fi_chunklist fi' = [mk_chunk a b None DL_CHUNK_EMPTY]
  /\ fi_done fi' = 0 /\ fi_cha1 fi' = None /\ fi_size fi' = fi_size fi.
Proof.
  unfold file_info_reset. intros H Hc Hne.
  assert (Hab : a < b).
  { destruct (fi_chunklist fi) as [|x sl]; [done|].
    apply chain_cons in Hc as (_ & Hlt & Hc). apply chain_le in Hc. lia. }
  destruct (reset_requeue _ dls fi) as [fi1|] eqn:E1; [|done].
  destruct (reset_requeue_chain _ _ _ _ a b E1 Hc) as [C1 S1].
  destruct (reset_chunks (fi_chunklist fi1)) as [l|] eqn:E2; [|done].
  injection H as <-.
  pose proof (reset_chunks_chain _ _ _ _ E2 C1) as C2.
  pose proof (reset_chunks_empty _ _ E2) as Hall.
  destruct l as [|fc sl]; [cbn in C2; lia|].
  apply chain_cons in C2 as (Hf & Hlt & C2).
  apply Forall_cons in Hall as [[Hs Ho] Hall].
  unfold file_info_merge_adjacent. cbn [fi_chunklist merge_chunks].
  assert (Hv : merge_visit fc = fc).
  { unfold merge_visit. rewrite Hs. done. }
  rewrite Hv, merge_loop_uniform with (b := b); [|done| |done].
  2: { eapply Forall_impl; [exact Hall|]. by intros x [Hx _]. }
  cbn [fi_set_chunks fi_chunklist fi_done fi_cha1 fi_size].
  split; [destruct fc; cbn in *; by subst|].
  split; [unfold merge_done; by rewrite Hs|]. split; [done|].
  apply S1.
Qed.

Lemma reset_spec_witness :
  fi_chunklist (sample_fi 1000 [mk_chunk 0 1000 None DL_CHUNK_EMPTY] 0)
  = [mk_chunk 0 1000 None DL_CHUNK_EMPTY]
  /\ fi_done (sample_fi 1000 [mk_chunk 0 1000 None DL_CHUNK_EMPTY] 0) = 0
  /\ fi_cha1 (sample_fi 1000 [mk_chunk 0 1000 None DL_CHUNK_EMPTY] 0) = None
  /\ fi_size (sample_fi 1000 [mk_chunk 0 1000 None DL_CHUNK_EMPTY] 0)
     = fi_size merge_sample.
Proof.
  apply (reset_spec sample_dls merge_sample
           (sample_fi 1000 [mk_chunk 0 1000 None DL_CHUNK_EMPTY] 0) 0 1000).
  - vm_compute. reflexivity.
  - cbn. repeat split; lia.
  - discriminate.
Defined.

Lemma merge_loop_keeps (Q : Z -> option download_id -> Prop) fc1 sl dn :
  (forall st o, Q st o -> Q st None) ->
  Forall (fun fc => Q (fc_status fc) (fc_download fc)) (fc1 :: sl) ->
  Forall (fun fc => Q (fc_status fc) (fc_download fc))
    (merge_loop fc1 sl dn).1.
Proof.
  intros HQ. revert fc1 dn.
  induction sl as [|fc2 next IH]; intros fc1 dn Hall; [done|].
  cbn [merge_loop]. apply Forall_cons in Hall as [H1 Hall].
  apply Forall_cons in Hall as [H2 Hall].
  assert (Hv : Q (fc_status (merge_visit fc2)) (fc_download (merge_visit fc2))).
  { unfold merge_visit. destruct (_ =? _); [|done]. cbn. by eapply HQ. }
  destruct (_ && _).
  - apply IH. apply Forall_cons. split; [|done]. by destruct fc1.
  - specialize (IH (merge_visit fc2) (merge_done dn fc2)).
    destruct (merge_loop _ _ _) as [l d']. cbn [fst] in *.
    apply Forall_cons. split; [done|]. apply IH. by apply Forall_cons.
Qed.

Lemma merge_chunks_keeps (Q : Z -> option download_id -> Prop) l :
  (forall st o, Q st o -> Q st None) ->
  Forall (fun fc => Q (fc_status fc) (fc_download fc)) l ->
  Forall (fun fc => Q (fc_status fc) (fc_download fc)) (merge_chunks l).1.
Proof.
  intros HQ Hall. destruct l as [|fc sl]; [done|]. cbn [merge_chunks].
  apply merge_loop_keeps; [done|].
  apply Forall_cons in Hall as [H1 Hall]. apply Forall_cons.
  split; [|done]. unfold merge_visit. destruct (_ =? _); [|done].
  cbn. by eapply HQ.
Qed.

Lemma merge_loop_busy_from fc1 sl dn fc :
  In fc (merge_loop fc1 sl dn).1 -> fc_status fc = DL_CHUNK_BUSY ->
  In fc (fc1 :: sl).
Proof.
  revert fc1 dn. induction sl as [|fc2 next IH]; intros fc1 dn Hin Hb.
  - done.
  - cbn [merge_loop] in Hin. rewrite merge_visit_status in Hin.
    destruct (Z.eqb_spec (fc_status fc1) (fc_status fc2)) as [He|Hne];
      cbn [andb] in Hin.
    + destruct (Z.eqb_spec (fc_status fc2) DL_CHUNK_BUSY) as [Hb2|Hnb];
        cbn [negb] in Hin.
      * specialize (IH (merge_visit fc2) (merge_done dn fc2)).
        destruct (merge_loop _ _ _) as [l d']. cbn [fst] in *.
        destruct Hin as [->|Hin]; [by left|]. right.
        rewrite (merge_visit_busy fc2 Hb2) in IH. by apply IH.
      * apply IH in Hin; [|done].
        destruct Hin as [<-|Hin]; [|right; by right].
        cbn in Hb. congruence.
    + specialize (IH (merge_visit fc2) (merge_done dn fc2)).
      destruct (merge_loop _ _ _) as [l d']. cbn [fst] in *.
      destruct Hin as [->|Hin]; [by left|]. right.
      apply IH in Hin; [|done]. destruct Hin as [<-|Hin]; [|by right].
      left. rewrite merge_visit_status in Hb. symmetry.
      by apply merge_visit_busy.
Qed.

Lemma merge_chunks_busy_from l fc :
  In fc (merge_chunks l).1 -> fc_status fc = DL_CHUNK_BUSY -> In fc l.
Proof.
  destruct l as [|x sl]; [done|]. cbn [merge_chunks]. intros Hin Hb.
  apply merge_loop_busy_from in Hin; [|done].
  destruct Hin as [<-|Hin]; [|by right]. left.
  rewrite merge_visit_status in Hb. symmetry. by apply merge_visit_busy.
Qed.

Lemma clear_chunks_done_sum d l :
  done_sum (map (clear_chunk d) l) = done_sum l.
Proof.
  induction l as [|fc l IH]; [done|]. cbn [map]. rewrite !done_sum_cons, IH.
  f_equal. unfold clear_chunk. destruct (decide _); [|done].
  cbn [fc_status fc_from fc_to].
  destruct (Z.eqb_spec (fc_status fc) DL_CHUNK_BUSY) as [E|]; [|done].
  rewrite E. done.
Qed.

(** X17.  After [file_info_clear_download] no chunk belongs to the download
    any more; the BUSY chunks of the other downloads are all still there,
    and no BUSY chunk has appeared; the chunks cover the same range with the
    same count of DONE bytes. *)
Theorem clear_download_spec fi d b :
  chain 0 (fi_chunklist fi) b ->
  let fi' := file_info_clear_download fi d in
  chain 0 (fi_chunklist fi') b
  /\ Forall (fun fc => fc_download fc <> Some d) (fi_chunklist fi')
  /\ done_sum (fi_chunklist fi') = done_sum (fi_chunklist fi)
  /\ (forall fc, In fc (fi_chunklist fi) -> fc_status fc = DL_CHUNK_BUSY ->
        fc_download fc <> Some d -> In fc (fi_chunklist fi'))
  /\ (forall fc, In fc (fi_chunklist fi') -> fc_status fc = DL_CHUNK_BUSY ->
        In fc (fi_chunklist fi)).
Proof.
  intros Hc fi'. subst fi'. unfold file_info_clear_download.
  rewrite file_info_merge_adjacent_chunks, fi_set_chunks_chunklist.
  assert (Hcm : chain 0 (map (clear_chunk d) (fi_chunklist fi)) b)
    by (apply chain_map; [apply clear_chunk_bounds|done]).
  split; [by apply merge_chunks_chain|]. split.
  - apply (merge_chunks_keeps (fun _ o => o <> Some d)); [done|].
    apply Forall_map, Forall_forall. intros fc _. unfold clear_chunk.
    destruct (decide _); done.
  - split.
    { rewrite (merge_chunks_done_sum 0 _ b) by done.
      apply clear_chunks_done_sum. }
    split.
    + intros fc Hin Hb Ho. apply merge_chunks_busy; [|done].
      apply in_map_iff. exists fc. split; [|done]. unfold clear_chunk.
      destruct (decide _); done.
    + intros fc Hin Hb. apply merge_chunks_busy_from in Hin; [|done].
      apply in_map_iff in Hin as (x & Hx & Hin). revert Hx.
      unfold clear_chunk. destruct (decide _) as [|Hn]; [|by intros <-].
      intros <-. cbn [fc_status] in Hb.
      destruct (Z.eqb_spec (fc_status x) DL_CHUNK_BUSY); [done|].
      done.
Qed.

Lemma clear_download_spec_witness :
  chain 0 (fi_chunklist (file_info_clear_download merge_sample 1%nat)) 1000
  /\ Forall (fun fc => fc_download fc <> Some 1%nat)
       (fi_chunklist (file_info_clear_download merge_sample 1%nat))
  /\ done_sum (fi_chunklist (file_info_clear_download merge_sample 1%nat))
     = done_sum (fi_chunklist merge_sample)
  /\ (forall fc, In fc (fi_chunklist merge_sample) ->
        fc_status fc = DL_CHUNK_BUSY -> fc_download fc <> Some 1%nat ->
        In fc (fi_chunklist (file_info_clear_download merge_sample 1%nat)))
  /\ (forall fc,
        In fc (fi_chunklist (file_info_clear_download merge_sample 1%nat)) ->
        fc_status fc = DL_CHUNK_BUSY -> In fc (fi_chunklist merge_sample)).
Proof.
  apply (clear_download_spec merge_sample 1%nat 1000).
  cbn. repeat split; lia.
Defined.

(** ** The status of a byte across a merge and an update *)

Lemma pos_status_scan_cons pos fc sl :
  pos_status_scan pos (fc :: sl)
  = if (fc_from fc <=? pos) && (pos <? fc_to fc) then fc_status fc
    else pos_status_scan pos sl.
Proof. done. Qed.

Lemma merge_loop_pos_status pos sl :
  forall fc1 dn b,
    chain (fc_to fc1) sl b -> fc_from fc1 < fc_to fc1 ->
    pos_status_scan pos (merge_loop fc1 sl dn).1
    = pos_status_scan pos (fc1 :: sl).
Proof.
  induction sl as [|fc2 next IH]; intros fc1 dn b Hc Hlt; [done|].
  apply chain_cons in Hc as (Hf & Hlt2 & Hc).
  cbn [merge_loop]. rewrite merge_visit_status, merge_visit_to.
  destruct (Z.eqb_spec (fc_status fc1) (fc_status fc2)) as [Es|Es];
    cbn [andb].
  - destruct (negb (fc_status fc2 =? DL_CHUNK_BUSY)).
    + rewrite (IH _ _ b) by (cbn [fc_set_to fc_to fc_from]; first [done|lia]).
      rewrite !pos_status_scan_cons.
      cbn [fc_set_to fc_from fc_to fc_status]. rewrite Es.
      destruct (Z.leb_spec (fc_from fc1) pos), (Z.ltb_spec pos (fc_to fc2)),
        (Z.ltb_spec pos (fc_to fc1)), (Z.leb_spec (fc_from fc2) pos);
        cbn [andb]; try done; lia.
    + destruct (merge_loop (merge_visit fc2) next (merge_done dn fc2))
        as [l d0] eqn:E.
      pose proof (IH (merge_visit fc2) (merge_done dn fc2) b) as IH'.
      rewrite E, merge_visit_to, merge_visit_from in IH'.
      cbn [fst]. rewrite (pos_status_scan_cons pos fc1 l).
      cbn [fst] in IH'. rewrite IH' by first [done|lia].
      rewrite !pos_status_scan_cons.
      by rewrite merge_visit_from, merge_visit_to, merge_visit_status.
  - destruct (merge_loop (merge_visit fc2) next (merge_done dn fc2))
      as [l d0] eqn:E.
    pose proof (IH (merge_visit fc2) (merge_done dn fc2) b) as IH'.
    rewrite E, merge_visit_to, merge_visit_from in IH'.
    cbn [fst]. rewrite (pos_status_scan_cons pos fc1 l).
    cbn [fst] in IH'. rewrite IH' by first [done|lia].
    rewrite !pos_status_scan_cons.
    by rewrite merge_visit_from, merge_visit_to, merge_visit_status.
Qed.

Lemma merge_chunks_pos_status pos a l b :
  chain a l b ->
  pos_status_scan pos (merge_chunks l).1 = pos_status_scan pos l.
Proof.
  destruct l as [|fc sl]; [done|]. intros Hc.
  apply chain_cons in Hc as (Hf & Hlt & Hc). cbn [merge_chunks].
  rewrite (merge_loop_pos_status pos sl _ _ b)
    by (rewrite ?merge_visit_from, ?merge_visit_to; first [done|lia]).
  rewrite !pos_status_scan_cons.
  by rewrite merge_visit_from, merge_visit_to, merge_visit_status.
Qed.

(** X19.  [file_info_merge_adjacent] changes the status of no byte: on a
    chunk list whose chunks follow one another, [file_info_pos_status]
    answers the same before and after the merge, at every offset. *)
Theorem merge_adjacent_keeps_status fi a b pos :
  chain a (fi_chunklist fi) b ->
  file_info_pos_status (file_info_merge_adjacent fi) pos
  = file_info_pos_status fi pos.
Proof.
  intros Hc. unfold file_info_pos_status.
  rewrite file_info_merge_adjacent_chunks.
  by apply (merge_chunks_pos_status pos a _ b).
Qed.

Lemma merge_adjacent_keeps_status_witness :
  file_info_pos_status (file_info_merge_adjacent merge_sample) 250
  = file_info_pos_status merge_sample 250.
Proof.
  apply (merge_adjacent_keeps_status merge_sample 0 1000 250).
  cbn. repeat split; lia.
Defined.

Ltac pos_split :=
  repeat match goal with
         | |- context [(?x <=? ?y)] =>
             destruct (Z.leb_spec x y); try (exfalso; lia)
         | |- context [(?x <? ?y)] =>
             destruct (Z.ltb_spec x y); try (exfalso; lia)
         end;
  cbn [andb].

Ltac marked_leaf :=
  intros pos; unfold released;
  cbn [app with_prev];
  rewrite ?pos_status_scan_cons;
  cbn [fc_from fc_to fc_status fc_download fc_set_owner fc_set_to fc_set_from];
  repeat split; intros; pos_split; try (exfalso; lia); auto.

Lemma marked_past from to status b l : b <= from -> marked from to status b l l.
Proof.
  intros Hb pos. split; [done|]. split; [lia|]. intros _. by left.
Qed.

Lemma marked_prepend from to status b p l l' :
  marked from to status b l l' -> fc_to p <= from -> from <= to ->
  marked from to status b (p :: l) (p :: l').
Proof.
  intros H Hp Hft pos. destruct (H pos) as (H1 & H2 & H3).
  rewrite !pos_status_scan_cons.
  destruct ((fc_from p <=? pos) && (pos <? fc_to p)) eqn:E.
  - split; [done|]. split; [lia|]. intros _. by left.
  - done.
Qed.

Lemma scan_marked_prepend from to status b prevfc l r :
  scan_marked from to status b l r -> from < to ->
  (forall p, prevfc = Some p -> fc_to p <= from) ->
  scan_marked from to status b (with_prev prevfc l) (scan_prepend prevfc r).
Proof.
  intros H Hft Hp. destruct prevfc as [p|]; [|by destruct r].
  specialize (Hp p eq_refl).
  destruct r as [l' f fr dn nm|l' fr dn nm]; cbn [scan_marked scan_prepend
    with_prev] in *.
  - apply marked_prepend; [done|done|lia].
  - destruct H as [Hlt H]. split; [done|].
    apply marked_prepend; [done|done|lia].
Qed.

Lemma marked_step from from1 to status b fc newval next l' :
  marked from1 to status b (fc_set_owner fc status newval :: next) l' ->
  fc_from fc = from -> fc_to fc = from1 -> from < from1 -> from1 <= to ->
  chain from1 next b ->
  marked from to status b (fc :: next) l'.
Proof.
  intros H Hf Ht Hlt Hle Hc pos. destruct (H pos) as (H1 & H2 & H3).
  pose proof (chain_le _ _ _ Hc) as Hb.
  rewrite pos_status_scan_cons in H1, H3.
  cbn [fc_set_owner fc_from fc_to fc_status] in H1, H3.
  rewrite pos_status_scan_cons.
  split; [|split].
  - intros Hp. rewrite H1 by lia. pos_split; done.
  - intros Hp Hpb. destruct (Z.lt_ge_cases pos from1) as [Hp1|Hp1].
    + rewrite H1 by lia. pos_split; done.
    + apply H2; [lia|done].
  - intros Hp. revert H3. pos_split. auto.
Qed.

Lemma scan_marked_step from from1 to status b fc newval next r :
  scan_marked from1 to status b (fc_set_owner fc status newval :: next) r ->
  fc_from fc = from -> fc_to fc = from1 -> from < from1 -> from1 < to ->
  chain from1 next b ->
  scan_marked from to status b (fc :: next) r.
Proof.
  intros H Hf Ht Hlt Hle Hc.
  destruct r as [l' f fr dn nm|l' fr dn nm]; cbn [scan_marked] in *.
  - eapply marked_step; eauto. lia.
  - destruct H as [Hfr H]. split; [lia|].
    eapply marked_step; eauto. lia.
Qed.

Lemma update_scan_marks to status newval sl :
  forall prevfc from dn nm a b,
    chain a sl b -> a <= from -> from < to ->
    (forall p, prevfc = Some p -> fc_from p < fc_to p /\ fc_to p = a) ->
    scan_marked from to status b (with_prev prevfc sl)
      (update_scan to status newval prevfc sl from dn nm).
Proof.
  induction sl as [|fc next IH]; intros prevfc from dn nm a b Hc Ha Hft Hp.
  - cbn [update_scan scan_marked]. cbn in Hc. apply marked_past. lia.
  - apply chain_cons in Hc as (Hf1 & Hf2 & Hn).
    pose proof (chain_le _ _ _ Hn) as Hle.
    assert (Hpf : forall p, prevfc = Some p -> fc_to p <= from).
    { intros p E. destruct (Hp p E). lia. }
    cbn [update_scan]. cbv zeta.
    destruct (Z.leb_spec (fc_to fc) from) as [T1|T1].
    { apply scan_marked_prepend; [|done|done].
      apply (IH (Some fc) from dn nm (fc_to fc) b); [done|done|done|].
      intros p [= <-]. split; [lia|done]. }
    destruct (Z.leb_spec to (fc_from fc)) as [T2|T2]; [lia|].
    destruct (Z.eqb_spec (fc_from fc) from) as [T3|T3]; cbn [andb].
    + destruct (Z.eqb_spec (fc_to fc) to) as [T4|T4].
      { cbn [scan_marked].
        destruct prevfc as [p|]; cbn [with_prev];
          [apply marked_prepend; [|by apply Hpf|lia]|]; marked_leaf. }
      destruct (Z.ltb_spec (fc_to fc) to) as [T5|T5].
      { apply scan_marked_prepend; [|done|done].
        match goal with
        | |- context [update_scan _ _ _ _ _ _ ?d ?n] =>
            pose proof (IH (Some (fc_set_owner fc status newval)) (fc_to fc)
                          d n (fc_to fc) b) as IH'
        end.
        cbn [with_prev] in IH'.
        eapply scan_marked_step; [apply IH'| | | | |]; try done; try lia.
        intros p [= <-]. cbn [fc_set_owner fc_from fc_to]. split; [lia|done]. }
      destruct (Z.ltb_spec to (fc_to fc)) as [T6|T6]; [|lia].
      destruct prevfc as [p|].
      * destruct (Hp p eq_refl) as [Hp1 Hp2].
        destruct (Z.eqb_spec status DL_CHUNK_DONE) as [Sd|Sd]; cbn [andb].
        -- destruct (Z.eqb_spec (fc_status p) status) as [Sp|Sp];
             cbn [scan_marked]; marked_leaf.
        -- cbn [scan_marked]. marked_leaf.
      * cbn [scan_marked]. marked_leaf.
    + destruct (Z.ltb_spec (fc_from fc) from) as [T4|T4]; cbn [andb]; [|lia].
      destruct (Z.leb_spec to (fc_to fc)) as [T5|T5].
      * cbn [scan_marked].
        assert (marked from to status b (fc :: next)
                  (fc_set_to fc from :: mk_chunk from to newval status
                   :: (if to <? fc_to fc
                       then if fc_status fc =? DL_CHUNK_BUSY
                            then [mk_chunk to (fc_to fc) None DL_CHUNK_EMPTY]
                            else [mk_chunk to (fc_to fc) (fc_download fc)
                                    (fc_status fc)]
                       else []) ++ next)) as Hm.
        { destruct (Z.ltb_spec to (fc_to fc)) as [T6|T6].
          - destruct (Z.eqb_spec (fc_status fc) DL_CHUNK_BUSY) as [Sb|Sb];
              marked_leaf.
          - marked_leaf. }
        destruct prevfc as [p|]; cbn [with_prev]; [|done].
        apply marked_prepend; [done|by apply Hpf|lia].
      * destruct (Z.ltb_spec (fc_to fc) to) as [T6|T6]; [|lia].
        cbn [scan_marked]. split; [lia|].
        destruct prevfc as [p|]; cbn [with_prev];
          [apply marked_prepend; [|by apply Hpf|lia]|]; marked_leaf.
Qed.

Lemma released_trans s1 s2 s3 :
  released s1 s2 -> released s2 s3 -> released s1 s3.
Proof.
  unfold released. intros [->|[-> ->]] [->|[E ->]]; auto.
Qed.

Lemma marked_trans from from1 to status b l l1 l' :
  marked from from1 status b l l1 -> marked from1 to status b l1 l' ->
  from < from1 -> from1 < to ->
  marked from to status b l l'.
Proof.
  intros H1 H2 Hlt Hlt' pos.
  destruct (H1 pos) as (A1 & A2 & A3), (H2 pos) as (B1 & B2 & B3).
  split; [|split].
  - intros Hp. rewrite B1 by lia. apply A1. done.
  - intros Hp Hb. destruct (Z.lt_ge_cases pos from1) as [Hp1|Hp1].
    + rewrite B1 by done. apply A2; [lia|done].
    + apply B2; [lia|done].
  - intros Hp. eapply released_trans; [apply A3|apply B3]; lia.
Qed.

Lemma update_again_marks n to status newval :
  forall l from dn nm a b l' f dn' nm',
    chain a l b -> 0 <= a -> a <= from -> from < to -> b - a < 2 ^ 64 ->
    (nm = false -> dn = done_sum l) ->
    update_again n to status newval l from dn nm = Some (l', f, dn', nm') ->
    marked from to status b l l'.
Proof.
  induction n as [|n IH];
    intros l from dn nm a b l' f dn' nm' Hc H0 Ha Hft Hb Hd H; [done|].
  cbn [update_again] in H.
  pose proof (update_scan_marks to status newval l None from dn nm a b
                Hc Ha Hft) as M.
  pose proof (update_scan_spec to status newval l None from dn nm a b 0) as S1.
  cbn [with_prev] in M, S1.
  specialize (S1 Hc Hft H0 (Z.le_refl 0)).
  destruct (update_scan to status newval None l from dn nm)
    as [l1 f1 fr1 d1 n1|l1 fr1 d1 n1]; cbn [scan_post scan_marked] in M, S1.
  - injection H as <- <- <- <-. by apply M.
  - destruct M as [Hfr M]; [done|].
    destruct S1 as (C1 & D1 & N1 & F1 & I1);
      [lia|intros E; rewrite (Hd E); lia|].
    eapply marked_trans; [exact M| |done|done].
    apply (IH l1 fr1 d1 n1 a b l' f dn' nm'); [done|done|lia|done|done| |done].
    intros E. rewrite (D1 E). lia.
Qed.

Lemma file_info_update_marked fi d from to status fi' b :
  file_info_update fi d from to status = Some fi' ->
  fi_file_size_known fi = true ->
  chain 0 (fi_chunklist fi) b -> b < 2 ^ 64 -> 0 <= from ->
  marked from to status b (fi_chunklist fi) (fi_chunklist fi').
Proof.
  unfold file_info_update. intros H Hk Hc Hb Hfrom.
  destruct (0 <? fi_refcount fi); [|done]. cbn [negb] in H.
  destruct (Z.ltb_spec from to) as [Hft|]; [|done]. cbn [negb] in H.
  destruct (if status =? DL_CHUNK_DONE then _ else _)
    as [[nm newval]|] eqn:Esw; [|done].
  rewrite Hk in H. cbn [negb] in H.
  destruct (update_again_spec 8 to status newval (fi_chunklist fi) from
              (done_sum (fi_chunklist fi)) nm 0 b Hc Hft (Z.le_refl 0))
    as (l0 & found0 & done0 & nm0 & E0 & C0 & D0 & N0); [lia|done|].
  pose proof (update_again_shape 10 to status newval (fi_chunklist fi) from
                (fi_done fi) (done_sum (fi_chunklist fi)) nm) as Esh.
  rewrite E0 in Esh.
  destruct (update_again 10 to status newval (fi_chunklist fi) from
              (fi_done fi) nm) as [[[[l' found] done'] nm']|] eqn:E; [|done].
  destruct Esh as (-> & -> & ->).
  pose proof (update_again_marks _ _ _ _ _ _ _ _ 0 b _ _ _ _ Hc (Z.le_refl 0)
                Hfrom Hft ltac:(lia) ltac:(done) E0) as M.
  assert (Hpos : forall p,
            pos_status_scan p (fi_chunklist fi') = pos_status_scan p l0).
  { intros p. injection H as <-. destruct nm0.
    - rewrite file_info_merge_adjacent_chunks, fi_set_chunks_chunklist.
      by apply (merge_chunks_pos_status p 0 _ b).
    - by rewrite fi_set_chunks_chunklist. }
  intros pos. rewrite !Hpos. apply M.
Qed.

Lemma file_info_reserve_busy fi d from to chunk fi' b pos :
  file_info_reserve fi d from to chunk = Some fi' ->
  fi_file_size_known fi = true ->
  chain 0 (fi_chunklist fi) b -> b < 2 ^ 64 -> 0 <= from ->
  from <= pos < to -> pos < b ->
  file_info_pos_status fi' pos = DL_CHUNK_BUSY.
Proof.
  intros H Hk Hc Hb Hfrom Hpos Hpb. apply file_info_reserve_update in H.
  destruct (file_info_update_marked _ _ _ _ _ _ b H Hk Hc Hb Hfrom pos)
    as (_ & M & _).
  by apply M.
Qed.

(** X20.  On a file of known size whose chunks follow one another from
    offset 0, [file_info_update] gives the requested status to every byte of
    the range that the chunk list holds; the bytes before the range keep
    their status, and so do the bytes after it, except that BUSY bytes there
    may become EMPTY (the rest of a reserved chunk whose beginning is taken
    over). *)
Theorem update_marks_range fi d from to status fi' b pos :
  file_info_update fi d from to status = Some fi' ->
  fi_file_size_known fi = true ->
  chain 0 (fi_chunklist fi) b -> b < 2 ^ 64 -> 0 <= from ->
  (pos < from -> file_info_pos_status fi' pos = file_info_pos_status fi pos)
  /\ (from <= pos < to -> pos < b -> file_info_pos_status fi' pos = status)
  /\ (to <= pos ->
      released (file_info_pos_status fi pos) (file_info_pos_status fi' pos)).
Proof.
  intros H Hk Hc Hb Hfrom. unfold file_info_pos_status.
  destruct (file_info_update_marked fi d from to status fi' b H Hk Hc Hb
              Hfrom pos) as (M1 & M2 & M3).
  split; [|split].
  - intros Hp. by apply M1.
  - intros Hp Hpb. by apply M2.
  - intros Hp. by apply M3.
Qed.

Lemma update_marks_range_witness :
  (320 < 50 ->
   file_info_pos_status update_sample_after 320
   = file_info_pos_status merge_sample 320)
  /\ (50 <= 320 < 350 -> 320 < 1000 ->
      file_info_pos_status update_sample_after 320 = DL_CHUNK_DONE)
  /\ (350 <= 320 ->
      released (file_info_pos_status merge_sample 320)
        (file_info_pos_status update_sample_after 320)).
Proof.
  apply (update_marks_range merge_sample 3%nat 50 350 DL_CHUNK_DONE
           update_sample_after 1000 320).
  - vm_compute. reflexivity.
  - reflexivity.
  - cbn. repeat split; lia.
  - lia.
  - lia.
Defined.

(** ** A range to request from a source that holds part of the file *)

Lemma range_intersect_spec fc ranges s e :
  Forall (fun r => 0 <= r.1 < 2 ^ 64 /\ 0 <= r.2 < 2 ^ 64) ranges ->
  range_intersect fc ranges = Some (s, e) ->
  fc_from fc <= s /\ s < e /\ e <= fc_to fc
  /\ exists r, In r ranges /\ r.1 <= s /\ e - 1 <= r.2.
Proof.
  induction ranges as [|[r_start r_end] sl IH]; intros Ht H;
    cbn [range_intersect] in H; [done|].
  apply Forall_cons in Ht as [[Hs He] Ht]. cbn [fst snd] in Hs, He.
  destruct (fc_to fc <? r_start); [done|].
  destruct (Z.ltb_spec (Z.max r_start (fc_from fc))
              (Z.min (u64 (r_end + 1)) (fc_to fc))) as [Hlt|Hge].
  - injection H as <- <-.
    assert (Hu : u64 (r_end + 1) = r_end + 1).
    { destruct (Z.eq_dec (r_end + 1) (2 ^ 64)) as [E|E].
      - rewrite E in Hlt. unfold u64 in Hlt. rewrite Z.mod_same in Hlt by lia.
        lia.
      - apply u64_small. lia. }
    rewrite Hu in *.
    split; [lia|]. split; [lia|]. split; [lia|].
    exists (r_start, r_end). cbn [fst snd]. split; [by left|]. lia.
  - destruct (IH Ht H) as (H1 & H2 & H3 & r & Hin & Hr).
    split; [done|]. split; [done|]. split; [done|].
    exists r. split; [by right|done].
Qed.

Lemma scan_available_spec dls ranges ck :
  forall busy pipelined s e,
    scan_available dls ranges ck busy pipelined = Some (inl (s, e)) ->
    exists fc, In fc ck /\ fc_status fc = DL_CHUNK_EMPTY
               /\ range_intersect fc ranges = Some (s, e).
Proof.
  induction ck as [|x sl IH]; intros busy pipelined s e H;
    cbn [scan_available] in H; [done|].
  assert (G : forall b p, scan_available dls ranges sl b p = Some (inl (s, e)) ->
            exists fc, In fc (x :: sl) /\ fc_status fc = DL_CHUNK_EMPTY
                       /\ range_intersect fc ranges = Some (s, e)).
  { intros b p E. destruct (IH _ _ _ _ E) as (fc & Hin & Hfc).
    exists fc. split; [by right|done]. }
  destruct (Z.eqb_spec (fc_status x) DL_CHUNK_EMPTY) as [He|Hne];
    cbn [negb] in H.
  - destruct (range_intersect x ranges) as [r|] eqn:Er; [|by eapply G].
    injection H as ->. exists x. split; [by left|done].
  - destruct (fc_status x =? DL_CHUNK_BUSY); [|by eapply G].
    destruct (fc_download x); [|done]. by eapply G.
Qed.

Lemma range_holds_spec s e ranges :
  Forall (fun r => 0 <= r.1 < 2 ^ 64 /\ 0 <= r.2 < 2 ^ 64) ranges ->
  0 < e <= 2 ^ 64 ->
  range_holds s e ranges = true ->
  exists r, In r ranges /\ r.1 <= s /\ e - 1 <= r.2.
Proof.
  induction ranges as [|[r_start r_end] sl IH]; intros Ht He H;
    cbn [range_holds] in H; [done|].
  apply Forall_cons in Ht as [_ Ht].
  destruct (e <? r_start); [done|].
  rewrite (u64_small (e - 1)) in H by lia.
  destruct (Z.leb_spec r_start s) as [H1|H1]; cbn [andb] in H.
  - destruct (Z.leb_spec (e - 1) r_end) as [H2|H2].
    + exists (r_start, r_end). split; [by left|done].
    + destruct (IH Ht He H) as (r & Hin & Hr). exists r.
      split; [by right|done].
  - destruct (IH Ht He H) as (r & Hin & Hr). exists r.
    split; [by right|done].
Qed.

Lemma fi_chunksize_nonneg {D : DoubleOps} P fi :
  0 <= dl_minchunksize P -> 0 <= dl_maxchunksize P ->
  0 <= dl_pipeline_maxchunksize P -> 0 <= fi_chunksize P fi.
Proof.
  intros H1 H2 H3. unfold fi_chunksize.
  apply Z.min_glb.
  - destruct (_ <? dl_minchunksize P) eqn:E; [done|].
    apply Z.div_pos; [|lia]. unfold u64. apply Z.mod_pos_bound. lia.
  - by destruct (enable_http_pipelining P).
Qed.

(** X18.  A range that [file_info_find_available_hole] grants to a download
    is not empty, lies within the file and is wholly held in one of the
    ranges that the source offers (whose upper bound is part of the range);
    afterwards every byte of it is BUSY and the chunk list still covers the
    file without gap. *)
Theorem find_available_hole_spec {D : DoubleOps} (P : gnet_property)
    (dls : download_id -> download) (fileinfo_debug missing : bool)
    (rnd : filesize_t) (fi : fileinfo) (d : download_id)
    (ranges : list (filesize_t * filesize_t)) (from to : filesize_t)
    (fi' : fileinfo) :
  fi_file_size_known fi = true ->
  chain 0 (fi_chunklist fi) (fi_size fi) -> fi_size fi < 2 ^ 64 ->
  Forall (fun r => 0 <= r.1 < 2 ^ 64 /\ 0 <= r.2 < 2 ^ 64) ranges ->
  0 <= dl_minchunksize P -> 0 <= dl_maxchunksize P ->
  0 <= dl_pipeline_maxchunksize P ->
  file_info_find_available_hole P dls fileinfo_debug missing rnd fi d ranges
  = Some (Some (from, to), fi') ->
  0 <= from < to /\ to <= fi_size fi
  /\ (exists r, In r ranges /\ r.1 <= from /\ to - 1 <= r.2)
  /\ (forall pos, from <= pos < to ->
        file_info_pos_status fi' pos = DL_CHUNK_BUSY)
  /\ chain 0 (fi_chunklist fi') (fi_size fi)
  /\ same_file fi fi'.
Proof.
  intros Hk Hc Hb Ht Hmin Hmax Hpmax H.
  unfold file_info_find_available_hole in H.
  destruct ranges as [|r0 rs] eqn:Er; [done|]. rewrite <- Er in *.
  assert (Hr : match ranges with [] => false | _ => true end = true)
    by (by rewrite Er).
  clear Er.
  destruct (negb (file_info_check_chunklist fileinfo_debug fi true)); [done|].
  destruct (negb (fi_done fi =? 0) && (fi_done fi =? fi_size fi)); [done|].
  destruct (find_hole_state dls missing fi) as [fi0|] eqn:E0; [|done].
  cbn [mbind option_bind] in H.
  assert (chain 0 (fi_chunklist fi0) (fi_size fi) /\ same_file fi fi0)
    as [C0 S0].
  { unfold find_hole_state in E0. destruct (negb _).
    - eapply fi_check_file_chain; eauto.
    - simplify_eq. split; [done|apply same_file_refl]. }
  destruct (negb (0 <? fi_lifecount fi0)); [done|].
  destruct (if pfsp_server P then list_clone_shift P rnd fi0 else _)
    as [[fi1 ck]|] eqn:E1; [|done].
  cbn [mbind option_bind fst snd] in H.
  assert (chain 0 (fi_chunklist fi1) (fi_size fi) /\ same_file fi0 fi1
          /\ forall x, In x ck -> In x (fi_chunklist fi1))
    as (C1 & S1 & I1).
  { destruct (pfsp_server P).
    - destruct (list_clone_shift_chain _ _ _ _ _ 0 (fi_size fi) E1 C0)
        as (? & ? & ?); [lia|lia|].
      destruct (list_clone_shift_incl _ _ _ _ _ E1). done.
    - simplify_eq. split; [done|]. split; [apply same_file_refl|done]. }
  assert (fi_file_size_known fi1 = true) as Hk1.
  { destruct S0 as (_ & K0 & _), S1 as (_ & K1 & _). congruence. }
  assert (Hres : forall f t chunk fi2,
            file_info_reserve fi1 d f t chunk = Some fi2 ->
            0 <= f -> t <= fi_size fi ->
            (forall pos, f <= pos < t ->
               file_info_pos_status fi2 pos = DL_CHUNK_BUSY)
            /\ chain 0 (fi_chunklist fi2) (fi_size fi) /\ same_file fi fi2).
  { intros f t chunk fi2 E Hf0 Hts. split.
    { intros pos Hp.
      apply (file_info_reserve_busy _ _ _ _ _ _ (fi_size fi) pos E Hk1 C1 Hb
               Hf0 Hp). lia. }
    apply file_info_reserve_update in E.
    destruct (file_info_update_inv _ _ _ _ _ _ (fi_size fi) E Hk1 C1 Hb)
      as (C2 & S2 & _).
    split; [done|].
    eapply same_file_trans; [exact S0|].
    eapply same_file_trans; [exact S1|done]. }
  destruct (scan_available dls ranges ck 0 0) as [[[s e]|[busy pipelined]]|]
    eqn:Esc; [| |done]; cbn [mbind option_bind] in H.
  - destruct (file_info_reserve fi1 d s _ None) as [fi2|] eqn:E2; [|done].
    cbn [mbind option_bind] in H. injection H as <- <- <-.
    apply scan_available_spec in Esc as (fc & Hin & He & Hri).
    apply (range_intersect_spec _ _ _ _ Ht) in Hri
      as (Hf & Hse & Hto & [ra rb] & Hrin & Hr1 & Hr2).
    cbn [fst snd] in Hr1, Hr2.
    pose proof (chain_In _ _ _ _ C1 (I1 _ Hin)) as Hfc.
    pose proof (fi_chunksize_nonneg P fi1 Hmin Hmax Hpmax) as Hcs.
    pose proof (file_info_reserve_bounds _ _ _ _ _ _ E2) as [Hft _].
    rewrite (u64_small (e - s)) in * by lia.
    destruct (Z.ltb_spec (fi_chunksize P fi1) (e - s)) as [Hlt|Hge].
    + rewrite (u64_small (s + fi_chunksize P fi1)) in * by lia.
      destruct (Hres _ _ _ _ E2) as (B2 & C2 & S2); [lia|lia|].
      split; [lia|]. split; [lia|].
      split; [exists (ra, rb); split; [done|cbn [fst snd]; lia]|]. done.
    + destruct (Hres _ _ _ _ E2) as (B2 & C2 & S2); [lia|lia|].
      split; [lia|]. split; [lia|].
      split; [exists (ra, rb); split; [done|cbn [fst snd]; lia]|]. done.
  - destruct (if use_aggressive_swarming P then _ else _)
      as [[[[start end_] chunk]|]|] eqn:Ec; [| |done];
      cbn [mbind option_bind] in H; [|done].
    destruct (range_holds start end_ ranges) eqn:Eh; [|done].
    destruct (file_info_reserve fi1 d start end_ (Some chunk)) as [fi2|] eqn:E2;
      [|done].
    cbn [mbind option_bind] in H. injection H as <- <- <-.
    apply file_info_reserve_bounds in E2 as HB.
    destruct HB as (Hft & Hf & Hto & Hd).
    destruct (use_aggressive_swarming P); [|done].
    apply fi_find_aggressive_candidate_spec in Ec as (Hin & _ & _ & _).
    pose proof (chain_In _ _ _ _ C1 Hin) as Hfc.
    destruct (Hres _ _ _ _ E2) as (B2 & C2 & S2); [lia|lia|].
    split; [lia|]. split; [lia|].
    split; [apply range_holds_spec; [done|lia|done]|]. done.
Qed.

Lemma find_available_hole_spec_witness :
  0 <= 100000 < 200000 /\ 200000 <= fi_size partition_sample
  /\ (exists r, In r [(100000, 199999)] /\ r.1 <= 100000 /\ 200000 - 1 <= r.2)
  /\ (forall pos, 100000 <= pos < 200000 ->
        file_info_pos_status available_sample_after pos = DL_CHUNK_BUSY)
  /\ chain 0 (fi_chunklist available_sample_after) (fi_size partition_sample)
  /\ same_file partition_sample available_sample_after.
Proof.
  apply (find_available_hole_spec (D := Q_double) aggressive_props sample_dls
           true false 0 partition_sample 1%nat [(100000, 199999)]
           100000 200000 available_sample_after).
  - reflexivity.
  - cbn. repeat split; lia.
  - cbn. lia.
  - repeat constructor; cbn; lia.
  - cbn. lia.
  - cbn. lia.
  - cbn. lia.
  - vm_compute. reflexivity.
Defined.

(** ** What the decoder supplies *)

(** X21.  A file information that [file_info_retrieve_binary] returns has a
    GUID, its size is known as soon as it is not zero, its time stamps are
    set when the clock is, and it only keeps tiger-tree leaves that come
    with a TTH equal to their root hash and, when the size is known, whose
    count is the one expected for the size. *)
Theorem retrieved_is_upgraded TTH_MAX_LEAVES env pathname file fi :
  file_info_retrieve_binary TTH_MAX_LEAVES env pathname file = inl fi ->
  fi_guid fi <> None
  /\ (fi_size fi <> 0 -> fi_file_size_known fi = true)
  /\ (env_tm_time env <> 0 -> fi_created fi <> 0 /\ fi_ntime fi <> 0)
  /\ (fi_tigertree fi <> [] ->
      exists root,
        fi_tth fi = Some root
        /\ env_tt_root_hash env (fi_tigertree fi) = root
        /\ (fi_file_size_known fi = true ->
            Z.of_nat (length (fi_tigertree fi))
            = env_tt_node_count_at_depth env (fi_size fi)
                (env_tt_depth env (Z.of_nat (length (fi_tigertree fi)))))).
Proof.
  intros H. apply retrieve_binary_inv in H
    as (tb & version & created & ntime & known & fuel & r & st & r'
        & _ & _ & _ & ->).
  unfold retrieved_fileinfo.
  match goal with
  | |- context [file_info_merge_adjacent ?x] =>
      destruct (merge_adjacent_fields x)
        as (_ & -> & -> & _ & -> & -> & -> & -> & -> & _)
  end.
  cbn [fi_guid fi_size fi_file_size_known fi_created fi_ntime fi_tth
       fi_tigertree].
  split; [by destruct (fs_guid st)|]. split.
  { intros Hsz. destruct (Z.eqb_spec (tr_filesize tb) 0); [done|].
    cbn [negb andb]. by destruct (if version <? 5 then _ else _). }
  split.
  { intros Htm.
    assert (Hc : (if (if version <? 4 then env_tm_time env else created) =? 0
                  then env_tm_time env
                  else if version <? 4 then env_tm_time env else created)
                 <> 0).
    { destruct (version <? 4).
      - by destruct (Z.eqb_spec (env_tm_time env) 0).
      - by destruct (Z.eqb_spec created 0). }
    split; [done|].
    destruct (Z.eqb_spec (if version <? 4 then env_tm_time env else ntime) 0);
      [done|done]. }
  unfold fi_tigertree_check.
  destruct (fs_tigertree st) as [|leaf leaves] eqn:El; [done|].
  destruct (fs_tth st) as [root|]; [|done].
  match goal with
  | |- context [if ?kn && negb (?n =? ?m) then _ else _] =>
      destruct kn eqn:Ek;
      [destruct (Z.eqb_spec n m) as [En|En]|]; cbn [negb andb]; try done
  end.
  - destruct (bool_decide_reflect (env_tt_root_hash env (leaf :: leaves) = root))
      as [Er|Er]; [|done].
    intros _. exists root. done.
  - destruct (bool_decide_reflect (env_tt_root_hash env (leaf :: leaves) = root))
      as [Er|Er]; [|done].
    intros _. exists root. done.
Qed.

Lemma retrieved_is_upgraded_witness :
  fi_guid codec_sample_back <> None
  /\ (fi_size codec_sample_back <> 0 ->
      fi_file_size_known codec_sample_back = true)
  /\ (env_tm_time sample_env <> 0 ->
      fi_created codec_sample_back <> 0 /\ fi_ntime codec_sample_back <> 0)
  /\ (fi_tigertree codec_sample_back <> [] ->
      exists root,
        fi_tth codec_sample_back = Some root
        /\ env_tt_root_hash sample_env (fi_tigertree codec_sample_back) = root
        /\ (fi_file_size_known codec_sample_back = true ->
            Z.of_nat (length (fi_tigertree codec_sample_back))
            = env_tt_node_count_at_depth sample_env
                (fi_size codec_sample_back)
                (env_tt_depth sample_env
                   (Z.of_nat (length (fi_tigertree codec_sample_back)))))).
Proof.
  apply (retrieved_is_upgraded 512 sample_env [47; 120] codec_sample_file).
  vm_compute. reflexivity.
Defined.

(** X22.  The decoder checks the chunk list with the flag read from the
    trailer and only then takes a size that is not zero for known.  So when
    a file information is stored whose size is not zero but recorded as
    unknown, with chunks that end after the size, reading it back succeeds
    and gives a file information of known size whose chunk list fails
    [file_info_check_chunklist] (the assertions of
    [file_info_merge_adjacent], which run when [fileinfo_debug] is set, are
    not part of the model). *)
Theorem unknown_size_escapes_check TTH_MAX_LEAVES env pathname fi content fi1
    file :
  1 <= TTH_MAX_LEAVES -> FI_MAX_FIELD_LEN TTH_MAX_LEAVES < 2 ^ 32 ->
  fi_storable TTH_MAX_LEAVES fi ->
  file_info_fd_store_binary TTH_MAX_LEAVES fi content = Some (fi1, file) ->
  Z.of_nat (length file) - fi_size fi < 2 ^ 32 ->
  Z.of_nat (length file) < 2 ^ 64 ->
  fi_file_size_known fi = false -> fi_size fi <> 0 ->
  fi_size fi < covered_end (fi_chunklist fi) ->
  exists fi2,
    file_info_retrieve_binary TTH_MAX_LEAVES env pathname file = inl fi2
    /\ fi_size fi2 = fi_size fi
    /\ fi_file_size_known fi2 = true
    /\ file_info_check_chunklist true fi2 false = false.
Proof.
  intros Hpos Hmaxf Hs Hstore Hlen Hmax Hk Hsz Hend.
  destruct (store_retrieve_gen TTH_MAX_LEAVES Hpos Hmaxf env pathname fi
              content fi1 file Hs Hstore Hlen Hmax)
    as (tb & created & ntime & st & Hr & _ & Htb & _ & _ & _ & _ & _ & _
        & Hck).
  eexists. split; [exact Hr|]. unfold retrieved_fileinfo.
  unfold file_info_check_chunklist. cbn [andb].
  rewrite file_info_merge_adjacent_chunks.
  match goal with
  | |- context [file_info_merge_adjacent ?x] =>
      destruct (merge_adjacent_fields x) as (_ & -> & -> & _)
  end.
  cbn [fi_size fi_file_size_known fi_chunklist].
  rewrite Htb, Hck, rev_involutive.
  split; [done|].
  destruct (Z.eqb_spec (fi_size fi) 0) as [|_]; [done|]. cbn [negb andb].
  assert (Hkn : (if negb (if FILE_INFO_VERSION <? 5 then true
                          else fs_file_size_known st)
                 then true
                 else if FILE_INFO_VERSION <? 5 then true
                      else fs_file_size_known st) = true)
    by (by destruct (if FILE_INFO_VERSION <? 5 then _ else _)).
  rewrite Hkn. split; [done|].
  pose proof (st_size _ _ Hs) as Hsize.
  pose proof (st_chunks _ _ Hs) as Hchk.
  apply check_chunks_chain in Hchk as (b & Hc & He & _).
  assert (Hne : fi_chunklist fi <> []).
  { intros E. rewrite E in Hend. cbn in Hend. lia. }
  rewrite (He Hne) in Hend.
  assert (Hc2 : chain 0 (merge_chunks (map retrieved_chunk (fi_chunklist fi))).1
                  b).
  { apply merge_chunks_chain, chain_map; [|done]. by intros fc. }
  destruct (check_chunks true (fi_size fi) 0
              (merge_chunks (map retrieved_chunk (fi_chunklist fi))).1)
    eqn:E; [|done].
  apply check_chunks_chain in E as (b' & Hc' & He' & Hb').
  assert (Hne2 : (merge_chunks (map retrieved_chunk (fi_chunklist fi))).1
                 <> []).
  { intros E. rewrite E in Hc2. cbn in Hc2. lia. }
  pose proof (chain_covered_end _ _ _ Hc2 Hne2) as E2.
  rewrite (He' Hne2) in E2. specialize (Hb' eq_refl Hsz Hne2). lia.
Qed.

Lemma unknown_size_escapes_check_witness :
  exists fi2,
    file_info_retrieve_binary 512 sample_env [47; 120] unknown_size_file
    = inl fi2
    /\ fi_size fi2 = fi_size unknown_size_sample
    /\ fi_file_size_known fi2 = true
    /\ file_info_check_chunklist true fi2 false = false.
Proof.
  apply (unknown_size_escapes_check 512 sample_env [47; 120]
           unknown_size_sample [] (fi_set_generation unknown_size_sample 8)
           unknown_size_file).
  - lia.
  - vm_compute. reflexivity.
  - constructor;
      [ vm_compute; split; [discriminate|reflexivity]
      | vm_compute; split; [discriminate|reflexivity]
      | vm_compute; split; [discriminate|reflexivity]
      | reflexivity
      | reflexivity
      | repeat constructor; discriminate
      | intros g [= <-]; reflexivity
      | intros t [=]
      | intros s [=]
      | intros s [=]
      | constructor
      | vm_compute; discriminate
      | repeat constructor; discriminate ].
  - vm_compute. reflexivity.
  - vm_compute. reflexivity.
  - vm_compute. reflexivity.
  - reflexivity.
  - discriminate.
  - vm_compute. reflexivity.
Defined.

(** ** The range that the allocator selects *)

(** X23.  When [file_info_find_hole] selects a range for a download, it
    answers EMPTY, the range is not empty and lies within the file, and
    every byte of it is BUSY afterwards. *)
Theorem find_hole_grants_busy {D : DoubleOps} (P : gnet_property)
    (dls : download_id -> download) (missing : bool) (rnd : filesize_t)
    (fi : fileinfo) (d : download_id) (st : Z) (from to : filesize_t)
    (fi' : fileinfo) :
  fi_file_size_known fi = true ->
  chain 0 (fi_chunklist fi) (fi_size fi) -> fi_size fi < 2 ^ 64 ->
  0 <= dl_minchunksize P -> 0 <= dl_maxchunksize P ->
  0 <= dl_pipeline_maxchunksize P ->
  file_info_find_hole P dls missing rnd fi d = Some (st, Some (from, to), fi') ->
  st = DL_CHUNK_EMPTY /\ 0 <= from < to /\ to <= fi_size fi
  /\ forall pos, from <= pos < to ->
       file_info_pos_status fi' pos = DL_CHUNK_BUSY.
Proof.
  intros Hk Hc Hb Hmin Hmax Hpmax H. unfold file_info_find_hole in H.
  destruct (negb _ || negb _); [done|].
  destruct (fi_busy_count dls fi d) as [reserved|]; [|done].
  cbn [mbind option_bind] in H.
  destruct (negb (reserved <=? _)); [done|].
  destruct (negb (fi_done fi =? 0) && (fi_done fi =? fi_size fi)); [done|].
  destruct (find_hole_state dls missing fi) as [fi0|] eqn:E0; [|done].
  cbn [mbind option_bind] in H.
  assert (chain 0 (fi_chunklist fi0) (fi_size fi) /\ same_file fi fi0)
    as [C0 S0].
  { unfold find_hole_state in E0. destruct (negb _).
    - eapply fi_check_file_chain; eauto.
    - simplify_eq. split; [done|apply same_file_refl]. }
  destruct (if pfsp_server P then list_clone_shift P rnd fi0 else _)
    as [[fi1 ck]|] eqn:E1; [|done].
  cbn [mbind option_bind fst snd] in H.
  assert (chain 0 (fi_chunklist fi1) (fi_size fi) /\ same_file fi0 fi1
          /\ forall x, In x ck -> In x (fi_chunklist fi1))
    as (C1 & S1 & I1).
  { destruct (pfsp_server P).
    - destruct (list_clone_shift_chain _ _ _ _ _ 0 (fi_size fi) E1 C0)
        as (? & ? & ?); [lia|lia|].
      destruct (list_clone_shift_incl _ _ _ _ _ E1). done.
    - simplify_eq. split; [done|]. split; [apply same_file_refl|done]. }
  assert (fi_file_size_known fi1 = true) as Hk1.
  { destruct S0 as (_ & K0 & _), S1 as (_ & K1 & _). congruence. }
  assert (Hres : forall f t chunk fi2,
            file_info_reserve fi1 d f t chunk = Some fi2 ->
            0 <= f -> t <= fi_size fi ->
            forall pos, f <= pos < t ->
              file_info_pos_status fi2 pos = DL_CHUNK_BUSY).
  { intros f t chunk fi2 E Hf0 Hts pos Hp.
    apply (file_info_reserve_busy _ _ _ _ _ _ (fi_size fi) pos E Hk1 C1 Hb
             Hf0 Hp). lia. }
  destruct (scan_holes dls d ck 0) as [[fc|pipelined]|] eqn:Esc; [| |done];
    cbn [mbind option_bind] in H.
  - apply scan_holes_spec in Esc as [Hin _].
    pose proof (chain_In _ _ _ _ C1 (I1 _ Hin)) as Hfc.
    match type of H with
    | context [if ?cs <? chunk_len fc then _ else _] =>
        set (cs0 := cs) in H; assert (Hcs : 0 <= cs0)
    end.
    { unfold cs0.
      pose proof (fi_chunksize_nonneg P fi0 Hmin Hmax Hpmax) as Hn.
      destruct (_ && _); [|done].
      destruct (_ <=? fi_done fi0); [done|]. lia. }
    match type of H with
    | context [file_info_reserve fi1 d (fc_from fc) ?t None] =>
        set (t0 := t) in H; assert (Ht0 : t0 <= fc_to fc)
    end.
    { unfold t0. destruct (Z.ltb_spec cs0 (chunk_len fc)) as [Hlt|Hge]; [|lia].
      unfold chunk_len in Hlt. rewrite u64_small in Hlt by lia.
      rewrite u64_small by lia. lia. }
    destruct (file_info_reserve fi1 d (fc_from fc) t0 None) as [fi2|] eqn:E2;
      [|done].
    cbn [mbind option_bind] in H. injection H as <- <- <- <-.
    pose proof (file_info_reserve_bounds _ _ _ _ _ _ E2) as [Hft _].
    split; [done|]. split; [lia|]. split; [lia|].
    apply (Hres _ _ _ _ E2); lia.
  - destruct (negb _); [done|].
    destruct (if use_aggressive_swarming P then _ else _)
      as [[[[start end_] chunk]|]|] eqn:Ec; [| |done];
      cbn [mbind option_bind] in H; [|done].
    destruct (file_info_reserve fi1 d start end_ (Some chunk)) as [fi2|] eqn:E2;
      [|done].
    cbn [mbind option_bind] in H. injection H as <- <- <- <-.
    pose proof (file_info_reserve_bounds _ _ _ _ _ _ E2) as (Hft & Hf & Hto & _).
    destruct (use_aggressive_swarming P); [|done].
    apply fi_find_aggressive_candidate_spec in Ec as (Hin & _ & _ & _).
    pose proof (chain_In _ _ _ _ C1 Hin) as Hfc.
    split; [done|]. split; [lia|]. split; [lia|].
    apply (Hres _ _ _ _ E2); lia.
Qed.

Lemma find_hole_grants_busy_witness :
  DL_CHUNK_EMPTY = DL_CHUNK_EMPTY /\ 0 <= 2499 < 5000
  /\ 5000 <= fi_size pipeline_sample
  /\ forall pos, 2499 <= pos < 5000 ->
       file_info_pos_status pipeline_after pos = DL_CHUNK_BUSY.
Proof.
  apply (find_hole_grants_busy (D := Q_double) pipeline_props pipeline_dls
           false 0 pipeline_sample 3%nat DL_CHUNK_EMPTY 2499 5000
           pipeline_after).
  - reflexivity.
  - cbn. repeat split; lia.
  - cbn. lia.
  - cbn. lia.
  - cbn. lia.
  - cbn. lia.
  - vm_compute. reflexivity.
Defined.

(** ** The consistency check, characterised *)

(** X24.  [file_info_check_chunklist(fi, FALSE)] answers TRUE exactly when
    the chunks follow one another from offset 0, each with [from < to], and,
    if the size is known and not zero, none ends after the size.  Used in an
    assertion, it answers TRUE whenever [fileinfo_debug] is not set. *)
Theorem check_chunklist_characterised fileinfo_debug fi :
  (file_info_check_chunklist fileinfo_debug fi false = true <->
   exists b,
     chain 0 (fi_chunklist fi) b
     /\ (fi_file_size_known fi = true -> fi_size fi <> 0 ->
         fi_chunklist fi <> [] -> b <= fi_size fi))
  /\ (fileinfo_debug = false ->
      file_info_check_chunklist fileinfo_debug fi true = true).
Proof.
  unfold file_info_check_chunklist. cbn [andb]. split.
  - split.
    + intros H. apply check_chunks_chain in H as (b & Hc & _ & Hs).
      exists b. split; [done|done].
    + intros (b & Hc & Hs). by apply (chain_check_chunks _ _ _ _ b).
  - intros ->. done.
Qed.

(** ** The trailer read back *)









(** *** One byte of a stored trailer changed *)






(** *** The words of the fixed part *)












(** ** The SHA1 of a running download *)
















Lemma downloads_of_set_heap t h fi :
  downloads_of (set_heap t h) fi = downloads_of t fi.
Proof. done. Qed.





